(** * subnet-cli: coin selection, keys and validator pre-checks

    A shallow embedding of the wallet core of subnet-cli
    (internal/key: key.go, soft_key.go, the hardware key; client: the
    P-chain client with [stake], [authorize], [GetValidator],
    [AddValidator] and [AddSubnetValidator]) and the properties its
    specification states about it.

    Conventions.  Go's [uint64]/[uint32] values are integers in [Z] and
    every arithmetic operation of the source is followed by its
    wrap-around ([wrap64], [wrap32]).  Byte strings are [list byte].
    A Go [error] is a value of the inductive type [error]; a function
    returning [(T, error)] returns [result T].  Code that lives outside
    the repository (the codec, the hash, the ledger device, the remote
    node, CB58) is a field of an environment record. *)

From Stdlib Require Import Strings.String Strings.Ascii Strings.Byte.
From Stdlib Require Import ZArith List Lia Bool Permutation Sorted.
Import ListNotations.
Local Open Scope Z_scope.

(* ================================================================= *)
(** * Part I: the embedding *)
(* ================================================================= *)

(** ** Go base types *)

Module Go.

Definition wrap64 (z : Z) : Z := z mod 2 ^ 64.
Definition wrap32 (z : Z) : Z := z mod 2 ^ 32.

Definition is_uint64 (z : Z) : Prop := 0 <= z < 2 ^ 64.
Definition is_uint32 (z : Z) : Prop := 0 <= z < 2 ^ 32.

(** [len(s)] of a slice, as an integer. *)
Definition len {A : Type} (l : list A) : Z := Z.of_nat (length l).

(** [math.Min64]. *)
Definition Min64 (a b : Z) : Z := if a <? b then a else b.

(** Go errors.  The sentinels are the package-level [errors.New] values of
    the source; [Errorf] is [fmt.Errorf] with a [%w] verb wrapping
    [wrapped]; [ExternalError] stands for an error value produced by code
    outside the repository (network, codec, device). *)
Inductive error : Type :=
| ErrInvalidType
| ErrCantSpend
| ErrUnexpectedOutputType
| ErrInvalidPrivateKey
| ErrInvalidPrivateKeyLen
| ErrInvalidPrivateKeyEnding
| ErrInvalidPrivateKeyEncoding
| HexInvalidByteError (b : byte)
| HexErrLength
| ErrEmptyID
| ErrInsufficientBalanceForGasFee
| ErrInsufficientBalanceForStakeAmount
| ErrUnexpectedSubnetID
| ErrEmptyValidator
| ErrAlreadyValidator
| ErrAlreadySubnetValidator
| ErrNotValidatingPrimaryNetwork
| ErrInvalidSubnetValidatePeriod
| ErrInvalidValidatorData
| ErrValidatorNotFound
| ErrWrongTxType
| ErrUnknownOwners
| ErrCantSign
| ParseIntError
| ExternalError (code : Z)
| Errorf (annotation : String.string) (wrapped : error).

Fixpoint error_eqb (a b : error) : bool :=
  match a, b with
  | ErrInvalidType, ErrInvalidType
  | ErrCantSpend, ErrCantSpend
  | ErrUnexpectedOutputType, ErrUnexpectedOutputType
  | ErrInvalidPrivateKey, ErrInvalidPrivateKey
  | ErrInvalidPrivateKeyLen, ErrInvalidPrivateKeyLen
  | ErrInvalidPrivateKeyEnding, ErrInvalidPrivateKeyEnding
  | ErrInvalidPrivateKeyEncoding, ErrInvalidPrivateKeyEncoding
  | HexErrLength, HexErrLength
  | ErrEmptyID, ErrEmptyID
  | ErrInsufficientBalanceForGasFee, ErrInsufficientBalanceForGasFee
  | ErrInsufficientBalanceForStakeAmount, ErrInsufficientBalanceForStakeAmount
  | ErrUnexpectedSubnetID, ErrUnexpectedSubnetID
  | ErrEmptyValidator, ErrEmptyValidator
  | ErrAlreadyValidator, ErrAlreadyValidator
  | ErrAlreadySubnetValidator, ErrAlreadySubnetValidator
  | ErrNotValidatingPrimaryNetwork, ErrNotValidatingPrimaryNetwork
  | ErrInvalidSubnetValidatePeriod, ErrInvalidSubnetValidatePeriod
  | ErrInvalidValidatorData, ErrInvalidValidatorData
  | ErrValidatorNotFound, ErrValidatorNotFound
  | ErrWrongTxType, ErrWrongTxType
  | ErrUnknownOwners, ErrUnknownOwners
  | ErrCantSign, ErrCantSign
  | ParseIntError, ParseIntError => true
  | HexInvalidByteError x, HexInvalidByteError y => Byte.eqb x y
  | ExternalError x, ExternalError y => x =? y
  | Errorf s e, Errorf t f => String.eqb s t && error_eqb e f
  | _, _ => false
  end.

(** [errors.Is(err, target)] for a sentinel [target]: [err] is [target] or
    wraps it through a chain of [%w]. *)
Fixpoint errors_Is (err target : error) : bool :=
  error_eqb err target ||
  match err with
  | Errorf _ inner => errors_Is inner target
  | _ => false
  end.

(** A Go result [(T, error)]: either the value with a nil error, or the
    error (the value is then the zero value and is not looked at by any
    caller in this code). *)
Inductive result (T : Type) : Type :=
| Ok (v : T)
| Err (e : error).
Arguments Ok {T} v.
Arguments Err {T} e.

Definition bind {T U : Type} (r : result T) (k : T -> result U) : result U :=
  match r with
  | Ok v => k v
  | Err e => Err e
  end.

End Go.
Import Go.

Notation "x <- r ;; k" := (bind r (fun x => k))
  (at level 61, r at next level, right associativity).

(** ** Identifiers and the transaction components (dijetsnodego) *)

(** [ids.ID] is a [32]byte array and [ids.ShortID] a [20]byte array. *)
Definition ID := list byte.
Definition ShortID := list byte.

Fixpoint bytes_eqb (a b : list byte) : bool :=
  match a, b with
  | [], [] => true
  | x :: a', y :: b' => Byte.eqb x y && bytes_eqb a' b'
  | _, _ => false
  end.

(** [bytes.Compare]: lexicographic, a proper prefix is smaller. *)
Fixpoint bytes_Compare (a b : list byte) : comparison :=
  match a, b with
  | [], [] => Eq
  | [], _ :: _ => Lt
  | _ :: _, [] => Gt
  | x :: a', y :: b' =>
      match N.compare (Byte.to_N x) (Byte.to_N y) with
      | Eq => bytes_Compare a' b'
      | c => c
      end
  end.

(** [secp256k1fx.OutputOwners]. *)
Record OutputOwners : Type := mkOwners {
  Locktime : Z;            (* uint64 *)
  Threshold : Z;           (* uint32 *)
  Addrs : list ShortID
}.

(** The output kinds that can sit in [UTXO.Out] ([verify.Verifiable]);
    [OtherOutput] is any other type. *)
Inductive Output : Type :=
| MintOutput (owners : OutputOwners)
| TransferOutput (Amt : Z) (owners : OutputOwners)
| StakeableLockOut (lockTime : Z) (TransferableOut : Output)
| OtherOutput (tag : Z).

(** [djtx.TransferableIn]: the inputs that carry an amount. *)
Inductive TransferableIn : Type :=
| TransferInput (Amt : Z) (SigIndices : list Z)
| StakeableLockIn (lockTime : Z) (inner : TransferableIn).

(** What [lspend] hands back ([verify.Verifiable]): a bare
    [secp256k1fx.Input], which has no amount, or a transferable input. *)
Inductive Verifiable : Type :=
| SecpInput (SigIndices : list Z)
| VTransferableIn (i : TransferableIn).

Fixpoint Amount (i : TransferableIn) : Z :=
  match i with
  | TransferInput amt _ => amt
  | StakeableLockIn _ inner => Amount inner
  end.

Record UTXOID : Type := mkUTXOID {
  TxID : ID;
  OutputIndex : Z          (* uint32 *)
}.

Record UTXO : Type := mkUTXO {
  utxo_UTXOID : UTXOID;
  utxo_Asset : ID;
  Out : Output
}.

Record TransferableInput : Type := mkTransferableInput {
  in_UTXOID : UTXOID;
  in_Asset : ID;
  in_In : TransferableIn   (* the field [In] *)
}.

Record TransferableOutput : Type := mkTransferableOutput {
  out_Asset : ID;
  out_Out : Output
}.

(** [TransferableInput.InputSource]. *)
Definition InputSource (i : TransferableInput) : ID * Z :=
  (TxID (in_UTXOID i), OutputIndex (in_UTXOID i)).

(** [Amount()] of an output: the amount of a transfer output, through a
    stake lock. *)
Fixpoint OutAmount (o : Output) : Z :=
  match o with
  | TransferOutput amt _ => amt
  | StakeableLockOut _ inner => OutAmount inner
  | _ => 0
  end.


(** ** Transactions (platformvm of the node library) *)

Record BaseTx : Type := mkBaseTx {
  NetworkID : Z;
  BlockchainID : ID;
  Ins : list TransferableInput;
  Outs : list TransferableOutput
}.

Record Validator : Type := mkValidator {
  NodeID : ShortID;
  Start : Z;               (* uint64 *)
  End_ : Z;                (* uint64, the field [End] *)
  Wght : Z                 (* uint64 *)
}.

(** The [Owner] of a subnet is an interface value: an [OutputOwners] or
    something else. *)
Inductive Owner : Type :=
| OwnerOutputOwners (o : OutputOwners)
| OwnerOther.

Inductive UnsignedTx : Type :=
| UnsignedCreateSubnetTx (base : BaseTx) (owner : Owner)
| UnsignedAddValidatorTx (base : BaseTx) (validator : Validator)
    (Stake : list TransferableOutput) (RewardsOwner : OutputOwners)
    (Shares : Z)
| UnsignedAddSubnetValidatorTx (base : BaseTx) (validator : Validator)
    (Subnet : ID) (SubnetAuth : Verifiable)
| UnsignedCreateChainTx (base : BaseTx) (SubnetID : ID)
    (ChainName : String.string) (VMID : ID) (GenesisData : list byte)
    (SubnetAuth : Verifiable).

(** [secp256k1fx.Credential]: signatures of 65 bytes. *)
Record Credential : Type := mkCredential {
  Sigs : list (list byte)
}.

(** [platformvm.Tx] with the metadata [Initialize] fills in. *)
Record Tx : Type := mkTx {
  tx_UnsignedTx : UnsignedTx;
  Creds : list Credential;
  tx_id : ID;
  tx_unsignedBytes : list byte;
  tx_bytes : list byte
}.

(** The codec manager [codec.PCodecManager] and the hash of the node
    library. *)
Record Codec : Type := mkCodec {
  Marshal_UnsignedTx : UnsignedTx -> result (list byte);
  (** [Marshal(version, pTx)]: the encoding of the unsigned part and of the
      credentials. *)
  Marshal_Tx : UnsignedTx -> list Credential -> result (list byte);
  Marshal_Output : Output -> result (list byte);
  Unmarshal_UTXO : list byte -> result UTXO;
  Unmarshal_Tx : list byte -> result Tx;
  ComputeHash256 : list byte -> list byte
}.

(** [Tx.Initialize(unsignedBytes, signedBytes)]: records both encodings and
    sets the ID to the hash of the signed bytes. *)
Definition Initialize (cd : Codec) (tx : Tx) (unsignedBytes signedBytes : list byte)
  : Tx :=
  mkTx (tx_UnsignedTx tx) (Creds tx) (ComputeHash256 cd signedBytes)
    unsignedBytes signedBytes.

(** ** Go's [sort.Sort] over a [sort.Interface]

    [sort.Sort] belongs to the Go standard library; the repository's build
    workflow pins Go 1.17, and the functions below are those of that
    release's sort.go: [Sort] runs [quickSort] with a
    depth limit of [maxDepth(n)]; above 12 elements [quickSort] partitions
    around the pivot of [doPivot] (a median of three, of nine above 40
    elements) and falls back to [heapSort] when the depth limit is used up;
    at most 12 elements get one pass of gap 6 and an [insertionSort].  The
    data is reordered only through the three methods of the interface.

    Loops are recursive functions on the number of iterations left; where
    that number is not one subtraction away, a [fuel] bounds it.  [None] is
    a run-time panic (an index out of range in [Less] or [Swap]). *)

Module sort.

Local Open Scope nat_scope.

Record Interface (S : Type) : Type := mkInterface {
  Len : S -> nat;
  Less : S -> nat -> nat -> option bool;
  Swap : S -> nat -> nat -> option S
}.
Arguments Len {S} _ _.
Arguments Less {S} _ _ _ _.
Arguments Swap {S} _ _ _ _.

(** A step that may panic, then the rest. *)
Definition andThen {A B : Type} (o : option A) (k : A -> option B)
  : option B :=
  match o with
  | Some a => k a
  | None => None
  end.

Notation "x <-- m ;; k" := (andThen m (fun x => k))
  (at level 61, m at next level, right associativity).
Notation "' p <-- m ;; k" := (andThen m (fun x => match x with p => k end))
  (at level 61, p pattern, m at next level, right associativity).

Section Library.

Context {T : Type}.
Variable I : Interface T.

(** [!data.Less(i, j)]. *)
Definition notLess (data : T) (i j : nat) : option bool :=
  lt <-- Less I data i j ;; Some (negb lt).

(** The inner loop of [insertionSort]:
    [for j := i; j > a && data.Less(j, j-1); j-- { data.Swap(j, j-1) }],
    with [j = a + n]. *)
Fixpoint insert_down (data : T) (a n : nat) : option T :=
  match n with
  | O => Some data
  | S n' =>
      lt <-- Less I data (a + n) (a + n') ;;
      if lt then
        data <-- Swap I data (a + n) (a + n') ;;
        insert_down data a n'
      else Some data
  end.

(** The outer loop [for i := a + 1; i < b; i++], with [k] the number of
    iterations left ([b - i]). *)
Fixpoint insertionSort_from (data : T) (a i k : nat) : option T :=
  match k with
  | O => Some data
  | S k' =>
      data <-- insert_down data a (i - a) ;;
      insertionSort_from data a (S i) k'
  end.

(** [insertionSort(data, a, b)] sorts [data[a:b]]. *)
Definition insertionSort (data : T) (a b : nat) : option T :=
  insertionSort_from data a (a + 1) (b - (a + 1)).

(** The loop of [siftDown]; every iteration that goes on moves [root] to
    one of its children, so [hi + 1] iterations are enough and [fuel]
    never runs out. *)
Fixpoint siftDown_loop (fuel : nat) (data : T) (root hi first : nat)
  : option T :=
  match fuel with
  | O => None
  | S fuel' =>
      let child := 2 * root + 1 in
      if hi <=? child then Some data
      else
        right <-- (if child + 1 <? hi
                   then Less I data (first + child) (first + child + 1)
                   else Some false) ;;
        let child := if right then child + 1 else child in
        down <-- Less I data (first + root) (first + child) ;;
        if down then
          data <-- Swap I data (first + root) (first + child) ;;
          siftDown_loop fuel' data child hi first
        else Some data
  end.

(** [siftDown(data, lo, hi, first)] implements the heap property on
    [data[lo:hi]]; [first] is an offset into the array where the root of
    the heap lies. *)
Definition siftDown (data : T) (lo hi first : nat) : option T :=
  siftDown_loop (S hi) data lo hi first.

(** [for i := (hi - 1) / 2; i >= 0; i-- { siftDown(data, i, hi, first) }],
    from [i] down to [0]. *)
Fixpoint heapSort_build (data : T) (i hi first : nat) : option T :=
  data <-- siftDown data i hi first ;;
  match i with
  | O => Some data
  | S i' => heapSort_build data i' hi first
  end.

(** [for i := hi - 1; i >= 0; i--
     { data.Swap(first, first+i); siftDown(data, lo, i, first) }],
    from [i] down to [0]. *)
Fixpoint heapSort_pop (data : T) (i lo first : nat) : option T :=
  data <-- Swap I data first (first + i) ;;
  data <-- siftDown data lo i first ;;
  match i with
  | O => Some data
  | S i' => heapSort_pop data i' lo first
  end.

Definition heapSort (data : T) (a b : nat) : option T :=
  let first := a in
  let lo := 0 in
  let hi := b - a in
  data <-- heapSort_build data ((hi - 1) / 2) hi first ;;
  if hi =? 0 then Some data
  else heapSort_pop data (hi - 1) lo first.

(** [medianOfThree(data, m1, m0, m2)] moves the median of the three values
    [data[m0]], [data[m1]], [data[m2]] into [data[m1]]. *)
Definition medianOfThree (data : T) (m1 m0 m2 : nat) : option T :=
  lt <-- Less I data m1 m0 ;;
  data <-- (if lt then Swap I data m1 m0 else Some data) ;;
  lt <-- Less I data m2 m1 ;;
  if lt then
    data <-- Swap I data m2 m1 ;;
    lt <-- Less I data m1 m0 ;;
    if lt then Swap I data m1 m0 else Some data
  else Some data.

(** [for ; i < hi && cond(i); i++ {}], with [k = hi - i]; the result is the
    final [i]. *)
Fixpoint scan_up (cond : nat -> option bool) (i k : nat) : option nat :=
  match k with
  | O => Some i
  | S k' =>
      c <-- cond i ;;
      if c then scan_up cond (S i) k' else Some i
  end.

(** [for ; lo < i && cond(i-1); i-- {}], with [k = i - lo]. *)
Fixpoint scan_down (cond : nat -> option bool) (i k : nat) : option nat :=
  match k with
  | O => Some i
  | S k' =>
      c <-- cond (i - 1) ;;
      if c then scan_down cond (i - 1) k' else Some i
  end.

(** The pivot of [doPivot]: Tukey's ninther above 40 elements, then the
    median of three, left in [data[lo]]. *)
Definition choosePivot (data : T) (lo hi m : nat) : option T :=
  data <-- (if 40 <? hi - lo then
              let s := (hi - lo) / 8 in
              data <-- medianOfThree data lo (lo + s) (lo + 2 * s) ;;
              data <-- medianOfThree data m (m - s) (m + s) ;;
              medianOfThree data (hi - 1) (hi - 1 - s) (hi - 1 - 2 * s)
            else Some data) ;;
  medianOfThree data lo m (hi - 1).

(** The partition loop of [doPivot]:
    [for { for ; b < c && !data.Less(pivot, b); b++ {}
           for ; b < c && data.Less(pivot, c-1); c-- {}
           if b >= c { break }
           data.Swap(b, c-1); b++; c-- }]. *)
Fixpoint partition_loop (fuel : nat) (data : T) (pivot b c : nat)
  : option (T * nat * nat) :=
  match fuel with
  | O => None
  | S fuel' =>
      b <-- scan_up (fun i => notLess data pivot i) b (c - b) ;;
      c <-- scan_down (fun i => Less I data pivot i) c (c - b) ;;
      if c <=? b then Some (data, b, c)
      else
        data <-- Swap I data b (c - 1) ;;
        partition_loop fuel' data pivot (S b) (c - 1)
  end.

(** "Lets test some points for equality to pivot": the body of
    [if !protect && hi-c < (hi-lo)/4]; the result carries [dups > 1]. *)
Definition testDups (data : T) (pivot m hi b c : nat)
  : option (T * nat * nat * bool) :=
  lt <-- Less I data pivot (hi - 1) ;;
  '(data, c, dups) <-- (if lt then Some (data, c, 0)
                        else data <-- Swap I data c (hi - 1) ;;
                             Some (data, c + 1, 1)) ;;
  lt <-- Less I data (b - 1) pivot ;;
  let '(b, dups) := if lt then (b, dups) else (b - 1, dups + 1) in
  lt <-- Less I data m pivot ;;
  '(data, b, dups) <-- (if lt then Some (data, b, dups)
                        else data <-- Swap I data m (b - 1) ;;
                             Some (data, b - 1, dups + 1)) ;;
  Some (data, b, c, 1 <? dups).

(** "Protect against a lot of duplicates":
    [for { for ; a < b && !data.Less(b-1, pivot); b-- {}
           for ; a < b && data.Less(a, pivot); a++ {}
           if a >= b { break }
           data.Swap(a, b-1); a++; b-- }]. *)
Fixpoint protect_loop (fuel : nat) (data : T) (pivot a b : nat)
  : option (T * nat * nat) :=
  match fuel with
  | O => None
  | S fuel' =>
      b <-- scan_down (fun i => notLess data i pivot) b (b - a) ;;
      a <-- scan_up (fun i => Less I data i pivot) a (b - a) ;;
      if b <=? a then Some (data, a, b)
      else
        data <-- Swap I data a (b - 1) ;;
        protect_loop fuel' data pivot (S a) (b - 1)
  end.

(** [doPivot(data, lo, hi)] returns [(midlo, midhi)] with
    [data[lo:midlo] <= pivot], [data[midlo:midhi] == pivot] and
    [data[midhi:hi] >= pivot]. *)
Definition doPivot (data : T) (lo hi : nat) : option (T * nat * nat) :=
  let m := (lo + hi) / 2 in
  data <-- choosePivot data lo hi m ;;
  let pivot := lo in
  a <-- scan_up (fun i => Less I data i pivot) (lo + 1) (hi - 1 - (lo + 1)) ;;
  '(data, b, c) <-- partition_loop (S (hi - 1 - a)) data pivot a (hi - 1) ;;
  let protect := hi - c <? 5 in
  '(data, b, c, protect) <--
    (if negb protect && (hi - c <? (hi - lo) / 4)
     then testDups data pivot m hi b c
     else Some (data, b, c, protect)) ;;
  '(data, a, b) <-- (if protect
                     then protect_loop (S (b - a)) data pivot a b
                     else Some (data, a, b)) ;;
  data <-- Swap I data pivot (b - 1) ;;
  Some (data, b - 1, c).

(** The gap-6 pass of [quickSort] on at most 12 elements:
    [for i := a + 6; i < b; i++
     { if data.Less(i, i-6) { data.Swap(i, i-6) } }], with [k = b - i]. *)
Fixpoint shellPass (data : T) (i k : nat) : option T :=
  match k with
  | O => Some data
  | S k' =>
      lt <-- Less I data i (i - 6) ;;
      data <-- (if lt then Swap I data i (i - 6) else Some data) ;;
      shellPass data (S i) k'
  end.

(** [quickSort(data, a, b, maxDepth)].  The loop [for b-a > 12] goes on
    with the larger part after the recursive call on the smaller one, with
    [maxDepth] one less: here a second call. *)
Fixpoint quickSort (data : T) (a b maxDepth : nat) {struct maxDepth}
  : option T :=
  if 12 <? b - a then
    match maxDepth with
    | O => heapSort data a b
    | S maxDepth =>
        '(data, mlo, mhi) <-- doPivot data a b ;;
        if mlo - a <? b - mhi then
          data <-- quickSort data a mlo maxDepth ;;
          quickSort data mhi b maxDepth
        else
          data <-- quickSort data mhi b maxDepth ;;
          quickSort data a mlo maxDepth
    end
  else if 1 <? b - a then
    data <-- shellPass data (a + 6) (b - (a + 6)) ;;
    insertionSort data a b
  else Some data.

(** [for i := n; i > 0; i >>= 1 { depth++ }]. *)
Fixpoint bitLength (fuel n : nat) : nat :=
  match fuel with
  | O => 0
  | S fuel' => if n =? 0 then 0 else S (bitLength fuel' (n / 2))
  end.

(** [maxDepth(n)] is [2*ceil(lg(n+1))]. *)
Definition maxDepth (n : nat) : nat := bitLength n n * 2.

Definition Sort (data : T) : option T :=
  let n := Len I data in
  quickSort data 0 n (maxDepth n).

End Library.

(** [a[i], a[j] = a[j], a[i]] on one slice; [None] when an index is out of
    range. *)
Fixpoint set_nth {A : Type} (l : list A) (n : nat) (x : A) : list A :=
  match l, n with
  | [], _ => []
  | _ :: l', O => x :: l'
  | y :: l', Datatypes.S n' => y :: set_nth l' n' x
  end.

Definition swap_slice {A : Type} (l : list A) (i j : nat) : option (list A) :=
  match nth_error l i, nth_error l j with
  | Some x, Some y => Some (set_nth (set_nth l j x) i y)
  | _, _ => None
  end.

(** A slice with a [less] on its elements, as a [sort.Interface]. *)
Definition slice_Less {E : Type} (less : E -> E -> bool) (l : list E)
  (i j : nat) : option bool :=
  match nth_error l i, nth_error l j with
  | Some a, Some b => Some (less a b)
  | _, _ => None
  end.

Definition sliceInterface {E : Type} (less : E -> E -> bool)
  : Interface (list E) :=
  mkInterface _ (@length E) (slice_Less less) (@swap_slice E).

End sort.

(** ** Package key (internal/key) *)

Module key.

(** *** key.go *)

Record Op : Type := mkOp {
  time : Z;                (* uint64 *)
  targetAmount : Z;        (* uint64 *)
  feeDeduct : Z            (* uint64 *)
}.

Definition OpOption := Op -> Op.

Definition applyOpts (op : Op) (opts : list OpOption) : Op :=
  fold_left (fun o opt => opt o) opts op.

Definition WithTime (t : Z) : OpOption :=
  fun op => mkOp t (targetAmount op) (feeDeduct op).

Definition WithTargetAmount (ta : Z) : OpOption :=
  fun op => mkOp (time op) ta (feeDeduct op).

Definition WithFeeDeduct (fee : Z) : OpOption :=
  fun op => mkOp (time op) (targetAmount op) fee.

(** The zero value [&Op{}]. *)
Definition Op0 : Op := mkOp 0 0 0.

(** [Less] on two inputs: by the bytes of the transaction ID, then by the
    output index. *)
Definition input_Less (a b : TransferableInput) : bool :=
  let '(iID, iIndex) := InputSource a in
  let '(jID, jIndex) := InputSource b in
  match bytes_Compare iID jID with
  | Lt => true
  | Eq => iIndex <? jIndex
  | Gt => false
  end.

Record innerSortTransferableInputsWithSigners : Type := mkInner {
  ins : list TransferableInput;
  signers : list (list ShortID)
}.

Definition inner_Less (s : innerSortTransferableInputsWithSigners)
  (i j : nat) : option bool :=
  match nth_error (ins s) i, nth_error (ins s) j with
  | Some a, Some b => Some (input_Less a b)
  | _, _ => None
  end.

Definition inner_Len (s : innerSortTransferableInputsWithSigners) : nat :=
  length (ins s).

(** [Swap] exchanges the two inputs, then the two signer lists; the second
    exchange panics when [signers] is too short. *)
Definition inner_Swap (s : innerSortTransferableInputsWithSigners)
  (i j : nat) : option innerSortTransferableInputsWithSigners :=
  match sort.swap_slice (ins s) i j with
  | None => None
  | Some ins' =>
      match sort.swap_slice (signers s) i j with
      | None => None
      | Some signers' => Some (mkInner ins' signers')
      end
  end.

Definition innerInterface
  : sort.Interface innerSortTransferableInputsWithSigners :=
  sort.mkInterface _ inner_Len inner_Less inner_Swap.

Definition SortTransferableInputsWithSigners
  (ins0 : list TransferableInput) (signers0 : list (list ShortID))
  : option (list TransferableInput * list (list ShortID)) :=
  match sort.Sort innerInterface (mkInner ins0 signers0) with
  | None => None
  | Some s => Some (ins s, signers s)
  end.

(** [djtx.SortTransferableInputs] of the node library, which the coupled
    sort above "is based off of": the same [Less] on the inputs alone. *)
Definition plain_Less (l : list TransferableInput) (i j : nat)
  : option bool :=
  match nth_error l i, nth_error l j with
  | Some a, Some b => Some (input_Less a b)
  | _, _ => None
  end.

Definition plainInterface : sort.Interface (list TransferableInput) :=
  sort.mkInterface _ (@length _) plain_Less (@sort.swap_slice _).

Definition SortTransferableInputs (l : list TransferableInput)
  : option (list TransferableInput) :=
  sort.Sort plainInterface l.

(** *** The loop shared by [SoftKey.Spends] and [HardKey.Spends]

    Both methods run the same loop around their own [spend]; a UTXO the key
    cannot spend is logged and skipped. *)
Fixpoint Spends_loop (spend : UTXO -> Z -> result TransferableIn) (ret : Op)
  (outputs : list UTXO) (totalBalanceToSpend : Z)
  (inputs : list TransferableInput) : Z * list TransferableInput :=
  match outputs with
  | [] => (totalBalanceToSpend, inputs)
  | out :: rest =>
      match spend out (time ret) with
      | Err _ => Spends_loop spend ret rest totalBalanceToSpend inputs
      | Ok input =>
          let total := wrap64 (totalBalanceToSpend + Amount input) in
          let inputs' :=
            inputs ++ [mkTransferableInput (utxo_UTXOID out) (utxo_Asset out)
                         input] in
          if (targetAmount ret >? 0) &&
             (total >? wrap64 (targetAmount ret + feeDeduct ret))
          then (total, inputs')
          else Spends_loop spend ret rest total inputs'
      end
  end.

Definition Spends_with (spend : UTXO -> Z -> result TransferableIn)
  (outputs : list UTXO) (opts : list OpOption)
  : option (Z * list TransferableInput) :=
  let ret := applyOpts Op0 opts in
  let '(total, inputs) := Spends_loop spend ret outputs 0 [] in
  match SortTransferableInputs inputs with
  | None => None
  | Some sorted => Some (total, sorted)
  end.

(** *** The hardware key *)

(** The ledger device: [SignHash] answers a hash and a list of derivation
    paths with signatures or an error. *)
Record Ledger : Type := mkLedger {
  SignHash : list byte -> list (list Z) -> result (list (list byte))
}.

Record HardKey : Type := mkHardKey {
  l : Ledger;
  accountIndex : Z;        (* uint32 *)
  shortAddr : ShortID;
  pAddr : String.string
}.

(** The loop of [match]; [rest] is [owners.Addrs[i:]], [n] is
    [uint32(len(owners.Addrs))] and [t] the threshold. *)
Fixpoint match_loop (h : HardKey) (t n : Z) (rest : list ShortID) (i : Z)
  (sigs : list Z) : list Z :=
  match rest with
  | [] => sigs
  | a :: rest' =>
      if (i <? n) && (wrap32 (len sigs) <? t)
      then match_loop h t n rest' (wrap32 (i + 1))
             (if bytes_eqb a (shortAddr h) then sigs ++ [i] else sigs)
      else sigs
  end.

Definition hard_match (h : HardKey) (owners : OutputOwners) (time : Z)
  : list Z * bool :=
  if time <? Locktime owners then ([], false)
  else
    let sigs :=
      match_loop h (Threshold owners) (wrap32 (len (Addrs owners)))
        (Addrs owners) 0 [] in
    (sigs, wrap32 (len sigs) =? Threshold owners).

Definition lspend (h : HardKey) (out : Output) (time : Z)
  : result Verifiable :=
  match out with
  | MintOutput owners =>
      let '(sigIndices, able) := hard_match h owners time in
      if able then Ok (SecpInput sigIndices) else Err ErrCantSpend
  | TransferOutput amt owners =>
      let '(sigIndices, able) := hard_match h owners time in
      if able then Ok (VTransferableIn (TransferInput amt sigIndices))
      else Err ErrCantSpend
  | _ => Err ErrUnexpectedOutputType
  end.

Definition hard_spend (h : HardKey) (output : UTXO) (time : Z)
  : result TransferableIn :=
  inputf <- lspend h (Out output) time ;;
  match inputf with
  | VTransferableIn input => Ok input
  | SecpInput _ => Err ErrInvalidType
  end.

Definition HardKey_Spends (h : HardKey) (outputs : list UTXO)
  (opts : list OpOption) : option (Z * list TransferableInput) :=
  Spends_with (hard_spend h) outputs opts.

(** [copy(cred.Sigs[0][:], sig[0])] into a zeroed array of
    [crypto.SECP256K1RSigLen] = 65 bytes. *)
Definition SECP256K1RSigLen : nat := 65.

Definition copy_sig (sig0 : list byte) : list byte :=
  firstn SECP256K1RSigLen sig0 ++
  repeat x00 (SECP256K1RSigLen - length sig0).

(** [HardKey.Sign].  The result lists the requests sent to the device
    (hash and paths), then the transaction as the call leaves it and the
    error; [None] is the panic of [sig[0]] on an empty answer. *)
Definition HardKey_Sign (cd : Codec) (h : HardKey) (pTx : Tx) (sigs : Z)
  : list (list byte * list (list Z)) * option (Tx * option error) :=
  match Marshal_UnsignedTx cd (tx_UnsignedTx pTx) with
  | Err err =>
      ([], Some (pTx, Some (Errorf "couldn't marshal UnsignedTx" err)))
  | Ok unsignedBytes =>
      let hash := ComputeHash256 cd unsignedBytes in
      let path := [[0; accountIndex h]] in
      match SignHash (l h) hash path with
      | Err err =>
          ([(hash, path)],
           Some (pTx, Some (Errorf "problem generating credential" err)))
      | Ok [] => ([(hash, path)], None)
      | Ok (sig0 :: _) =>
          let cred := mkCredential [copy_sig sig0] in
          let pTx1 :=
            mkTx (tx_UnsignedTx pTx)
              (Creds pTx ++ repeat cred (Z.to_nat sigs))
              (tx_id pTx) (tx_unsignedBytes pTx) (tx_bytes pTx) in
          match Marshal_Tx cd (tx_UnsignedTx pTx1) (Creds pTx1) with
          | Err err =>
              ([(hash, path)],
               Some (pTx1, Some (Errorf "couldn't marshal ProposalTx" err)))
          | Ok signedBytes =>
              ([(hash, path)],
               Some (Initialize cd pTx1 unsignedBytes signedBytes, None))
          end
      end
  end.

(** *** The software key: [spend] goes through the keychain of the node
    library, [keyChain_Spend]. *)
Definition soft_spend (keyChain_Spend : Output -> Z -> result Verifiable)
  (output : UTXO) (time : Z) : result TransferableIn :=
  inputf <- keyChain_Spend (Out output) time ;;
  match inputf with
  | VTransferableIn input => Ok input
  | SecpInput _ => Err ErrInvalidType
  end.

Definition SoftKey_Spends (keyChain_Spend : Output -> Z -> result Verifiable)
  (outputs : list UTXO) (opts : list OpOption)
  : option (Z * list TransferableInput) :=
  Spends_with (soft_spend keyChain_Spend) outputs opts.

(** *** Key files (soft_key.go) *)

(** [crypto.PrivateKeySECP256K1R], by its raw bytes. *)
Record PrivateKey : Type := mkPrivateKey {
  Bytes : list byte
}.

(** What soft_key.go takes from the node library: CB58 with checksum, the
    key factory, the address of a key and its formatting, and the network
    constants of [getHRP]. *)
Record Lib : Type := mkLib {
  cb58_Decode : list byte -> result (list byte);
  cb58_EncodeWithChecksum : list byte -> result (list byte);
  ToPrivateKey : list byte -> result PrivateKey;
  NewPrivateKey : result PrivateKey;
  Address : PrivateKey -> ShortID;
  FormatAddress : list byte -> list byte -> ShortID -> result (list byte);
  LocalID : Z;
  TahoeID : Z;
  MainnetID : Z;
  LocalHRP : list byte;
  TahoeHRP : list byte;
  MainnetHRP : list byte;
  FallbackHRP : list byte
}.

Definition getHRP (lib : Lib) (networkID : Z) : list byte :=
  if networkID =? LocalID lib then LocalHRP lib
  else if networkID =? TahoeID lib then TahoeHRP lib
  else if networkID =? MainnetID lib then MainnetHRP lib
  else FallbackHRP lib.

Definition privKeyEncPfx : list byte :=
  list_byte_of_string "PrivateKey-".
Definition privKeySize : nat := 64.

Record SoftKey : Type := mkSoftKey {
  privKey : PrivateKey;
  privKeyRaw : list byte;
  privKeyEncoded : list byte;
  soft_pAddr : list byte;
  keyChain : list PrivateKey
}.

Record SOp : Type := mkSOp {
  sop_privKey : option PrivateKey;
  sop_privKeyEncoded : list byte
}.

Definition SOpOption := SOp -> SOp.

Definition WithPrivateKey (pk : PrivateKey) : SOpOption :=
  fun sop => mkSOp (Some pk) (sop_privKeyEncoded sop).

Definition WithPrivateKeyEncoded (enc : list byte) : SOpOption :=
  fun sop => mkSOp (sop_privKey sop) enc.

Definition encodePrivateKey (lib : Lib) (pk : PrivateKey)
  : result (list byte) :=
  enc <- cb58_EncodeWithChecksum lib (Bytes pk) ;;
  Ok (privKeyEncPfx ++ enc).

Fixpoint is_prefix (pat s : list byte) : bool :=
  match pat, s with
  | [], _ => true
  | x :: pat', y :: s' => Byte.eqb x y && is_prefix pat' s'
  | _ :: _, [] => false
  end.

(** [strings.Replace(s, pat, "", 1)]: [s] without the first occurrence of
    [pat]. *)
Fixpoint remove_first (pat s : list byte) : list byte :=
  if is_prefix pat s then skipn (length pat) s
  else
    match s with
    | [] => []
    | c :: s' => c :: remove_first pat s'
    end.

Definition decodePrivateKey (lib : Lib) (enc : list byte)
  : result PrivateKey :=
  let rawPk := remove_first privKeyEncPfx enc in
  skBytes <- cb58_Decode lib rawPk ;;
  ToPrivateKey lib skBytes.

Definition NewSoft (lib : Lib) (networkID : Z) (opts : list SOpOption)
  : result SoftKey :=
  let ret := fold_left (fun o opt => opt o) opts (mkSOp None []) in
  ret1 <-
    (if (0 <? len (sop_privKeyEncoded ret))
     then
       pk <- decodePrivateKey lib (sop_privKeyEncoded ret) ;;
       match sop_privKey ret with
       | Some pk0 =>
           if negb (bytes_eqb (Bytes pk0) (Bytes pk))
           then Err ErrInvalidPrivateKey
           else Ok (mkSOp (Some pk) (sop_privKeyEncoded ret))
       | None => Ok (mkSOp (Some pk) (sop_privKeyEncoded ret))
       end
     else Ok ret) ;;
  pk <-
    match sop_privKey ret1 with
    | None => NewPrivateKey lib
    | Some pk => Ok pk
    end ;;
  enc <- encodePrivateKey lib pk ;;
  if negb (bytes_eqb (sop_privKeyEncoded ret1) []) &&
     negb (bytes_eqb (sop_privKeyEncoded ret1) enc)
  then Err ErrInvalidPrivateKeyEncoding
  else
    addr <- FormatAddress lib (list_byte_of_string "P")
              (getHRP lib networkID) (Address lib pk) ;;
    Ok (mkSoftKey pk (Bytes pk) enc addr [pk]).

(** [readASCII]: [buf], the number of bytes read and the rest of the
    reader.  [k] counts the remaining iterations, [len(buf) - n].  At the
    end of the input [ReadByte] hands back a zero byte. *)
Fixpoint readASCII_loop (k : nat) (buf : list byte) (n : nat)
  (r : list byte) : list byte * nat * list byte :=
  match k with
  | O => (buf, n, r)
  | S k' =>
      match r with
      | [] => (sort.set_nth buf n x00, n, [])
      | b :: r' =>
          let buf' := sort.set_nth buf n b in
          if (Byte.to_N b <? 33)%N then (buf', n, r')
          else readASCII_loop k' buf' (S n) r'
      end
  end.

Definition readASCII (buf : list byte) (r : list byte)
  : list byte * nat * list byte :=
  readASCII_loop (length buf) buf 0 r.

Definition fileEndLimit : Z := 1.

(** [checkKeyFileEnd]: [None] is the nil error. *)
Fixpoint checkKeyFileEnd_loop (r : list byte) (idx : Z) : option error :=
  match r with
  | [] => None
  | b :: r' =>
      if negb (Byte.eqb b x0a) && negb (Byte.eqb b x0d)
      then Some ErrInvalidPrivateKeyEnding
      else if idx >? fileEndLimit then Some ErrInvalidPrivateKeyLen
      else checkKeyFileEnd_loop r' (idx + 1)
  end.

Definition checkKeyFileEnd (r : list byte) : option error :=
  checkKeyFileEnd_loop r 0.

(** [hex.DecodeString] of the Go standard library. *)
Definition fromHexChar (c : byte) : option N :=
  let n := Byte.to_N c in
  if ((48 <=? n) && (n <=? 57))%N then Some (n - 48)%N
  else if ((97 <=? n) && (n <=? 102))%N then Some (n - 97 + 10)%N
  else if ((65 <=? n) && (n <=? 70))%N then Some (n - 65 + 10)%N
  else None.

Fixpoint hex_DecodeString (src : list byte) : result (list byte) :=
  match src with
  | [] => Ok []
  | p :: src' =>
      match fromHexChar p with
      | None => Err (HexInvalidByteError p)
      | Some a =>
          match src' with
          | [] => Err HexErrLength
          | q :: rest =>
              match fromHexChar q with
              | None => Err (HexInvalidByteError q)
              | Some b =>
                  match Byte.of_N (a * 16 + b) with
                  | None => Err HexErrLength
                  | Some v =>
                      tail <- hex_DecodeString rest ;;
                      Ok (v :: tail)
                  end
              end
          end
      end
  end.

(** [LoadSoft]; [file] is what [ioutil.ReadFile(keyPath)] returns. *)
Definition LoadSoft (lib : Lib) (networkID : Z) (file : result (list byte))
  : result SoftKey :=
  kb <- file ;;
  match NewSoft lib networkID [WithPrivateKeyEncoded kb] with
  | Ok k => Ok k
  | Err _ =>
      let '(buf, n, r) := readASCII (repeat x00 privKeySize) kb in
      if negb (Nat.eqb n (length buf)) then Err ErrInvalidPrivateKeyLen
      else
        match checkKeyFileEnd r with
        | Some err => Err err
        | None =>
            skBytes <- hex_DecodeString buf ;;
            pk <- ToPrivateKey lib skBytes ;;
            NewSoft lib networkID [WithPrivateKey pk]
        end
  end.

(** [hex.EncodeToString] of the Go standard library: two lower-case
    digits per byte. *)
Definition hextable : list byte := list_byte_of_string "0123456789abcdef".

Definition hexdigit (n : N) : byte := nth (N.to_nat n) hextable x00.

Fixpoint hex_EncodeToString (src : list byte) : list byte :=
  match src with
  | [] => []
  | v :: rest =>
      hexdigit (Byte.to_N v / 16) :: hexdigit (Byte.to_N v mod 16)
      :: hex_EncodeToString rest
  end.

Definition fsModeWrite : Z := 384.          (* 0o600 *)

(** [Save]: what it hands to [ioutil.WriteFile], the content of the file
    and its mode; the error of the write is the error of [Save]. *)
Definition Save (WriteFile : list byte -> Z -> option error) (m : SoftKey)
  : option error :=
  WriteFile (hex_EncodeToString (privKeyRaw m)) fsModeWrite.

End key.

(** ** The [Key] interface of key.go *)

Record Key : Type := mkKey {
  P : list String.string;
  Addresses : list ShortID;
  Match : OutputOwners -> Z -> list Z * list ShortID * bool;
  Spends : list UTXO -> list key.OpOption ->
           Z * list TransferableInput * list (list ShortID);
  (** [Sign] works on the transaction in place: the transaction after the
      call and the error, or [None] for a panic. *)
  Sign : Tx -> list (list ShortID) -> option (Tx * option error)
}.

(** ** Package client: the P-chain client *)

Module client.

Definition ShortEmpty : ShortID := repeat x00 20.
Definition Empty : ID := repeat x00 32.

Record Op : Type := mkOp {
  stakeAmt : Z;            (* uint64 *)
  rewardShares : Z;        (* uint32 *)
  rewardAddr : ShortID;
  changeAddr : ShortID;
  dryMode : bool;
  poll : bool
}.

Definition OpOption := Op -> Op.

Definition applyOpts (op : Op) (opts : list OpOption) : Op :=
  fold_left (fun o opt => opt o) opts op.

Definition WithStakeAmount (v : Z) : OpOption :=
  fun op => mkOp v (rewardShares op) (rewardAddr op) (changeAddr op)
              (dryMode op) (poll op).
Definition WithRewardShares (v : Z) : OpOption :=
  fun op => mkOp (stakeAmt op) v (rewardAddr op) (changeAddr op)
              (dryMode op) (poll op).
Definition WithRewardAddress (v : ShortID) : OpOption :=
  fun op => mkOp (stakeAmt op) (rewardShares op) v (changeAddr op)
              (dryMode op) (poll op).
Definition WithChangeAddress (v : ShortID) : OpOption :=
  fun op => mkOp (stakeAmt op) (rewardShares op) (rewardAddr op) v
              (dryMode op) (poll op).
Definition WithDryMode (b : bool) : OpOption :=
  fun op => mkOp (stakeAmt op) (rewardShares op) (rewardAddr op)
              (changeAddr op) b (poll op).
Definition WithPoll (b : bool) : OpOption :=
  fun op => mkOp (stakeAmt op) (rewardShares op) (rewardAddr op)
              (changeAddr op) (dryMode op) b.

(** The zero value [&Op{}]. *)
Definition Op0 : Op := mkOp 0 0 ShortEmpty ShortEmpty false false.

(** A validator record as the node returns it ([interface{}]): a
    JSON-shaped object ([map[string]interface{}]) or some other value; a
    field of an object is a string or some other value. *)
Inductive JValue : Type :=
| JString (s : String.string)
| JNotString.

Inductive JSON : Type :=
| JObject (fields : list (String.string * JValue))
| JNotObject.

(** [va[key]] on a map; a missing key gives nil. *)
Fixpoint lookup (key : String.string) (fields : list (String.string * JValue))
  : option JValue :=
  match fields with
  | [] => None
  | (k, v) :: rest => if String.eqb k key then Some v else lookup key rest
  end.

(** The client [p]: its configuration and the remote services it talks to
    ([cli], [info], [checker]); each service answers a request with a
    result. *)
Record p : Type := mkP {
  networkName : String.string;
  networkID : Z;
  assetID : ID;
  pChainID : ID;
  cli_GetAtomicUTXOs : list String.string -> result (list (list byte));
  cli_GetCurrentValidators : ID -> list ShortID -> result (list JSON);
  cli_GetTx : ID -> result (list byte);
  cli_IssueTx : list byte -> result ID;
  info_GetTxFee : result Z;               (* the [TxFee] of the response *)
  checker_PollTx : ID -> Z * option error;
  (** of the node library *)
  PrefixedString : ShortID -> String.string;
  SyntacticVerify : UnsignedTx -> option error;
  PrimaryNetworkID : ID;
  MainnetName : String.string;
  LocalName : String.string;
  TahoeName : String.string;
  units_Djtx : Z;
  (** readings of the clock, [time.Now().Unix()], in [stake] and in
      [authorize] *)
  now_stake : Z;
  now_authorize : Z
}.

(** What a call does to the outside, in order. *)
Inductive Event : Type :=
| EvGetCurrentValidators (subnetID : ID) (nodeID : ShortID)
| EvGetTxFee
| EvGetAtomicUTXOs
| EvGetTx (txID : ID)
| EvSign
| EvIssueTx (bytes : list byte)
| EvPollTx (txID : ID).

(** A computation of the client: the events it produced and its value, or
    [None] if it panicked. *)
Definition M (A : Type) : Type := list Event * option A.

Definition ret {A : Type} (a : A) : M A := ([], Some a).
Definition panic {A : Type} : M A := ([], None).
Definition emit (e : Event) : M unit := ([e], Some tt).

Definition bindM {A B : Type} (m : M A) (k : A -> M B) : M B :=
  match m with
  | (t, None) => (t, None)
  | (t, Some a) => let '(t', b) := k a in (t ++ t', b)
  end.

Notation "x <~ m ;; k" := (bindM m (fun x => k))
  (at level 61, m at next level, right associativity).
Notation "m ;;; k" := (bindM m (fun _ => k))
  (at level 61, right associativity).


(** [time.Time] as an instant in nanoseconds since the Unix epoch. *)
Definition Time : Type := Z.
Definition time_Unix (sec nsec : Z) : Time := sec * 10 ^ 9 + nsec.
Definition Before (t u : Time) : bool := t <? u.
Definition After (t u : Time) : bool := t >? u.
Definition Unix (t : Time) : Z := t / 10 ^ 9.

(** [strconv.ParseInt(s, 10, 64)] of the Go standard library: an optional
    sign, then decimal digits only, in the range of int64. *)
Definition digit_of (c : Ascii.ascii) : option Z :=
  let n := Z.of_nat (Ascii.nat_of_ascii c) in
  if (48 <=? n) && (n <=? 57) then Some (n - 48) else None.

Fixpoint parse_digits (s : String.string) (acc : Z) : option Z :=
  match s with
  | String.EmptyString => Some acc
  | String.String c rest =>
      match digit_of c with
      | Some d => parse_digits rest (10 * acc + d)
      | None => None
      end
  end.

Definition ParseInt (s : String.string) : result Z :=
  let '(neg, body) :=
    match s with
    | String.String "+"%char rest => (false, rest)
    | String.String "-"%char rest => (true, rest)
    | _ => (false, s)
    end in
  match body with
  | String.EmptyString => Err ParseIntError
  | _ =>
      match parse_digits body 0 with
      | None => Err ParseIntError
      | Some n =>
          let v := if neg then - n else n in
          if (- 2 ^ 63 <=? v) && (v <? 2 ^ 63) then Ok v
          else Err ParseIntError
      end
  end.

(** The loop of [GetValidator] over the records: [Ok None] when no record
    carries the node ID. *)
Fixpoint find_validator (pc : p) (nodeID : ShortID) (vs : list JSON)
  : result (option (list (String.string * JValue))) :=
  match vs with
  | [] => Ok None
  | v :: rest =>
      match v with
      | JNotObject => Err (Errorf "%T %+v"%string ErrInvalidValidatorData)
      | JObject va =>
          match lookup "nodeID"%string va with
          | Some (JString nodeIDs) =>
              if String.eqb nodeIDs (PrefixedString pc nodeID)
              then Ok (Some va)
              else find_validator pc nodeID rest
          | _ => Err ErrInvalidValidatorData
          end
      end
  end.

Definition GetValidator (pc : p) (rsubnetID : ID) (nodeID : ShortID)
  : M (result (Time * Time)) :=
  let subnetID :=
    if negb (bytes_eqb rsubnetID Empty) then rsubnetID
    else PrimaryNetworkID pc in
  emit (EvGetCurrentValidators subnetID nodeID) ;;;
  ret
    (vs <- cli_GetCurrentValidators pc subnetID [nodeID] ;;
     if (length vs <? 1)%nat then Err ErrValidatorNotFound
     else
       found <- find_validator pc nodeID vs ;;
       match found with
       | None => Err ErrValidatorNotFound
       | Some validator =>
           match lookup "startTime"%string validator with
           | Some (JString d) =>
               dv <- ParseInt d ;;
               let start := time_Unix dv 0 in
               match lookup "endTime"%string validator with
               | Some (JString d') =>
                   dv' <- ParseInt d' ;;
                   Ok (start, time_Unix dv' 0)
               | _ => Err ErrInvalidValidatorData
               end
           | _ => Err ErrInvalidValidatorData
           end
       end).

(** [djtx.SortTransferableOutputs] of the node library: by asset ID, then
    by the bytes of the marshalled output. *)
Definition output_Less (cd : Codec) (a b : TransferableOutput) : bool :=
  match bytes_Compare (out_Asset a) (out_Asset b) with
  | Lt => true
  | Gt => false
  | Eq =>
      match Marshal_Output cd (out_Out a), Marshal_Output cd (out_Out b) with
      | Ok iBytes, Ok jBytes =>
          match bytes_Compare iBytes jBytes with
          | Lt => true
          | _ => false
          end
      | _, _ => false
      end
  end.

Definition outputs_Less (cd : Codec) (l : list TransferableOutput)
  (i j : nat) : option bool :=
  match nth_error l i, nth_error l j with
  | Some a, Some b => Some (output_Less cd a b)
  | _, _ => None
  end.

Definition outputsInterface (cd : Codec)
  : sort.Interface (list TransferableOutput) :=
  sort.mkInterface _ (@length _) (outputs_Less cd) (@sort.swap_slice _).

Definition SortTransferableOutputs (cd : Codec)
  (l : list TransferableOutput) : option (list TransferableOutput) :=
  sort.Sort (outputsInterface cd) l.

(** [ParseUTXO] and the loop of [stake] that parses the fetched bytes. *)
Definition ParseUTXO (cd : Codec) (ub : list byte) : result UTXO :=
  match Unmarshal_UTXO cd ub with
  | Ok utxo => Ok utxo
  | Err err => Err (Errorf "failed to unmarshal utxo bytes"%string err)
  end.

Fixpoint parse_utxos (cd : Codec) (ubs : list (list byte))
  : result (list UTXO) :=
  match ubs with
  | [] => Ok []
  | ub :: rest =>
      utxo <- ParseUTXO cd ub ;;
      utxos <- parse_utxos cd rest ;;
      Ok (utxo :: utxos)
  end.

(** The local variables of [stake] that the two passes update. *)
Record Selection : Type := mkSelection {
  sel_ins : list TransferableInput;
  sel_returnedOuts : list TransferableOutput;
  sel_stakedOuts : list TransferableOutput;
  sel_signers : list (list ShortID);
  amountStaked : Z;        (* uint64 *)
  amountBurned : Z         (* uint64 *)
}.

Definition Selection0 : Selection := mkSelection [] [] [] [] 0 0.

(** A plain transfer of [amt] to the change address. *)
Definition change_output (pc : p) (ret : Op) (amt : Z) : TransferableOutput :=
  mkTransferableOutput (assetID pc)
    (TransferOutput amt (mkOwners 0 1 [changeAddr ret])).

(** The first loop of [stake]: stake from the outputs that are still
    locked. *)
Fixpoint stake_pass1 (pc : p) (k : Key) (ret : Op) (now : Z)
  (utxos : list UTXO) (st : Selection) : Selection :=
  match utxos with
  | [] => st
  | utxo :: rest =>
      if amountStaked st >=? stakeAmt ret then st
      else if negb (bytes_eqb (utxo_Asset utxo) (assetID pc))
      then stake_pass1 pc k ret now rest st
      else
        match Out utxo with
        | StakeableLockOut lockTime transferableOut =>
            if lockTime <=? now then stake_pass1 pc k ret now rest st
            else
              match transferableOut with
              | TransferOutput _ owners =>
                  let '(_, inputs, inputSigners) :=
                    Spends k [utxo] [key.WithTime now] in
                  match inputs with
                  | [] => stake_pass1 pc k ret now rest st
                  | in_ :: _ =>
                      let remainingValue := Amount (in_In in_) in
                      let amountToStake :=
                        Min64 (wrap64 (stakeAmt ret - amountStaked st))
                          remainingValue in
                      let amountStaked' :=
                        wrap64 (amountStaked st + amountToStake) in
                      let remainingValue' :=
                        wrap64 (remainingValue - amountToStake) in
                      let stakedOuts' :=
                        sel_stakedOuts st ++
                        [mkTransferableOutput (assetID pc)
                           (StakeableLockOut lockTime
                              (TransferOutput amountToStake owners))] in
                      let returnedOuts' :=
                        if remainingValue' >? 0
                        then sel_returnedOuts st ++
                             [change_output pc ret remainingValue']
                        else sel_returnedOuts st in
                      stake_pass1 pc k ret now rest
                        (mkSelection (sel_ins st ++ [in_]) returnedOuts'
                           stakedOuts' (sel_signers st ++ inputSigners)
                           amountStaked' (amountBurned st))
                  end
              | _ => stake_pass1 pc k ret now rest st
              end
        | _ => stake_pass1 pc k ret now rest st
        end
  end.

(** The head of the body of the second loop: [None] when the output is
    still locked (the loop goes on to the next UTXO), otherwise the UTXO as
    the loop goes on with it; for a stake lock that has elapsed, that is
    the UTXO after [utxo.Out = inner.TransferableOut]. *)
Definition unwrap (now : Z) (utxo : UTXO) : option UTXO :=
  match Out utxo with
  | StakeableLockOut lockTime inner =>
      if lockTime >? now then None
      else Some (mkUTXO (utxo_UTXOID utxo) (utxo_Asset utxo) inner)
  | _ => Some utxo
  end.

(** The second loop of [stake]: burn the fee and stake what is still
    missing from the outputs that are not locked.  The loop assigns to
    [utxo.Out] of an element of the slice, so it also returns the slice as
    it leaves it. *)
Fixpoint stake_pass2 (pc : p) (k : Key) (ret : Op) (now fee : Z)
  (utxos : list UTXO) (st : Selection) : Selection * list UTXO :=
  match utxos with
  | [] => (st, [])
  | utxo :: rest =>
      if (amountStaked st >=? stakeAmt ret) && (amountBurned st >=? fee)
      then (st, utxos)
      else if negb (bytes_eqb (utxo_Asset utxo) (assetID pc))
      then let '(st', rest') := stake_pass2 pc k ret now fee rest st in
           (st', utxo :: rest')
      else
        match unwrap now utxo with
        | None =>
            let '(st', rest') := stake_pass2 pc k ret now fee rest st in
            (st', utxo :: rest')
        | Some utxo' =>
            let '(_, inputs, inputSigners) :=
              Spends k [utxo'] [key.WithTime now] in
            match inputs with
            | [] =>
                let '(st', rest') := stake_pass2 pc k ret now fee rest st in
                (st', utxo' :: rest')
            | in_ :: _ =>
                let remainingValue := Amount (in_In in_) in
                let amountToBurn :=
                  Min64 (wrap64 (fee - amountBurned st)) remainingValue in
                let amountBurned' :=
                  wrap64 (amountBurned st + amountToBurn) in
                let remainingValue1 :=
                  wrap64 (remainingValue - amountToBurn) in
                let amountToStake :=
                  Min64 (wrap64 (stakeAmt ret - amountStaked st))
                    remainingValue1 in
                let amountStaked' :=
                  wrap64 (amountStaked st + amountToStake) in
                let remainingValue2 :=
                  wrap64 (remainingValue1 - amountToStake) in
                let stakedOuts' :=
                  if amountToStake >? 0
                  then sel_stakedOuts st ++
                       [change_output pc ret amountToStake]
                  else sel_stakedOuts st in
                let returnedOuts' :=
                  if remainingValue2 >? 0
                  then sel_returnedOuts st ++
                       [change_output pc ret remainingValue2]
                  else sel_returnedOuts st in
                let '(st', rest') :=
                  stake_pass2 pc k ret now fee rest
                    (mkSelection (sel_ins st ++ [in_]) returnedOuts'
                       stakedOuts' (sel_signers st ++ inputSigners)
                       amountStaked' amountBurned') in
                (st', utxo' :: rest')
            end
        end
  end.

(** What [stake] returns, and [utxos_after]: the local slice [utxos] as
    the call leaves it (empty when the call stops before parsing). *)
Record StakeReturn : Type := mkStakeReturn {
  r_ins : list TransferableInput;
  r_returnedOuts : list TransferableOutput;
  r_stakedOuts : list TransferableOutput;
  r_signers : list (list ShortID);
  r_err : option error;
  utxos_after : list UTXO
}.

Definition stake_fail (e : error) (utxos : list UTXO) : StakeReturn :=
  mkStakeReturn [] [] [] [] (Some e) utxos.

(** [k.Addresses()[0]]. *)
Definition first_address (k : Key) : option ShortID :=
  match Addresses k with
  | [] => None
  | a :: _ => Some a
  end.

(** [stake] after the options are applied and the UTXOs are parsed. *)
Definition stake_utxos (pc : p) (cd : Codec) (k : Key) (fee : Z) (ret : Op)
  (utxos : list UTXO) : option StakeReturn :=
  let now := now_stake pc in
  let st1 := stake_pass1 pc k ret now utxos Selection0 in
  let '(st, utxos') := stake_pass2 pc k ret now fee utxos st1 in
  if (amountStaked st >? 0) && (amountStaked st <? stakeAmt ret)
  then Some (stake_fail ErrInsufficientBalanceForStakeAmount utxos')
  else if (amountBurned st >? 0) && (amountBurned st <? fee)
  then Some (stake_fail ErrInsufficientBalanceForGasFee utxos')
  else
    match key.SortTransferableInputsWithSigners (sel_ins st) (sel_signers st),
          SortTransferableOutputs cd (sel_returnedOuts st),
          SortTransferableOutputs cd (sel_stakedOuts st) with
    | Some (ins, signers), Some returnedOuts, Some stakedOuts =>
        Some (mkStakeReturn ins returnedOuts stakedOuts signers None utxos')
    | _, _, _ => None
    end.

Definition stake (pc : p) (cd : Codec) (k : Key) (fee : Z)
  (opts : list OpOption) : M StakeReturn :=
  let ret0 := applyOpts Op0 opts in
  match
    (if bytes_eqb (rewardAddr ret0) ShortEmpty
     then option_map
            (fun a => mkOp (stakeAmt ret0) (rewardShares ret0) a
                        (changeAddr ret0) (dryMode ret0) (poll ret0))
            (first_address k)
     else Some ret0)
  with
  | None => panic
  | Some ret1 =>
      match
        (if bytes_eqb (changeAddr ret1) ShortEmpty
         then option_map
                (fun a => mkOp (stakeAmt ret1) (rewardShares ret1)
                            (rewardAddr ret1) a (dryMode ret1) (poll ret1))
                (first_address k)
         else Some ret1)
      with
      | None => panic
      | Some ret =>
          emit EvGetAtomicUTXOs ;;;
          match cli_GetAtomicUTXOs pc (P k) with
          | Err err => client.ret (stake_fail err [])
          | Ok ubs =>
              match parse_utxos cd ubs with
              | Err err => client.ret (stake_fail err [])
              | Ok utxos =>
                  match stake_utxos pc cd k fee ret utxos with
                  | None => panic
                  | Some r => client.ret r
                  end
              end
          end
      end
  end.

(** [authorize]. *)
Definition authorize (pc : p) (cd : Codec) (k : Key) (subnetID : ID)
  : M (result (Verifiable * list ShortID)) :=
  emit (EvGetTx subnetID) ;;;
  ret
    (tb <- cli_GetTx pc subnetID ;;
     tx <- Unmarshal_Tx cd tb ;;
     match tx_UnsignedTx tx with
     | UnsignedCreateSubnetTx _ owner =>
         match owner with
         | OwnerOutputOwners o =>
             let '(indices, signers, ok) := Match k o (now_authorize pc) in
             if ok then Ok (SecpInput indices, signers) else Err ErrCantSign
         | OwnerOther => Err ErrUnknownOwners
         end
     | _ => Err ErrWrongTxType
     end).

(** [AddSubnetValidator]: the duration and the error it returns. *)
Definition AddSubnetValidator (pc : p) (cd : Codec) (k : Key)
  (subnetID : ID) (nodeID : ShortID) (start end_ : Time) (weight : Z)
  (opts : list OpOption) : M (Z * option error) :=
  if bytes_eqb subnetID Empty then ret (0, Some ErrEmptyID)
  else if bytes_eqb nodeID ShortEmpty then ret (0, Some ErrEmptyID)
  else
    r <~ GetValidator pc subnetID nodeID ;;
    if negb (match r with
             | Err err => errors_Is err ErrValidatorNotFound
             | Ok _ => false
             end)
    then ret (0, Some ErrAlreadySubnetValidator)
    else
      r' <~ GetValidator pc Empty nodeID ;;
      match r' with
      | Err err =>
          if errors_Is err ErrValidatorNotFound
          then ret (0, Some ErrNotValidatingPrimaryNetwork)
          else ret (0, Some (Errorf
                 "unable to get primary network validator record"%string err))
      | Ok (validateStart, validateEnd) =>
          if Before start validateStart
          then ret (0, Some (Errorf "validate start"%string ErrInvalidSubnetValidatePeriod))
          else if After end_ validateEnd
          then ret (0, Some (Errorf "validate end"%string ErrInvalidSubnetValidatePeriod))
          else
            emit EvGetTxFee ;;;
            match info_GetTxFee pc with
            | Err err => ret (0, Some err)
            | Ok txFee =>
                sr <~ stake pc cd k txFee [] ;;
                match r_err sr with
                | Some err => ret (0, Some err)
                | None =>
                    ar <~ authorize pc cd k subnetID ;;
                    match ar with
                    | Err err => ret (0, Some err)
                    | Ok (subnetAuth, subnetSigners) =>
                        let signers := r_signers sr ++ [subnetSigners] in
                        let utx :=
                          UnsignedAddSubnetValidatorTx
                            (mkBaseTx (networkID pc) (pChainID pc)
                               (r_ins sr) (r_returnedOuts sr))
                            (mkValidator nodeID (wrap64 (Unix start))
                               (wrap64 (Unix end_)) weight)
                            subnetID subnetAuth in
                        let pTx := mkTx utx [] [] [] [] in
                        emit EvSign ;;;
                        match Sign k pTx signers with
                        | None => panic
                        | Some (_, Some err) => ret (0, Some err)
                        | Some (pTx', None) =>
                            match SyntacticVerify pc utx with
                            | Some err => ret (0, Some err)
                            | None =>
                                emit (EvIssueTx (tx_bytes pTx')) ;;;
                                match cli_IssueTx pc (tx_bytes pTx') with
                                | Err err =>
                                    ret (0, Some (Errorf
                                           "failed to issue tx"%string err))
                                | Ok txID =>
                                    emit (EvPollTx txID) ;;;
                                    ret (checker_PollTx pc txID)
                                end
                            end
                        end
                    end
                end
            end
      end.

(** [AddValidator]: the duration and the error it returns. *)
Definition AddValidator (pc : p) (cd : Codec) (k : Key) (nodeID : ShortID)
  (start end_ : Time) (opts : list OpOption) : M (Z * option error) :=
  let op := applyOpts Op0 opts in
  if bytes_eqb nodeID ShortEmpty then ret (0, Some ErrEmptyID)
  else
    r <~ GetValidator pc Empty nodeID ;;
    match r with
    | Ok _ => ret (0, Some ErrAlreadyValidator)
    | Err err =>
        if negb (errors_Is err ErrValidatorNotFound) then ret (0, Some err)
        else
          let stakeAmt1 :=
            if stakeAmt op =? 0
            then
              if String.eqb (networkName pc) (MainnetName pc)
              then 2000 * units_Djtx pc
              else if String.eqb (networkName pc) (LocalName pc) ||
                      String.eqb (networkName pc) (TahoeName pc)
              then 1 * units_Djtx pc
              else stakeAmt op
            else stakeAmt op in
          match
            (if bytes_eqb (rewardAddr op) ShortEmpty then first_address k
             else Some (rewardAddr op)),
            (if bytes_eqb (changeAddr op) ShortEmpty then first_address k
             else Some (changeAddr op))
          with
          | Some rewardAddr1, Some changeAddr1 =>
              let addStakerTxFee := 0 in
              sr <~ stake pc cd k addStakerTxFee
                      [WithStakeAmount stakeAmt1;
                       WithRewardAddress rewardAddr1;
                       WithRewardShares (rewardShares op);
                       WithChangeAddress changeAddr1] ;;
              match r_err sr with
              | Some err' => ret (0, Some err')
              | None =>
                  let utx :=
                    UnsignedAddValidatorTx
                      (mkBaseTx (networkID pc) (pChainID pc)
                         (r_ins sr) (r_returnedOuts sr))
                      (mkValidator nodeID (wrap64 (Unix start))
                         (wrap64 (Unix end_)) stakeAmt1)
                      (r_stakedOuts sr)
                      (mkOwners 0 1 [rewardAddr1])
                      (rewardShares op) in
                  let pTx := mkTx utx [] [] [] [] in
                  emit EvSign ;;;
                  match Sign k pTx (r_signers sr) with
                  | None => panic
                  | Some (_, Some err') => ret (0, Some err')
                  | Some (pTx', None) =>
                      match SyntacticVerify pc utx with
                      | Some err' => ret (0, Some err')
                      | None =>
                          emit (EvIssueTx (tx_bytes pTx')) ;;;
                          match cli_IssueTx pc (tx_bytes pTx') with
                          | Err err' =>
                              ret (0, Some (Errorf
                                     "failed to issue tx"%string err'))
                          | Ok txID =>
                              emit (EvPollTx txID) ;;;
                              ret (checker_PollTx pc txID)
                          end
                      end
                  end
              end
          | _, _ => panic
          end
    end.


(** *** Creating a subnet and a blockchain

    The answers of the services that the operations above do not use: the
    other fees of the response of [info.GetTxFee], the other polls of
    [checker], and [time.Since(now)] at the end of [CreateBlockchain]. *)
Record services : Type := mkServices {
  CreateSubnetTxFee : Z;
  CreateBlockchainTxFee : Z;
  checker_PollSubnet : ID -> Z * option error;
  checker_PollBlockchain : ID -> ID -> Z * option error;
  time_Since : Z
}.

(** The calls of these operations: those of [Event], and the two polls. *)
Inductive Call : Type :=
| Base (e : Event)
| CallPollSubnet (txID : ID)
| CallPollBlockchain (subnetID blockchainID : ID).

Definition MC (A : Type) : Type := list Call * option A.

Definition retC {A : Type} (a : A) : MC A := ([], Some a).
Definition panicC {A : Type} : MC A := ([], None).
Definition call (c : Call) : MC unit := ([c], Some tt).
Definition lift {A : Type} (m : M A) : MC A := (map Base (fst m), snd m).

Definition bindC {A B : Type} (m : MC A) (k : A -> MC B) : MC B :=
  match m with
  | (t, None) => (t, None)
  | (t, Some a) => let '(t', b) := k a in (t ++ t', b)
  end.

Notation "x <~~ m ;; k" := (bindC m (fun x => k))
  (at level 61, m at next level, right associativity).
Notation "m >>> k" := (bindC m (fun _ => k))
  (at level 61, right associativity).

(** A [time.Duration] is an int64. *)
Definition wrap_int64 (z : Z) : Z := (z + 2 ^ 63) mod 2 ^ 64 - 2 ^ 63.

(** [CreateSubnet]: the subnet ID, the duration and the error. *)
Definition CreateSubnet (pc : p) (sv : services) (cd : Codec) (k : Key)
  (opts : list OpOption) : MC (ID * Z * option error) :=
  let ret := applyOpts Op0 opts in
  call (Base EvGetTxFee) >>>
  match info_GetTxFee pc with
  | Err err => retC (Empty, 0, Some err)
  | Ok _ =>
      let createSubnetTxFee := CreateSubnetTxFee sv in
      sr <~~ lift (stake pc cd k createSubnetTxFee []) ;;
      match r_err sr with
      | Some err => retC (Empty, 0, Some err)
      | None =>
          match first_address k with
          | None => panicC
          | Some a =>
              let utx :=
                UnsignedCreateSubnetTx
                  (mkBaseTx (networkID pc) (pChainID pc)
                     (r_ins sr) (r_returnedOuts sr))
                  (OwnerOutputOwners (mkOwners 0 1 [a])) in
              let pTx := mkTx utx [] [] [] [] in
              call (Base EvSign) >>>
              match Sign k pTx (r_signers sr) with
              | None => panicC
              | Some (_, Some err) => retC (Empty, 0, Some err)
              | Some (pTx', None) =>
                  match SyntacticVerify pc utx with
                  | Some err => retC (Empty, 0, Some err)
                  | None =>
                      let subnetID := tx_id pTx' in
                      if dryMode ret then retC (subnetID, 0, None)
                      else
                        call (Base (EvIssueTx (tx_bytes pTx'))) >>>
                        match cli_IssueTx pc (tx_bytes pTx') with
                        | Err err =>
                            retC (subnetID, 0,
                                  Some (Errorf "failed to issue tx"%string
                                          err))
                        | Ok txID =>
                            if negb (bytes_eqb txID subnetID)
                            then retC (subnetID, 0,
                                       Some ErrUnexpectedSubnetID)
                            else
                              call (CallPollSubnet txID) >>>
                              let '(took, err) :=
                                checker_PollSubnet sv txID in
                              retC (txID, took, err)
                        end
                  end
              end
          end
      end
  end.

(** [CreateBlockchain]: the blockchain ID, the duration and the error. *)
Definition CreateBlockchain (pc : p) (sv : services) (cd : Codec) (k : Key)
  (subnetID : ID) (chainName : String.string) (vmID : ID)
  (vmGenesis : list byte) (opts : list OpOption)
  : MC (ID * Z * option error) :=
  let ret := applyOpts Op0 opts in
  if bytes_eqb subnetID Empty then retC (Empty, 0, Some ErrEmptyID)
  else if bytes_eqb vmID Empty then retC (Empty, 0, Some ErrEmptyID)
  else
    call (Base EvGetTxFee) >>>
    match info_GetTxFee pc with
    | Err err => retC (Empty, 0, Some err)
    | Ok _ =>
        let createBlkChainTxFee := CreateBlockchainTxFee sv in
        sr <~~ lift (stake pc cd k createBlkChainTxFee []) ;;
        match r_err sr with
        | Some err => retC (Empty, 0, Some err)
        | None =>
            ar <~~ lift (authorize pc cd k subnetID) ;;
            match ar with
            | Err err => retC (Empty, 0, Some err)
            | Ok (subnetAuth, subnetSigners) =>
                let signers := r_signers sr ++ [subnetSigners] in
                let utx :=
                  UnsignedCreateChainTx
                    (mkBaseTx (networkID pc) (pChainID pc)
                       (r_ins sr) (r_returnedOuts sr))
                    subnetID chainName vmID vmGenesis subnetAuth in
                let pTx := mkTx utx [] [] [] [] in
                call (Base EvSign) >>>
                match Sign k pTx signers with
                | None => panicC
                | Some (_, Some err) => retC (Empty, 0, Some err)
                | Some (pTx', None) =>
                    match SyntacticVerify pc utx with
                    | Some err => retC (Empty, 0, Some err)
                    | None =>
                        call (Base (EvIssueTx (tx_bytes pTx'))) >>>
                        match cli_IssueTx pc (tx_bytes pTx') with
                        | Err err =>
                            retC (Empty, 0,
                                  Some (Errorf "failed to issue tx"%string
                                          err))
                        | Ok blkChainID =>
                            let took := time_Since sv in
                            if poll ret
                            then
                              call (CallPollBlockchain subnetID blkChainID)
                              >>>
                              let '(bTook, err) :=
                                checker_PollBlockchain sv subnetID
                                  blkChainID in
                              retC (blkChainID, wrap_int64 (took + bTook),
                                    err)
                            else retC (blkChainID, took, None)
                        end
                    end
                end
            end
        end
    end.

End client.

(** ** Package cmd: common.go *)

Module cmd.

Record ValInfo : Type := mkValInfo {
  vi_start : client.Time;
  vi_end : client.Time
}.

(** The fields of [Info] that [ParseNodeIDs] reads and writes; the map
    [valInfos], which [InitClient] makes empty, as a function of the
    key. *)
Record Info : Type := mkInfo {
  subnetID : ID;
  nodeIDs : list ShortID;
  allNodeIDs : list ShortID;
  valInfos : ShortID -> option ValInfo
}.

(** [m[k] = v]. *)
Definition map_set (m : ShortID -> option ValInfo) (k : ShortID)
  (v : ValInfo) : ShortID -> option ValInfo :=
  fun k' => if bytes_eqb k' k then Some v else m k'.

(** The zero value [time.Time{}]: January 1 of year 1. *)
Definition zeroTime : client.Time := client.time_Unix (-62135596800) 0.

(** The loop of [ParseNodeIDs] from index [idx] on.  [parse] is
    [ids.ShortFromPrefixedString] with the node ID prefix, of the node
    library. *)
Fixpoint ParseNodeIDs_loop (pc : client.p)
  (parse : String.string -> result ShortID)
  (rnodeIDs : list String.string) (idx : nat) (i : Info)
  : client.M (Info * option error) :=
  match rnodeIDs with
  | [] => client.ret (i, None)
  | rnodeID :: rest =>
      match parse rnodeID with
      | Err err => client.ret (i, Some err)
      | Ok nodeID =>
          let i1 :=
            mkInfo (subnetID i) (nodeIDs i)
              (sort.set_nth (allNodeIDs i) idx nodeID) (valInfos i) in
          client.bindM (client.GetValidator pc (subnetID i1) nodeID)
            (fun r =>
               let '(start, end_) :=
                 match r with
                 | Ok (s, e) => (s, e)
                 | Err _ => (zeroTime, zeroTime)
                 end in
               let i2 :=
                 mkInfo (subnetID i1) (nodeIDs i1) (allNodeIDs i1)
                   (map_set (valInfos i1) nodeID (mkValInfo start end_)) in
               match r with
               | Err err =>
                   if errors_Is err ErrValidatorNotFound
                   then
                     ParseNodeIDs_loop pc parse rest (S idx)
                       (mkInfo (subnetID i2) (nodeIDs i2 ++ [nodeID])
                          (allNodeIDs i2) (valInfos i2))
                   else client.ret (i2, Some err)
               | Ok _ => ParseNodeIDs_loop pc parse rest (S idx) i2
               end)
      end
  end.

(** [ParseNodeIDs]; [rnodeIDs] is the package variable [nodeIDs], the node
    IDs of the command line. *)
Definition ParseNodeIDs (pc : client.p)
  (parse : String.string -> result ShortID)
  (rnodeIDs : list String.string) (i : Info)
  : client.M (Info * option error) :=
  ParseNodeIDs_loop pc parse rnodeIDs 0
    (mkInfo (subnetID i) [] (repeat client.ShortEmpty (length rnodeIDs))
       (valInfos i)).

End cmd.

(** ** Vocabulary of the properties *)

(** The positions of [addrs] (counted from [i]) that hold the address [a]:
    the addresses of an ownership spec that a single-address key
    controls. *)
Fixpoint positions (a : ShortID) (i : Z) (addrs : list ShortID) : list Z :=
  match addrs with
  | [] => []
  | x :: rest =>
      if bytes_eqb x a then i :: positions a (i + 1) rest
      else positions a (i + 1) rest
  end.

(** What [sort.Sort] needs of a [Less] to sort: [lt] is asymmetric and
    "not after" ([lt b a = false]) is transitive. *)
Definition strict_weak_order {E : Type} (lt : E -> E -> bool) : Prop :=
  (forall a b, lt a b = true -> lt b a = false) /\
  (forall a b c, lt b a = false -> lt c b = false -> lt c a = false).

(** [l] is [l0] with the elements of [l0[a:b]] rearranged. *)
Definition perm_in {E : Type} (d0 : E) (a b : nat) (l0 l : list E) : Prop :=
  length l = length l0 /\ Permutation l0 l /\
  forall k, (k < a)%nat \/ (b <= k)%nat -> nth k l d0 = nth k l0 d0.

(** [l[a:b]] is ascending for [less]: no element is after a later one. *)
Definition sorted_in {E : Type} (less : E -> E -> bool) (d0 : E)
  (a b : nat) (l : list E) : Prop :=
  forall i j, (a <= i)%nat -> (i < j)%nat -> (j < b)%nat ->
    less (nth j l d0) (nth i l d0) = false.

(** A run [o1] follows a run that returned [r2]: it returns a result
    related to [r2] by [Q], or it panics, which [Tot] excludes. *)
Definition follows {A1 A2 : Type} (Tot : Prop) (Q : A1 -> A2 -> Prop)
  (o1 : option A1) (r2 : A2) : Prop :=
  match o1 with
  | Some r1 => Q r1 r2
  | None => ~ Tot
  end.

(** The order of two inputs by their source, as a three-way comparison:
    [key.input_Less a b] is [source_compare a b = Lt]. *)
Definition source_compare (a b : TransferableInput) : comparison :=
  match bytes_Compare (TxID (in_UTXOID a)) (TxID (in_UTXOID b)) with
  | Eq => OutputIndex (in_UTXOID a) ?= OutputIndex (in_UTXOID b)
  | c => c
  end.

(** [a] is not after [b]: ascending by transaction ID, then output index. *)
Definition source_le (a b : TransferableInput) : Prop :=
  key.input_Less b a = false.

(** The inputs of all the UTXOs of [outputs] that [spend] accepts at time
    [t], in the order of [outputs]. *)
Fixpoint spendable (spend : UTXO -> Z -> result TransferableIn) (t : Z)
  (outputs : list UTXO) : list TransferableInput :=
  match outputs with
  | [] => []
  | out :: rest =>
      match spend out t with
      | Ok input =>
          mkTransferableInput (utxo_UTXOID out) (utxo_Asset out) input
          :: spendable spend t rest
      | Err _ => spendable spend t rest
      end
  end.

(** Sums of amounts, as integers (no wrap-around). *)
Definition sum_inputs (l : list TransferableInput) : Z :=
  fold_right (fun i acc => Amount (in_In i) + acc) 0 l.

Definition sum_outputs (l : list TransferableOutput) : Z :=
  fold_right (fun o acc => OutAmount (out_Out o) + acc) 0 l.

(** The amounts of these inputs are uint64 values. *)
Definition amounts_ok (l : list TransferableInput) : Prop :=
  Forall (fun i => is_uint64 (Amount (in_In i))) l.

(** The contract of [Spends]: at most one input per UTXO, and one signer
    list per input. *)
Definition key_contract (k : Key) : Prop :=
  forall us opts,
    length (snd (Spends k us opts)) = length (snd (fst (Spends k us opts)))
    /\ (length (snd (fst (Spends k us opts))) <= length us)%nat.

(** The inputs of [Spends] carry the ID of the UTXO they spend. *)
Definition key_sources (k : Key) : Prop :=
  forall u opts total in_ inputs sg,
    Spends k [u] opts = (total, in_ :: inputs, sg) ->
    in_UTXOID in_ = utxo_UTXOID u.

(** The inputs the key can make at [now] from the outputs of the client's
    asset that are not locked: what the second pass of [stake] can draw
    on.  Their sum is the value spendable by the key. *)
Fixpoint unlocked_inputs (pc : client.p) (k : Key) (now : Z)
  (utxos : list UTXO) : list TransferableInput :=
  match utxos with
  | [] => []
  | utxo :: rest =>
      (if bytes_eqb (utxo_Asset utxo) (client.assetID pc)
       then
         match client.unwrap now utxo with
         | Some utxo' =>
             match snd (fst (Spends k [utxo'] [key.WithTime now])) with
             | in_ :: _ => [in_]
             | [] => []
             end
         | None => []
         end
       else [])
      ++ unlocked_inputs pc k now rest
  end.

(** What [stake] may do to a UTXO of its slice: nothing, or replace an
    elapsed stake lock on an output of the client's asset by the output it
    wraps. *)
Definition left_or_unwrapped (pc : client.p) (now : Z) (u u' : UTXO)
  : Prop :=
  u' = u \/
  (utxo_Asset u = client.assetID pc /\
   exists lockTime inner,
     Out u = StakeableLockOut lockTime inner /\ lockTime <= now /\
     u' = mkUTXO (utxo_UTXOID u) (utxo_Asset u) inner).

(** The accounting invariant of the two passes of [stake] for a stake
    target [S] and a fee [F]: the counters are within their targets, the
    staked outputs add up to [amountStaked], and the inputs consumed pay
    for the returned outputs, the stake and the burn. *)
Definition balanced (S F : Z) (st : client.Selection) : Prop :=
  0 <= client.amountStaked st <= S /\
  0 <= client.amountBurned st <= F /\
  sum_outputs (client.sel_stakedOuts st) = client.amountStaked st /\
  sum_inputs (client.sel_ins st) =
    sum_outputs (client.sel_returnedOuts st) + client.amountStaked st
    + client.amountBurned st.

(** An input and a signer list that the key returned together, for one
    UTXO, at time [now]. *)
Definition paired (k : Key) (now : Z)
  (p : TransferableInput * list ShortID) : Prop :=
  exists u total,
    Spends k [u] [key.WithTime now] = (total, [fst p], [snd p]).

(** The list of inputs and the list of signers go together. *)
Definition aligned (k : Key) (now : Z) (ins : list TransferableInput)
  (signers : list (list ShortID)) : Prop :=
  length ins = length signers /\
  Forall (paired k now) (combine ins signers).

(** A hexadecimal digit; a printable character for [readASCII] (not below
    ['!']). *)
Definition is_hex (c : byte) : bool :=
  match key.fromHexChar c with
  | Some _ => true
  | None => false
  end.

Definition printable (c : byte) : bool := (33 <=? Byte.to_N c)%N.


(** A line ending: newline or carriage return. *)
Definition is_eol (b : byte) : bool := Byte.eqb b x0a || Byte.eqb b x0d.

(** An encoded private key starts with [PrivateKey-]. *)
Definition is_prefix_of_encoded (enc : list byte) : Prop :=
  exists t, enc = key.privKeyEncPfx ++ t.

(** The selection after one iteration of the first loop of [stake] that
    takes the input [in_] of an output locked until [lockTime]. *)
Definition pass1_step (pc : client.p) (ret : client.Op)
  (st : client.Selection) (lockTime : Z) (owners : OutputOwners)
  (in_ : TransferableInput) (inputSigners : list (list ShortID))
  : client.Selection :=
  let remainingValue := Amount (in_In in_) in
  let amountToStake :=
    Min64 (wrap64 (client.stakeAmt ret - client.amountStaked st))
      remainingValue in
  let remainingValue' := wrap64 (remainingValue - amountToStake) in
  client.mkSelection (client.sel_ins st ++ [in_])
    (if remainingValue' >? 0
     then client.sel_returnedOuts st ++
          [client.change_output pc ret remainingValue']
     else client.sel_returnedOuts st)
    (client.sel_stakedOuts st ++
     [mkTransferableOutput (client.assetID pc)
        (StakeableLockOut lockTime (TransferOutput amountToStake owners))])
    (client.sel_signers st ++ inputSigners)
    (wrap64 (client.amountStaked st + amountToStake))
    (client.amountBurned st).

(** The selection after one iteration of the second loop of [stake] that
    takes the input [in_]. *)
Definition pass2_step (pc : client.p) (ret : client.Op) (fee : Z)
  (st : client.Selection) (in_ : TransferableInput)
  (inputSigners : list (list ShortID)) : client.Selection :=
  let remainingValue := Amount (in_In in_) in
  let amountToBurn :=
    Min64 (wrap64 (fee - client.amountBurned st)) remainingValue in
  let remainingValue1 := wrap64 (remainingValue - amountToBurn) in
  let amountToStake :=
    Min64 (wrap64 (client.stakeAmt ret - client.amountStaked st))
      remainingValue1 in
  let remainingValue2 := wrap64 (remainingValue1 - amountToStake) in
  client.mkSelection (client.sel_ins st ++ [in_])
    (if remainingValue2 >? 0
     then client.sel_returnedOuts st ++
          [client.change_output pc ret remainingValue2]
     else client.sel_returnedOuts st)
    (if amountToStake >? 0
     then client.sel_stakedOuts st ++
          [client.change_output pc ret amountToStake]
     else client.sel_stakedOuts st)
    (client.sel_signers st ++ inputSigners)
    (wrap64 (client.amountStaked st + amountToStake))
    (wrap64 (client.amountBurned st + amountToBurn)).

(** The change address [stake] works with: the one of the options, or the
    first address of the key when the options give none. *)
Definition effective_change (k : Key) (op : client.Op) (c : ShortID) : Prop :=
  if bytes_eqb (client.changeAddr op) client.ShortEmpty
  then client.first_address k = Some c
  else c = client.changeAddr op.

(** A plain transfer of a positive amount of the client's asset to [c]. *)
Definition is_change (pc : client.p) (c : ShortID) (o : TransferableOutput)
  : Prop :=
  exists amt,
    0 < amt /\
    o = mkTransferableOutput (client.assetID pc)
          (TransferOutput amt (mkOwners 0 1 [c])).

(** An output of the client's asset locked again until [lockTime], which
    lies after [now]. *)
Definition is_relock (pc : client.p) (now : Z) (o : TransferableOutput)
  : Prop :=
  exists lockTime amt owners,
    now < lockTime /\
    o = mkTransferableOutput (client.assetID pc)
          (StakeableLockOut lockTime (TransferOutput amt owners)).

(** A UTXO under a stake lock that has not elapsed at [now]. *)
Definition locked (now : Z) (u : UTXO) : bool :=
  match Out u with
  | StakeableLockOut lockTime _ => lockTime >? now
  | _ => false
  end.

(** The subnet [GetValidator] asks the node about: the primary network
    when no subnet ID is given. *)
Definition lookup_subnet (pc : client.p) (rsubnetID : ID) : ID :=
  if bytes_eqb rsubnetID client.Empty then client.PrimaryNetworkID pc
  else rsubnetID.

(** A well-formed validator record of another node. *)
Definition other_node (pc : client.p) (nodeID : ShortID) (v : client.JSON)
  : Prop :=
  exists va s,
    v = client.JObject va /\
    client.lookup "nodeID" va = Some (client.JString s) /\
    s <> client.PrefixedString pc nodeID.

(** The times of a record are not both strings: the start time is not, or
    it is a number and the end time is not. *)
Definition bad_times (va : list (String.string * client.JValue)) : Prop :=
  (forall ds, client.lookup "startTime" va <> Some (client.JString ds)) \/
  (exists ds s,
     client.lookup "startTime" va = Some (client.JString ds) /\
     client.ParseInt ds = Ok s /\
     forall de, client.lookup "endTime" va <> Some (client.JString de)).

(** A record that is not an object, or has no node ID that is a string. *)
Definition malformed (v : client.JSON) : Prop :=
  match v with
  | client.JNotObject => True
  | client.JObject va =>
      match client.lookup "nodeID" va with
      | Some (client.JString _) => False
      | _ => True
      end
  end.


(** The calls of [AddValidator] before it issues the transaction. *)
Definition validator_calls (pc : client.p) (nodeID : ShortID)
  : list client.Event :=
  [client.EvGetCurrentValidators (client.PrimaryNetworkID pc) nodeID;
   client.EvGetAtomicUTXOs; client.EvSign].

(** What follows the call that issues [b]: nothing when the node refuses
    the transaction, one poll of the transaction ID when it accepts it,
    whose answer is the result [o] of the operation. *)
Definition issue_then_poll (pc : client.p) (b : list byte)
  (calls t : list client.Event) (o : option (Z * option error)) : Prop :=
  match client.cli_IssueTx pc b with
  | Err err =>
      t = calls ++ [client.EvIssueTx b] /\
      o = Some (0, Some (Errorf "failed to issue tx" err))
  | Ok txID =>
      t = calls ++ [client.EvIssueTx b; client.EvPollTx txID] /\
      o = Some (client.checker_PollTx pc txID)
  end.

(** The stake amount [AddValidator] works with: the one of the options,
    or the default of the network when the options give none. *)
Definition default_stake (pc : client.p) (amt : Z) : Z :=
  if amt =? 0
  then
    if String.eqb (client.networkName pc) (client.MainnetName pc)
    then 2000 * client.units_Djtx pc
    else if String.eqb (client.networkName pc) (client.LocalName pc) ||
            String.eqb (client.networkName pc) (client.TahoeName pc)
    then 1 * client.units_Djtx pc
    else amt
  else amt.

(** The calls of [CreateSubnet] before it issues the transaction. *)
Definition create_subnet_calls : list client.Call :=
  [client.Base client.EvGetTxFee; client.Base client.EvGetAtomicUTXOs;
   client.Base client.EvSign].

(** The calls of [CreateBlockchain] before it issues the transaction. *)
Definition create_blockchain_calls (subnetID : ID) : list client.Call :=
  [client.Base client.EvGetTxFee; client.Base client.EvGetAtomicUTXOs;
   client.Base (client.EvGetTx subnetID); client.Base client.EvSign].

(** The lookup says that the node does not validate the subnet yet. *)
Definition not_yet_validator (pc : client.p) (subnetID : ID)
  (nodeID : ShortID) : bool :=
  match snd (client.GetValidator pc subnetID nodeID) with
  | Some (Err e) => errors_Is e ErrValidatorNotFound
  | _ => false
  end.

(** The period the lookup returns, the zero times when it fails. *)
Definition period_of (pc : client.p) (subnetID : ID) (nodeID : ShortID)
  : cmd.ValInfo :=
  match snd (client.GetValidator pc subnetID nodeID) with
  | Some (Ok (s, e)) => cmd.mkValInfo s e
  | _ => cmd.mkValInfo cmd.zeroTime cmd.zeroTime
  end.

(** ** Concrete values for the examples *)

Module fixture.

Definition addr1 : ShortID := repeat x01 20.
Definition addr2 : ShortID := repeat x02 20.
Definition djtxAsset : ID := repeat x0a 32.
Definition otherAsset : ID := repeat x0b 32.
Definition txA : ID := repeat x01 32.
Definition txB : ID := repeat x02 32.

(** A device that signs every hash with 65 bytes [x07]. *)
Definition ledger1 : key.Ledger :=
  key.mkLedger (fun _ _ => Ok [repeat x07 65]).

(** A device that refuses to sign. *)
Definition ledgerRefuses : key.Ledger :=
  key.mkLedger (fun _ _ => Err (ExternalError 7)).

Definition hard1 : key.HardKey := key.mkHardKey ledger1 0 addr1 "P-addr1".

(** A codec whose encodings are short tags; it decodes a UTXO from a table
    by its first byte. *)
Definition codecOf (table : list UTXO) : Codec :=
  mkCodec
    (fun _ => Ok [x01])
    (fun _ creds => Ok (x02 :: concat (concat (map Sigs creds))))
    (fun o => Ok [x03])
    (fun ub =>
       match ub with
       | b :: _ =>
           match nth_error table (Byte.to_nat b) with
           | Some u => Ok u
           | None => Err (ExternalError 2)
           end
       | [] => Err (ExternalError 2)
       end)
    (fun _ => Err (ExternalError 3))
    (fun bs => x00 :: bs).

(** The hardware key behind the [Key] interface: [Spends] and [Match] go
    through the functions of the hardware key; every input is signed by
    the one address of the key. *)
Definition keyOf (cd : Codec) (h : key.HardKey) : Key :=
  mkKey [key.pAddr h] [key.shortAddr h]
    (fun owners t =>
       let '(sigs, ok) := key.hard_match h owners t in
       (sigs, map (fun _ => key.shortAddr h) sigs, ok))
    (fun outputs opts =>
       match key.HardKey_Spends h outputs opts with
       | Some (total, inputs) =>
           (total, inputs, map (fun _ => [key.shortAddr h]) inputs)
       | None => (0, [], [])
       end)
    (fun pTx signers => snd (key.HardKey_Sign cd h pTx (len signers))).

Definition owners1 : OutputOwners := mkOwners 0 1 [addr1].

(** A node that holds [n] UTXOs (the bytes of UTXO [i] are the byte [i]),
    knows no validator, and charges [fee]. *)
Definition nodeOf (n : nat) (fee now : Z)
  (validators : ID -> list ShortID -> result (list client.JSON)) : client.p :=
  client.mkP "local" 12345 djtxAsset (repeat x00 32)
    (fun _ =>
       Ok (map (fun i => match Byte.of_nat i with
                         | Some b => [b]
                         | None => []
                         end) (seq 0 n)))
    validators
    (fun _ => Err (ExternalError 4))
    (fun bs => Ok bs)
    (Ok fee)
    (fun _ => (1, None))
    (fun _ => "NodeID-1"%string)
    (fun _ => None)
    client.Empty
    "mainnet" "local" "tahoe" (10 ^ 9)
    now now.

Definition noValidators : ID -> list ShortID -> result (list client.JSON) :=
  fun _ _ => Ok [].

(** A node library without CB58 (every decoding fails), whose key factory
    accepts any bytes. *)
Definition libHex : key.Lib :=
  key.mkLib
    (fun _ => Err (ExternalError 5))
    (fun bs => Ok bs)
    (fun bs => Ok (key.mkPrivateKey bs))
    (Err (ExternalError 6))
    (fun pk => firstn 20 (key.Bytes pk))
    (fun _ _ a => Ok a)
    12345 5 1
    (list_byte_of_string "local") (list_byte_of_string "tahoe")
    (list_byte_of_string "dijets") (list_byte_of_string "custom").

(** 64 hexadecimal characters. *)
Definition hex64 : list byte :=
  list_byte_of_string
    "56289e99c94b6912bfc12adc093c9b51124f0dc54ac7a766b2bc5ccf558d8027".

(** 64 printable characters, not all hexadecimal. *)
Definition notHex64 : list byte :=
  list_byte_of_string
    "zz289e99c94b6912bfc12adc093c9b51124f0dc54ac7a766b2bc5ccf558d8027".

Definition subnetX : ID := repeat x05 32.
Definition nodeN : ShortID := repeat x09 20.

(** A node on which every validator lookup fails with a network error. *)
Definition nodeDown : client.p :=
  nodeOf 0 100 100 (fun _ _ => Err (ExternalError 9)).

(** A node that knows [nodeN] as a validator of the primary network from
    second 1000 to second 2000, and of no subnet. *)
Definition primaryOnly : ID -> list ShortID -> result (list client.JSON) :=
  fun subnetID _ =>
    if bytes_eqb subnetID client.Empty
    then Ok [client.JObject
               [("nodeID"%string, client.JString "NodeID-1");
                ("startTime"%string, client.JString "1000");
                ("endTime"%string, client.JString "2000")]]
    else Ok [].

Definition nodeUp : client.p := nodeOf 0 100 100 primaryOnly.

(** An unsigned subnet-creation transaction with no credentials yet. *)
Definition tx0 : Tx :=
  mkTx (UnsignedCreateSubnetTx
          (mkBaseTx 12345 (repeat x00 32) [] [])
          (OwnerOutputOwners (mkOwners 0 1 [addr1])))
    [] [] [] [].

Definition owners2 : OutputOwners := mkOwners 0 1 [addr2].

(** Two of four addresses are the key's; spendable from time 50 on. *)
Definition ownersMulti : OutputOwners :=
  mkOwners 50 2 [addr1; addr2; addr1; addr1].

(** One unlocked output of 2500 of the client's asset, owned by the key. *)
Definition utxo2500 : UTXO :=
  mkUTXO (mkUTXOID txA 0) djtxAsset (TransferOutput 2500 owners1).

(** One unlocked output of 60, owned by the key. *)
Definition utxo60 : UTXO :=
  mkUTXO (mkUTXOID txB 1) djtxAsset (TransferOutput 60 owners1).

(** A stake lock that elapsed at time 50, on an output of another
    owner. *)
Definition utxoElapsed : UTXO :=
  mkUTXO (mkUTXOID txB 0) djtxAsset
    (StakeableLockOut 50 (TransferOutput 700 owners2)).

(** The clock of the examples reads 100. *)
Definition cdB : Codec := codecOf [utxo2500].
Definition keyB : Key := keyOf cdB hard1.
Definition nodeB : client.p := nodeOf 1 100 100 noValidators.

Definition cd0 : Codec := codecOf [].
Definition key0 : Key := keyOf cd0 hard1.
Definition node0 : client.p := nodeOf 0 100 100 noValidators.

Definition cdE : Codec := codecOf [utxoElapsed].
Definition keyE : Key := keyOf cdE hard1.
Definition nodeE : client.p := nodeOf 1 100 100 noValidators.

Definition cd60 : Codec := codecOf [utxo60].
Definition key60 : Key := keyOf cd60 hard1.
Definition node60 : client.p := nodeOf 1 100 100 noValidators.

(** A node that returns the output of 60 before the output of 2500, whose
    source comes first. *)
Definition cdTwo : Codec := codecOf [utxo60; utxo2500].
Definition keyTwo : Key := keyOf cdTwo hard1.
Definition nodeTwo : client.p := nodeOf 2 100 100 noValidators.

(** A library whose CB58 is the identity. *)
Definition libCB : key.Lib :=
  key.mkLib
    (fun bs => Ok bs)
    (fun bs => Ok bs)
    (fun bs => Ok (key.mkPrivateKey bs))
    (Err (ExternalError 6))
    (fun pk => firstn 20 (key.Bytes pk))
    (fun _ _ a => Ok a)
    12345 5 1
    (list_byte_of_string "local") (list_byte_of_string "tahoe")
    (list_byte_of_string "dijets") (list_byte_of_string "custom").

(** A private key of 32 bytes. *)
Definition pk32 : key.PrivateKey := key.mkPrivateKey (repeat x2a 32).

(** A codec that decodes every transaction as [tx0], and a node that holds
    one UTXO of 2500, knows [nodeN] as a validator of the primary network,
    charges a fee of 100 and accepts every transaction. *)
Definition cdFull : Codec :=
  mkCodec
    (fun _ => Ok [x01])
    (fun _ creds => Ok (x02 :: concat (concat (map Sigs creds))))
    (fun o => Ok [x03])
    (fun _ => Ok utxo2500)
    (fun _ => Ok tx0)
    (fun bs => x00 :: bs).

Definition keyFull : Key := keyOf cdFull hard1.

Definition nodeFull : client.p :=
  client.mkP "local" 12345 djtxAsset (repeat x00 32)
    (fun _ => Ok [[x00]])
    primaryOnly
    (fun _ => Ok [x01])
    (fun bs => Ok bs)
    (Ok 100)
    (fun _ => (1, None))
    (fun _ => "NodeID-1"%string)
    (fun _ => None)
    client.Empty
    "mainnet" "local" "tahoe" (10 ^ 9)
    100 100.

(** The same node without any validator. *)
Definition nodeFresh : client.p :=
  client.mkP "local" 12345 djtxAsset (repeat x00 32)
    (fun _ => Ok [[x00]])
    noValidators
    (fun _ => Ok [x01])
    (fun bs => Ok bs)
    (Ok 100)
    (fun _ => (1, None))
    (fun _ => "NodeID-1"%string)
    (fun _ => None)
    client.Empty
    "mainnet" "local" "tahoe" 1000
    100 100.

(** The other services: fees of 100, polls that succeed. *)
Definition svc : client.services :=
  client.mkServices 100 100 (fun _ => (7, None)) (fun _ _ => (9, None)) 5.

(** A node like [nodeFull] that answers a transaction with its ID, the
    hash of its bytes. *)
Definition nodeHash : client.p :=
  client.mkP "local" 12345 djtxAsset (repeat x00 32)
    (fun _ => Ok [[x00]])
    primaryOnly
    (fun _ => Ok [x01])
    (fun bs => Ok (x00 :: bs))
    (Ok 100)
    (fun _ => (1, None))
    (fun _ => "NodeID-1"%string)
    (fun _ => None)
    client.Empty
    "mainnet" "local" "tahoe" (10 ^ 9)
    100 100.

End fixture.

(* ================================================================= *)
(** * Part II: the properties *)
(* ================================================================= *)

(** ** Bytes *)

Lemma bytes_eqb_eq (a b : list byte) : bytes_eqb a b = true <-> a = b.
Proof.
  revert b; induction a as [|x a IH]; intros [|y b]; simpl;
    try (split; [discriminate | congruence]); try tauto.
  rewrite andb_true_iff, IH.
  split.
  - intros [E ->]. apply Byte.byte_dec_bl in E. congruence.
  - intros E; inversion E; subst. split; [apply Byte.byte_dec_lb|]; reflexivity.
Qed.

Lemma firstn_incl {A : Type} (n : nat) (l : list A) (x : A) :
  In x (firstn n l) -> In x l.
Proof.
  intros H. rewrite <- (firstn_skipn n l). apply in_or_app. left; exact H.
Qed.

(** ** [match] of the hardware key *)

Section HardMatch.

Variable h : key.HardKey.

Lemma positions_lower (i : Z) (addrs : list ShortID) :
  Forall (fun p => i <= p) (positions (key.shortAddr h) i addrs).
Proof.
  revert i; induction addrs as [|x rest IH]; intros i; simpl; [constructor|].
  assert (Forall (fun p => i <= p) (positions (key.shortAddr h) (i + 1) rest)).
  { eapply Forall_impl; [|apply IH]. simpl; intros; lia. }
  destruct (bytes_eqb x (key.shortAddr h)); [constructor; [lia|]|]; assumption.
Qed.

Lemma positions_sorted (i : Z) (addrs : list ShortID) :
  StronglySorted Z.lt (positions (key.shortAddr h) i addrs).
Proof.
  revert i; induction addrs as [|x rest IH]; intros i; simpl; [constructor|].
  destruct (bytes_eqb x (key.shortAddr h)); [|apply IH].
  constructor; [apply IH|].
  eapply Forall_impl; [|apply (positions_lower (i + 1))]. simpl; intros; lia.
Qed.

Lemma positions_nth (i : Z) (addrs : list ShortID) :
  Forall (fun p => i <= p /\
            nth_error addrs (Z.to_nat (p - i)) = Some (key.shortAddr h))
         (positions (key.shortAddr h) i addrs).
Proof.
  revert i; induction addrs as [|x rest IH]; intros i; simpl; [constructor|].
  assert (T : Forall (fun p => i <= p /\
            nth_error (x :: rest) (Z.to_nat (p - i)) = Some (key.shortAddr h))
            (positions (key.shortAddr h) (i + 1) rest)).
  { eapply Forall_impl; [|apply (IH (i + 1))]. simpl; intros p [Hp Hn].
    split; [lia|].
    replace (Z.to_nat (p - i)) with (S (Z.to_nat (p - (i + 1)))) by lia.
    exact Hn. }
  destruct (bytes_eqb x (key.shortAddr h)) eqn:E; [|exact T].
  constructor; [|exact T]. split; [lia|].
  replace (Z.to_nat (i - i)) with O by lia. simpl.
  apply bytes_eqb_eq in E. congruence.
Qed.

Lemma match_loop_spec (t n : Z) (rest : list ShortID) :
  forall (i : Z) (sigs : list Z),
    is_uint32 t -> n < 2 ^ 32 -> 0 <= i -> i + len rest = n ->
    len sigs <= t ->
    key.match_loop h t n rest i sigs =
    sigs ++ firstn (Z.to_nat (t - len sigs))
              (positions (key.shortAddr h) i rest).
Proof.
  unfold is_uint32, len.
  induction rest as [|a rest IH]; intros i sigs Ht Hn Hi Hlen Hs; simpl.
  - rewrite firstn_nil, app_nil_r; reflexivity.
  - simpl length in Hlen.
    assert (Hw : wrap32 (len sigs) = len sigs).
    { unfold wrap32, len. apply Z.mod_small. lia. }
    assert (Hi1 : wrap32 (i + 1) = i + 1).
    { unfold wrap32. apply Z.mod_small. lia. }
    rewrite Hw, Hi1. unfold len.
    replace (i <? n) with true by (symmetry; apply Z.ltb_lt; lia). simpl.
    destruct (Z.ltb_spec (Z.of_nat (length sigs)) t) as [Hlt|Hge].
    + destruct (bytes_eqb a (key.shortAddr h)).
      * rewrite IH; try lia.
        2:{ rewrite length_app; simpl; lia. }
        rewrite length_app; simpl. rewrite <- app_assoc. f_equal.
        replace (Z.to_nat (t - Z.of_nat (length sigs)))
          with (S (Z.to_nat (t - Z.of_nat (length sigs + 1)))) by lia.
        reflexivity.
      * apply IH; lia.
    + replace (Z.to_nat (t - Z.of_nat (length sigs))) with O by lia.
      simpl. rewrite app_nil_r. reflexivity.
Qed.

Lemma hard_match_unlocked (owners : OutputOwners) (time : Z) :
  is_uint32 (Threshold owners) -> len (Addrs owners) < 2 ^ 32 ->
  Locktime owners <= time ->
  key.hard_match h owners time =
  (firstn (Z.to_nat (Threshold owners))
     (positions (key.shortAddr h) 0 (Addrs owners)),
   Threshold owners <=? len (positions (key.shortAddr h) 0 (Addrs owners))).
Proof.
  intros Ht Hn Hl. unfold key.hard_match.
  replace (time <? Locktime owners) with false
    by (symmetry; apply Z.ltb_ge; lia).
  assert (Hw : wrap32 (len (Addrs owners)) = len (Addrs owners)).
  { unfold wrap32. apply Z.mod_small. unfold len in *. lia. }
  rewrite Hw, match_loop_spec; try (unfold len; simpl; lia); try assumption.
  2:{ unfold is_uint32, len in *; simpl; lia. }
  simpl app. replace (Threshold owners - len (@nil Z)) with (Threshold owners)
    by (unfold len; simpl; lia).
  f_equal. unfold is_uint32 in Ht.
  set (ps := positions _ _ _).
  assert (Hf : len (firstn (Z.to_nat (Threshold owners)) ps)
               = Z.min (Threshold owners) (len ps)).
  { unfold len. rewrite length_firstn. lia. }
  assert (Hw2 : wrap32 (len (firstn (Z.to_nat (Threshold owners)) ps))
                = Z.min (Threshold owners) (len ps)).
  { rewrite Hf. unfold wrap32. apply Z.mod_small. unfold len. lia. }
  rewrite Hw2.
  destruct (Z.leb_spec (Threshold owners) (len ps));
    [apply Z.eqb_eq | apply Z.eqb_neq]; lia.
Qed.

End HardMatch.

(** C5.  [match] on an ownership spec with threshold [T] (a uint32) at time
    [t] answers [ok = true] exactly when the key's address occupies at least
    [T] positions of the address list and the lock time is not after [t];
    the indices it then returns are the first [T] such positions: exactly
    [T] of them, strictly ascending, each pointing at the key's address. *)
Theorem hard_match_threshold (h : key.HardKey) (owners : OutputOwners)
  (t : Z)
  (HT : is_uint32 (Threshold owners))
  (HN : len (Addrs owners) < 2 ^ 32) :
  let controlled := positions (key.shortAddr h) 0 (Addrs owners) in
  let sigs := fst (key.hard_match h owners t) in
  let ok := snd (key.hard_match h owners t) in
  (ok = true <-> Threshold owners <= len controlled /\ Locktime owners <= t)
  /\ (ok = true ->
      len sigs = Threshold owners
      /\ sigs = firstn (Z.to_nat (Threshold owners)) controlled
      /\ StronglySorted Z.lt sigs
      /\ Forall (fun i => 0 <= i /\
                   nth_error (Addrs owners) (Z.to_nat i)
                   = Some (key.shortAddr h)) sigs).
Proof.
  cbv zeta.
  destruct (Z.ltb_spec t (Locktime owners)) as [Hlock|Hfree].
  - assert (E : key.hard_match h owners t = ([], false)).
    { unfold key.hard_match.
      replace (t <? Locktime owners) with true
        by (symmetry; apply Z.ltb_lt; lia). reflexivity. }
    rewrite E; simpl. split; [split; [discriminate | lia] | discriminate].
  - rewrite (hard_match_unlocked h owners t HT HN Hfree). simpl.
    split.
    + rewrite Z.leb_le. intuition lia.
    + intros Hok. apply Z.leb_le in Hok.
      set (ps := positions (key.shortAddr h) 0 (Addrs owners)) in *.
      repeat split.
      * unfold len in *. rewrite length_firstn. unfold is_uint32 in HT. lia.
      * clear Hok. unfold ps.
        generalize (positions_sorted h 0 (Addrs owners)).
        generalize (positions (key.shortAddr h) 0 (Addrs owners)).
        generalize (Z.to_nat (Threshold owners)).
        intros n l Hs; revert n; induction Hs as [|a l Hs IH Ha];
          intros [|n]; simpl; try constructor.
        -- apply IH.
        -- rewrite Forall_forall in *. intros x Hx.
           apply Ha. eapply firstn_incl; eauto.
      * apply Forall_forall. intros x Hx.
        pose proof (positions_nth h 0 (Addrs owners)) as Hp.
        rewrite Forall_forall in Hp.
        apply firstn_incl in Hx. specialize (Hp x Hx).
        rewrite Z.sub_0_r in Hp. exact Hp.
Qed.

Lemma hard_match_threshold_witness :
  snd (key.hard_match fixture.hard1 fixture.ownersMulti 100) = true /\
  fst (key.hard_match fixture.hard1 fixture.ownersMulti 100) = [0; 2].
Proof.
  assert (HT : is_uint32 (Threshold fixture.ownersMulti))
    by (unfold is_uint32; simpl; lia).
  assert (HN : len (Addrs fixture.ownersMulti) < 2 ^ 32)
    by (unfold len; simpl; lia).
  destruct (hard_match_threshold fixture.hard1 fixture.ownersMulti 100 HT HN)
    as [Hiff Hok].
  assert (Htrue : snd (key.hard_match fixture.hard1 fixture.ownersMulti 100)
                  = true).
  { apply Hiff. split; [vm_compute; discriminate | simpl; lia]. }
  split; [exact Htrue|].
  destruct (Hok Htrue) as (_ & E & _). rewrite E. reflexivity.
Defined.

(** ** The order on input sources *)

Lemma to_N_inj (x y : byte) : Byte.to_N x = Byte.to_N y -> x = y.
Proof.
  intros E. pose proof (Byte.of_to_N x) as Hx. rewrite E, Byte.of_to_N in Hx.
  congruence.
Qed.

Lemma bytes_Compare_eq (a b : list byte) : bytes_Compare a b = Eq -> a = b.
Proof.
  revert b; induction a as [|x a IH]; intros [|y b]; simpl;
    try discriminate; auto.
  destruct (N.compare_spec (Byte.to_N x) (Byte.to_N y)) as [E| |];
    try discriminate.
  intros H. apply to_N_inj in E. apply IH in H. congruence.
Qed.

Lemma bytes_Compare_refl (a : list byte) : bytes_Compare a a = Eq.
Proof.
  induction a as [|x a IH]; simpl; auto. rewrite N.compare_refl. exact IH.
Qed.

Lemma bytes_Compare_antisym (a b : list byte) :
  bytes_Compare b a = CompOpp (bytes_Compare a b).
Proof.
  revert b; induction a as [|x a IH]; intros [|y b]; simpl; auto.
  rewrite (N.compare_antisym (Byte.to_N x) (Byte.to_N y)).
  destruct (Byte.to_N x ?= Byte.to_N y)%N; simpl; auto.
Qed.

Lemma bytes_Compare_trans (a b c : list byte) :
  bytes_Compare a b = Lt -> bytes_Compare b c = Lt -> bytes_Compare a c = Lt.
Proof.
  revert b c; induction a as [|x a IH]; intros [|y b] [|z c]; simpl;
    try discriminate; auto.
  destruct (N.compare_spec (Byte.to_N x) (Byte.to_N y)) as [E1|L1|G1];
    try discriminate;
  destruct (N.compare_spec (Byte.to_N y) (Byte.to_N z)) as [E2|L2|G2];
    try discriminate; intros H1 H2.
  - rewrite E1, E2, N.compare_refl. eauto.
  - rewrite E1. apply N.compare_lt_iff in L2. rewrite L2. reflexivity.
  - rewrite <- E2. apply N.compare_lt_iff in L1. rewrite L1. reflexivity.
  - assert (L : (Byte.to_N x < Byte.to_N z)%N) by lia.
    apply N.compare_lt_iff in L. rewrite L. reflexivity.
Qed.

Lemma input_Less_compare (a b : TransferableInput) :
  key.input_Less a b = match source_compare a b with Lt => true | _ => false end.
Proof.
  unfold key.input_Less, source_compare, InputSource.
  destruct (bytes_Compare _ _); reflexivity.
Qed.

Lemma source_compare_antisym (a b : TransferableInput) :
  source_compare b a = CompOpp (source_compare a b).
Proof.
  unfold source_compare.
  rewrite (bytes_Compare_antisym (TxID (in_UTXOID a)) (TxID (in_UTXOID b))).
  destruct (bytes_Compare _ _); simpl; auto.
  apply Z.compare_antisym.
Qed.

Lemma source_compare_eq (a b : TransferableInput) :
  source_compare a b = Eq -> in_UTXOID a = in_UTXOID b.
Proof.
  unfold source_compare.
  destruct (bytes_Compare _ _) eqn:E; try discriminate.
  intros H. apply bytes_Compare_eq in E. apply Z.compare_eq in H.
  destruct (in_UTXOID a), (in_UTXOID b); simpl in *; congruence.
Qed.

Lemma source_compare_trans (a b c : TransferableInput) :
  source_compare a b = Lt -> source_compare b c = Lt ->
  source_compare a c = Lt.
Proof.
  unfold source_compare.
  destruct (bytes_Compare (TxID (in_UTXOID a)) (TxID (in_UTXOID b))) eqn:E1;
    try discriminate;
  destruct (bytes_Compare (TxID (in_UTXOID b)) (TxID (in_UTXOID c))) eqn:E2;
    try discriminate; intros H1 H2.
  - apply bytes_Compare_eq in E1, E2. rewrite E1, E2, bytes_Compare_refl.
    rewrite Z.compare_lt_iff in *. lia.
  - apply bytes_Compare_eq in E1. rewrite E1, E2. reflexivity.
  - apply bytes_Compare_eq in E2. rewrite <- E2, E1. reflexivity.
  - rewrite (bytes_Compare_trans _ _ _ E1 E2). reflexivity.
Qed.

Lemma source_compare_eq_l (a b c : TransferableInput) :
  source_compare a b = Eq -> source_compare a c = source_compare b c.
Proof.
  intros H. apply source_compare_eq in H. unfold source_compare.
  rewrite H. reflexivity.
Qed.

Lemma source_compare_eq_r (a b c : TransferableInput) :
  source_compare b c = Eq -> source_compare a b = source_compare a c.
Proof.
  intros H. apply source_compare_eq in H. unfold source_compare.
  rewrite H. reflexivity.
Qed.

Lemma source_le_compare (a b : TransferableInput) :
  source_le a b <-> source_compare a b <> Gt.
Proof.
  unfold source_le. rewrite input_Less_compare, source_compare_antisym.
  destruct (source_compare a b); simpl; split; congruence.
Qed.

Lemma source_le_trans (a b c : TransferableInput) :
  source_le a b -> source_le b c -> source_le a c.
Proof.
  rewrite !source_le_compare. intros H1 H2.
  destruct (source_compare a b) eqn:E1; try congruence.
  - rewrite (source_compare_eq_l _ _ c E1). exact H2.
  - destruct (source_compare b c) eqn:E2; try congruence.
    + rewrite <- (source_compare_eq_r a _ _ E2), E1. discriminate.
    + rewrite (source_compare_trans _ _ _ E1 E2). discriminate.
Qed.

Lemma input_Less_asym (a b : TransferableInput) :
  key.input_Less a b = true -> key.input_Less b a = false.
Proof.
  rewrite !input_Less_compare, (source_compare_antisym a b).
  destruct (source_compare a b); simpl; congruence.
Qed.

(** ** Correctness of [sort.Sort] *)

Section SortLibrary.

Local Open Scope nat_scope.

(** ** Slices, by index *)

Lemma length_set_nth {A : Type} (l : list A) (n : nat) (x : A) :
  length (sort.set_nth l n x) = length l.
Proof.
  revert n; induction l as [|y l IH]; intros [|n]; simpl; auto.
Qed.

Lemma nth_set_nth {A : Type} (d0 : A) (l : list A) (n k : nat) (x : A) :
  n < length l ->
  nth k (sort.set_nth l n x) d0 = if k =? n then x else nth k l d0.
Proof.
  revert n k; induction l as [|y l IH]; intros n k Hn; simpl in Hn; [lia|].
  destruct n as [|n], k as [|k]; simpl; auto.
  apply IH. lia.
Qed.

Lemma set_nth_middle {A : Type} (pre post : list A) (x y : A) :
  sort.set_nth (pre ++ x :: post) (length pre) y = pre ++ y :: post.
Proof.
  induction pre as [|a pre IH]; simpl; [reflexivity|]. f_equal. exact IH.
Qed.

Lemma nth_error_nth_in {A : Type} (d0 : A) (l : list A) (k : nat) :
  k < length l -> nth_error l k = Some (nth k l d0).
Proof.
  revert k; induction l as [|y l IH]; intros [|k] H; simpl in *; try lia; auto.
  apply IH. lia.
Qed.

Lemma swap_two_perm {A : Type} (l1 l2 l3 : list A) (x y : A) :
  Permutation (l1 ++ x :: l2 ++ y :: l3) (l1 ++ y :: l2 ++ x :: l3).
Proof.
  apply Permutation_app_head.
  transitivity (x :: y :: l2 ++ l3).
  - constructor. symmetry. apply Permutation_middle.
  - transitivity (y :: x :: l2 ++ l3); [constructor|].
    constructor. apply Permutation_middle.
Qed.

Lemma swap_slice_ordered {A : Type} (l : list A) (i j : nat) (x y : A) :
  i < j -> nth_error l i = Some x -> nth_error l j = Some y ->
  Permutation l (sort.set_nth (sort.set_nth l j x) i y).
Proof.
  intros Hij Hx Hy.
  destruct (nth_error_split l i Hx) as (l1 & r & -> & Hl1).
  rewrite nth_error_app2 in Hy by lia.
  replace (j - length l1) with (S (j - length l1 - 1)) in Hy by lia.
  simpl in Hy.
  destruct (nth_error_split r _ Hy) as (l2 & l3 & -> & Hl2).
  replace j with (length (l1 ++ x :: l2))
    by (rewrite length_app; simpl; lia).
  replace (l1 ++ x :: l2 ++ y :: l3) with ((l1 ++ x :: l2) ++ y :: l3)
    by (rewrite <- app_assoc; reflexivity).
  rewrite set_nth_middle, <- !app_assoc. simpl.
  rewrite <- Hl1, set_nth_middle.
  apply swap_two_perm.
Qed.

Lemma set_nth_same {A : Type} (l : list A) (i : nat) (x : A) :
  nth_error l i = Some x -> sort.set_nth l i x = l.
Proof.
  revert i; induction l as [|y l IH]; intros [|i] H; simpl in *;
    try discriminate; [congruence|].
  f_equal. auto.
Qed.

Lemma set_nth_twice {A : Type} (l : list A) (i : nat) (x y : A) :
  sort.set_nth (sort.set_nth l i x) i y = sort.set_nth l i y.
Proof.
  revert i; induction l as [|z l IH]; intros [|i]; simpl; auto.
  f_equal. auto.
Qed.

Lemma set_nth_comm {A : Type} (l : list A) (i j : nat) (x y : A) :
  i <> j ->
  sort.set_nth (sort.set_nth l i x) j y
  = sort.set_nth (sort.set_nth l j y) i x.
Proof.
  revert i j; induction l as [|z l IH]; intros [|i] [|j] H; simpl; auto;
    try lia.
  f_equal. apply IH. lia.
Qed.

(** An exchange of two elements in range: the result, by index. *)
Lemma swap_slice_in {A : Type} (d0 : A) (l : list A) (i j : nat) :
  i < length l -> j < length l ->
  exists l',
    sort.swap_slice l i j = Some l' /\ length l' = length l /\
    Permutation l l' /\
    forall k, nth k l' d0 =
              if k =? i then nth j l d0
              else if k =? j then nth i l d0 else nth k l d0.
Proof.
  intros Hi Hj. unfold sort.swap_slice.
  rewrite (nth_error_nth_in d0 l i Hi), (nth_error_nth_in d0 l j Hj).
  eexists. split; [reflexivity|].
  split; [rewrite !length_set_nth; reflexivity|]. split.
  - destruct (Nat.lt_trichotomy i j) as [H|[H|H]].
    + apply swap_slice_ordered; auto using nth_error_nth_in.
    + subst j. rewrite set_nth_twice, set_nth_same; auto using nth_error_nth_in.
    + rewrite set_nth_comm by lia.
      apply swap_slice_ordered; auto using nth_error_nth_in.
  - intros k. rewrite nth_set_nth by (rewrite length_set_nth; lia).
    destruct (k =? i) eqn:Eki; [reflexivity|].
    rewrite nth_set_nth by lia. reflexivity.
Qed.

Lemma swap_slice_some {A : Type} (l l' : list A) (i j : nat) :
  sort.swap_slice l i j = Some l' -> i < length l /\ j < length l.
Proof.
  unfold sort.swap_slice.
  destruct (nth_error l i) eqn:Hi; [|discriminate].
  destruct (nth_error l j) eqn:Hj; [|discriminate].
  intros _. split; apply nth_error_Some; congruence.
Qed.

Lemma swap_slice_perm {A : Type} (l l' : list A) (i j : nat) :
  sort.swap_slice l i j = Some l' -> Permutation l l'.
Proof.
  intros Hs. destruct (swap_slice_some _ _ _ _ Hs) as [Hi Hj].
  destruct l as [|x l]; [simpl in Hi; lia|].
  destruct (swap_slice_in x (x :: l) i j Hi Hj) as (l1 & E & _ & Hp & _).
  congruence.
Qed.

Lemma swap_slice_same {A : Type} (l l' : list A) (i : nat) :
  sort.swap_slice l i i = Some l' -> l' = l.
Proof.
  unfold sort.swap_slice. destruct (nth_error l i) as [x|] eqn:Hx;
    [|discriminate].
  intros H. injection H as <-. rewrite set_nth_twice. apply set_nth_same.
  exact Hx.
Qed.

Lemma slice_Less_in {E : Type} (less : E -> E -> bool) (d0 : E)
  (l : list E) (i j : nat) :
  i < length l -> j < length l ->
  sort.slice_Less less l i j = Some (less (nth i l d0) (nth j l d0)).
Proof.
  intros Hi Hj. unfold sort.slice_Less.
  rewrite (nth_error_nth_in d0 l i Hi), (nth_error_nth_in d0 l j Hj).
  reflexivity.
Qed.

(** ** Rearrangements of a range *)

Section Ranges.

Context {E : Type}.
Variable d0 : E.

Lemma perm_in_refl (a b : nat) (l : list E) : perm_in d0 a b l l.
Proof. repeat split; auto. Qed.

Lemma perm_in_trans (a b a' b' : nat) (l0 l1 l2 : list E) :
  perm_in d0 a b l0 l1 -> perm_in d0 a' b' l1 l2 -> a <= a' -> b' <= b ->
  perm_in d0 a b l0 l2.
Proof.
  intros (L1 & P1 & O1) (L2 & P2 & O2) Ha Hb. repeat split.
  - congruence.
  - eapply Permutation_trans; eauto.
  - intros k Hk. rewrite O2 by lia. apply O1. exact Hk.
Qed.

Lemma perm_in_widen (a b a' b' : nat) (l0 l1 : list E) :
  perm_in d0 a' b' l0 l1 -> a <= a' -> b' <= b -> perm_in d0 a b l0 l1.
Proof.
  intros H Ha Hb.
  eapply perm_in_trans; [apply perm_in_refl | exact H | | ]; assumption.
Qed.

Lemma perm_in_swap (a b : nat) (l l' : list E) (i j : nat) :
  sort.swap_slice l i j = Some l' ->
  a <= i -> i < b -> a <= j -> j < b ->
  perm_in d0 a b l l'.
Proof.
  intros Hs Hai Hib Haj Hjb.
  destruct (swap_slice_some _ _ _ _ Hs) as [Hi Hj].
  destruct (swap_slice_in d0 l i j Hi Hj) as (l1 & E1 & L & P & N).
  assert (l1 = l') by congruence. subst l1.
  repeat split; auto.
  intros k Hk. rewrite N.
  destruct (Nat.eqb_spec k i); [lia|]. destruct (Nat.eqb_spec k j); [lia|].
  reflexivity.
Qed.

Lemma nth_ext_firstn (n : nat) (l1 l2 : list E) :
  n <= length l1 -> n <= length l2 ->
  (forall k, k < n -> nth k l1 d0 = nth k l2 d0) ->
  firstn n l1 = firstn n l2.
Proof.
  revert l1 l2; induction n as [|n IH]; intros l1 l2 H1 H2 H; [reflexivity|].
  destruct l1 as [|x l1], l2 as [|y l2]; simpl in *; try lia.
  f_equal.
  - apply (H 0). lia.
  - apply IH; try lia. intros k Hk. apply (H (S k)). lia.
Qed.

Lemma nth_ext_skipn (n : nat) (l1 l2 : list E) :
  length l1 = length l2 ->
  (forall k, n <= k -> nth k l1 d0 = nth k l2 d0) ->
  skipn n l1 = skipn n l2.
Proof.
  intros HL H.
  apply (nth_ext _ _ d0 d0).
  - rewrite !length_skipn. lia.
  - intros k _. rewrite !nth_skipn. apply H. lia.
Qed.

Lemma three_parts (a b : nat) (l : list E) :
  a <= b -> b <= length l ->
  l = firstn a l ++ firstn (b - a) (skipn a l) ++ skipn b l.
Proof.
  intros Hab Hb.
  rewrite <- (firstn_skipn a l) at 1. f_equal.
  rewrite <- (firstn_skipn (b - a) (skipn a l)) at 1. f_equal.
  rewrite skipn_skipn. f_equal. lia.
Qed.

Lemma nth_mid (a b k : nat) (l : list E) :
  k < b - a ->
  nth k (firstn (b - a) (skipn a l)) d0 = nth (a + k) l d0.
Proof.
  intros Hk. rewrite nth_firstn.
  destruct (Nat.ltb_spec k (b - a)); [|lia].
  apply nth_skipn.
Qed.

(** What holds of every element of the range before holds of every element
    of the range after. *)
Lemma perm_in_forall (P : E -> Prop) (a b : nat) (l0 l : list E) :
  perm_in d0 a b l0 l -> a <= b -> b <= length l0 ->
  (forall k, a <= k -> k < b -> P (nth k l0 d0)) ->
  forall k, a <= k -> k < b -> P (nth k l d0).
Proof.
  intros (L & Pm & O) Hab Hb H k Hak Hkb.
  assert (F1 : firstn a l = firstn a l0).
  { apply nth_ext_firstn; try lia. intros i Hi. apply O. lia. }
  assert (F2 : skipn b l = skipn b l0).
  { apply nth_ext_skipn; [exact L|]. intros i Hi. apply O. lia. }
  rewrite (three_parts a b l0 Hab Hb) in Pm.
  rewrite (three_parts a b l) in Pm by lia.
  rewrite F1, F2 in Pm.
  apply Permutation_app_inv_l in Pm.
  apply Permutation_app_inv_r in Pm.
  assert (Hin : In (nth k l d0) (firstn (b - a) (skipn a l))).
  { replace k with (a + (k - a)) by lia. rewrite <- (nth_mid a b) by lia.
    apply nth_In. rewrite length_firstn, length_skipn. lia. }
  apply (Permutation_in _ (Permutation_sym Pm)) in Hin.
  destruct (In_nth _ _ d0 Hin) as (i & Hi & Ei).
  rewrite length_firstn, length_skipn in Hi.
  rewrite nth_mid in Ei by lia. rewrite <- Ei. apply H; lia.
Qed.

End Ranges.

(** ** [sort.Sort] on a slice *)

Lemma div_bounds (n d : nat) :
  0 < d -> d * (n / d) <= n /\ n < d * (n / d) + d.
Proof.
  intros Hd. pose proof (Nat.div_mod_eq n d) as H1.
  pose proof (Nat.mod_upper_bound n d) as H2. lia.
Qed.

Section SliceSort.

Context {E : Type}.
Variable less : E -> E -> bool.
Variable d0 : E.
Hypothesis order : strict_weak_order less.

Let L := sort.sliceInterface less.
Let le (x y : E) : Prop := less y x = false.

Local Notation "l .[ k ]" := (nth k l d0)
  (at level 1, k at level 200, left associativity, format "l .[ k ]").

Lemma notafter_refl (x : E) : le x x.
Proof.
  unfold le. destruct (less x x) eqn:H; [|reflexivity].
  rewrite (proj1 order _ _ H) in H. discriminate.
Qed.

Lemma less_notafter (x y : E) : less x y = true -> le x y.
Proof. apply (proj1 order). Qed.

Lemma notafter_trans (x y z : E) : le x y -> le y z -> le x z.
Proof. unfold le. intros H1 H2. exact (proj2 order x y z H1 H2). Qed.

Lemma L_less (l : list E) (i j : nat) :
  i < length l -> j < length l ->
  sort.Less L l i j = Some (less l.[i] l.[j]).
Proof. apply slice_Less_in. Qed.

Lemma L_notLess (l : list E) (i j : nat) :
  i < length l -> j < length l ->
  sort.notLess L l i j = Some (negb (less l.[i] l.[j])).
Proof.
  intros Hi Hj. unfold sort.notLess. rewrite L_less by assumption.
  reflexivity.
Qed.

Lemma L_swap (a b : nat) (l : list E) (i j : nat) :
  a <= i -> i < b -> a <= j -> j < b -> b <= length l ->
  exists l',
    sort.Swap L l i j = Some l' /\ length l' = length l /\
    perm_in d0 a b l l' /\
    forall k, l'.[k] =
              if k =? i then l.[j]
              else if k =? j then l.[i] else l.[k].
Proof.
  intros Hai Hib Haj Hjb Hb.
  destruct (swap_slice_in d0 l i j) as (l' & Hs & Hl & Hp & Hn); try lia.
  exists l'. repeat split; auto.
  eapply perm_in_swap; eauto.
Qed.

Ltac by_index N :=
  rewrite ?N;
  repeat match goal with
         | |- context [?x =? ?y] => destruct (Nat.eqb_spec x y); try lia
         end;
  idtac.

(** *** [insertionSort] *)

Lemma insert_down_spec (a i : nat) :
  forall (n : nat) (l : list E),
    a + n <= i -> i < length l ->
    (forall p q, a <= p -> p < q -> q <= i -> p <> a + n -> q <> a + n ->
                 le l.[p] l.[q]) ->
    (forall q, a + n < q -> q <= i -> less l.[a + n] l.[q] = true) ->
    exists l',
      sort.insert_down L l a n = Some l' /\
      perm_in d0 a (S i) l l' /\ sorted_in less d0 a (S i) l'.
Proof.
  induction n as [|n IH]; intros l Hn Hi H2 H3.
  - exists l. split; [reflexivity|]. split; [apply perm_in_refl|].
    intros p q Hp Hpq Hq.
    destruct (Nat.eq_dec p (a + 0)) as [->|Hne].
    + apply less_notafter. apply H3; lia.
    + apply H2; lia.
  - cbn [sort.insert_down]. rewrite L_less by lia. unfold sort.andThen.
    destruct (less l.[a + S n] l.[a + n]) eqn:Hlt.
    + destruct (L_swap a (S i) l (a + S n) (a + n))
        as (l1 & Hs & Hl & Hp & N); try lia.
      rewrite Hs.
      destruct (IH l1) as (l' & Hr & Hp' & Hs'); try lia.
      * intros p q Hp1 Hpq Hq Hpn Hqn.
        destruct (Nat.eq_dec q (a + S n)) as [->|Hq1];
          [|destruct (Nat.eq_dec p (a + S n)) as [->|Hp2]].
        -- by_index N. apply H2; lia.
        -- by_index N. apply H2; lia.
        -- by_index N. apply H2; lia.
      * intros q Hq1 Hq2.
        destruct (Nat.eq_dec q (a + S n)) as [->|Hq3].
        -- by_index N. exact Hlt.
        -- by_index N. apply H3; lia.
      * exists l'. split; [exact Hr|]. split; [|exact Hs'].
        eapply perm_in_trans; eauto.
    + exists l. split; [reflexivity|]. split; [apply perm_in_refl|].
      intros p q Hp Hpq Hq.
      destruct (Nat.eq_dec q (a + S n)) as [->|Hq1];
        [|destruct (Nat.eq_dec p (a + S n)) as [->|Hp2]].
      * destruct (Nat.eq_dec p (a + n)) as [->|Hp3]; [exact Hlt|].
        apply notafter_trans with (y := l.[a + n]); [|exact Hlt].
        apply H2; lia.
      * apply less_notafter. apply H3; lia.
      * apply H2; lia.
Qed.

Lemma insertionSort_from_spec (a : nat) :
  forall (k i : nat) (l : list E),
    a < i -> i + k <= length l -> sorted_in less d0 a i l ->
    exists l',
      sort.insertionSort_from L l a i k = Some l' /\
      perm_in d0 a (i + k) l l' /\ sorted_in less d0 a (i + k) l'.
Proof.
  induction k as [|k IH]; intros i l Hai Hk Hs.
  - exists l. rewrite Nat.add_0_r. repeat split; auto.
  - cbn [sort.insertionSort_from].
    destruct (insert_down_spec a i (i - a) l) as (l1 & Hr & Hp & Hs1);
      try lia.
    + intros p q Hp Hpq Hq Hpn Hqn. apply Hs; lia.
    + rewrite Hr. cbn [sort.andThen].
      destruct (IH (S i) l1) as (l' & Hr' & Hp' & Hs'); try lia.
      * destruct Hp as (Hl & _). lia.
      * exact Hs1.
      * exists l'. replace (i + S k) with (S i + k) by lia.
        split; [exact Hr'|]. split; [|exact Hs'].
        eapply perm_in_trans; [| exact Hp' | |]; try lia.
        eapply perm_in_widen; [exact Hp| |]; lia.
Qed.

Lemma insertionSort_spec (a b : nat) (l : list E) :
  a < b -> b <= length l ->
  exists l',
    sort.insertionSort L l a b = Some l' /\
    perm_in d0 a b l l' /\ sorted_in less d0 a b l'.
Proof.
  intros Hab Hb. unfold sort.insertionSort.
  destruct (insertionSort_from_spec a (b - (a + 1)) (a + 1) l)
    as (l' & Hr & Hp & Hs); try lia.
  - intros p q Hp Hpq Hq. lia.
  - replace (a + 1 + (b - (a + 1))) with b in * by lia.
    exists l'. auto.
Qed.

(** *** The gap-6 pass *)

Lemma shellPass_spec (a b : nat) :
  forall (k i : nat) (l : list E),
    a + 6 <= i -> i + k <= b -> b <= length l ->
    exists l', sort.shellPass L l i k = Some l' /\ perm_in d0 a b l l'.
Proof.
  induction k as [|k IH]; intros i l Hi Hk Hb.
  - exists l. split; [reflexivity | apply perm_in_refl].
  - cbn [sort.shellPass]. rewrite L_less by lia. cbn [sort.andThen].
    destruct (less l.[i] l.[i - 6]).
    + destruct (L_swap a b l i (i - 6)) as (l1 & Hs & Hl & Hp & _);
        try lia.
      rewrite Hs. cbn [sort.andThen].
      destruct (IH (S i) l1) as (l' & Hr & Hp'); try lia.
      exists l'. split; [exact Hr|].
      eapply perm_in_trans; eauto.
    + cbn [sort.andThen]. apply IH; lia.
Qed.

(** *** [medianOfThree] and the choice of the pivot *)

Lemma cond_swap_spec (lo hi : nat) (l : list E) (i j : nat) :
  lo <= i -> i < hi -> lo <= j -> j < hi -> hi <= length l ->
  exists l',
    (if less l.[i] l.[j] then sort.Swap L l i j else Some l) = Some l' /\
    length l' = length l /\ perm_in d0 lo hi l l' /\
    (i <> j -> less l'.[i] l'.[j] = false) /\
    (forall k, k <> i -> k <> j -> l'.[k] = l.[k]) /\
    ((l'.[i] = l.[i] /\ l'.[j] = l.[j]) \/ (l'.[i] = l.[j] /\ l'.[j] = l.[i])).
Proof.
  intros Hi1 Hi2 Hj1 Hj2 Hh.
  destruct (less l.[i] l.[j]) eqn:Hlt.
  - destruct (L_swap lo hi l i j) as (l' & Hs & Hl & Hp & N); try lia.
    exists l'. split; [exact Hs|]. split; [exact Hl|]. split; [exact Hp|].
    split; [|split].
    + intros Hne. by_index N. apply less_notafter. exact Hlt.
    + intros k Hki Hkj. by_index N. reflexivity.
    + right. split; by_index N; congruence.
  - exists l. split; [reflexivity|]. split; [reflexivity|].
    split; [apply perm_in_refl|]. split; [|split]; auto.
Qed.

Lemma medianOfThree_spec (lo hi : nat) (l : list E) (m1 m0 m2 : nat) :
  lo <= m0 -> m0 < hi -> lo <= m1 -> m1 < hi -> lo <= m2 -> m2 < hi ->
  hi <= length l ->
  exists l',
    sort.medianOfThree L l m1 m0 m2 = Some l' /\ perm_in d0 lo hi l l' /\
    (m0 <> m1 -> m1 <> m2 -> m0 <> m2 ->
     le l'.[m0] l'.[m1] /\ le l'.[m1] l'.[m2]).
Proof.
  intros H01 H02 H11 H12 H21 H22 Hh.
  unfold sort.medianOfThree. rewrite L_less by lia. cbn [sort.andThen].
  destruct (cond_swap_spec lo hi l m1 m0)
    as (l1 & -> & Hl1 & Hp1 & Ho1 & Hk1 & _); try lia.
  cbn [sort.andThen]. rewrite L_less by lia. cbn [sort.andThen].
  destruct (less l1.[m2] l1.[m1]) eqn:Hlt.
  - destruct (L_swap lo hi l1 m2 m1) as (l2 & -> & Hl2 & Hp2 & N2); try lia.
    cbn [sort.andThen]. rewrite L_less by lia. cbn [sort.andThen].
    destruct (cond_swap_spec lo hi l2 m1 m0)
      as (l3 & -> & Hl3 & Hp3 & Ho3 & Hk3 & Hc3); try lia.
    exists l3. split; [reflexivity|]. split.
    + eapply perm_in_trans; [|exact Hp3|lia|lia].
      eapply perm_in_trans; [exact Hp1|exact Hp2|lia|lia].
    + intros D1 D2 D3. split; [apply Ho3; auto|].
      unfold le. rewrite (Hk3 m2) by auto.
      assert (E2 : l2.[m2] = l1.[m1]) by (by_index N2; reflexivity).
      assert (E1 : l2.[m1] = l1.[m2]) by (by_index N2; reflexivity).
      assert (E0 : l2.[m0] = l1.[m0]) by (by_index N2; reflexivity).
      destruct Hc3 as [[-> _]|[-> _]].
      * rewrite E2, E1. apply less_notafter. exact Hlt.
      * rewrite E2, E0. apply Ho1. auto.
  - exists l1. split; [reflexivity|]. split; [exact Hp1|].
    intros D1 D2 D3. split; [apply Ho1; auto | exact Hlt].
Qed.

Lemma choosePivot_spec (lo hi : nat) (l : list E) :
  lo + 12 < hi -> hi <= length l ->
  exists l',
    sort.choosePivot L l lo hi ((lo + hi) / 2) = Some l' /\
    perm_in d0 lo hi l l' /\ le l'.[lo] l'.[hi - 1].
Proof.
  intros Hn Hh. unfold sort.choosePivot.
  assert (Hm : 2 * ((lo + hi) / 2) <= lo + hi /\
               lo + hi < 2 * ((lo + hi) / 2) + 2)
    by (apply div_bounds; lia).
  assert (Hs : 8 * ((hi - lo) / 8) <= hi - lo /\
               hi - lo < 8 * ((hi - lo) / 8) + 8)
    by (apply div_bounds; lia).
  assert (Hfirst : exists l1,
    (if 40 <? hi - lo
     then sort.andThen
            (sort.medianOfThree L l lo (lo + (hi - lo) / 8)
               (lo + 2 * ((hi - lo) / 8)))
            (fun data =>
               sort.andThen
                 (sort.medianOfThree L data ((lo + hi) / 2)
                    ((lo + hi) / 2 - (hi - lo) / 8)
                    ((lo + hi) / 2 + (hi - lo) / 8))
                 (fun data =>
                    sort.medianOfThree L data (hi - 1)
                      (hi - 1 - (hi - lo) / 8)
                      (hi - 1 - 2 * ((hi - lo) / 8))))
     else Some l) = Some l1 /\ perm_in d0 lo hi l l1).
  { destruct (Nat.ltb_spec 40 (hi - lo)) as [Hbig|Hsmall].
    - destruct (medianOfThree_spec lo hi l lo (lo + (hi - lo) / 8)
                  (lo + 2 * ((hi - lo) / 8)))
        as (l1 & -> & Hp1 & _); try lia.
      cbn [sort.andThen]. pose proof Hp1 as (Hl1 & _).
      destruct (medianOfThree_spec lo hi l1 ((lo + hi) / 2)
                  ((lo + hi) / 2 - (hi - lo) / 8)
                  ((lo + hi) / 2 + (hi - lo) / 8))
        as (l2 & -> & Hp2 & _); try lia.
      cbn [sort.andThen]. pose proof Hp2 as (Hl2 & _).
      destruct (medianOfThree_spec lo hi l2 (hi - 1)
                  (hi - 1 - (hi - lo) / 8)
                  (hi - 1 - 2 * ((hi - lo) / 8)))
        as (l3 & -> & Hp3 & _); try lia.
      exists l3. split; [reflexivity|].
      eapply perm_in_trans; [|exact Hp3|lia|lia].
      eapply perm_in_trans; [exact Hp1|exact Hp2|lia|lia].
    - exists l. split; [reflexivity | apply perm_in_refl]. }
  destruct Hfirst as (l1 & -> & Hp1). cbn [sort.andThen].
  pose proof Hp1 as (Hl1 & _).
  destruct (medianOfThree_spec lo hi l1 lo ((lo + hi) / 2) (hi - 1))
    as (l2 & -> & Hp2 & Hmed); try lia.
  exists l2. split; [reflexivity|]. split.
  - eapply perm_in_trans; [exact Hp1|exact Hp2|lia|lia].
  - apply Hmed; lia.
Qed.

(** *** The scanning loops *)

Lemma scan_up_spec (cond : nat -> option bool) (c : nat -> bool) :
  forall (k i : nat),
    (forall x, i <= x -> x < i + k -> cond x = Some (c x)) ->
    exists r,
      sort.scan_up cond i k = Some r /\ i <= r /\ r <= i + k /\
      (forall x, i <= x -> x < r -> c x = true) /\
      (r = i + k \/ c r = false).
Proof.
  induction k as [|k IH]; intros i H.
  - exists i. repeat split; auto; try lia.
  - cbn [sort.scan_up]. rewrite H by lia. cbn [sort.andThen].
    destruct (c i) eqn:Hc.
    + destruct (IH (S i)) as (r & Hr & H1 & H2 & H3 & H4).
      { intros x Hx1 Hx2. apply H; lia. }
      exists r. repeat split; auto; try lia.
      * intros x Hx1 Hx2.
        destruct (Nat.eq_dec x i) as [->|]; [exact Hc | apply H3; lia].
      * destruct H4 as [->|H4]; [left; lia | right; exact H4].
    + exists i. repeat split; auto; try lia.
Qed.

Lemma scan_down_spec (cond : nat -> option bool) (c : nat -> bool) :
  forall (k i : nat),
    k <= i ->
    (forall x, i - k <= x -> x < i -> cond x = Some (c x)) ->
    exists r,
      sort.scan_down cond i k = Some r /\ i - k <= r /\ r <= i /\
      (forall x, r <= x -> x < i -> c x = true) /\
      (r = i - k \/ c (r - 1) = false).
Proof.
  induction k as [|k IH]; intros i Hk H.
  - exists i. repeat split; auto; try lia.
  - cbn [sort.scan_down]. rewrite H by lia. cbn [sort.andThen].
    destruct (c (i - 1)) eqn:Hc.
    + destruct (IH (i - 1)) as (r & Hr & H1 & H2 & H3 & H4); [lia| |].
      { intros x Hx1 Hx2. apply H; lia. }
      exists r. repeat split; auto; try lia.
      * intros x Hx1 Hx2.
        destruct (Nat.eq_dec x (i - 1)) as [->|]; [exact Hc | apply H3; lia].
      * destruct H4 as [->|H4]; [left; lia | right; exact H4].
    + exists i. repeat split; auto; try lia.
Qed.

(** *** [doPivot] *)

(** The state of [doPivot] around the pivot value [p], kept in
    [data[lo]]: [data[lo+1:b] <= p], [data[b:c] == p], [data[c:hi] >= p]. *)
Let parted (lo hi : nat) (p : E) (l : list E) (b c : nat) : Prop :=
  l.[lo] = p /\
  (forall k, lo < k -> k < b -> le l.[k] p) /\
  (forall k, b <= k -> k < c -> le l.[k] p /\ le p l.[k]) /\
  (forall k, c <= k -> k < hi -> le p l.[k]).

Lemma partition_loop_spec (lo hi : nat) (p : E) :
  forall (fuel : nat) (l : list E) (b c : nat),
    lo < b -> b <= c -> c <= hi - 1 -> hi <= length l -> c - b < fuel ->
    l.[lo] = p ->
    (forall k, lo < k -> k < b -> le l.[k] p) ->
    (forall k, c <= k -> k < hi - 1 -> le p l.[k]) ->
    exists l' b',
      sort.partition_loop L fuel l lo b c = Some (l', b', b') /\
      lo < b' /\ b' <= hi - 1 /\ perm_in d0 (lo + 1) (hi - 1) l l' /\
      l'.[lo] = p /\
      (forall k, lo < k -> k < b' -> le l'.[k] p) /\
      (forall k, b' <= k -> k < hi - 1 -> le p l'.[k]).
Proof.
  induction fuel as [|fuel IH]; intros l b c Hb Hbc Hc Hh Hf Hp Hleft Hright;
    [lia|].
  cbn [sort.partition_loop].
  destruct (scan_up_spec (fun i => sort.notLess L l lo i)
              (fun i => negb (less p l.[i])) (c - b) b)
    as (b1 & -> & Hb1 & Hb2 & Hb3 & Hb4).
  { intros x Hx1 Hx2. rewrite L_notLess by lia. rewrite Hp. reflexivity. }
  cbn [sort.andThen].
  destruct (scan_down_spec (fun i => sort.Less L l lo i)
              (fun i => less p l.[i]) (c - b1) c)
    as (c1 & -> & Hc1 & Hc2 & Hc3 & Hc4); [lia| |].
  { intros x Hx1 Hx2. rewrite L_less by lia. rewrite Hp. reflexivity. }
  cbn [sort.andThen].
  assert (Hleft1 : forall k, lo < k -> k < b1 -> le l.[k] p).
  { intros k Hk1 Hk2. destruct (Nat.lt_ge_cases k b) as [Hlt|Hge].
    - apply Hleft; lia.
    - specialize (Hb3 k Hge Hk2). unfold le.
      destruct (less p l.[k]); [discriminate | reflexivity]. }
  assert (Hright1 : forall k, c1 <= k -> k < hi - 1 -> le p l.[k]).
  { intros k Hk1 Hk2. destruct (Nat.lt_ge_cases k c) as [Hlt|Hge].
    - apply less_notafter. apply Hc3; lia.
    - apply Hright; lia. }
  destruct (Nat.leb_spec c1 b1) as [Hle|Hgt].
  - assert (c1 = b1) by lia. subst c1.
    exists l, b1. split; [reflexivity|].
    split; [lia|]. split; [lia|]. split; [apply perm_in_refl|]. auto.
  - assert (Hs1 : less p l.[b1] = true).
    { destruct Hb4 as [Hb4|Hb4]; [lia|].
      destruct (less p l.[b1]); [reflexivity | discriminate]. }
    assert (Hs2 : less p l.[c1 - 1] = false).
    { destruct Hc4 as [Hc4|Hc4]; [lia | exact Hc4]. }
    assert (Hne : b1 <> c1 - 1) by (intros Heq; rewrite Heq in Hs1; congruence).
    destruct (L_swap (lo + 1) (hi - 1) l b1 (c1 - 1))
      as (l1 & -> & Hl1 & Hp1 & N); try lia.
    cbn [sort.andThen].
    destruct (IH l1 (S b1) (c1 - 1)) as (l' & b' & Hr & B1 & B2 & Pm & P0 & PL & PR);
      try lia.
    + by_index N. exact Hp.
    + intros k Hk1 Hk2. destruct (Nat.eq_dec k b1) as [->|Hkb].
      * by_index N. exact Hs2.
      * by_index N. apply Hleft1; lia.
    + intros k Hk1 Hk2. destruct (Nat.eq_dec k (c1 - 1)) as [->|Hkc].
      * by_index N. apply less_notafter. exact Hs1.
      * by_index N. apply Hright1; lia.
    + exists l', b'. split; [exact Hr|].
      split; [lia|]. split; [lia|]. split; [|auto].
      eapply perm_in_trans; [exact Hp1|exact Pm|lia|lia].
Qed.

Lemma protect_loop_spec (lo hi : nat) (p : E) (c : nat) :
  forall (fuel : nat) (l : list E) (a b : nat),
    lo < a -> lo < b -> b <= c -> c <= hi -> hi <= length l -> b - a < fuel ->
    parted lo hi p l b c ->
    exists l' a' b',
      sort.protect_loop L fuel l lo a b = Some (l', a', b') /\
      perm_in d0 (lo + 1) hi l l' /\ parted lo hi p l' b' c /\
      lo < b' /\ b' <= c.
Proof.
  induction fuel as [|fuel IH]; intros l a b Ha Hb Hbc Hc Hh Hf HP; [lia|].
  destruct HP as (Hp & HL & HM & HR).
  cbn [sort.protect_loop].
  destruct (scan_down_spec (fun i => sort.notLess L l i lo)
              (fun i => negb (less l.[i] p)) (b - a) b)
    as (b1 & -> & Hb1 & Hb2 & Hb3 & Hb4); [lia| |].
  { intros x Hx1 Hx2. rewrite L_notLess by lia. rewrite Hp. reflexivity. }
  cbn [sort.andThen].
  destruct (scan_up_spec (fun i => sort.Less L l i lo)
              (fun i => less l.[i] p) (b1 - a) a)
    as (a1 & -> & Ha1 & Ha2 & Ha3 & Ha4).
  { intros x Hx1 Hx2. rewrite L_less by lia. rewrite Hp. reflexivity. }
  cbn [sort.andThen].
  assert (HP1 : parted lo hi p l b1 c).
  { split; [exact Hp|]. split; [|split].
    - intros k Hk1 Hk2. apply HL; lia.
    - intros k Hk1 Hk2. destruct (Nat.lt_ge_cases k b) as [Hlt|Hge].
      + split; [apply HL; lia|]. specialize (Hb3 k Hk1 Hlt). unfold le.
        destruct (less l.[k] p); [discriminate | reflexivity].
      + apply HM; lia.
    - exact HR. }
  destruct (Nat.leb_spec b1 a1) as [Hle|Hgt].
  - exists l, a1, b1. split; [reflexivity|].
    split; [apply perm_in_refl|]. split; [exact HP1|]. lia.
  - assert (Hs1 : less l.[b1 - 1] p = true).
    { destruct Hb4 as [Hb4|Hb4]; [lia|].
      destruct (less l.[b1 - 1] p); [reflexivity | discriminate]. }
    assert (Hs2 : less l.[a1] p = false).
    { destruct Ha4 as [Ha4|Ha4]; [lia | exact Ha4]. }
    assert (Hne : a1 <> b1 - 1)
      by (intros Heq; rewrite Heq in Hs2; congruence).
    destruct HP1 as (_ & HL1 & HM1 & _).
    destruct (L_swap (lo + 1) hi l a1 (b1 - 1))
      as (l1 & -> & Hl1 & Hp1 & N); try lia.
    cbn [sort.andThen].
    destruct (IH l1 (S a1) (b1 - 1))
      as (l' & a' & b' & Hr & Pm & HP' & B1 & B2); try lia.
    + split; [by_index N; exact Hp|]. split; [|split].
      * intros k Hk1 Hk2. destruct (Nat.eq_dec k a1) as [->|Hka].
        -- by_index N. apply less_notafter. exact Hs1.
        -- by_index N. apply HL1; lia.
      * intros k Hk1 Hk2. destruct (Nat.eq_dec k (b1 - 1)) as [->|Hkb].
        -- by_index N. split; [apply HL1; lia | exact Hs2].
        -- by_index N. apply HM1; lia.
      * intros k Hk1 Hk2. by_index N. apply HR; lia.
    + exists l', a', b'. split; [exact Hr|]. split; [|split; [exact HP'|lia]].
      eapply perm_in_trans; [exact Hp1|exact Pm|lia|lia].
Qed.

Lemma testDups_spec (lo hi : nat) (p : E) (m : nat) (l : list E)
  (b c : nat) :
  lo < m -> m + 2 < b -> b <= c -> c < hi -> hi <= length l ->
  parted lo hi p l b c ->
  exists l' b' c' protect,
    sort.testDups L l lo m hi b c = Some (l', b', c', protect) /\
    perm_in d0 (lo + 1) hi l l' /\ parted lo hi p l' b' c' /\
    lo < b' /\ b' <= c' /\ c' <= hi.
Proof.
  intros Hm Hmb Hbc Hc Hh (Hp & HL & HM & HR).
  unfold sort.testDups. rewrite L_less by lia. cbn [sort.andThen].
  assert (Step1 : exists l1 c1 dups1,
    (if less l.[lo] l.[hi - 1] then Some (l, c, 0)
     else sort.andThen (sort.Swap L l c (hi - 1))
            (fun data => Some (data, c + 1, 1))) = Some (l1, c1, dups1) /\
    perm_in d0 (lo + 1) hi l l1 /\ parted lo hi p l1 b c1 /\
    c <= c1 /\ c1 <= hi).
  { rewrite Hp. destruct (less p l.[hi - 1]) eqn:Hlt.
    - exists l, c, 0. split; [reflexivity|]. split; [apply perm_in_refl|].
      split; [|lia]. repeat split; auto; apply HM; auto.
    - destruct (L_swap (lo + 1) hi l c (hi - 1))
        as (l1 & -> & Hl1 & Hp1 & N); try lia.
      cbn [sort.andThen]. exists l1, (c + 1), 1.
      split; [reflexivity|]. split; [exact Hp1|]. split; [|lia].
      split; [by_index N; exact Hp|]. split; [|split].
      + intros k Hk1 Hk2. by_index N. apply HL; lia.
      + intros k Hk1 Hk2. destruct (Nat.eq_dec k c) as [->|Hkc].
        * by_index N; (split; [exact Hlt | apply HR; lia]).
        * by_index N. apply HM; lia.
      + intros k Hk1 Hk2. destruct (Nat.eq_dec k (hi - 1)) as [->|Hkh].
        * by_index N. apply HR; lia.
        * by_index N. apply HR; lia. }
  destruct Step1 as (l1 & c1 & dups1 & -> & Hp1 & (Hp' & HL' & HM' & HR') & C1 & C2).
  cbn [sort.andThen]. pose proof Hp1 as (Hl1 & _).
  rewrite L_less by lia. cbn [sort.andThen].
  assert (Step2 : exists b2 dups2,
    (if less l1.[b - 1] l1.[lo] then (b, dups1) else (b - 1, dups1 + 1))
    = (b2, dups2) /\
    parted lo hi p l1 b2 c1 /\ m + 1 < b2 /\ b2 <= b).
  { rewrite Hp'. destruct (less l1.[b - 1] p) eqn:Hlt.
    - exists b, dups1. split; [reflexivity|]. split; [|lia].
      repeat split; auto; apply HM'; auto.
    - exists (b - 1), (dups1 + 1). split; [reflexivity|]. split; [|lia].
      split; [exact Hp'|]. split; [|split].
      + intros k Hk1 Hk2. apply HL'; lia.
      + intros k Hk1 Hk2. destruct (Nat.eq_dec k (b - 1)) as [->|Hkb].
        * split; [apply HL'; lia | exact Hlt].
        * apply HM'; lia.
      + exact HR'. }
  destruct Step2 as (b2 & dups2 & -> & (_ & HL2 & HM2 & HR2) & B1 & B2).
  rewrite L_less by lia. cbn [sort.andThen]. rewrite Hp'.
  destruct (less l1.[m] p) eqn:Hlt.
  - cbn [sort.andThen]. exists l1, b2, c1, (1 <? dups2).
    split; [reflexivity|]. split; [exact Hp1|]. split; [|lia].
    repeat split; auto; apply HM2; auto.
  - destruct (L_swap (lo + 1) hi l1 m (b2 - 1))
      as (l3 & -> & Hl3 & Hp3 & N); try lia.
    cbn [sort.andThen]. exists l3, (b2 - 1), c1, (1 <? dups2 + 1).
    split; [reflexivity|]. split; [|split; [|lia]].
    + eapply perm_in_trans; [exact Hp1|exact Hp3|lia|lia].
    + split; [by_index N; exact Hp'|]. split; [|split].
      * intros k Hk1 Hk2. destruct (Nat.eq_dec k m) as [->|Hkm].
        -- by_index N. apply HL2; lia.
        -- by_index N. apply HL2; lia.
      * intros k Hk1 Hk2. destruct (Nat.eq_dec k (b2 - 1)) as [->|Hkb].
        -- by_index N. split; [apply HL2; lia | exact Hlt].
        -- by_index N. apply HM2; lia.
      * intros k Hk1 Hk2. by_index N. apply HR2; lia.
Qed.

Lemma doPivot_spec (lo hi : nat) (l : list E) :
  lo + 12 < hi -> hi <= length l ->
  exists l' mlo mhi p,
    sort.doPivot L l lo hi = Some (l', mlo, mhi) /\
    lo <= mlo /\ mlo < mhi /\ mhi <= hi /\ perm_in d0 lo hi l l' /\
    (forall k, lo <= k -> k < mlo -> le l'.[k] p) /\
    (forall k, mlo <= k -> k < mhi -> le l'.[k] p /\ le p l'.[k]) /\
    (forall k, mhi <= k -> k < hi -> le p l'.[k]).
Proof.
  intros Hn Hh. unfold sort.doPivot. cbv zeta.
  assert (Hm : 2 * ((lo + hi) / 2) <= lo + hi /\
               lo + hi < 2 * ((lo + hi) / 2) + 2)
    by (apply div_bounds; lia).
  assert (Hq : 4 * ((hi - lo) / 4) <= hi - lo /\
               hi - lo < 4 * ((hi - lo) / 4) + 4)
    by (apply div_bounds; lia).
  destruct (choosePivot_spec lo hi l Hn Hh) as (l1 & -> & Hp1 & Hmed).
  cbn [sort.andThen]. pose proof Hp1 as (Hl1 & _).
  set (p := l1.[lo]) in *.
  destruct (scan_up_spec (fun i => sort.Less L l1 i lo)
              (fun i => less l1.[i] p) (hi - 1 - (lo + 1)) (lo + 1))
    as (a & -> & Ha1 & Ha2 & Ha3 & _).
  { intros x Hx1 Hx2. rewrite L_less by lia. reflexivity. }
  cbn [sort.andThen].
  destruct (partition_loop_spec lo hi p (S (hi - 1 - a)) l1 a (hi - 1))
    as (l2 & b & -> & B1 & B2 & Hp2 & P0 & PL & PR); try lia; auto.
  { intros k Hk1 Hk2. apply less_notafter. apply Ha3; lia. }
  cbn [sort.andThen]. pose proof Hp2 as (Hl2 & _ & Hout2).
  assert (HP2 : parted lo hi p l2 b b).
  { split; [exact P0|]. split; [exact PL|]. split; [intros; lia|].
    intros k Hk1 Hk2. destruct (Nat.eq_dec k (hi - 1)) as [->|Hk3].
    - rewrite Hout2 by lia. exact Hmed.
    - apply PR; lia. }
  match goal with
  | |- context [sort.andThen (if ?c then ?x else ?y) _] =>
      assert (Step : exists l3 b3 c3 protect,
        (if c then x else y) = Some (l3, b3, c3, protect) /\
        perm_in d0 (lo + 1) hi l2 l3 /\ parted lo hi p l3 b3 c3 /\
        lo < b3 /\ b3 <= c3 /\ c3 <= hi)
  end.
  { destruct (Nat.ltb_spec (hi - b) 5) as [H5|H5]; cbn [negb andb].
    - exists l2, b, b, true. split; [reflexivity|].
      split; [apply perm_in_refl|]. split; [exact HP2|]. lia.
    - destruct (Nat.ltb_spec (hi - b) ((hi - lo) / 4)) as [H4|H4].
      + apply testDups_spec; try lia. exact HP2.
      + exists l2, b, b, false. split; [reflexivity|].
        split; [apply perm_in_refl|]. split; [exact HP2|]. lia. }
  destruct Step as (l3 & b3 & c3 & protect & -> & Hp3 & HP3 & B3 & B4 & B5).
  cbn [sort.andThen]. pose proof Hp3 as (Hl3 & _).
  match goal with
  | |- context [sort.andThen (if protect then ?x else ?y) _] =>
      assert (Step : exists l4 a4 b4,
        (if protect then x else y) = Some (l4, a4, b4) /\
        perm_in d0 (lo + 1) hi l3 l4 /\ parted lo hi p l4 b4 c3 /\
        lo < b4 /\ b4 <= c3)
  end.
  { destruct protect.
    - apply protect_loop_spec; try lia. exact HP3.
    - exists l3, a, b3. split; [reflexivity|].
      split; [apply perm_in_refl|]. split; [exact HP3|]. lia. }
  destruct Step as (l4 & a4 & b4 & -> & Hp4 & (Q0 & QL & QM & QR) & B6 & B7).
  cbn [sort.andThen]. pose proof Hp4 as (Hl4 & _).
  destruct (L_swap lo hi l4 lo (b4 - 1)) as (l5 & -> & Hl5 & Hp5 & N);
    try lia.
  cbn [sort.andThen].
  exists l5, (b4 - 1), c3, p. split; [reflexivity|].
  split; [lia|]. split; [lia|]. split; [lia|]. split; [|split; [|split]].
  - eapply perm_in_trans; [|exact Hp5|lia|lia].
    eapply perm_in_trans; [|exact Hp4|lia|lia].
    eapply perm_in_trans; [|exact Hp3|lia|lia].
    eapply perm_in_trans; [exact Hp1|exact Hp2|lia|lia].
  - intros k Hk1 Hk2. destruct (Nat.eq_dec k lo) as [->|Hk3].
    + by_index N. apply QL; lia.
    + by_index N. apply QL; lia.
  - intros k Hk1 Hk2. destruct (Nat.eq_dec k (b4 - 1)) as [->|Hk3].
    + by_index N;
        try match goal with e : _ = lo |- _ => rewrite e end;
        rewrite Q0; split; apply notafter_refl.
    + by_index N. apply QM; lia.
  - intros k Hk1 Hk2. by_index N. apply QR; lia.
Qed.

(** *** [heapSort] *)

(** In the heap rooted at [first], the children of node [k] that lie below
    [hi] are not after [k]. *)
Let node_ok (first hi : nat) (l : list E) (k : nat) : Prop :=
  forall c, c = 2 * k + 1 \/ c = 2 * k + 2 -> c < hi ->
            le l.[first + c] l.[first + k].

Lemma siftDown_loop_spec (first hi lo : nat) :
  forall (fuel : nat) (l : list E) (root : nat),
    lo <= root -> first + hi <= length l -> 0 < fuel -> hi < fuel + root ->
    (forall k, lo <= k -> k < hi -> k <> root -> node_ok first hi l k) ->
    (forall k c, lo <= k -> root = 2 * k + 1 \/ root = 2 * k + 2 ->
                 c = 2 * root + 1 \/ c = 2 * root + 2 -> c < hi ->
                 le l.[first + c] l.[first + k]) ->
    exists l',
      sort.siftDown_loop L fuel l root hi first = Some l' /\
      perm_in d0 (first + lo) (first + hi) l l' /\
      forall k, lo <= k -> k < hi -> node_ok first hi l' k.
Proof.
  induction fuel as [|fuel IH]; intros l root Hlo Hh Hf0 Hf I1 I2; [lia|].
  cbn [sort.siftDown_loop]. cbv zeta.
  destruct (Nat.leb_spec hi (2 * root + 1)) as [Hleaf|Hchild].
  - exists l. split; [reflexivity|]. split; [apply perm_in_refl|].
    intros k Hk1 Hk2. destruct (Nat.eq_dec k root) as [->|Hne].
    + intros c Hc1 Hc2. lia.
    + apply I1; auto.
  - assert (Tail : forall ch,
      (ch = 2 * root + 1 \/ ch = 2 * root + 2) -> ch < hi ->
      (forall c, c = 2 * root + 1 \/ c = 2 * root + 2 -> c < hi ->
                 le l.[first + c] l.[first + ch]) ->
      exists l',
        sort.andThen (sort.Less L l (first + root) (first + ch))
          (fun down =>
             if down
             then sort.andThen (sort.Swap L l (first + root) (first + ch))
                    (fun data => sort.siftDown_loop L fuel data ch hi first)
             else Some l) = Some l' /\
        perm_in d0 (first + lo) (first + hi) l l' /\
        forall k, lo <= k -> k < hi -> node_ok first hi l' k).
    { intros ch Hch1 Hch2 Hmax. rewrite L_less by lia. cbn [sort.andThen].
      destruct (less l.[first + root] l.[first + ch]) eqn:Hdown.
      - destruct (L_swap (first + lo) (first + hi) l (first + root)
                    (first + ch)) as (l1 & -> & Hl1 & Hp1 & N); try lia.
        cbn [sort.andThen].
        destruct (IH l1 ch) as (l' & Hr & Hp' & Hok); try lia.
        + intros k Hk1 Hk2 Hk3 c Hc1 Hc2.
          destruct (Nat.eq_dec k root) as [->|Hkr].
          * destruct (Nat.eq_dec c ch) as [->|Hcc].
            -- by_index N. apply less_notafter. exact Hdown.
            -- by_index N. apply Hmax; auto.
          * destruct (Nat.eq_dec c root) as [->|Hcr].
            -- by_index N. apply I2 with (k := k) (c := ch); auto; lia.
            -- by_index N. apply (I1 k); auto.
        + intros k c Hk1 Hk2 Hc1 Hc2.
          assert (k = root) by lia. subst k.
          by_index N. apply (I1 ch); auto; lia.
        + exists l'. split; [exact Hr|]. split; [|exact Hok].
          eapply perm_in_trans; [exact Hp1|exact Hp'|lia|lia].
      - exists l. split; [reflexivity|]. split; [apply perm_in_refl|].
        intros k Hk1 Hk2. destruct (Nat.eq_dec k root) as [->|Hne].
        + intros c Hc1 Hc2.
          apply notafter_trans with (y := l.[first + ch]); [|exact Hdown].
          apply Hmax; auto.
        + apply I1; auto. }
    destruct (Nat.ltb_spec (2 * root + 1 + 1) hi) as [Htwo|Hone].
    + rewrite L_less by lia. cbn [sort.andThen].
      destruct (less l.[first + (2 * root + 1)] l.[first + (2 * root + 1) + 1])
        eqn:Hright.
      * apply Tail; [lia | lia |].
        intros c [-> | ->] Hc.
        -- replace (first + (2 * root + 1 + 1))
             with (first + (2 * root + 1) + 1) by lia.
           apply less_notafter. exact Hright.
        -- replace (2 * root + 2) with (2 * root + 1 + 1) by lia.
           apply notafter_refl.
      * apply Tail; [lia | lia |].
        intros c [-> | ->] Hc; [apply notafter_refl|].
        replace (first + (2 * root + 2))
          with (first + (2 * root + 1) + 1) by lia.
        exact Hright.
    + cbn [sort.andThen]. apply Tail; [lia | lia |].
      intros c [-> | ->] Hc; [apply notafter_refl | lia].
Qed.

Lemma heapSort_build_spec (first hi : nat) :
  forall (i : nat) (l : list E),
    first + hi <= length l ->
    (forall k, i < k -> k < hi -> node_ok first hi l k) ->
    exists l',
      sort.heapSort_build L l i hi first = Some l' /\
      perm_in d0 first (first + hi) l l' /\
      forall k, k < hi -> node_ok first hi l' k.
Proof.
  induction i as [|i IH]; intros l Hh Hok.
  - cbn [sort.heapSort_build]. unfold sort.siftDown.
    destruct (siftDown_loop_spec first hi 0 (S hi) l 0)
      as (l1 & -> & Hp1 & Hok1); try lia.
    + intros k Hk1 Hk2 Hk3. apply Hok; lia.
    + cbn [sort.andThen]. exists l1. split; [reflexivity|].
      split; [|intros k Hk; apply Hok1; lia].
      eapply perm_in_widen; [exact Hp1|lia|lia].
  - cbn [sort.heapSort_build]. unfold sort.siftDown.
    destruct (siftDown_loop_spec first hi (S i) (S hi) l (S i))
      as (l1 & -> & Hp1 & Hok1); try lia.
    + intros k Hk1 Hk2 Hk3. apply Hok; lia.
    + cbn [sort.andThen]. pose proof Hp1 as (Hl1 & _).
      destruct (IH l1) as (l' & Hr & Hp' & Hok'); try lia.
      * intros k Hk1 Hk2. apply Hok1; lia.
      * exists l'. split; [exact Hr|]. split; [|exact Hok'].
        eapply perm_in_trans; [|exact Hp'|lia|lia].
        eapply perm_in_widen; [exact Hp1|lia|lia].
Qed.

Lemma heap_root_max (first n : nat) (l : list E) :
  (forall k, k < n -> node_ok first n l k) ->
  forall k, k < n -> le l.[first + k] l.[first + 0].
Proof.
  intros Hok k. induction k as [k IH] using lt_wf_ind. intros Hk.
  destruct k as [|k]; [apply notafter_refl|].
  pose proof (div_bounds k 2 ltac:(lia)) as Hq.
  apply notafter_trans with (y := l.[first + k / 2]).
  - apply (Hok (k / 2)); lia.
  - apply IH; lia.
Qed.

Lemma heapSort_pop_spec (first hi0 : nat) :
  forall (i : nat) (l : list E),
    i < hi0 -> first + hi0 <= length l ->
    (forall k, k < S i -> node_ok first (S i) l k) ->
    sorted_in less d0 (first + S i) (first + hi0) l ->
    (forall x y, x < S i -> S i <= y -> y < hi0 ->
                 le l.[first + x] l.[first + y]) ->
    exists l',
      sort.heapSort_pop L l i 0 first = Some l' /\
      perm_in d0 first (first + hi0) l l' /\
      sorted_in less d0 first (first + hi0) l'.
Proof.
  induction i as [i IH] using lt_wf_ind. intros l Hi Hh Hok Hs Hx.
  assert (Body : exists l2,
    sort.andThen (sort.Swap L l first (first + i))
      (fun data => sort.siftDown L data 0 i first) = Some l2 /\
    perm_in d0 first (first + hi0) l l2 /\
    (forall k, k < i -> node_ok first i l2 k) /\
    sorted_in less d0 (first + i) (first + hi0) l2 /\
    (forall x y, x < i -> i <= y -> y < hi0 ->
                 le l2.[first + x] l2.[first + y])).
  { destruct (L_swap first (first + hi0) l first (first + i))
      as (l1 & -> & Hl1 & Hp1 & N); try lia.
    cbn [sort.andThen]. unfold sort.siftDown.
    destruct (siftDown_loop_spec first i 0 (S i) l1 0)
      as (l2 & -> & Hp2 & Hok2); try lia.
    - intros k Hk1 Hk2 Hk3 c Hc1 Hc2. by_index N.
      apply (Hok k); auto; lia.
    - pose proof Hp2 as (Hl2 & _ & Hout2).
      assert (Hmax : forall x, x < S i -> le l.[first + x] l.[first + 0])
        by (apply heap_root_max; exact Hok).
      assert (Hlow : forall k, first + 0 <= k -> k < first + i ->
                le l2.[k] l.[first + 0] /\
                forall y, S i <= y -> y < hi0 -> le l2.[k] l.[first + y]).
      { apply (perm_in_forall d0
                 (fun e => le e l.[first + 0] /\
                           forall y, S i <= y -> y < hi0 ->
                                     le e l.[first + y])
                 (first + 0) (first + i) l1 l2 Hp2); try lia.
        intros k Hk1 Hk2. rewrite N.
        destruct (Nat.eqb_spec k first) as [->|Hkf].
        - split; [apply Hmax; lia|]. intros y Hy1 Hy2. apply Hx; lia.
        - destruct (Nat.eqb_spec k (first + i)); [lia|].
          replace k with (first + (k - first)) by lia.
          split; [apply Hmax; lia|]. intros y Hy1 Hy2. apply Hx; lia. }
      assert (Htop : l2.[first + i] = l.[first + 0]).
      { rewrite Hout2 by lia. rewrite N.
        destruct (Nat.eqb_spec (first + i) first) as [Heq|Hne].
        - f_equal. lia.
        - rewrite Nat.eqb_refl. f_equal. lia. }
      assert (Hkeep : forall y, i < y -> l2.[first + y] = l.[first + y]).
      { intros y Hy. rewrite Hout2 by lia. by_index N. reflexivity. }
      exists l2. split; [reflexivity|]. split; [|split; [|split]].
      + eapply perm_in_trans; [exact Hp1|exact Hp2|lia|lia].
      + intros k Hk. apply Hok2; lia.
      + intros p q Hp Hpq Hq.
        replace q with (first + (q - first)) by lia.
        rewrite Hkeep by lia.
        destruct (Nat.eq_dec p (first + i)) as [->|Hne].
        * rewrite Htop. apply Hx; lia.
        * replace p with (first + (p - first)) by lia.
          rewrite Hkeep by lia.
          replace (first + (p - first)) with p by lia.
          replace (first + (q - first)) with q by lia.
          apply Hs; lia.
      + intros x y Hx1 Hy1 Hy2.
        destruct (Hlow (first + x)) as [Hl0 Hly]; try lia.
        destruct (Nat.eq_dec y i) as [->|Hne].
        * rewrite Htop. exact Hl0.
        * rewrite (Hkeep y) by lia. apply Hly; lia. }
  destruct Body as (l2 & Hb & Hp2 & Hok2 & Hs2 & Hx2).
  pose proof Hp2 as (Hl2 & _).
  destruct i as [|i].
  - cbn [sort.heapSort_pop].
    unfold sort.andThen in Hb |- *.
    destruct (sort.Swap L l first (first + 0)) as [l1|]; [|discriminate].
    rewrite Hb. exists l2. split; [reflexivity|]. split; [exact Hp2|].
    replace (first + 0) with first in Hs2 by lia. exact Hs2.
  - cbn [sort.heapSort_pop].
    unfold sort.andThen in Hb |- *.
    destruct (sort.Swap L l first (first + S i)) as [l1|]; [|discriminate].
    rewrite Hb.
    destruct (IH i ltac:(lia) l2) as (l' & Hr & Hp' & Hs'); try lia; auto.
    exists l'. split; [exact Hr|]. split; [|exact Hs'].
    eapply perm_in_trans; [exact Hp2|exact Hp'|lia|lia].
Qed.

Lemma heapSort_spec (a b : nat) (l : list E) :
  a < b -> b <= length l ->
  exists l',
    sort.heapSort L l a b = Some l' /\
    perm_in d0 a b l l' /\ sorted_in less d0 a b l'.
Proof.
  intros Hab Hb. unfold sort.heapSort. cbv zeta.
  pose proof (div_bounds (b - a - 1) 2 ltac:(lia)) as Hq.
  destruct (heapSort_build_spec a (b - a) ((b - a - 1) / 2) l)
    as (l1 & -> & Hp1 & Hok1); try lia.
  { intros k Hk1 Hk2 c Hc1 Hc2. lia. }
  cbn [sort.andThen]. pose proof Hp1 as (Hl1 & _).
  destruct (Nat.eqb_spec (b - a) 0) as [H0|_]; [lia|].
  destruct (heapSort_pop_spec a (b - a) (b - a - 1) l1)
    as (l' & Hr & Hp' & Hs'); try lia.
  - replace (S (b - a - 1)) with (b - a) by lia. exact Hok1.
  - intros p q Hp Hpq Hq'. lia.
  - replace (a + (b - a)) with b in * by lia.
    exists l'. split; [exact Hr|]. split; [|exact Hs'].
    eapply perm_in_trans; [exact Hp1|exact Hp'|lia|lia].
Qed.

(** *** [quickSort] *)

Lemma small_sort_spec (a b : nat) (l : list E) :
  a <= b -> b <= length l ->
  exists l',
    (if 1 <? b - a
     then sort.andThen (sort.shellPass L l (a + 6) (b - (a + 6)))
            (fun data => sort.insertionSort L data a b)
     else Some l) = Some l' /\
    perm_in d0 a b l l' /\ sorted_in less d0 a b l'.
Proof.
  intros Hab Hb. destruct (Nat.ltb_spec 1 (b - a)) as [Hbig|Hsmall].
  - destruct (Nat.le_gt_cases b (a + 6)) as [Hle|Hgt].
    + replace (b - (a + 6)) with 0 by lia. cbn [sort.shellPass sort.andThen].
      apply insertionSort_spec; lia.
    + destruct (shellPass_spec a b (b - (a + 6)) (a + 6) l)
        as (l1 & -> & Hp1); try lia.
      cbn [sort.andThen]. pose proof Hp1 as (Hl1 & _).
      destruct (insertionSort_spec a b l1) as (l' & Hr & Hp' & Hs'); try lia.
      exists l'. split; [exact Hr|]. split; [|exact Hs'].
      eapply perm_in_trans; [exact Hp1|exact Hp'|lia|lia].
  - exists l. split; [reflexivity|]. split; [apply perm_in_refl|].
    intros i j Hi Hij Hj. lia.
Qed.

(** Two disjoint ranges sorted one after the other. *)
Lemma two_ranges (a1 b1 a2 b2 : nat) (l1 l2 l3 : list E) :
  b1 <= a2 \/ b2 <= a1 ->
  a1 <= b1 -> b1 <= length l1 -> a2 <= b2 -> b2 <= length l1 ->
  perm_in d0 a1 b1 l1 l2 -> perm_in d0 a2 b2 l2 l3 ->
  sorted_in less d0 a1 b1 l2 -> sorted_in less d0 a2 b2 l3 ->
  sorted_in less d0 a1 b1 l3 /\
  (forall P : E -> Prop,
     (forall k, a1 <= k -> k < b1 -> P l1.[k]) ->
     forall k, a1 <= k -> k < b1 -> P l3.[k]) /\
  (forall P : E -> Prop,
     (forall k, a2 <= k -> k < b2 -> P l1.[k]) ->
     forall k, a2 <= k -> k < b2 -> P l3.[k]) /\
  (forall k, ~ (a1 <= k /\ k < b1) -> ~ (a2 <= k /\ k < b2) ->
             l3.[k] = l1.[k]).
Proof.
  intros Hd Ha1 Hb1 Ha2 Hb2 Hp1 Hp2 Hs1 Hs2.
  pose proof Hp1 as (Hl1 & _ & Ho1). pose proof Hp2 as (Hl2 & _ & Ho2).
  split; [|split; [|split]].
  - intros i j Hi Hij Hj. rewrite !Ho2 by lia. apply Hs1; lia.
  - intros P HP k Hk1 Hk2. rewrite Ho2 by lia.
    apply (perm_in_forall d0 P a1 b1 l1 l2 Hp1); auto.
  - intros P HP k Hk1 Hk2.
    apply (perm_in_forall d0 P a2 b2 l2 l3 Hp2); auto; try lia.
    intros k' Hk1' Hk2'. rewrite Ho1 by lia. apply HP; lia.
  - intros k Hk1 Hk2. rewrite Ho2 by lia. apply Ho1. lia.
Qed.

Lemma sorted_three (a mlo mhi b : nat) (p : E) (l : list E) :
  sorted_in less d0 a mlo l -> sorted_in less d0 mhi b l ->
  (forall k, a <= k -> k < mlo -> le l.[k] p) ->
  (forall k, mlo <= k -> k < mhi -> le l.[k] p /\ le p l.[k]) ->
  (forall k, mhi <= k -> k < b -> le p l.[k]) ->
  sorted_in less d0 a b l.
Proof.
  intros HsL HsR HL HM HR i j Hi Hij Hj.
  change (le l.[i] l.[j]).
  destruct (Nat.lt_ge_cases j mlo) as [Hj1|Hj1]; [apply HsL; lia|].
  destruct (Nat.lt_ge_cases i mhi) as [Hi1|Hi1]; [|apply HsR; lia].
  apply notafter_trans with (y := p).
  - destruct (Nat.lt_ge_cases i mlo); [apply HL | apply HM]; lia.
  - destruct (Nat.lt_ge_cases j mhi); [apply HM | apply HR]; lia.
Qed.

Lemma quickSort_spec :
  forall (maxDepth : nat) (l : list E) (a b : nat),
    a <= b -> b <= length l ->
    exists l',
      sort.quickSort L l a b maxDepth = Some l' /\
      perm_in d0 a b l l' /\ sorted_in less d0 a b l'.
Proof.
  induction maxDepth as [|depth IH]; intros l a b Hab Hb.
  - cbn [sort.quickSort].
    destruct (Nat.ltb_spec 12 (b - a)) as [Hbig|Hsmall].
    + apply heapSort_spec; lia.
    + apply small_sort_spec; lia.
  - cbn [sort.quickSort].
    destruct (Nat.ltb_spec 12 (b - a)) as [Hbig|Hsmall];
      [|apply small_sort_spec; lia].
    destruct (doPivot_spec a b l) as
      (l1 & mlo & mhi & p & -> & M1 & M2 & M3 & Hp1 & HL & HM & HR);
      try lia.
    cbn [sort.andThen]. pose proof Hp1 as (Hl1 & _).
    destruct (mlo - a <? b - mhi).
    + destruct (IH l1 a mlo) as (l2 & -> & Hp2 & Hs2); try lia.
      cbn [sort.andThen]. pose proof Hp2 as (Hl2 & _).
      destruct (IH l2 mhi b) as (l3 & -> & Hp3 & Hs3); try lia.
      destruct (two_ranges a mlo mhi b l1 l2 l3) as (S1 & F1 & F2 & O);
        auto; try lia.
      exists l3. split; [reflexivity|]. split.
      * eapply perm_in_trans; [|exact Hp3|lia|lia].
        eapply perm_in_trans; [exact Hp1|exact Hp2|lia|lia].
      * apply sorted_three with (mlo := mlo) (mhi := mhi) (p := p); auto.
        -- apply (F1 (fun e => le e p)). exact HL.
        -- intros k Hk1 Hk2. rewrite O by lia. apply HM; lia.
        -- apply (F2 (fun e => le p e)). exact HR.
    + destruct (IH l1 mhi b) as (l2 & -> & Hp2 & Hs2); try lia.
      cbn [sort.andThen]. pose proof Hp2 as (Hl2 & _).
      destruct (IH l2 a mlo) as (l3 & -> & Hp3 & Hs3); try lia.
      destruct (two_ranges mhi b a mlo l1 l2 l3) as (S1 & F1 & F2 & O);
        auto; try lia.
      exists l3. split; [reflexivity|]. split.
      * eapply perm_in_trans; [|exact Hp3|lia|lia].
        eapply perm_in_trans; [exact Hp1|exact Hp2|lia|lia].
      * apply sorted_three with (mlo := mlo) (mhi := mhi) (p := p); auto.
        -- apply (F2 (fun e => le e p)). exact HL.
        -- intros k Hk1 Hk2. rewrite O by lia. apply HM; lia.
        -- apply (F1 (fun e => le p e)). exact HR.
Qed.

Lemma sorted_in_StronglySorted (l : list E) :
  sorted_in less d0 0 (length l) l ->
  StronglySorted (fun x y => less y x = false) l.
Proof.
  induction l as [|x l IH]; intros Hs; constructor.
  - apply IH. intros i j Hi Hij Hj.
    apply (Hs (S i) (S j)); simpl; lia.
  - apply Forall_forall. intros y Hy.
    destruct (In_nth _ _ d0 Hy) as (n & Hn & <-).
    apply (Hs 0 (S n)); simpl; lia.
Qed.

End SliceSort.

(** [sort.Sort] sorts a slice, for any [less] that is a strict weak
    order. *)
Lemma Sort_slice {E : Type} (less : E -> E -> bool) (l : list E) :
  strict_weak_order less ->
  exists l',
    sort.Sort (sort.sliceInterface less) l = Some l' /\
    Permutation l l' /\
    StronglySorted (fun x y => less y x = false) l'.
Proof.
  intros Ho. destruct l as [|d0 l0].
  - exists []. repeat split; constructor.
  - set (l := d0 :: l0).
    destruct (quickSort_spec less d0 Ho (sort.maxDepth (length l)) l 0
                (length l)) as (l' & Hr & (Hl & Hp & _) & Hs); try lia.
    exists l'. split; [exact Hr|]. split; [exact Hp|].
    apply (sorted_in_StronglySorted less d0). rewrite Hl. exact Hs.
Qed.


(** ** Two runs of [sort.Sort] that see the same answers of [Less] *)

Lemma follows_bind {A1 A2 B1 B2 : Type} (Tot : Prop)
  (QA : A1 -> A2 -> Prop) (QB : B1 -> B2 -> Prop)
  (o1 : option A1) (o2 : option A2)
  (k1 : A1 -> option B1) (k2 : A2 -> option B2) (r2 : B2) :
  sort.andThen o2 k2 = Some r2 ->
  (forall a2, o2 = Some a2 -> follows Tot QA o1 a2) ->
  (forall a1 a2, QA a1 a2 -> k2 a2 = Some r2 -> follows Tot QB (k1 a1) r2) ->
  follows Tot QB (sort.andThen o1 k1) r2.
Proof.
  intros Hrun H1 H2. destruct o2 as [a2|]; [|discriminate].
  specialize (H1 a2 eq_refl). destruct o1 as [a1|]; simpl in *.
  - apply (H2 a1 a2); assumption.
  - exact H1.
Qed.

Lemma scan_up_ext (cond1 cond2 : nat -> option bool) :
  (forall i b, cond2 i = Some b -> cond1 i = Some b) ->
  forall k i r, sort.scan_up cond2 i k = Some r ->
                sort.scan_up cond1 i k = Some r.
Proof.
  intros H. induction k as [|k IH]; intros i r; cbn [sort.scan_up]; auto.
  destruct (cond2 i) as [b|] eqn:Hc; [|discriminate].
  rewrite (H i b Hc). cbn [sort.andThen]. destruct b; auto.
Qed.

Lemma scan_down_ext (cond1 cond2 : nat -> option bool) :
  (forall i b, cond2 i = Some b -> cond1 i = Some b) ->
  forall k i r, sort.scan_down cond2 i k = Some r ->
                sort.scan_down cond1 i k = Some r.
Proof.
  intros H. induction k as [|k IH]; intros i r; cbn [sort.scan_down]; auto.
  destruct (cond2 (i - 1)) as [b|] eqn:Hc; [|discriminate].
  rewrite (H (i - 1) b Hc). cbn [sort.andThen]. destruct b; auto.
Qed.

Section Follow.

Context {D1 D2 : Type}.
Variable I1 : sort.Interface D1.
Variable I2 : sort.Interface D2.
Variable R : D1 -> D2 -> Prop.
Variable Tot : Prop.

Hypothesis R_less : forall d1 d2 i j b,
  R d1 d2 -> sort.Less I2 d2 i j = Some b -> sort.Less I1 d1 i j = Some b.
Hypothesis R_swap : forall d1 d2 i j d2',
  R d1 d2 -> sort.Swap I2 d2 i j = Some d2' ->
  follows Tot R (sort.Swap I1 d1 i j) d2'.

Let R3 (r1 : D1 * nat * nat) (r2 : D2 * nat * nat) : Prop :=
  R (fst (fst r1)) (fst (fst r2)) /\ snd (fst r1) = snd (fst r2) /\
  snd r1 = snd r2.

Let R4 (r1 : D1 * nat * nat * bool) (r2 : D2 * nat * nat * bool) : Prop :=
  R3 (fst r1) (fst r2) /\ snd r1 = snd r2.

Lemma follows_less (d1 : D1) (d2 : D2) (i j : nat) (b : bool) :
  R d1 d2 -> sort.Less I2 d2 i j = Some b ->
  follows Tot eq (sort.Less I1 d1 i j) b.
Proof. intros HR Hq. rewrite (R_less _ _ _ _ _ HR Hq). reflexivity. Qed.

Lemma notLess_ext (d1 : D1) (d2 : D2) (i j : nat) (b : bool) :
  R d1 d2 -> sort.notLess I2 d2 i j = Some b ->
  sort.notLess I1 d1 i j = Some b.
Proof.
  unfold sort.notLess. intros HR Hq.
  destruct (sort.Less I2 d2 i j) as [c|] eqn:Hc; [|discriminate].
  rewrite (R_less _ _ _ _ _ HR Hc). exact Hq.
Qed.

(** One step: a comparison, then an exchange when it says so. *)
Lemma follows_cond_swap (d1 : D1) (d2 d2' : D2) (b : bool) (i j : nat) :
  R d1 d2 ->
  (if b then sort.Swap I2 d2 i j else Some d2) = Some d2' ->
  follows Tot R (if b then sort.Swap I1 d1 i j else Some d1) d2'.
Proof.
  intros HR Hq. destruct b.
  - eapply R_swap; eauto.
  - injection Hq as <-. exact HR.
Qed.

Ltac less_step HR :=
  eapply follows_bind with (QA := @eq bool);
  [ eassumption
  | intros ? ?; eapply follows_less; [exact HR | eassumption]
  | intros ? ? <- ?; cbv beta in * ].

Ltac swap_step HR :=
  eapply follows_bind with (QA := R);
  [ eassumption
  | intros ? ?; eapply R_swap; [exact HR | eassumption]
  | intros ? ? ? ?; cbv beta in * ].

Lemma insert_down_follows (a : nat) :
  forall (n : nat) (d1 : D1) (d2 r2 : D2),
    R d1 d2 -> sort.insert_down I2 d2 a n = Some r2 ->
    follows Tot R (sort.insert_down I1 d1 a n) r2.
Proof.
  induction n as [|n IH]; intros d1 d2 r2 HR Hrun;
    cbn [sort.insert_down] in *.
  - injection Hrun as <-. exact HR.
  - less_step HR. destruct a1.
    + swap_step HR. eapply IH; eassumption.
    + match goal with Hq : Some _ = Some _ |- _ => injection Hq as <- end.
      exact HR.
Qed.

Lemma insertionSort_from_follows (a : nat) :
  forall (k i : nat) (d1 : D1) (d2 r2 : D2),
    R d1 d2 -> sort.insertionSort_from I2 d2 a i k = Some r2 ->
    follows Tot R (sort.insertionSort_from I1 d1 a i k) r2.
Proof.
  induction k as [|k IH]; intros i d1 d2 r2 HR Hrun;
    cbn [sort.insertionSort_from] in *.
  - injection Hrun as <-. exact HR.
  - eapply follows_bind with (QA := R); [exact Hrun | |].
    + intros d2' Hq. eapply insert_down_follows; eassumption.
    + intros d1' d2' HR' Hq. eapply IH; eassumption.
Qed.

Lemma insertionSort_follows (d1 : D1) (d2 r2 : D2) (a b : nat) :
  R d1 d2 -> sort.insertionSort I2 d2 a b = Some r2 ->
  follows Tot R (sort.insertionSort I1 d1 a b) r2.
Proof. apply insertionSort_from_follows. Qed.

Lemma shellPass_follows :
  forall (k i : nat) (d1 : D1) (d2 r2 : D2),
    R d1 d2 -> sort.shellPass I2 d2 i k = Some r2 ->
    follows Tot R (sort.shellPass I1 d1 i k) r2.
Proof.
  induction k as [|k IH]; intros i d1 d2 r2 HR Hrun;
    cbn [sort.shellPass] in *.
  - injection Hrun as <-. exact HR.
  - less_step HR.
    eapply follows_bind with (QA := R); [eassumption | |].
    + intros d2' Hq. eapply follows_cond_swap; eassumption.
    + intros d1' d2' HR' Hq. eapply IH; eassumption.
Qed.

Lemma siftDown_loop_follows (hi first : nat) :
  forall (fuel : nat) (d1 : D1) (d2 r2 : D2) (root : nat),
    R d1 d2 -> sort.siftDown_loop I2 fuel d2 root hi first = Some r2 ->
    follows Tot R (sort.siftDown_loop I1 fuel d1 root hi first) r2.
Proof.
  induction fuel as [|fuel IH]; intros d1 d2 r2 root HR Hrun;
    cbn [sort.siftDown_loop] in *; [discriminate|].
  cbv zeta in *.
  destruct (hi <=? 2 * root + 1).
  - injection Hrun as <-. exact HR.
  - eapply follows_bind with (QA := @eq bool); [exact Hrun | |].
    + intros b Hq. destruct (2 * root + 1 + 1 <? hi).
      * eapply follows_less; eassumption.
      * injection Hq as <-. reflexivity.
    + intros b ? <- Hk. cbv beta in *. less_step HR. destruct a1.
      * swap_step HR. eapply IH; eassumption.
      * match goal with Hq : Some _ = Some _ |- _ => injection Hq as <- end.
        exact HR.
Qed.

Lemma siftDown_follows (d1 : D1) (d2 r2 : D2) (lo hi first : nat) :
  R d1 d2 -> sort.siftDown I2 d2 lo hi first = Some r2 ->
  follows Tot R (sort.siftDown I1 d1 lo hi first) r2.
Proof. apply siftDown_loop_follows. Qed.

Lemma heapSort_build_follows (hi first : nat) :
  forall (i : nat) (d1 : D1) (d2 r2 : D2),
    R d1 d2 -> sort.heapSort_build I2 d2 i hi first = Some r2 ->
    follows Tot R (sort.heapSort_build I1 d1 i hi first) r2.
Proof.
  induction i as [|i IH]; intros d1 d2 r2 HR Hrun;
    cbn [sort.heapSort_build] in *;
    (eapply follows_bind with (QA := R);
     [ exact Hrun
     | intros d2' Hq; eapply siftDown_follows; eassumption
     | intros d1' d2' HR' Hq ]).
  - injection Hq as <-. exact HR'.
  - eapply IH; eassumption.
Qed.

Lemma heapSort_pop_follows (lo first : nat) :
  forall (i : nat) (d1 : D1) (d2 r2 : D2),
    R d1 d2 -> sort.heapSort_pop I2 d2 i lo first = Some r2 ->
    follows Tot R (sort.heapSort_pop I1 d1 i lo first) r2.
Proof.
  induction i as [|i IH]; intros d1 d2 r2 HR Hrun;
    cbn [sort.heapSort_pop] in *;
    (swap_step HR;
     eapply follows_bind with (QA := R);
     [ eassumption
     | intros d2' Hq'; eapply siftDown_follows; eassumption
     | intros d1' d2' HR' Hq' ]).
  - injection Hq' as <-. exact HR'.
  - eapply IH; eassumption.
Qed.

Lemma heapSort_follows (d1 : D1) (d2 r2 : D2) (a b : nat) :
  R d1 d2 -> sort.heapSort I2 d2 a b = Some r2 ->
  follows Tot R (sort.heapSort I1 d1 a b) r2.
Proof.
  intros HR Hrun. unfold sort.heapSort in *. cbv zeta in *.
  eapply follows_bind with (QA := R); [exact Hrun | |].
  - intros d2' Hq. eapply heapSort_build_follows; eassumption.
  - intros d1' d2' HR' Hq. destruct (b - a =? 0).
    + injection Hq as <-. exact HR'.
    + eapply heapSort_pop_follows; eassumption.
Qed.

Lemma medianOfThree_follows (d1 : D1) (d2 r2 : D2) (m1 m0 m2 : nat) :
  R d1 d2 -> sort.medianOfThree I2 d2 m1 m0 m2 = Some r2 ->
  follows Tot R (sort.medianOfThree I1 d1 m1 m0 m2) r2.
Proof.
  intros HR Hrun. unfold sort.medianOfThree in *.
  less_step HR.
  eapply follows_bind with (QA := R); [eassumption | |].
  - intros d2' Hq'. eapply follows_cond_swap; eassumption.
  - intros d1' d2' HR' Hq'. cbv beta in *. less_step HR'. destruct a0.
    + swap_step HR'.
      match goal with HR2 : R ?x ?y, Hq : sort.andThen (sort.Less I2 ?y _ _) _ = _
                      |- _ => less_step HR2; eapply follows_cond_swap;
                              eassumption end.
    + match goal with Hq : Some _ = Some _ |- _ => injection Hq as <- end.
      exact HR'.
Qed.

Lemma choosePivot_follows (d1 : D1) (d2 r2 : D2) (lo hi m : nat) :
  R d1 d2 -> sort.choosePivot I2 d2 lo hi m = Some r2 ->
  follows Tot R (sort.choosePivot I1 d1 lo hi m) r2.
Proof.
  intros HR Hrun. unfold sort.choosePivot in *. cbv zeta in *.
  eapply follows_bind with (QA := R); [exact Hrun | |].
  - intros d2' Hq. destruct (40 <? hi - lo).
    + eapply follows_bind with (QA := R); [exact Hq | |].
      * intros x Hx. eapply medianOfThree_follows; eassumption.
      * intros x1 x2 HRx Hx. cbv beta in *.
        eapply follows_bind with (QA := R); [exact Hx | |].
        -- intros y Hy. eapply medianOfThree_follows; eassumption.
        -- intros y1 y2 HRy Hy. eapply medianOfThree_follows; eassumption.
    + injection Hq as <-. exact HR.
  - intros d1' d2' HR' Hq. eapply medianOfThree_follows; eassumption.
Qed.

Lemma partition_loop_follows (pivot : nat) :
  forall (fuel : nat) (d1 : D1) (d2 : D2) (b c : nat) (r2 : D2 * nat * nat),
    R d1 d2 -> sort.partition_loop I2 fuel d2 pivot b c = Some r2 ->
    follows Tot R3 (sort.partition_loop I1 fuel d1 pivot b c) r2.
Proof.
  induction fuel as [|fuel IH]; intros d1 d2 b c r2 HR Hrun;
    cbn [sort.partition_loop] in *; [discriminate|].
  eapply follows_bind with (QA := @eq nat); [exact Hrun | |].
  - intros b' Hq.
    rewrite (scan_up_ext (fun i => sort.notLess I1 d1 pivot i)
               (fun i => sort.notLess I2 d2 pivot i)) with (r := b');
      [reflexivity | | exact Hq].
    intros i x. apply notLess_ext. exact HR.
  - intros b' ? <- Hk. cbv beta in *.
    eapply follows_bind with (QA := @eq nat); [exact Hk | |].
    + intros c' Hq'.
      rewrite (scan_down_ext (fun i => sort.Less I1 d1 pivot i)
                 (fun i => sort.Less I2 d2 pivot i)) with (r := c');
        [reflexivity | | exact Hq'].
      intros i x. apply R_less. exact HR.
    + intros c' ? <- Hk'. cbv beta in *. destruct (c' <=? b').
      * injection Hk' as <-. repeat split. exact HR.
      * swap_step HR. eapply IH; eassumption.
Qed.

Lemma protect_loop_follows (pivot : nat) :
  forall (fuel : nat) (d1 : D1) (d2 : D2) (a b : nat) (r2 : D2 * nat * nat),
    R d1 d2 -> sort.protect_loop I2 fuel d2 pivot a b = Some r2 ->
    follows Tot R3 (sort.protect_loop I1 fuel d1 pivot a b) r2.
Proof.
  induction fuel as [|fuel IH]; intros d1 d2 a b r2 HR Hrun;
    cbn [sort.protect_loop] in *; [discriminate|].
  eapply follows_bind with (QA := @eq nat); [exact Hrun | |].
  - intros b' Hq.
    rewrite (scan_down_ext (fun i => sort.notLess I1 d1 i pivot)
               (fun i => sort.notLess I2 d2 i pivot)) with (r := b');
      [reflexivity | | exact Hq].
    intros i x. apply notLess_ext. exact HR.
  - intros b' ? <- Hk. cbv beta in *.
    eapply follows_bind with (QA := @eq nat); [exact Hk | |].
    + intros a' Hq'.
      rewrite (scan_up_ext (fun i => sort.Less I1 d1 i pivot)
                 (fun i => sort.Less I2 d2 i pivot)) with (r := a');
        [reflexivity | | exact Hq'].
      intros i x. apply R_less. exact HR.
    + intros a' ? <- Hk'. cbv beta in *. destruct (b' <=? a').
      * injection Hk' as <-. repeat split. exact HR.
      * swap_step HR. eapply IH; eassumption.
Qed.

Lemma testDups_follows (d1 : D1) (d2 : D2) (pivot m hi b c : nat)
  (r2 : D2 * nat * nat * bool) :
  R d1 d2 -> sort.testDups I2 d2 pivot m hi b c = Some r2 ->
  follows Tot R4 (sort.testDups I1 d1 pivot m hi b c) r2.
Proof.
  intros HR Hrun. unfold sort.testDups in *.
  less_step HR.
  eapply follows_bind with (QA := R3); [eassumption | |].
  - intros x Hx. destruct a1.
    + injection Hx as <-. repeat split. exact HR.
    + eapply follows_bind with (QA := R); [exact Hx | |].
      * intros y Hy. eapply R_swap; eassumption.
      * intros y1 y2 HRy Hy. injection Hy as <-. repeat split. exact HRy.
  - intros [[e1 c1] u1] [[e2 c2] u2] (HR1 & Ec & Eu) Hk.
    cbn [fst snd] in HR1, Ec, Eu. subst c2 u2. cbv beta iota in *.
    less_step HR1.
    match goal with
    | |- context [if ?t then (b, u1) else _] => destruct t
    end; cbv beta iota zeta in *.
    + less_step HR1.
      eapply follows_bind with (QA := R3); [eassumption | |].
      * intros x Hx. destruct a0.
        -- injection Hx as <-. repeat split. exact HR1.
        -- eapply follows_bind with (QA := R); [exact Hx | |].
           ++ intros y Hy. eapply R_swap; eassumption.
           ++ intros y1 y2 HRy Hy. injection Hy as <-. repeat split.
              exact HRy.
      * intros [[f1 b1] v1] [[f2 b2] v2] (HR2 & Eb & Ev) Hk2.
        cbn [fst snd] in HR2, Eb, Ev. subst b2 v2.
        injection Hk2 as <-. repeat split. exact HR2.
    + less_step HR1.
      eapply follows_bind with (QA := R3); [eassumption | |].
      * intros x Hx. destruct a0.
        -- injection Hx as <-. repeat split. exact HR1.
        -- eapply follows_bind with (QA := R); [exact Hx | |].
           ++ intros y Hy. eapply R_swap; eassumption.
           ++ intros y1 y2 HRy Hy. injection Hy as <-. repeat split.
              exact HRy.
      * intros [[f1 b1] v1] [[f2 b2] v2] (HR2 & Eb & Ev) Hk2.
        cbn [fst snd] in HR2, Eb, Ev. subst b2 v2.
        injection Hk2 as <-. repeat split. exact HR2.
Qed.

Lemma doPivot_follows (d1 : D1) (d2 : D2) (lo hi : nat)
  (r2 : D2 * nat * nat) :
  R d1 d2 -> sort.doPivot I2 d2 lo hi = Some r2 ->
  follows Tot R3 (sort.doPivot I1 d1 lo hi) r2.
Proof.
  intros HR Hrun. unfold sort.doPivot in *. cbv zeta in *.
  eapply follows_bind with (QA := R); [exact Hrun | |].
  { intros x Hx. eapply choosePivot_follows; eassumption. }
  intros e1 e2 HR1 Hk1. cbv beta in *.
  eapply follows_bind with (QA := @eq nat); [exact Hk1 | |].
  { intros a Ha.
    rewrite (scan_up_ext (fun i => sort.Less I1 e1 i lo)
               (fun i => sort.Less I2 e2 i lo)) with (r := a);
      [reflexivity | | exact Ha].
    intros i x. apply R_less. exact HR1. }
  intros a ? <- Hk2. cbv beta in *.
  eapply follows_bind with (QA := R3); [exact Hk2 | |].
  { intros x Hx. eapply partition_loop_follows; eassumption. }
  intros [[f1 b1] c1] [[f2 b2] c2] (HR2 & Eb & Ec) Hk3.
  cbn [fst snd] in HR2, Eb, Ec. subst b2 c2. cbv beta iota in *.
  eapply follows_bind with (QA := R4); [exact Hk3 | |].
  { intros x Hx.
    destruct (negb (hi - c1 <? 5) && (hi - c1 <? (hi - lo) / 4)).
    - eapply testDups_follows; eassumption.
    - injection Hx as <-. repeat split. exact HR2. }
  intros [[[g1 b3] c3] p1] [[[g2 b4] c4] p2] ((HR3 & Eb & Ec) & Ep) Hk4.
  cbn [fst snd] in HR3, Eb, Ec, Ep. subst b4 c4 p2. cbv beta iota in *.
  eapply follows_bind with (QA := R3); [exact Hk4 | |].
  { intros x Hx. destruct p1.
    - eapply protect_loop_follows; eassumption.
    - injection Hx as <-. repeat split. exact HR3. }
  intros [[h1 a5] b5] [[h2 a6] b6] (HR4 & Ea & Eb) Hk5.
  cbn [fst snd] in HR4, Ea, Eb. subst a6 b6. cbv beta iota in *.
  eapply follows_bind with (QA := R); [exact Hk5 | |].
  { intros x Hx. eapply R_swap; eassumption. }
  intros y1 y2 HRy Hy. injection Hy as <-. repeat split. exact HRy.
Qed.

Lemma quickSort_follows :
  forall (maxDepth : nat) (d1 : D1) (d2 r2 : D2) (a b : nat),
    R d1 d2 -> sort.quickSort I2 d2 a b maxDepth = Some r2 ->
    follows Tot R (sort.quickSort I1 d1 a b maxDepth) r2.
Proof.
  assert (Small : forall (d1 : D1) (d2 r2 : D2) (a b : nat),
    R d1 d2 ->
    (if 1 <? b - a
     then sort.andThen (sort.shellPass I2 d2 (a + 6) (b - (a + 6)))
            (fun data => sort.insertionSort I2 data a b)
     else Some d2) = Some r2 ->
    follows Tot R
      (if 1 <? b - a
       then sort.andThen (sort.shellPass I1 d1 (a + 6) (b - (a + 6)))
              (fun data => sort.insertionSort I1 data a b)
       else Some d1) r2).
  { intros d1 d2 r2 a b HR Hrun. destruct (1 <? b - a).
    - eapply follows_bind with (QA := R); [exact Hrun | |].
      + intros x Hx. eapply shellPass_follows; eassumption.
      + intros x1 x2 HRx Hx. eapply insertionSort_follows; eassumption.
    - injection Hrun as <-. exact HR. }
  induction maxDepth as [|depth IH]; intros d1 d2 r2 a b HR Hrun;
    cbn [sort.quickSort] in *.
  - destruct (12 <? b - a).
    + eapply heapSort_follows; eassumption.
    + eapply Small; eassumption.
  - destruct (12 <? b - a); [|eapply Small; eassumption].
    eapply follows_bind with (QA := R3); [exact Hrun | |].
    { intros x Hx. eapply doPivot_follows; eassumption. }
    intros [[e1 mlo] mhi] [[e2 mlo2] mhi2] (HR1 & E1 & E2) Hk.
    cbn [fst snd] in HR1, E1, E2. subst mlo2 mhi2. cbv beta iota in *.
    destruct (mlo - a <? b - mhi).
    + eapply follows_bind with (QA := R); [exact Hk | |].
      * intros x Hx. eapply IH; eassumption.
      * intros x1 x2 HRx Hx. eapply IH; eassumption.
    + eapply follows_bind with (QA := R); [exact Hk | |].
      * intros x Hx. eapply IH; eassumption.
      * intros x1 x2 HRx Hx. eapply IH; eassumption.
Qed.

Hypothesis R_len : forall d1 d2, R d1 d2 -> sort.Len I1 d1 = sort.Len I2 d2.

Lemma Sort_follows (d1 : D1) (d2 r2 : D2) :
  R d1 d2 -> sort.Sort I2 d2 = Some r2 ->
  follows Tot R (sort.Sort I1 d1) r2.
Proof.
  intros HR Hrun. unfold sort.Sort in *. cbv zeta in *.
  rewrite (R_len _ _ HR). eapply quickSort_follows; eassumption.
Qed.

End Follow.

(** ** [sort.Sort] on any data that represents a list *)

Lemma set_nth_map {A B : Type} (f : A -> B) (l : list A) (n : nat) (x : A) :
  sort.set_nth (map f l) n (f x) = map f (sort.set_nth l n x).
Proof.
  revert n; induction l as [|y l IH]; intros [|n]; simpl; auto.
  f_equal. apply IH.
Qed.

Lemma swap_slice_map {A B : Type} (f : A -> B) (l : list A) (i j : nat) :
  sort.swap_slice (map f l) i j = option_map (map f) (sort.swap_slice l i j).
Proof.
  unfold sort.swap_slice. rewrite !nth_error_map.
  destruct (nth_error l i) as [x|]; [|reflexivity].
  destruct (nth_error l j) as [y|]; [|reflexivity].
  simpl. rewrite !set_nth_map. reflexivity.
Qed.

(** What every exchange keeps, the sort keeps. *)
Lemma Sort_invariant {D : Type} (I : sort.Interface D) (Inv : D -> Prop) :
  (forall d i j d', Inv d -> sort.Swap I d i j = Some d' -> Inv d') ->
  forall d d', Inv d -> sort.Sort I d = Some d' -> Inv d'.
Proof.
  intros Hsw d d' Hd Hrun.
  assert (F : follows True (fun d1 d2 : D => d1 = d2 /\ Inv d1)
                (sort.Sort I d) d').
  { apply (Sort_follows I I (fun d1 d2 : D => d1 = d2 /\ Inv d1) True)
      with (d2 := d); auto.
    - intros d1 d2 i j b [-> _] H. exact H.
    - intros d1 d2 i j d2' [-> Hi] H. rewrite H. simpl.
      split; [reflexivity|]. eapply Hsw; eauto.
    - intros d1 d2 [-> _]. reflexivity. }
  rewrite Hrun in F. simpl in F. apply F.
Qed.

Section SortCorrect.

Context {D E : Type}.
Variable I : sort.Interface D.
Variable repr : D -> list E -> Prop.
Variable lt : E -> E -> bool.

Hypothesis order : strict_weak_order lt.
Hypothesis repr_len : forall d l, repr d l -> sort.Len I d = length l.
Hypothesis repr_less : forall d l i j x y,
  repr d l -> nth_error l i = Some x -> nth_error l j = Some y ->
  sort.Less I d i j = Some (lt x y).
Hypothesis repr_swap : forall d l i j d' l',
  repr d l -> sort.swap_slice l i j = Some l' ->
  sort.Swap I d i j = Some d' -> repr d' l'.

Lemma repr_slice_Less (d : D) (l : list E) (i j : nat) (b : bool) :
  repr d l -> sort.Less (sort.sliceInterface lt) l i j = Some b ->
  sort.Less I d i j = Some b.
Proof.
  intros Hd. simpl. unfold sort.slice_Less.
  destruct (nth_error l i) as [x|] eqn:Hx; [|discriminate].
  destruct (nth_error l j) as [y|] eqn:Hy; [|discriminate].
  intros H. injection H as <-. eapply repr_less; eauto.
Qed.

(** A run of [sort.Sort] that returns has sorted the list that the data
    represents. *)
Lemma Sort_sound (d d' : D) (l : list E) :
  repr d l -> sort.Sort I d = Some d' ->
  exists l', repr d' l' /\ Permutation l l' /\
             StronglySorted (fun a b => lt b a = false) l'.
Proof.
  intros Hd Hrun.
  destruct (Sort_slice lt l order) as (l' & Hs & Hp & Hsorted).
  exists l'. split; [|split; assumption].
  assert (F : follows False repr (sort.Sort I d) l').
  { apply (Sort_follows I (sort.sliceInterface lt) repr False)
      with (d2 := l); auto.
    - intros d1 d2 i j b. apply repr_slice_Less.
    - intros d1 d2 i j d2' H1 H2. simpl in H2.
      destruct (sort.Swap I d1 i j) as [d1'|] eqn:Hsw; simpl; [|tauto].
      eapply repr_swap; eauto. }
  rewrite Hrun in F. exact F.
Qed.

Hypothesis repr_swap_total : forall d l i j,
  repr d l -> sort.swap_slice l i j <> None -> sort.Swap I d i j <> None.

(** With an exchange that cannot fail in range, [sort.Sort] returns. *)
Lemma Sort_spec (d : D) (l : list E) :
  repr d l ->
  exists d' l',
    sort.Sort I d = Some d' /\ repr d' l' /\
    Permutation l l' /\ StronglySorted (fun a b => lt b a = false) l'.
Proof.
  intros Hd.
  destruct (Sort_slice lt l order) as (l' & Hs & Hp & Hsorted).
  assert (F : follows True repr (sort.Sort I d) l').
  { apply (Sort_follows I (sort.sliceInterface lt) repr True)
      with (d2 := l); auto.
    - intros d1 d2 i j b. apply repr_slice_Less.
    - intros d1 d2 i j d2' H1 H2. simpl in H2.
      destruct (sort.Swap I d1 i j) as [d1'|] eqn:Hsw; simpl.
      + eapply repr_swap; eauto.
      + intros _. apply (repr_swap_total d1 d2 i j H1); congruence. }
  destruct (sort.Sort I d) as [d'|]; simpl in F; [|tauto].
  exists d', l'. auto.
Qed.

End SortCorrect.

End SortLibrary.

(** ** The two sorts of package key *)

Lemma input_order :
  strict_weak_order key.input_Less.
Proof.
  split; [apply input_Less_asym | intros a b c; apply source_le_trans].
Qed.

Lemma pair_input_order {B : Type} :
  strict_weak_order
    (fun a b : TransferableInput * B => key.input_Less (fst a) (fst b)).
Proof.
  split; [intros a b; apply input_Less_asym
         | intros a b c; apply source_le_trans].
Qed.

Lemma SortTransferableInputs_spec (l : list TransferableInput) :
  exists l',
    key.SortTransferableInputs l = Some l' /\
    Permutation l l' /\ StronglySorted source_le l'.
Proof.
  destruct (Sort_slice key.input_Less l input_order)
    as (l' & Hs & Hp & Hsorted).
  exists l'. split; [exact Hs|]. split; [exact Hp | exact Hsorted].
Qed.

Lemma StronglySorted_map_fst {A B : Type} (R : A -> A -> Prop)
  (l : list (A * B)) :
  StronglySorted (fun a b => R (fst a) (fst b)) l ->
  StronglySorted R (map fst l).
Proof.
  induction 1 as [|a l Hs IH Hf]; simpl; constructor; auto.
  rewrite Forall_map. exact Hf.
Qed.

Lemma combine_map_fst_snd {A B : Type} (l : list (A * B)) :
  combine (map fst l) (map snd l) = l.
Proof.
  induction l as [|[a b] l IH]; simpl; congruence.
Qed.

Lemma map_fst_combine {A B : Type} (l1 : list A) (l2 : list B) :
  length l1 = length l2 -> map fst (combine l1 l2) = l1.
Proof.
  revert l2; induction l1 as [|a l1 IH]; intros [|b l2]; simpl;
    try discriminate; auto.
  intros H. f_equal. apply IH. lia.
Qed.

Lemma map_snd_combine {A B : Type} (l1 : list A) (l2 : list B) :
  length l1 = length l2 -> map snd (combine l1 l2) = l2.
Proof.
  revert l2; induction l1 as [|a l1 IH]; intros [|b l2]; simpl;
    try discriminate; auto.
  intros H. f_equal. apply IH. lia.
Qed.

(** The coupled sort, on two slices of the same length: it does not panic,
    it applies one permutation to the pairs (input, signer list), and the
    inputs come out ascending by source. *)
Lemma SortTransferableInputsWithSigners_spec
  (ins : list TransferableInput) (signers : list (list ShortID)) :
  length ins = length signers ->
  exists ins' signers',
    key.SortTransferableInputsWithSigners ins signers = Some (ins', signers')
    /\ length ins' = length signers'
    /\ Permutation (combine ins signers) (combine ins' signers')
    /\ StronglySorted source_le ins'.
Proof.
  intros Hlen.
  pose (repr := fun (d : key.innerSortTransferableInputsWithSigners)
                    (l : list (TransferableInput * list ShortID)) =>
                  key.ins d = map fst l /\ key.signers d = map snd l).
  destruct (Sort_spec key.innerInterface repr
              (fun a b => key.input_Less (fst a) (fst b)) pair_input_order)
    with (d := key.mkInner ins signers) (l := combine ins signers)
    as (d' & l' & Hs & [Hi Hg] & Hp & Hsorted).
  - intros d l [Hi _]. simpl. unfold key.inner_Len.
    rewrite Hi, length_map. reflexivity.
  - intros d l i j x y [Hi _] Hx Hy. simpl. unfold key.inner_Less.
    rewrite Hi, !nth_error_map, Hx, Hy. reflexivity.
  - intros d l i j d1 l1 [Hi Hg] Hl Hs.
    simpl in Hs. unfold key.inner_Swap in Hs.
    rewrite Hi, Hg, !swap_slice_map, Hl in Hs. simpl in Hs.
    injection Hs as <-. split; reflexivity.
  - intros d l i j [Hi Hg] Hl.
    simpl. unfold key.inner_Swap. rewrite Hi, Hg, !swap_slice_map.
    destruct (sort.swap_slice l i j); [simpl; discriminate | congruence].
  - split; simpl; [rewrite map_fst_combine | rewrite map_snd_combine]; auto.
  - exists (key.ins d'), (key.signers d').
    unfold key.SortTransferableInputsWithSigners. rewrite Hs.
    rewrite Hi, Hg, !length_map, combine_map_fst_snd.
    repeat split; auto.
    apply StronglySorted_map_fst with (R := source_le). exact Hsorted.
Qed.

(** ** [Spends] *)

Lemma wrap64_add_l (a b : Z) : wrap64 (wrap64 a + b) = wrap64 (a + b).
Proof. unfold wrap64. apply Zplus_mod_idemp_l. Qed.

Lemma Spends_loop_no_target (spend : UTXO -> Z -> result TransferableIn)
  (ret : key.Op) (outputs : list UTXO) :
  key.targetAmount ret = 0 ->
  forall (total : Z) (inputs : list TransferableInput),
    key.Spends_loop spend ret outputs (wrap64 total) inputs =
    (wrap64 (total + sum_inputs (spendable spend (key.time ret) outputs)),
     inputs ++ spendable spend (key.time ret) outputs).
Proof.
  intros Ht. induction outputs as [|out rest IH]; intros total inputs; simpl.
  - rewrite Z.add_0_r, app_nil_r. reflexivity.
  - destruct (spend out (key.time ret)) as [input|e]; [|apply IH].
    rewrite Ht. simpl andb. cbv iota. rewrite wrap64_add_l, IH. simpl.
    rewrite <- app_assoc. simpl. f_equal. f_equal. lia.
Qed.

Lemma Spends_with_no_target (spend : UTXO -> Z -> result TransferableIn)
  (outputs : list UTXO) (opts : list key.OpOption) :
  let ret := key.applyOpts key.Op0 opts in
  let all := spendable spend (key.time ret) outputs in
  key.targetAmount ret = 0 ->
  exists inputs,
    key.Spends_with spend outputs opts = Some (wrap64 (sum_inputs all), inputs)
    /\ Permutation all inputs
    /\ StronglySorted source_le inputs.
Proof.
  intros ret all Ht. unfold key.Spends_with. fold ret.
  change 0 with (wrap64 0) at 1.
  rewrite (Spends_loop_no_target spend ret outputs Ht 0 []). simpl app.
  fold all. destruct (SortTransferableInputs_spec all) as (l' & Hs & Hp & Hso).
  rewrite Hs. exists l'. rewrite Z.add_0_l. auto.
Qed.

(** C10.  With a target amount of zero (the option absent or set to 0),
    whatever the fee deduction, [Spends] of either key tries every UTXO of
    the list: it returns the (sorted) inputs of all the UTXOs its [spend]
    accepts and their total, so every spendable UTXO of the list is among
    the inputs and none is left out by an early stop. *)
Theorem Spends_zero_target_spends_all
  (h : key.HardKey) (keyChain_Spend : Output -> Z -> result Verifiable)
  (outputs : list UTXO) (opts : list key.OpOption)
  (Htarget : key.targetAmount (key.applyOpts key.Op0 opts) = 0) :
  let t := key.time (key.applyOpts key.Op0 opts) in
  (exists inputs,
     key.HardKey_Spends h outputs opts
     = Some (wrap64 (sum_inputs (spendable (key.hard_spend h) t outputs)),
             inputs)
     /\ Permutation (spendable (key.hard_spend h) t outputs) inputs
     /\ forall out input,
          List.In out outputs -> key.hard_spend h out t = Ok input ->
          List.In (mkTransferableInput (utxo_UTXOID out) (utxo_Asset out)
                     input) inputs)
  /\
  (exists inputs,
     key.SoftKey_Spends keyChain_Spend outputs opts
     = Some (wrap64 (sum_inputs
                       (spendable (key.soft_spend keyChain_Spend) t outputs)),
             inputs)
     /\ Permutation (spendable (key.soft_spend keyChain_Spend) t outputs)
          inputs
     /\ forall out input,
          List.In out outputs ->
          key.soft_spend keyChain_Spend out t = Ok input ->
          List.In (mkTransferableInput (utxo_UTXOID out) (utxo_Asset out)
                     input) inputs).
Proof.
  assert (G : forall spend out input t,
             List.In out outputs -> spend out t = Ok input ->
             List.In (mkTransferableInput (utxo_UTXOID out) (utxo_Asset out)
                        input) (spendable spend t outputs)).
  { intros spend out input t. induction outputs as [|o rest IH]; simpl;
      [tauto|].
    intros [->|Hin] Hs.
    - rewrite Hs. left; reflexivity.
    - destruct (spend o t); [right|]; auto. }
  cbv zeta. split.
  - destruct (Spends_with_no_target (key.hard_spend h) outputs opts Htarget)
      as (inputs & Hs & Hp & _).
    exists inputs. repeat split; auto.
    intros out input Hin Hok. eapply Permutation_in; [exact Hp|].
    apply G; assumption.
  - destruct (Spends_with_no_target (key.soft_spend keyChain_Spend) outputs
                opts Htarget) as (inputs & Hs & Hp & _).
    exists inputs. repeat split; auto.
    intros out input Hin Hok. eapply Permutation_in; [exact Hp|].
    apply G; assumption.
Qed.


(** ** The two passes of [stake] *)

Lemma wrap64_small (z : Z) : 0 <= z < 2 ^ 64 -> wrap64 z = z.
Proof. intros H. unfold wrap64. apply Z.mod_small. exact H. Qed.

Lemma Min64_min (a b : Z) : Min64 a b = Z.min a b.
Proof. unfold Min64. destruct (Z.ltb_spec a b); lia. Qed.

Lemma sum_inputs_app (l1 l2 : list TransferableInput) :
  sum_inputs (l1 ++ l2) = sum_inputs l1 + sum_inputs l2.
Proof. induction l1; simpl; lia. Qed.

Lemma sum_outputs_app (l1 l2 : list TransferableOutput) :
  sum_outputs (l1 ++ l2) = sum_outputs l1 + sum_outputs l2.
Proof. induction l1; simpl; lia. Qed.

Lemma sum_inputs_perm (l1 l2 : list TransferableInput) :
  Permutation l1 l2 -> sum_inputs l1 = sum_inputs l2.
Proof. induction 1; simpl; lia. Qed.

Lemma sum_outputs_perm (l1 l2 : list TransferableOutput) :
  Permutation l1 l2 -> sum_outputs l1 = sum_outputs l2.
Proof. induction 1; simpl; lia. Qed.

Ltac unwrap64 :=
  rewrite ?Min64_min;
  repeat match goal with
         | |- context [wrap64 ?z] =>
             rewrite (wrap64_small z) by (unfold is_uint64 in *; lia)
         end.

Ltac split_gtb :=
  repeat match goal with
         | |- context [?a >? ?b] =>
             rewrite (Z.gtb_ltb a b); destruct (Z.ltb_spec b a)
         end.

Section StakePasses.

Variable pc : client.p.
Variable k : Key.
Variable ret : client.Op.
Variables now fee : Z.

Hypothesis HS : is_uint64 (client.stakeAmt ret).
Hypothesis HF : is_uint64 fee.

Let S := client.stakeAmt ret.

(** The passes only append to the list of inputs. *)
Lemma stake_pass1_ins (utxos : list UTXO) :
  forall st, exists l,
    client.sel_ins (client.stake_pass1 pc k ret now utxos st)
    = client.sel_ins st ++ l.
Proof.
  induction utxos as [|utxo rest IH]; intros st; simpl.
  - exists []. rewrite app_nil_r. reflexivity.
  - destruct (_ >=? _); [exists []; rewrite app_nil_r; reflexivity|].
    destruct (negb _); [apply IH|].
    destruct (Out utxo) as [o|amt o|lockTime inner|tag]; try apply IH.
    destruct (lockTime <=? now); [apply IH|].
    destruct inner as [o|amt owners|lt2 inner2|tag]; try apply IH.
    destruct (Spends k [utxo] [key.WithTime now]) as [[t inputs] sg].
    destruct inputs as [|in_ inputs]; [apply IH|].
    match goal with
    | |- context [client.stake_pass1 pc k ret now rest ?st1] =>
        destruct (IH st1) as (l & El)
    end.
    rewrite El. simpl. exists (in_ :: l). rewrite <- app_assoc. reflexivity.
Qed.

Lemma stake_pass2_ins (utxos : list UTXO) :
  forall st, exists l,
    client.sel_ins (fst (client.stake_pass2 pc k ret now fee utxos st))
    = client.sel_ins st ++ l.
Proof.
  induction utxos as [|utxo rest IH]; intros st; simpl.
  - exists []. rewrite app_nil_r. reflexivity.
  - destruct (_ && _); [exists []; rewrite app_nil_r; reflexivity|].
    destruct (negb _).
    { destruct (IH st) as (l & El).
      destruct (client.stake_pass2 pc k ret now fee rest st); eauto. }
    destruct (client.unwrap now utxo) as [utxo'|].
    2:{ destruct (IH st) as (l & El).
        destruct (client.stake_pass2 pc k ret now fee rest st); eauto. }
    destruct (Spends k [utxo'] [key.WithTime now]) as [[t inputs] sg].
    destruct inputs as [|in_ inputs].
    { destruct (IH st) as (l & El).
      destruct (client.stake_pass2 pc k ret now fee rest st); eauto. }
    match goal with
    | |- context [client.stake_pass2 pc k ret now fee rest ?st1] =>
        destruct (IH st1) as (l & El);
        destruct (client.stake_pass2 pc k ret now fee rest st1)
    end.
    simpl in *. rewrite El. exists (in_ :: l).
    rewrite <- app_assoc. reflexivity.
Qed.

Lemma stake_pass1_balanced (utxos : list UTXO) :
  forall st,
    amounts_ok (client.sel_ins (client.stake_pass1 pc k ret now utxos st)) ->
    balanced S fee st ->
    balanced S fee (client.stake_pass1 pc k ret now utxos st).
Proof.
  induction utxos as [|utxo rest IH]; intros st; simpl; [auto|].
  destruct (Z.geb_spec (client.amountStaked st) (client.stakeAmt ret))
    as [Hge|Hlt]; [auto|].
  destruct (negb _); [apply IH|].
  destruct (Out utxo) as [o|amt o|lockTime inner|tag]; try apply IH.
  destruct (lockTime <=? now); [apply IH|].
  destruct inner as [o|amt owners|lt2 inner2|tag]; try apply IH.
  destruct (Spends k [utxo] [key.WithTime now]) as [[t inputs] sg] eqn:Esp.
  destruct inputs as [|in_ inputs]; [apply IH|].
  intros Hfin HI. apply IH; [exact Hfin|].
  assert (Ha : is_uint64 (Amount (in_In in_))).
  { match type of Hfin with
    | amounts_ok (client.sel_ins (client.stake_pass1 _ _ _ _ _ ?st1)) =>
        destruct (stake_pass1_ins rest st1) as (l & El)
    end.
    rewrite El in Hfin. simpl in Hfin. unfold amounts_ok in Hfin.
    rewrite !Forall_app in Hfin. destruct Hfin as [[_ Hin] _].
    inversion Hin; assumption. }
  destruct HI as (H1 & H2 & H3 & H4). unfold S in *.
  unfold balanced, client.change_output; simpl.
  unfold is_uint64 in *.
  unwrap64. split_gtb;
    rewrite ?sum_inputs_app, ?sum_outputs_app; simpl; lia.
Qed.

Lemma stake_pass2_balanced (utxos : list UTXO) :
  forall st,
    amounts_ok
      (client.sel_ins (fst (client.stake_pass2 pc k ret now fee utxos st))) ->
    balanced S fee st ->
    balanced S fee (fst (client.stake_pass2 pc k ret now fee utxos st)).
Proof.
  induction utxos as [|utxo rest IH]; intros st; simpl; [auto|].
  destruct (_ && _); [auto|].
  destruct (negb _).
  { specialize (IH st).
    destruct (client.stake_pass2 pc k ret now fee rest st); exact IH. }
  destruct (client.unwrap now utxo) as [utxo'|].
  2:{ specialize (IH st).
      destruct (client.stake_pass2 pc k ret now fee rest st); exact IH. }
  destruct (Spends k [utxo'] [key.WithTime now]) as [[t inputs] sg] eqn:Esp.
  destruct inputs as [|in_ inputs].
  { specialize (IH st).
    destruct (client.stake_pass2 pc k ret now fee rest st); exact IH. }
  match goal with
  | |- context [client.stake_pass2 pc k ret now fee rest ?st1] =>
      specialize (IH st1); destruct (stake_pass2_ins rest st1) as (l & El);
      destruct (client.stake_pass2 pc k ret now fee rest st1)
  end.
  simpl in *. intros Hfin HI. apply IH; [exact Hfin|].
  assert (Ha : is_uint64 (Amount (in_In in_))).
  { rewrite El in Hfin. unfold amounts_ok in Hfin.
    rewrite !Forall_app in Hfin. destruct Hfin as [[_ Hin] _].
    inversion Hin; assumption. }
  destruct HI as (H1 & H2 & H3 & H4). unfold S in *.
  unfold balanced, client.change_output; simpl.
  unfold is_uint64 in *.
  unwrap64. split_gtb;
    rewrite ?sum_inputs_app, ?sum_outputs_app; simpl; lia.
Qed.

End StakePasses.

(** ** [stake] as a whole *)

Lemma coupled_sort_inputs (ins ins' : list TransferableInput)
  (signers signers' : list (list ShortID)) :
  key.SortTransferableInputsWithSigners ins signers = Some (ins', signers') ->
  Permutation ins ins' /\ StronglySorted source_le ins'.
Proof.
  unfold key.SortTransferableInputsWithSigners.
  destruct (sort.Sort key.innerInterface (key.mkInner ins signers))
    as [d'|] eqn:Hs; [|discriminate].
  intros E. injection E as <- <-.
  destruct (Sort_sound key.innerInterface (fun d l => key.ins d = l)
              key.input_Less input_order)
    with (d := key.mkInner ins signers) (d' := d') (l := ins)
    as (l' & Hr & Hp & Hsorted); auto.
  - intros d l <-. reflexivity.
  - intros d l i j x y <- Hx Hy. simpl. unfold key.inner_Less.
    rewrite Hx, Hy. reflexivity.
  - intros d l i j d1 l1 Hi Hl Hsw. simpl in Hsw.
    unfold key.inner_Swap in Hsw. rewrite Hi, Hl in Hsw.
    destruct (sort.swap_slice (key.signers d) i j); [|discriminate].
    injection Hsw as <-. reflexivity.
  - subst l'. split; assumption.
Qed.

Lemma SortTransferableOutputs_perm (cd : Codec)
  (l l' : list TransferableOutput) :
  client.SortTransferableOutputs cd l = Some l' -> Permutation l l'.
Proof.
  intros Hs.
  apply (Sort_invariant (client.outputsInterface cd)
           (fun d => Permutation l d)) with (d := l); auto.
  intros d i j d' Hp Hsw. simpl in Hsw.
  eapply Permutation_trans; [exact Hp|].
  eapply swap_slice_perm; eauto.
Qed.

Lemma bindM_emit_inv {A : Type} (e : client.Event) (m : client.M A)
  (t : list client.Event) (o : option A) :
  client.bindM (client.emit e) (fun _ => m) = (t, o) ->
  exists t', m = (t', o) /\ t = e :: t'.
Proof.
  unfold client.bindM, client.emit. destruct m as [t' b].
  intros E. injection E as <- <-. exists t'. auto.
Qed.

(** A call of [stake] that returns without an error went through the two
    passes on the parsed UTXOs. *)
Lemma stake_success_inv (pc : client.p) (cd : Codec) (k : Key) (fee : Z)
  (opts : list client.OpOption) (t : list client.Event)
  (r : client.StakeReturn) :
  client.stake pc cd k fee opts = (t, Some r) -> client.r_err r = None ->
  exists ret ubs utxos,
    client.stakeAmt ret = client.stakeAmt (client.applyOpts client.Op0 opts)
    /\ client.cli_GetAtomicUTXOs pc (P k) = Ok ubs
    /\ client.parse_utxos cd ubs = Ok utxos
    /\ client.stake_utxos pc cd k fee ret utxos = Some r.
Proof.
  unfold client.stake. intros Hrun Herr.
  set (ret0 := client.applyOpts client.Op0 opts) in *.
  destruct (if bytes_eqb (client.rewardAddr ret0) client.ShortEmpty
            then _ else Some ret0) as [ret1|] eqn:E1; [|discriminate].
  assert (S1 : client.stakeAmt ret1 = client.stakeAmt ret0).
  { destruct (bytes_eqb _ _); [|congruence].
    destruct (client.first_address k); simpl in E1; [|discriminate].
    injection E1 as <-. reflexivity. }
  destruct (if bytes_eqb (client.changeAddr ret1) client.ShortEmpty
            then _ else Some ret1) as [ret|] eqn:E2; [|discriminate].
  assert (S2 : client.stakeAmt ret = client.stakeAmt ret1).
  { destruct (bytes_eqb (client.changeAddr ret1) _); [|congruence].
    destruct (client.first_address k); simpl in E2; [|discriminate].
    injection E2 as <-. reflexivity. }
  apply bindM_emit_inv in Hrun. destruct Hrun as (t' & Hrun & ->).
  destruct (client.cli_GetAtomicUTXOs pc (P k)) as [ubs|e] eqn:Eg.
  2:{ injection Hrun as _ <-. discriminate. }
  destruct (client.parse_utxos cd ubs) as [utxos|e] eqn:Ep.
  2:{ injection Hrun as _ <-. discriminate. }
  destruct (client.stake_utxos pc cd k fee ret utxos) as [r'|] eqn:E3;
    [|discriminate].
  injection Hrun as _ <-.
  exists ret, ubs, utxos. split; [congruence|]. repeat split; auto.
Qed.

(** The accounting of a selection that [stake] accepts. *)
Lemma stake_utxos_accounting (pc : client.p) (cd : Codec) (k : Key)
  (fee : Z) (ret : client.Op) (utxos : list UTXO) (r : client.StakeReturn) :
  amounts_ok (client.r_ins r) ->
  is_uint64 fee -> is_uint64 (client.stakeAmt ret) ->
  client.stake_utxos pc cd k fee ret utxos = Some r ->
  client.r_err r = None ->
  exists staked burned,
    (staked = client.stakeAmt ret \/ staked = 0) /\
    (burned = fee \/ burned = 0) /\
    sum_outputs (client.r_stakedOuts r) = staked /\
    sum_inputs (client.r_ins r)
    = sum_outputs (client.r_returnedOuts r) + staked + burned.
Proof.
  intros Hk HF HS Hrun Herr. unfold client.stake_utxos in Hrun.
  pose proof (stake_pass1_balanced pc k ret (client.now_stake pc) fee HS
                utxos client.Selection0) as B1.
  pose proof (stake_pass1_ins pc k ret (client.now_stake pc) utxos
                client.Selection0) as (l1 & P1).
  pose proof (stake_pass2_balanced pc k ret (client.now_stake pc) fee HS
                HF utxos
                (client.stake_pass1 pc k ret (client.now_stake pc) utxos
                   client.Selection0)) as B2.
  pose proof (stake_pass2_ins pc k ret (client.now_stake pc) fee utxos
                (client.stake_pass1 pc k ret (client.now_stake pc) utxos
                   client.Selection0)) as (l2 & P2).
  destruct (client.stake_pass2 pc k ret (client.now_stake pc) fee utxos _)
    as [st utxos'].
  simpl in B2, P2.
  destruct ((client.amountStaked st >? 0) &&
            (client.amountStaked st <? client.stakeAmt ret)) eqn:C1.
  { injection Hrun as <-. discriminate. }
  destruct ((client.amountBurned st >? 0) &&
            (client.amountBurned st <? fee)) eqn:C2.
  { injection Hrun as <-. discriminate. }
  destruct (key.SortTransferableInputsWithSigners _ _)
    as [[ins signers]|] eqn:Si; [|discriminate].
  destruct (client.SortTransferableOutputs cd (client.sel_returnedOuts st))
    as [returnedOuts|] eqn:Sr; [|discriminate].
  destruct (client.SortTransferableOutputs cd (client.sel_stakedOuts st))
    as [stakedOuts|] eqn:Ss; [|discriminate].
  injection Hrun as <-. simpl in *.
  apply coupled_sort_inputs in Si. destruct Si as [Pi _].
  apply SortTransferableOutputs_perm in Sr, Ss.
  assert (Hst : amounts_ok (client.sel_ins st)).
  { unfold amounts_ok in *. eapply Permutation_Forall; [|exact Hk].
    symmetry. exact Pi. }
  assert (B0 : balanced (client.stakeAmt ret) fee client.Selection0).
  { unfold balanced, is_uint64 in *; simpl; lia. }
  assert (H1st : amounts_ok
            (client.sel_ins
               (client.stake_pass1 pc k ret (client.now_stake pc) utxos
                  client.Selection0))).
  { unfold amounts_ok in *. rewrite P2 in Hst.
    apply Forall_app in Hst. tauto. }
  destruct (B2 Hst (B1 H1st B0)) as (H1 & H2 & H3 & H4).
  rewrite <- (sum_inputs_perm _ _ Pi), <- (sum_outputs_perm _ _ Sr),
    <- (sum_outputs_perm _ _ Ss).
  exists (client.amountStaked st), (client.amountBurned st).
  apply andb_false_iff in C1, C2.
  rewrite Z.gtb_ltb, !Z.ltb_ge in C1, C2.
  repeat split; try lia; assumption.
Qed.

(** C1, as the code has it.  When [stake] returns without an error for a
    stake target [S] and a fee [F] (uint64 values, like the amounts of the
    inputs it selected), the staked outputs add up to [S] or to
    nothing, the burn (inputs minus returned outputs minus staked outputs)
    is [F] or nothing, and no other value is lost or created; so the
    equalities of the claim hold as soon as something was staked (or
    [S = 0]) and something was burned (or [F = 0]). *)
Theorem stake_conservation (pc : client.p) (cd : Codec) (k : Key) (fee : Z)
  (opts : list client.OpOption) (t : list client.Event)
  (r : client.StakeReturn)
  (Hkey : amounts_ok (client.r_ins r))
  (HF : is_uint64 fee)
  (HS : is_uint64 (client.stakeAmt (client.applyOpts client.Op0 opts)))
  (Hrun : client.stake pc cd k fee opts = (t, Some r))
  (Hok : client.r_err r = None) :
  let S := client.stakeAmt (client.applyOpts client.Op0 opts) in
  let staked := sum_outputs (client.r_stakedOuts r) in
  let returned := sum_outputs (client.r_returnedOuts r) in
  let burn := sum_inputs (client.r_ins r) - returned - staked in
  (staked = S \/ staked = 0) /\
  (burn = fee \/ burn = 0) /\
  (0 < staked \/ S = 0 -> staked = S) /\
  (0 < burn \/ fee = 0 -> burn = fee) /\
  (staked = S -> burn = fee ->
   returned + S + fee <= sum_inputs (client.r_ins r) /\
   sum_inputs (client.r_ins r) - returned - S = fee).
Proof.
  cbv zeta.
  destruct (stake_success_inv _ _ _ _ _ _ _ Hrun Hok)
    as (ret & ubs & utxos & ES & _ & _ & Hu).
  rewrite <- ES in *.
  destruct (stake_utxos_accounting _ _ _ _ _ _ _ Hkey HF HS Hu Hok)
    as (staked & burned & Hs & Hb & E1 & E2).
  rewrite E1, E2. unfold is_uint64 in *. lia.
Qed.

Lemma Spends_zero_target_spends_all_witness :
  exists inputs,
    key.HardKey_Spends fixture.hard1 [fixture.utxo2500; fixture.utxoElapsed]
      [key.WithFeeDeduct 5; key.WithTime 100] = Some (2500, inputs).
Proof.
  destruct (Spends_zero_target_spends_all fixture.hard1
              (fun _ _ => Err ErrCantSpend)
              [fixture.utxo2500; fixture.utxoElapsed]
              [key.WithFeeDeduct 5; key.WithTime 100] eq_refl)
    as [(inputs & E & _) _].
  exists inputs. exact E.
Defined.

(** C1 fails as stated: on an empty UTXO set, with a stake target of 5 and
    no fee, [stake] returns without an error and stakes nothing. *)
Lemma stake_conservation_counterexample :
  exists t r,
    client.stake fixture.node0 fixture.cd0 fixture.key0 0
      [client.WithStakeAmount 5] = (t, Some r) /\
    client.r_err r = None /\
    sum_outputs (client.r_stakedOuts r) <> 5.
Proof.
  eexists _, _. split; [vm_compute; reflexivity|].
  split; [reflexivity | vm_compute; discriminate].
Qed.

(** One unlocked output of 2500, fee 100, stake target 2000: staked 2000,
    returned 400, burned 100. *)
Lemma stake_conservation_witness :
  exists t r,
    client.stake fixture.nodeB fixture.cdB fixture.keyB 100
      [client.WithStakeAmount 2000] = (t, Some r) /\
    sum_outputs (client.r_stakedOuts r) = 2000 /\
    sum_outputs (client.r_returnedOuts r) = 400 /\
    sum_inputs (client.r_ins r) - 400 - 2000 = 100.
Proof.
  eexists _, _. split; [vm_compute; reflexivity|].
  match goal with
  | |- sum_outputs (client.r_stakedOuts ?r) = _ /\ _ =>
      assert (Hamt : amounts_ok (client.r_ins r))
        by (unfold amounts_ok; simpl;
            constructor; [unfold is_uint64; simpl; lia | constructor]);
      assert (HF : is_uint64 100) by (unfold is_uint64; lia);
      assert (HS : is_uint64
                (client.stakeAmt
                   (client.applyOpts client.Op0 [client.WithStakeAmount 2000])))
        by (unfold is_uint64; simpl; lia);
      assert (Hrun : client.stake fixture.nodeB fixture.cdB fixture.keyB 100
                       [client.WithStakeAmount 2000]
                     = ([client.EvGetAtomicUTXOs], Some r))
        by (vm_compute; reflexivity);
      pose proof (stake_conservation _ _ _ _ _ _ _ Hamt HF HS Hrun eq_refl)
        as (_ & _ & H3 & H4 & H5)
  end.
  cbv zeta in *.
  split; [apply H3; left; simpl; lia|].
  split; [reflexivity|]. reflexivity.
Defined.

(** ** [stake] with nothing to stake: the fee check *)

Lemma stake_run (pc : client.p) (cd : Codec) (k : Key) (fee : Z)
  (opts : list client.OpOption) (ubs : list (list byte))
  (utxos : list UTXO) :
  Addresses k <> [] ->
  client.cli_GetAtomicUTXOs pc (P k) = Ok ubs ->
  client.parse_utxos cd ubs = Ok utxos ->
  exists ret,
    client.stakeAmt ret = client.stakeAmt (client.applyOpts client.Op0 opts)
    /\ client.stake pc cd k fee opts
       = ([client.EvGetAtomicUTXOs],
          client.stake_utxos pc cd k fee ret utxos).
Proof.
  intros Ha Hg Hp. unfold client.stake.
  set (ret0 := client.applyOpts client.Op0 opts).
  unfold client.first_address.
  destruct (Addresses k) as [|a rest]; [congruence|]. simpl option_map.
  match goal with
  | |- context [match (if ?c then Some ?x else Some ret0) with _ => _ end] =>
      set (ret1 := if c then x else ret0);
      replace (if c then Some x else Some ret0) with (Some ret1)
        by (unfold ret1; destruct c; reflexivity)
  end.
  match goal with
  | |- context [match (if ?c then Some ?x else Some ret1) with _ => _ end] =>
      set (ret2 := if c then x else ret1);
      replace (if c then Some x else Some ret1) with (Some ret2)
        by (unfold ret2; destruct c; reflexivity)
  end.
  exists ret2. split.
  - unfold ret2, ret1.
    destruct (bytes_eqb (client.changeAddr _) _);
      destruct (bytes_eqb (client.rewardAddr ret0) _); reflexivity.
  - rewrite Hg, Hp.
    destruct (client.stake_utxos pc cd k fee ret2 utxos); reflexivity.
Qed.

Lemma sum_inputs_nonneg (l : list TransferableInput) :
  amounts_ok l -> 0 <= sum_inputs l.
Proof.
  induction 1 as [|i l Hi _ IH]; simpl; unfold is_uint64 in *; lia.
Qed.

Section NothingToStake.

Variable pc : client.p.
Variable k : Key.
Variable ret : client.Op.
Variables now fee : Z.

Hypothesis HS0 : client.stakeAmt ret = 0.
Hypothesis HF : is_uint64 fee.

Lemma stake_pass1_no_target (utxos : list UTXO) (st : client.Selection) :
  client.amountStaked st = 0 ->
  client.stake_pass1 pc k ret now utxos st = st.
Proof.
  intros H0. destruct utxos as [|utxo rest]; simpl; [reflexivity|].
  rewrite H0, HS0. reflexivity.
Qed.

(** With no stake target and less value than the fee, the second pass
    burns all the value the key can spend. *)
Lemma stake_pass2_burns_all (utxos : list UTXO) :
  forall st,
    client.amountStaked st = 0 -> 0 <= client.amountBurned st ->
    amounts_ok (unlocked_inputs pc k now utxos) ->
    client.amountBurned st + sum_inputs (unlocked_inputs pc k now utxos)
    < fee ->
    let st' := fst (client.stake_pass2 pc k ret now fee utxos st) in
    client.amountStaked st' = 0 /\
    client.amountBurned st'
    = client.amountBurned st + sum_inputs (unlocked_inputs pc k now utxos).
Proof.
  induction utxos as [|utxo rest IH]; intros st H0 Hb Hok Hlt; simpl in *.
  - split; [assumption | lia].
  - replace (client.amountBurned st >=? fee) with false.
    2:{ symmetry. rewrite Z.geb_leb. apply Z.leb_gt.
        unfold amounts_ok in Hok. apply Forall_app in Hok.
        destruct Hok as [Hh Hr].
        pose proof (sum_inputs_nonneg _ Hh).
        pose proof (sum_inputs_nonneg _ Hr).
        rewrite sum_inputs_app in Hlt. lia. }
    rewrite andb_false_r.
    destruct (bytes_eqb (utxo_Asset utxo) (client.assetID pc)); simpl negb;
      cbv iota.
    2:{ simpl in *. specialize (IH st H0 Hb Hok Hlt).
        destruct (client.stake_pass2 pc k ret now fee rest st); exact IH. }
    destruct (client.unwrap now utxo) as [utxo'|].
    2:{ simpl in *. specialize (IH st H0 Hb Hok Hlt).
        destruct (client.stake_pass2 pc k ret now fee rest st); exact IH. }
    destruct (Spends k [utxo'] [key.WithTime now]) as [[t inputs] sg].
    simpl in Hok, Hlt.
    destruct inputs as [|in_ inputs].
    { simpl in *. specialize (IH st H0 Hb Hok Hlt).
      destruct (client.stake_pass2 pc k ret now fee rest st); exact IH. }
    simpl in Hok, Hlt. inversion Hok as [|? ? Ha Hr]; subst.
    pose proof (sum_inputs_nonneg _ Hr) as Hn.
    unfold is_uint64 in *.
    match goal with
    | |- context [client.stake_pass2 pc k ret now fee rest ?st1] =>
        assert (A : client.amountStaked st1 = 0 /\
                    client.amountBurned st1
                    = client.amountBurned st + Amount (in_In in_));
        [| destruct A as [A1 A2]; specialize (IH st1 A1);
           rewrite A2 in IH;
           destruct (client.stake_pass2 pc k ret now fee rest st1)]
    end.
    { simpl. rewrite H0, HS0. unwrap64. lia. }
    simpl in *.
    destruct IH as [I1 I2]; try assumption; lia.
Qed.

End NothingToStake.

(** C3, as the code has it.  With no stake target, when the value the key
    can spend from the unlocked outputs is positive and less than the fee,
    [stake] fails with the insufficient-balance-for-fee error and returns
    no inputs, no outputs and no signers. *)
Theorem stake_insufficient_fee (pc : client.p) (cd : Codec) (k : Key)
  (fee : Z) (opts : list client.OpOption) (ubs : list (list byte))
  (utxos : list UTXO)
  (HS0 : client.stakeAmt (client.applyOpts client.Op0 opts) = 0)
  (HF : is_uint64 fee)
  (Haddr : Addresses k <> [])
  (Hfetch : client.cli_GetAtomicUTXOs pc (P k) = Ok ubs)
  (Hparse : client.parse_utxos cd ubs = Ok utxos)
  (Hamt : amounts_ok (unlocked_inputs pc k (client.now_stake pc) utxos))
  (Hlow : 0 < sum_inputs (unlocked_inputs pc k (client.now_stake pc) utxos)
          < fee) :
  exists t r,
    client.stake pc cd k fee opts = (t, Some r) /\
    client.r_err r = Some ErrInsufficientBalanceForGasFee /\
    client.r_ins r = [] /\ client.r_returnedOuts r = [] /\
    client.r_stakedOuts r = [] /\ client.r_signers r = [].
Proof.
  destruct (stake_run pc cd k fee opts ubs utxos Haddr Hfetch Hparse)
    as (ret & ES & Hrun).
  rewrite <- ES in HS0. rewrite Hrun. unfold client.stake_utxos.
  rewrite (stake_pass1_no_target pc k ret (client.now_stake pc) HS0)
    by reflexivity.
  pose proof (stake_pass2_burns_all pc k ret (client.now_stake pc) fee HS0 HF
                utxos client.Selection0 eq_refl (Z.le_refl 0) Hamt) as Hb.
  simpl in Hb. specialize (Hb ltac:(lia)).
  destruct (client.stake_pass2 pc k ret (client.now_stake pc) fee utxos _)
    as [st utxos'].
  simpl in Hb. destruct Hb as [E0 Eb].
  rewrite E0, Eb, HS0. simpl andb.
  replace (_ >? 0) with true by (symmetry; rewrite Z.gtb_ltb; apply Z.ltb_lt; lia).
  replace (_ <? fee) with true by (symmetry; apply Z.ltb_lt; lia).
  simpl. eexists _, _. split; [reflexivity|]. simpl. repeat split.
Qed.

Lemma stake_insufficient_fee_witness :
  exists t r,
    client.stake fixture.node60 fixture.cd60 fixture.key60 100 [] = (t, Some r)
    /\ client.r_err r = Some ErrInsufficientBalanceForGasFee
    /\ client.r_ins r = [].
Proof.
  assert (Hamt : amounts_ok
            (unlocked_inputs fixture.node60 fixture.key60
               (client.now_stake fixture.node60) [fixture.utxo60])).
  { unfold amounts_ok. simpl.
    constructor; [unfold is_uint64; simpl; lia | constructor]. }
  destruct (stake_insufficient_fee fixture.node60 fixture.cd60 fixture.key60
              100 [] [[x00]] [fixture.utxo60] eq_refl
              ltac:(unfold is_uint64; lia) ltac:(discriminate)
              eq_refl eq_refl Hamt ltac:(simpl; lia))
    as (t & r & H1 & H2 & H3 & _).
  exists t, r. auto.
Defined.

(** C3 fails as stated: the only UTXO is an output of another owner, so the
    value the key can spend is 0, less than the fee of 1; [stake] returns
    without an error. *)
Lemma stake_insufficient_fee_counterexample :
  sum_inputs
    (unlocked_inputs fixture.nodeE fixture.keyE
       (client.now_stake fixture.nodeE) [fixture.utxoElapsed]) < 1 /\
  exists t r,
    client.stake fixture.nodeE fixture.cdE fixture.keyE 1 [] = (t, Some r) /\
    client.r_err r = None.
Proof.
  split; [vm_compute; reflexivity|].
  eexists _, _. split; [vm_compute; reflexivity | reflexivity].
Qed.

(** ** What [stake] does to the UTXOs it reads *)

Lemma left_or_unwrapped_refl (pc : client.p) (now : Z) (l : list UTXO) :
  Forall2 (left_or_unwrapped pc now) l l.
Proof.
  induction l; constructor; auto. left; reflexivity.
Qed.

Lemma unwrap_frame (pc : client.p) (now : Z) (u u' : UTXO) :
  bytes_eqb (utxo_Asset u) (client.assetID pc) = true ->
  client.unwrap now u = Some u' -> left_or_unwrapped pc now u u'.
Proof.
  intros Ha. apply bytes_eqb_eq in Ha. unfold client.unwrap.
  destruct (Out u) as [o|amt o|lockTime inner|tag] eqn:Eo;
    try (intros E; injection E as <-; left; reflexivity).
  rewrite Z.gtb_ltb. destruct (Z.ltb_spec now lockTime); [discriminate|].
  intros E; injection E as <-. right. split; [exact Ha|].
  exists lockTime, inner. auto.
Qed.

Lemma stake_pass2_frame (pc : client.p) (k : Key) (ret : client.Op)
  (now fee : Z) (utxos : list UTXO) :
  forall st,
    Forall2 (left_or_unwrapped pc now) utxos
      (snd (client.stake_pass2 pc k ret now fee utxos st)).
Proof.
  induction utxos as [|utxo rest IH]; intros st; simpl; [constructor|].
  destruct (_ && _); [apply left_or_unwrapped_refl|].
  destruct (bytes_eqb (utxo_Asset utxo) (client.assetID pc)) eqn:Ea;
    simpl negb; cbv iota.
  2:{ specialize (IH st).
      destruct (client.stake_pass2 pc k ret now fee rest st); simpl in *.
      constructor; [left; reflexivity | exact IH]. }
  destruct (client.unwrap now utxo) as [utxo'|] eqn:Eu.
  2:{ specialize (IH st).
      destruct (client.stake_pass2 pc k ret now fee rest st); simpl in *.
      constructor; [left; reflexivity | exact IH]. }
  pose proof (unwrap_frame pc now utxo utxo' Ea Eu) as Hf.
  destruct (Spends k [utxo'] [key.WithTime now]) as [[t inputs] sg].
  destruct inputs as [|in_ inputs].
  { specialize (IH st).
    destruct (client.stake_pass2 pc k ret now fee rest st); simpl in *.
    constructor; assumption. }
  match goal with
  | |- context [client.stake_pass2 pc k ret now fee rest ?st1] =>
      specialize (IH st1);
      destruct (client.stake_pass2 pc k ret now fee rest st1)
  end.
  simpl in *. constructor; assumption.
Qed.

Lemma stake_utxos_after (pc : client.p) (cd : Codec) (k : Key) (fee : Z)
  (ret : client.Op) (utxos : list UTXO) (r : client.StakeReturn) :
  client.stake_utxos pc cd k fee ret utxos = Some r ->
  client.utxos_after r
  = snd (client.stake_pass2 pc k ret (client.now_stake pc) fee utxos
           (client.stake_pass1 pc k ret (client.now_stake pc) utxos
              client.Selection0)).
Proof.
  unfold client.stake_utxos.
  destruct (client.stake_pass2 _ _ _ _ _ _ _) as [st utxos'].
  destruct (_ && _); [intros E; injection E as <-; reflexivity|].
  destruct (_ && _); [intros E; injection E as <-; reflexivity|].
  destruct (key.SortTransferableInputsWithSigners _ _) as [[? ?]|];
    [|discriminate].
  destruct (client.SortTransferableOutputs cd _); [|discriminate].
  destruct (client.SortTransferableOutputs cd _); [|discriminate].
  intros E; injection E as <-; reflexivity.
Qed.

Lemma stake_run_inv (pc : client.p) (cd : Codec) (k : Key) (fee : Z)
  (opts : list client.OpOption) (t : list client.Event)
  (r : client.StakeReturn) (ubs : list (list byte)) (utxos : list UTXO) :
  client.stake pc cd k fee opts = (t, Some r) ->
  client.cli_GetAtomicUTXOs pc (P k) = Ok ubs ->
  client.parse_utxos cd ubs = Ok utxos ->
  exists ret, client.stake_utxos pc cd k fee ret utxos = Some r.
Proof.
  unfold client.stake. intros Hrun Hg Hp.
  destruct (if bytes_eqb _ client.ShortEmpty then _ else Some _)
    as [ret1|]; [|discriminate].
  destruct (if bytes_eqb _ client.ShortEmpty then _ else Some _)
    as [ret|]; [|discriminate].
  apply bindM_emit_inv in Hrun. destruct Hrun as (t' & Hrun & ->).
  rewrite Hg, Hp in Hrun.
  destruct (client.stake_utxos pc cd k fee ret utxos) as [r'|] eqn:E3;
    [|discriminate].
  injection Hrun as _ <-. exists ret. exact E3.
Qed.

(** C2, as the code has it.  Whatever [stake] returns, a UTXO of the
    parsed snapshot is afterwards either as it was read, or, for a stake
    lock that has elapsed on an output of the client's asset, rewritten in
    place to the output the lock wraps; the UTXO ID and the asset are never
    touched, and a UTXO that is not such a lock is left as it was. *)
Theorem stake_utxos_frame (pc : client.p) (cd : Codec) (k : Key) (fee : Z)
  (opts : list client.OpOption) (t : list client.Event)
  (r : client.StakeReturn) (ubs : list (list byte)) (utxos : list UTXO)
  (Hrun : client.stake pc cd k fee opts = (t, Some r))
  (Hfetch : client.cli_GetAtomicUTXOs pc (P k) = Ok ubs)
  (Hparse : client.parse_utxos cd ubs = Ok utxos) :
  Forall2 (left_or_unwrapped pc (client.now_stake pc)) utxos
    (client.utxos_after r)
  /\ Forall2 (fun u u' =>
                utxo_UTXOID u' = utxo_UTXOID u /\
                utxo_Asset u' = utxo_Asset u /\
                ((forall lockTime inner,
                    Out u = StakeableLockOut lockTime inner ->
                    client.now_stake pc < lockTime) -> u' = u))
       utxos (client.utxos_after r).
Proof.
  destruct (stake_run_inv _ _ _ _ _ _ _ _ _ Hrun Hfetch Hparse) as (ret & Hu).
  rewrite (stake_utxos_after _ _ _ _ _ _ _ Hu).
  pose proof (stake_pass2_frame pc k ret (client.now_stake pc) fee utxos
                (client.stake_pass1 pc k ret (client.now_stake pc) utxos
                   client.Selection0)) as Hf.
  split; [exact Hf|].
  eapply Forall2_impl; [|exact Hf].
  intros u u' [->|(Ha & lockTime & inner & Eo & Hl & ->)].
  - auto.
  - simpl. repeat split. intros Hlocked. specialize (Hlocked _ _ Eo). lia.
Qed.

Lemma stake_utxos_frame_witness :
  exists t r,
    client.stake fixture.nodeB fixture.cdB fixture.keyB 100
      [client.WithStakeAmount 2000] = (t, Some r) /\
    Forall2 (left_or_unwrapped fixture.nodeB 100) [fixture.utxo2500]
      (client.utxos_after r).
Proof.
  eexists _, _. split; [vm_compute; reflexivity|].
  match goal with
  | |- Forall2 _ _ (client.utxos_after ?r) =>
      assert (Hrun : client.stake fixture.nodeB fixture.cdB fixture.keyB 100
                       [client.WithStakeAmount 2000]
                     = ([client.EvGetAtomicUTXOs], Some r))
        by (vm_compute; reflexivity);
      exact (proj1 (stake_utxos_frame fixture.nodeB fixture.cdB fixture.keyB
                      100 [client.WithStakeAmount 2000] _ r [[x00]]
                      [fixture.utxo2500] Hrun eq_refl eq_refl))
  end.
Defined.

(** C2 fails as stated: the only UTXO is a stake lock that has elapsed, on
    an output of another owner.  [stake] cannot consume it (no input is
    made), yet leaves it with its output field rewritten in place. *)
Lemma stake_utxos_frame_counterexample :
  exists t r,
    client.stake fixture.nodeE fixture.cdE fixture.keyE 1 [] = (t, Some r) /\
    client.parse_utxos fixture.cdE [[x00]] = Ok [fixture.utxoElapsed] /\
    client.r_ins r = [] /\
    client.utxos_after r
    = [mkUTXO (mkUTXOID fixture.txB 0) fixture.djtxAsset
         (TransferOutput 700 fixture.owners2)] /\
    client.utxos_after r <> [fixture.utxoElapsed].
Proof.
  eexists _, _. split; [vm_compute; reflexivity|].
  split; [reflexivity|]. split; [reflexivity|].
  split; [reflexivity | discriminate].
Qed.

(** ** Inputs and signers *)

Lemma combine_app_same {A B : Type} (l1 l2 : list A) (m1 m2 : list B) :
  length l1 = length m1 ->
  combine (l1 ++ l2) (m1 ++ m2) = combine l1 m1 ++ combine l2 m2.
Proof.
  revert m1; induction l1 as [|a l1 IH]; intros [|b m1]; simpl;
    try discriminate; auto.
  intros H. f_equal. apply IH. lia.
Qed.

Lemma contract_single (k : Key) (u : UTXO) (opts : list key.OpOption)
  (t : Z) (in_ : TransferableInput) (inputs : list TransferableInput)
  (sg : list (list ShortID)) :
  key_contract k -> Spends k [u] opts = (t, in_ :: inputs, sg) ->
  inputs = [] /\ exists s, sg = [s].
Proof.
  intros Hk E. destruct (Hk [u] opts) as [H1 H2]. rewrite E in H1, H2.
  simpl in H1, H2. destruct inputs; [|simpl in H2; lia].
  split; [reflexivity|]. destruct sg as [|s [|s' sg]]; try discriminate.
  exists s. reflexivity.
Qed.

Lemma aligned_snoc (k : Key) (now : Z) (u : UTXO) (t : Z)
  (ins inputs : list TransferableInput) (in_ : TransferableInput)
  (signers sg : list (list ShortID)) :
  key_contract k ->
  Spends k [u] [key.WithTime now] = (t, in_ :: inputs, sg) ->
  aligned k now ins signers ->
  aligned k now (ins ++ [in_]) (signers ++ sg).
Proof.
  intros Hk E [Hl Hp].
  destruct (contract_single k u _ t in_ inputs sg Hk E) as [-> [s ->]].
  split.
  - rewrite !length_app. simpl. lia.
  - rewrite combine_app_same by exact Hl. apply Forall_app. split; [exact Hp|].
    constructor; [|constructor]. exists u, t. exact E.
Qed.

Section Alignment.

Variable pc : client.p.
Variable k : Key.
Variable ret : client.Op.
Variables now fee : Z.
Hypothesis Hk : key_contract k.

Lemma stake_pass1_aligned (utxos : list UTXO) :
  forall st,
    aligned k now (client.sel_ins st) (client.sel_signers st) ->
    let st' := client.stake_pass1 pc k ret now utxos st in
    aligned k now (client.sel_ins st') (client.sel_signers st').
Proof.
  induction utxos as [|utxo rest IH]; intros st HA; simpl; [exact HA|].
  destruct (_ >=? _); [exact HA|].
  destruct (negb _); [apply IH; exact HA|].
  destruct (Out utxo) as [o|amt o|lockTime inner|tag];
    try (apply IH; exact HA).
  destruct (lockTime <=? now); [apply IH; exact HA|].
  destruct inner as [o|amt owners|lt2 inner2|tag];
    try (apply IH; exact HA).
  destruct (Spends k [utxo] [key.WithTime now]) as [[t inputs] sg] eqn:Esp.
  destruct inputs as [|in_ inputs]; [apply IH; exact HA|].
  apply IH. simpl. eapply aligned_snoc; eauto.
Qed.

Lemma stake_pass2_aligned (utxos : list UTXO) :
  forall st,
    aligned k now (client.sel_ins st) (client.sel_signers st) ->
    let st' := fst (client.stake_pass2 pc k ret now fee utxos st) in
    aligned k now (client.sel_ins st') (client.sel_signers st').
Proof.
  induction utxos as [|utxo rest IH]; intros st HA; simpl; [exact HA|].
  destruct (_ && _); [exact HA|].
  destruct (negb _).
  { specialize (IH st HA).
    destruct (client.stake_pass2 pc k ret now fee rest st); exact IH. }
  destruct (client.unwrap now utxo) as [utxo'|].
  2:{ specialize (IH st HA).
      destruct (client.stake_pass2 pc k ret now fee rest st); exact IH. }
  destruct (Spends k [utxo'] [key.WithTime now]) as [[t inputs] sg] eqn:Esp.
  destruct inputs as [|in_ inputs].
  { specialize (IH st HA).
    destruct (client.stake_pass2 pc k ret now fee rest st); exact IH. }
  match goal with
  | |- context [client.stake_pass2 pc k ret now fee rest ?st1] =>
      specialize (IH st1);
      destruct (client.stake_pass2 pc k ret now fee rest st1)
  end.
  simpl in *. apply IH. eapply aligned_snoc; eauto.
Qed.

End Alignment.

(** Among lists of (input, signers) pairs whose inputs have pairwise
    distinct sources, the arrangement ascending by source is unique. *)
Lemma sorted_pairs_unique {B : Type} (l1 : list (TransferableInput * B)) :
  forall l2,
    NoDup (map (fun p => in_UTXOID (fst p)) l1) -> Permutation l1 l2 ->
    StronglySorted (fun a b => source_le (fst a) (fst b)) l1 ->
    StronglySorted (fun a b => source_le (fst a) (fst b)) l2 -> l1 = l2.
Proof.
  induction l1 as [|a l1 IH]; intros l2 Hnd Hp H1 H2.
  - apply Permutation_nil in Hp. congruence.
  - destruct l2 as [|b l2].
    { apply Permutation_sym, Permutation_nil in Hp. discriminate. }
    inversion H1 as [|? ? S1 F1]; subst.
    inversion H2 as [|? ? S2 F2]; subst.
    inversion Hnd as [|? ? Hni Hnd']; subst.
    assert (Eab : a = b).
    { assert (Hb : List.In b (a :: l1)).
      { eapply Permutation_in; [symmetry; exact Hp | left; reflexivity]. }
      assert (Ha : List.In a (b :: l2)).
      { eapply Permutation_in; [exact Hp | left; reflexivity]. }
      destruct Hb as [Hb|Hb]; [exact Hb|].
      destruct Ha as [Ha|Ha]; [congruence|].
      rewrite Forall_forall in F1, F2.
      pose proof (F1 _ Hb) as Lab. pose proof (F2 _ Ha) as Lba.
      apply source_le_compare in Lab, Lba.
      rewrite source_compare_antisym in Lba.
      destruct (source_compare (fst a) (fst b)) eqn:Ec; simpl in *;
        try congruence.
      apply source_compare_eq in Ec. exfalso. apply Hni.
      rewrite Ec. apply (in_map (fun p => in_UTXOID (fst p))). exact Hb. }
    subst b. f_equal. apply IH; auto.
    eapply Permutation_cons_inv; eauto.
Qed.

Lemma StronglySorted_fst_map {A B : Type} (R : A -> A -> Prop)
  (l : list (A * B)) :
  StronglySorted R (map fst l) ->
  StronglySorted (fun a b => R (fst a) (fst b)) l.
Proof.
  induction l as [|a l IH]; simpl; intros H; [constructor|].
  inversion H as [|? ? Hs Hf]; subst. constructor; [auto|].
  rewrite Forall_map in Hf. exact Hf.
Qed.

(** The returned lists are the only arrangement of their pairs that is
    ascending by source, when the sources are pairwise distinct. *)
Lemma canonical_order (ins ins2 : list TransferableInput)
  (signers signers2 : list (list ShortID)) :
  length ins = length signers -> length ins2 = length signers2 ->
  NoDup (map in_UTXOID ins) ->
  StronglySorted source_le ins -> StronglySorted source_le ins2 ->
  Permutation (combine ins2 signers2) (combine ins signers) ->
  ins2 = ins /\ signers2 = signers.
Proof.
  intros Hl Hl2 Hnd Hs Hs2 Hp.
  assert (E : combine ins signers = combine ins2 signers2).
  { apply sorted_pairs_unique.
    - rewrite <- (map_map fst in_UTXOID), map_fst_combine; assumption.
    - symmetry. exact Hp.
    - apply StronglySorted_fst_map. rewrite map_fst_combine; assumption.
    - apply StronglySorted_fst_map. rewrite map_fst_combine; assumption. }
  split.
  - rewrite <- (map_fst_combine ins2 signers2 Hl2), <- E.
    apply map_fst_combine. exact Hl.
  - rewrite <- (map_snd_combine ins2 signers2 Hl2), <- E.
    apply map_snd_combine. exact Hl.
Qed.

Lemma fst_pass_cons {A B : Type} (p : A * list B) (u : B) :
  fst (let '(s, r) := p in (s, u :: r)) = fst p.
Proof. destruct p. reflexivity. Qed.

(** The inputs and the signers that the two loops select depend on the
    options through the stake amount only. *)
Section SelectionOp.

Variable pc : client.p.
Variable k : Key.
Variables ret ret' : client.Op.
Variables now fee : Z.
Hypothesis Hamt : client.stakeAmt ret = client.stakeAmt ret'.

Let same (st st' : client.Selection) : Prop :=
  client.sel_ins st = client.sel_ins st' /\
  client.sel_signers st = client.sel_signers st' /\
  client.amountStaked st = client.amountStaked st' /\
  client.amountBurned st = client.amountBurned st'.

Lemma stake_pass1_op (utxos : list UTXO) :
  forall st st',
    same st st' ->
    same (client.stake_pass1 pc k ret now utxos st)
         (client.stake_pass1 pc k ret' now utxos st').
Proof.
  induction utxos as [|utxo rest IH]; intros st st' Hs; simpl; [exact Hs|].
  pose proof Hs as (Hi & Hg & Ha & Hb).
  rewrite <- Hamt, <- Ha.
  destruct (_ >=? _); [exact Hs|].
  destruct (negb _); [apply IH; exact Hs|].
  destruct (Out utxo) as [o|amt o|lockTime inner|tag];
    try (apply IH; exact Hs).
  destruct (lockTime <=? now); [apply IH; exact Hs|].
  destruct inner as [o|amt owners|lt2 inner2|tag];
    try (apply IH; exact Hs).
  destruct (Spends k [utxo] [key.WithTime now]) as [[t inputs] sg].
  destruct inputs as [|in_ inputs]; [apply IH; exact Hs|].
  apply IH. unfold same. cbn. rewrite Hi, Hg, Hb. auto.
Qed.

Lemma stake_pass2_op (utxos : list UTXO) :
  forall st st',
    same st st' ->
    same (fst (client.stake_pass2 pc k ret now fee utxos st))
         (fst (client.stake_pass2 pc k ret' now fee utxos st')).
Proof.
  induction utxos as [|utxo rest IH]; intros st st' Hs; simpl; [exact Hs|].
  pose proof Hs as (Hi & Hg & Ha & Hb).
  rewrite <- Hamt, <- Ha, <- Hb.
  destruct (_ && _); [exact Hs|].
  destruct (negb _); [rewrite !fst_pass_cons; apply IH; exact Hs|].
  destruct (client.unwrap now utxo) as [utxo'|];
    [|rewrite !fst_pass_cons; apply IH; exact Hs].
  destruct (Spends k [utxo'] [key.WithTime now]) as [[t inputs] sg].
  destruct inputs as [|in_ inputs]; rewrite !fst_pass_cons; apply IH;
    [exact Hs|].
  unfold same. cbn. rewrite Hi, Hg. auto.
Qed.

Lemma selection_op (utxos : list UTXO) :
  let st := fst (client.stake_pass2 pc k ret now fee utxos
                   (client.stake_pass1 pc k ret now utxos
                      client.Selection0)) in
  let st' := fst (client.stake_pass2 pc k ret' now fee utxos
                    (client.stake_pass1 pc k ret' now utxos
                       client.Selection0)) in
  client.sel_ins st = client.sel_ins st' /\
  client.sel_signers st = client.sel_signers st'.
Proof.
  cbv zeta.
  destruct (stake_pass2_op utxos
              (client.stake_pass1 pc k ret now utxos client.Selection0)
              (client.stake_pass1 pc k ret' now utxos client.Selection0))
    as (Hi & Hg & _).
  - apply stake_pass1_op. repeat split.
  - split; assumption.
Qed.

End SelectionOp.

(** [stake] reads three things of the client: the UTXOs the node returns,
    the clock and the asset ID. *)
Section StakeReads.

Variables pc pc' : client.p.
Variable k : Key.
Hypothesis Hasset : client.assetID pc' = client.assetID pc.

Lemma stake_pass1_reads (ret : client.Op) (now : Z) (utxos : list UTXO) :
  forall st,
    client.stake_pass1 pc' k ret now utxos st
    = client.stake_pass1 pc k ret now utxos st.
Proof.
  induction utxos as [|utxo rest IH]; intros st; simpl; [reflexivity|].
  unfold client.change_output. rewrite Hasset.
  destruct (_ >=? _); [reflexivity|].
  destruct (negb _); [apply IH|].
  destruct (Out utxo) as [o|amt o|lockTime inner|tag]; try apply IH.
  destruct (lockTime <=? now); [apply IH|].
  destruct inner as [o|amt owners|lt2 inner2|tag]; try apply IH.
  destruct (Spends k [utxo] [key.WithTime now]) as [[t inputs] sg].
  destruct inputs as [|in_ inputs]; apply IH.
Qed.

Lemma stake_pass2_reads (ret : client.Op) (now fee : Z) (utxos : list UTXO) :
  forall st,
    client.stake_pass2 pc' k ret now fee utxos st
    = client.stake_pass2 pc k ret now fee utxos st.
Proof.
  induction utxos as [|utxo rest IH]; intros st; simpl; [reflexivity|].
  unfold client.change_output. rewrite Hasset.
  destruct (_ && _); [reflexivity|].
  destruct (negb _); [rewrite IH; reflexivity|].
  destruct (client.unwrap now utxo) as [utxo'|]; [|rewrite IH; reflexivity].
  destruct (Spends k [utxo'] [key.WithTime now]) as [[t inputs] sg].
  destruct inputs as [|in_ inputs]; rewrite IH; reflexivity.
Qed.

Hypothesis Hnow : client.now_stake pc' = client.now_stake pc.
Hypothesis Hfetch :
  client.cli_GetAtomicUTXOs pc' (P k) = client.cli_GetAtomicUTXOs pc (P k).

Lemma stake_reads (cd : Codec) (fee : Z) (opts : list client.OpOption) :
  client.stake pc' cd k fee opts = client.stake pc cd k fee opts.
Proof.
  assert (Hu : forall ret utxos,
            client.stake_utxos pc' cd k fee ret utxos
            = client.stake_utxos pc cd k fee ret utxos).
  { intros ret utxos. unfold client.stake_utxos. cbv zeta.
    rewrite Hnow, stake_pass1_reads, stake_pass2_reads. reflexivity. }
  unfold client.stake. cbv zeta. rewrite Hfetch.
  destruct (if bytes_eqb _ client.ShortEmpty then _ else Some _)
    as [ret1|]; [|reflexivity].
  destruct (if bytes_eqb _ client.ShortEmpty then _ else Some _)
    as [ret|]; [|reflexivity].
  destruct (client.cli_GetAtomicUTXOs pc (P k)) as [ubs|e]; [|reflexivity].
  destruct (client.parse_utxos cd ubs) as [utxos|e]; [|reflexivity].
  rewrite Hu. reflexivity.
Qed.

End StakeReads.

(** No UTXO is selected twice: the first loop draws on the outputs still
    locked at [now], the second on the others, and an input carries the ID
    of the UTXO it spends. *)
Section Sources.

Variable pc : client.p.
Variable k : Key.
Variable ret : client.Op.
Variables now fee : Z.
Hypothesis Hsrc : key_sources k.

Lemma NoDup_skip {A : Type} (f : UTXO -> bool) (g : UTXO -> A)
  (a extra : list A) (u : UTXO) (rest : list UTXO) :
  NoDup (a ++ map g (filter f (u :: rest)) ++ extra) ->
  NoDup (a ++ map g (filter f rest) ++ extra).
Proof.
  simpl. destruct (f u); [|auto]. simpl. apply NoDup_remove_1.
Qed.

Lemma NoDup_stop {A : Type} (a b extra : list A) :
  NoDup (a ++ b ++ extra) -> NoDup (a ++ extra).
Proof.
  induction b as [|x b IH]; simpl; [auto|].
  intros H. apply IH. eapply NoDup_remove_1; eauto.
Qed.

Lemma stake_pass1_sources (utxos : list UTXO) :
  forall st extra,
    NoDup (map in_UTXOID (client.sel_ins st)
           ++ map utxo_UTXOID (filter (locked now) utxos) ++ extra) ->
    NoDup (map in_UTXOID
             (client.sel_ins (client.stake_pass1 pc k ret now utxos st))
           ++ extra).
Proof.
  induction utxos as [|utxo rest IH]; intros st extra Hnd; [exact Hnd|].
  pose proof (NoDup_skip _ _ _ _ _ _ Hnd) as Hskip.
  simpl client.stake_pass1.
  destruct (_ >=? _); [eapply NoDup_stop; eauto|].
  destruct (negb _); [apply IH; exact Hskip|].
  simpl in Hnd. unfold locked at 1 in Hnd.
  destruct (Out utxo) as [o|amt o|lockTime inner|tag];
    try (apply IH; exact Hskip).
  rewrite Z.gtb_ltb in Hnd. rewrite Z.leb_antisym.
  destruct (now <? lockTime); simpl; [|apply IH; exact Hskip].
  destruct inner as [o|amt owners|lt2 inner2|tag];
    try (apply IH; exact Hskip).
  destruct (Spends k [utxo] [key.WithTime now]) as [[t inputs] sg] eqn:Esp.
  destruct inputs as [|in_ inputs]; [apply IH; exact Hskip|].
  apply IH. cbn [client.sel_ins].
  rewrite map_app, <- app_assoc. simpl.
  rewrite (Hsrc _ _ _ _ _ _ Esp). exact Hnd.
Qed.

Lemma stake_pass2_sources (utxos : list UTXO) :
  forall st,
    NoDup (map in_UTXOID (client.sel_ins st)
           ++ map utxo_UTXOID
                (filter (fun u => negb (locked now u)) utxos) ++ []) ->
    NoDup (map in_UTXOID
             (client.sel_ins
                (fst (client.stake_pass2 pc k ret now fee utxos st)))).
Proof.
  induction utxos as [|utxo rest IH]; intros st Hnd.
  { simpl in *. rewrite app_nil_r in Hnd. exact Hnd. }
  pose proof (NoDup_skip _ _ _ _ _ _ Hnd) as Hskip.
  simpl client.stake_pass2.
  destruct (_ && _).
  { apply NoDup_stop in Hnd. rewrite app_nil_r in Hnd. exact Hnd. }
  destruct (negb _); [rewrite fst_pass_cons; apply IH; exact Hskip|].
  simpl in Hnd. unfold locked at 1 in Hnd. unfold client.unwrap.
  assert (Take : forall utxo',
            utxo_UTXOID utxo' = utxo_UTXOID utxo ->
            NoDup (map in_UTXOID (client.sel_ins st)
                   ++ utxo_UTXOID utxo
                      :: map utxo_UTXOID
                           (filter (fun u => negb (locked now u)) rest)
                      ++ []) ->
            NoDup (map in_UTXOID
              (client.sel_ins
                 (fst (let '(_, inputs, inputSigners) :=
                         Spends k [utxo'] [key.WithTime now] in
                       match inputs with
                       | [] =>
                           let '(st', rest') :=
                             client.stake_pass2 pc k ret now fee rest st in
                           (st', utxo' :: rest')
                       | in_ :: _ =>
                           let '(st', rest') :=
                             client.stake_pass2 pc k ret now fee rest
                               (pass2_step pc ret fee st in_ inputSigners) in
                           (st', utxo' :: rest')
                       end))))).
  { intros utxo' Hid Hn.
    destruct (Spends k [utxo'] [key.WithTime now]) as [[t inputs] sg]
      eqn:Esp.
    destruct inputs as [|in_ inputs]; rewrite fst_pass_cons; apply IH.
    - eapply NoDup_remove_1; eauto.
    - unfold pass2_step. cbn [client.sel_ins].
      rewrite map_app, <- app_assoc. simpl.
      rewrite (Hsrc _ _ _ _ _ _ Esp), Hid. exact Hn. }
  unfold pass2_step in Take.
  destruct (Out utxo) as [o|amt o|lockTime inner|tag]; simpl in Hnd;
    try (apply Take; [reflexivity | exact Hnd]).
  destruct (lockTime >? now); simpl in Hnd.
  - rewrite fst_pass_cons. apply IH. exact Hskip.
  - apply Take; [reflexivity | exact Hnd].
Qed.

Lemma filter_split_perm {A : Type} (f : A -> bool) (l : list A) :
  Permutation (filter f l ++ filter (fun x => negb (f x)) l) l.
Proof.
  induction l as [|a l IH]; simpl; [constructor|].
  destruct (f a); simpl.
  - constructor. exact IH.
  - symmetry. apply Permutation_cons_app. symmetry. exact IH.
Qed.

Lemma selection_sources (utxos : list UTXO) :
  NoDup (map utxo_UTXOID utxos) ->
  NoDup (map in_UTXOID
           (client.sel_ins
              (fst (client.stake_pass2 pc k ret now fee utxos
                      (client.stake_pass1 pc k ret now utxos
                         client.Selection0))))).
Proof.
  intros Hnd. apply stake_pass2_sources.
  apply (stake_pass1_sources utxos client.Selection0). simpl.
  rewrite app_nil_r, <- map_app.
  eapply Permutation_NoDup; [|exact Hnd].
  apply Permutation_map. symmetry. apply filter_split_perm.
Qed.

End Sources.

Lemma stake_cases (pc : client.p) (cd : Codec) (k : Key) (fee : Z)
  (opts : list client.OpOption) (t : list client.Event)
  (r : client.StakeReturn) :
  client.stake pc cd k fee opts = (t, Some r) ->
  (exists e, r = client.stake_fail e []) \/
  (exists ret utxos, client.stake_utxos pc cd k fee ret utxos = Some r).
Proof.
  unfold client.stake. intros Hrun.
  destruct (if bytes_eqb _ client.ShortEmpty then _ else Some _)
    as [ret1|]; [|discriminate].
  destruct (if bytes_eqb _ client.ShortEmpty then _ else Some _)
    as [ret|]; [|discriminate].
  apply bindM_emit_inv in Hrun. destruct Hrun as (t' & Hrun & ->).
  destruct (client.cli_GetAtomicUTXOs pc (P k)) as [ubs|e].
  2:{ injection Hrun as _ <-. left. eauto. }
  destruct (client.parse_utxos cd ubs) as [utxos|e].
  2:{ injection Hrun as _ <-. left. eauto. }
  destruct (client.stake_utxos pc cd k fee ret utxos) as [r'|] eqn:E3;
    [|discriminate].
  injection Hrun as _ <-. right. eauto.
Qed.

Lemma Spends_loop_length (spend : UTXO -> Z -> result TransferableIn)
  (ret : key.Op) (outputs : list UTXO) :
  forall total inputs,
    (length (snd (key.Spends_loop spend ret outputs total inputs))
     <= length inputs + length outputs)%nat.
Proof.
  induction outputs as [|out rest IH]; intros total inputs; simpl; [lia|].
  destruct (spend out (key.time ret)) as [input|e].
  - destruct (_ && _); simpl.
    + rewrite length_app. simpl. lia.
    + eapply Nat.le_trans; [apply IH|]. rewrite length_app. simpl. lia.
  - eapply Nat.le_trans; [apply IH|]. lia.
Qed.

(** The runs of [stake]. *)
Lemma stake_inv (pc : client.p) (cd : Codec) (k : Key) (fee : Z)
  (opts : list client.OpOption) (t : list client.Event)
  (o : option client.StakeReturn) :
  client.stake pc cd k fee opts = (t, o) ->
  (t = [] /\ o = None /\ client.first_address k = None) \/
  exists ret,
    t = [client.EvGetAtomicUTXOs] /\
    client.stakeAmt ret = client.stakeAmt (client.applyOpts client.Op0 opts) /\
    effective_change k (client.applyOpts client.Op0 opts)
      (client.changeAddr ret) /\
    o = match client.cli_GetAtomicUTXOs pc (P k) with
        | Err e => Some (client.stake_fail e [])
        | Ok ubs =>
            match client.parse_utxos cd ubs with
            | Err e => Some (client.stake_fail e [])
            | Ok utxos => client.stake_utxos pc cd k fee ret utxos
            end
        end.
Proof.
  unfold client.stake, effective_change. intros Hrun.
  set (ret0 := client.applyOpts client.Op0 opts) in *.
  assert (Core : forall ret,
            client.bindM (client.emit client.EvGetAtomicUTXOs)
              (fun _ =>
                 match client.cli_GetAtomicUTXOs pc (P k) with
                 | Err err => client.ret (client.stake_fail err [])
                 | Ok ubs =>
                     match client.parse_utxos cd ubs with
                     | Err err => client.ret (client.stake_fail err [])
                     | Ok utxos =>
                         match client.stake_utxos pc cd k fee ret utxos with
                         | None => client.panic
                         | Some r => client.ret r
                         end
                     end
                 end) = (t, o) ->
            t = [client.EvGetAtomicUTXOs] /\
            o = match client.cli_GetAtomicUTXOs pc (P k) with
                | Err e => Some (client.stake_fail e [])
                | Ok ubs =>
                    match client.parse_utxos cd ubs with
                    | Err e => Some (client.stake_fail e [])
                    | Ok utxos => client.stake_utxos pc cd k fee ret utxos
                    end
                end).
  { intros ret H. apply bindM_emit_inv in H. destruct H as (t' & H & ->).
    destruct (client.cli_GetAtomicUTXOs pc (P k)) as [ubs|e];
      [destruct (client.parse_utxos cd ubs) as [utxos|e];
       [destruct (client.stake_utxos pc cd k fee ret utxos)|]|];
      injection H as <- <-; split; reflexivity. }
  destruct (client.first_address k) as [a|] eqn:Ea.
  - right.
    destruct (bytes_eqb (client.rewardAddr ret0) client.ShortEmpty);
      cbn [option_map client.changeAddr] in Hrun;
      destruct (bytes_eqb (client.changeAddr ret0) client.ShortEmpty) eqn:Ec;
      cbn [option_map] in Hrun;
      apply Core in Hrun; destruct Hrun as [-> ->];
      eexists; (split; [reflexivity|]); (split; [|split; [|reflexivity]]);
      reflexivity.
  - destruct (bytes_eqb (client.rewardAddr ret0) client.ShortEmpty).
    + cbn in Hrun. injection Hrun as <- <-. left. auto.
    + destruct (bytes_eqb (client.changeAddr ret0) client.ShortEmpty) eqn:Ec.
      * cbn in Hrun. injection Hrun as <- <-. left. auto.
      * right. exists ret0. apply Core in Hrun. destruct Hrun as [-> ->].
        auto.
Qed.

(** What a run of [stake] that returns has done: it stopped on an error
    with nothing selected, or it fetched and parsed the UTXOs, the two
    loops made a selection of inputs and signers that go together, and the
    coupled sort of that selection is what it returns. *)
Lemma stake_selection (pc : client.p) (cd : Codec) (k : Key) (fee : Z)
  (opts : list client.OpOption) (t : list client.Event)
  (r : client.StakeReturn) :
  key_contract k ->
  client.stake pc cd k fee opts = (t, Some r) ->
  (exists e us, r = client.stake_fail e us) \/
  (exists ret ubs utxos,
     client.stakeAmt ret
     = client.stakeAmt (client.applyOpts client.Op0 opts) /\
     client.cli_GetAtomicUTXOs pc (P k) = Ok ubs /\
     client.parse_utxos cd ubs = Ok utxos /\
     let now := client.now_stake pc in
     let st := fst (client.stake_pass2 pc k ret now fee utxos
                      (client.stake_pass1 pc k ret now utxos
                         client.Selection0)) in
     aligned k now (client.sel_ins st) (client.sel_signers st) /\
     key.SortTransferableInputsWithSigners (client.sel_ins st)
       (client.sel_signers st)
     = Some (client.r_ins r, client.r_signers r) /\
     client.r_err r = None).
Proof.
  intros Hk Hrun.
  destruct (stake_inv pc cd k fee opts t (Some r) Hrun)
    as [(_ & Hn & _)|(ret & _ & Hamt & _ & Ho)]; [discriminate|].
  destruct (client.cli_GetAtomicUTXOs pc (P k)) as [ubs|e] eqn:Hf;
    [|injection Ho as ->; left; eauto].
  destruct (client.parse_utxos cd ubs) as [utxos|e] eqn:Hp;
    [|injection Ho as ->; left; eauto].
  symmetry in Ho. unfold client.stake_utxos in Ho. cbv zeta in Ho |- *.
  pose proof (stake_pass1_aligned pc k ret (client.now_stake pc) Hk utxos
                client.Selection0) as A1.
  simpl in A1. specialize (A1 ltac:(split; [reflexivity | constructor])).
  pose proof (stake_pass2_aligned pc k ret (client.now_stake pc) fee Hk utxos
                _ A1) as A2.
  cbv zeta in A2.
  destruct (client.stake_pass2 pc k ret (client.now_stake pc) fee utxos _)
    as [st utxos'] eqn:E2.
  cbn [fst] in *.
  destruct (_ && _); [injection Ho as <-; left; eauto|].
  destruct (_ && _); [injection Ho as <-; left; eauto|].
  destruct (key.SortTransferableInputsWithSigners _ _) as [[ins sg]|] eqn:Es;
    [|discriminate].
  destruct (client.SortTransferableOutputs cd (client.sel_returnedOuts st));
    [|discriminate].
  destruct (client.SortTransferableOutputs cd (client.sel_stakedOuts st));
    [|discriminate].
  injection Ho as <-. right. exists ret, ubs, utxos. rewrite E2. cbn.
  split; [exact Hamt|]. split; [reflexivity|]. split; [exact Hp|].
  split; [exact A2|]. split; [exact Es | reflexivity].
Qed.

(** The lists [stake] returns go together and are ascending by source. *)
Lemma stake_returns_aligned (pc : client.p) (cd : Codec) (k : Key) (fee : Z)
  (opts : list client.OpOption) (t : list client.Event)
  (r : client.StakeReturn) :
  key_contract k ->
  client.stake pc cd k fee opts = (t, Some r) ->
  aligned k (client.now_stake pc) (client.r_ins r) (client.r_signers r) /\
  StronglySorted source_le (client.r_ins r).
Proof.
  intros Hk Hrun.
  destruct (stake_selection pc cd k fee opts t r Hk Hrun)
    as [(e & us & ->)|(ret & ubs & utxos & _ & _ & _ & Hsel)].
  - simpl. repeat split; constructor.
  - cbv zeta in Hsel. destruct Hsel as ([Hlen Hpair] & Hs & _).
    destruct (SortTransferableInputsWithSigners_spec _ _ Hlen)
      as (ins' & signers' & Hs' & Hl' & Hp & Hsorted).
    rewrite Hs in Hs'. injection Hs' as <- <-.
    split; [split|]; auto.
    eapply Permutation_Forall; eauto.
Qed.

(** The hardware key of the examples keeps the contract of [Spends]. *)
Lemma keyOf_contract (cd : Codec) (h : key.HardKey) :
  key_contract (fixture.keyOf cd h).
Proof.
  intros us opts. simpl.
  unfold key.HardKey_Spends, key.Spends_with.
  pose proof (Spends_loop_length (key.hard_spend h)
                (key.applyOpts key.Op0 opts) us 0 []) as Hl.
  destruct (key.Spends_loop _ _ us 0 []) as [total inputs]. simpl in Hl.
  destruct (SortTransferableInputs_spec inputs) as (l' & Hs & Hp & _).
  rewrite Hs. simpl. rewrite length_map. split; [reflexivity|].
  rewrite <- (Permutation_length Hp). exact Hl.
Qed.

(** Its inputs carry the ID of the UTXO they spend. *)
Lemma keyOf_sources (cd : Codec) (h : key.HardKey) :
  key_sources (fixture.keyOf cd h).
Proof.
  intros u opts t in_ inputs sg. simpl.
  unfold key.HardKey_Spends, key.Spends_with. cbv zeta.
  assert (Hloop : (exists total input,
             key.Spends_loop (key.hard_spend h) (key.applyOpts key.Op0 opts)
               [u] 0 []
             = (total, [mkTransferableInput (utxo_UTXOID u) (utxo_Asset u)
                          input])) \/
          key.Spends_loop (key.hard_spend h) (key.applyOpts key.Op0 opts)
            [u] 0 [] = (0, [])).
  { simpl. destruct (key.hard_spend h u _) as [input|e]; [left|right; auto].
    destruct (_ && _); eexists _, _; reflexivity. }
  destruct Hloop as [(total & input & ->)| ->].
  - destruct (SortTransferableInputs_spec
                [mkTransferableInput (utxo_UTXOID u) (utxo_Asset u) input])
      as (l' & Hs & Hp & _).
    rewrite Hs. apply Permutation_length_1_inv in Hp. subst l'.
    intros E. injection E as _ <- _ _. reflexivity.
  - destruct (SortTransferableInputs_spec []) as (l' & Hs & Hp & _).
    rewrite Hs. apply Permutation_nil in Hp. subst l'. discriminate.
Qed.

(** C9.  For a key that returns one signer list per input:
    - the inputs and the signers that [stake] returns have the same
      length, the inputs are ascending by source (transaction ID, then
      output index), and at every index the signer list is the one the key
      returned with that input;
    - on success the two lists are the coupled sort of the selection of
      the two loops over the fetched UTXOs: one permutation of the
      (input, signers) pairs of that selection;
    - when the fetched UTXOs have pairwise distinct IDs and the key's
      inputs carry the ID of the UTXO they spend, no source occurs twice
      and the returned order is the only ascending arrangement of the
      returned pairs: any other run, on any client, that selects the same
      pairs returns the same two lists;
    - [stake] reads of the client the fetched UTXOs, the clock and the
      asset ID only: a run on a client that agrees on these returns the
      same result. *)
Theorem stake_inputs_signers_aligned (pc : client.p) (cd : Codec) (k : Key)
  (fee : Z) (opts : list client.OpOption) (t : list client.Event)
  (r : client.StakeReturn)
  (Hk : key_contract k)
  (Hrun : client.stake pc cd k fee opts = (t, Some r)) :
  length (client.r_ins r) = length (client.r_signers r)
  /\ StronglySorted source_le (client.r_ins r)
  /\ Forall (paired k (client.now_stake pc))
       (combine (client.r_ins r) (client.r_signers r))
  /\ (client.r_err r = None ->
      exists ubs utxos,
        client.cli_GetAtomicUTXOs pc (P k) = Ok ubs /\
        client.parse_utxos cd ubs = Ok utxos /\
        let ret := client.applyOpts client.Op0 opts in
        let now := client.now_stake pc in
        let st := fst (client.stake_pass2 pc k ret now fee utxos
                         (client.stake_pass1 pc k ret now utxos
                            client.Selection0)) in
        length (client.sel_ins st) = length (client.sel_signers st) /\
        key.SortTransferableInputsWithSigners (client.sel_ins st)
          (client.sel_signers st)
        = Some (client.r_ins r, client.r_signers r) /\
        Permutation (combine (client.sel_ins st) (client.sel_signers st))
          (combine (client.r_ins r) (client.r_signers r)))
  /\ (forall ubs utxos,
        client.cli_GetAtomicUTXOs pc (P k) = Ok ubs ->
        client.parse_utxos cd ubs = Ok utxos ->
        key_sources k -> NoDup (map utxo_UTXOID utxos) ->
        NoDup (map in_UTXOID (client.r_ins r)) /\
        (forall ins2 signers2,
           length ins2 = length signers2 ->
           Permutation (combine ins2 signers2)
             (combine (client.r_ins r) (client.r_signers r)) ->
           StronglySorted source_le ins2 ->
           ins2 = client.r_ins r /\ signers2 = client.r_signers r) /\
        (forall pc2 cd2 fee2 opts2 t2 r2,
           client.stake pc2 cd2 k fee2 opts2 = (t2, Some r2) ->
           Permutation (combine (client.r_ins r2) (client.r_signers r2))
             (combine (client.r_ins r) (client.r_signers r)) ->
           client.r_ins r2 = client.r_ins r /\
           client.r_signers r2 = client.r_signers r))
  /\ (forall pc2 t2 r2,
        client.cli_GetAtomicUTXOs pc2 (P k)
        = client.cli_GetAtomicUTXOs pc (P k) ->
        client.now_stake pc2 = client.now_stake pc ->
        client.assetID pc2 = client.assetID pc ->
        client.stake pc2 cd k fee opts = (t2, Some r2) ->
        r2 = r).
Proof.
  destruct (stake_returns_aligned pc cd k fee opts t r Hk Hrun)
    as ([Hlen Hpair] & Hsorted).
  split; [exact Hlen|]. split; [exact Hsorted|]. split; [exact Hpair|].
  pose proof (stake_selection pc cd k fee opts t r Hk Hrun) as Cases.
  split; [|split].
  - intros Hok.
    destruct Cases as [(e & us & ->)|(ret & ubs & utxos & Ha & Hf & Hp & Hsel)];
      [discriminate|].
    exists ubs, utxos. split; [exact Hf|]. split; [exact Hp|].
    cbv zeta in Hsel |- *. destruct Hsel as ([Hl _] & Hs & _).
    destruct (selection_op pc k ret (client.applyOpts client.Op0 opts)
                (client.now_stake pc) fee Ha utxos) as [Ei Eg].
    cbv zeta in Ei, Eg. rewrite <- Ei, <- Eg.
    split; [exact Hl|]. split; [exact Hs|].
    destruct (SortTransferableInputsWithSigners_spec _ _ Hl)
      as (ins' & signers' & Hs' & _ & Hperm & _).
    rewrite Hs in Hs'. injection Hs' as <- <-. exact Hperm.
  - intros ubs utxos Hf Hp Hsrc Hnd.
    assert (Hnd' : NoDup (map in_UTXOID (client.r_ins r))).
    { destruct Cases
        as [(e & us & ->)|(ret & ubs' & utxos' & _ & Hf' & Hp' & Hsel)];
        [constructor|].
      rewrite Hf in Hf'. injection Hf' as <-.
      rewrite Hp in Hp'. injection Hp' as <-.
      cbv zeta in Hsel. destruct Hsel as (_ & Hs & _).
      destruct (coupled_sort_inputs _ _ _ _ Hs) as [Hperm _].
      eapply Permutation_NoDup; [apply Permutation_map; exact Hperm|].
      apply selection_sources; assumption. }
    split; [exact Hnd'|]. split.
    + intros ins2 signers2 Hl2 Hperm Hs2.
      apply canonical_order; assumption.
    + intros pc2 cd2 fee2 opts2 t2 r2 Hrun2 Hperm.
      destruct (stake_returns_aligned pc2 cd2 k fee2 opts2 t2 r2 Hk Hrun2)
        as ([Hlen2 _] & Hsorted2).
      apply canonical_order; assumption.
  - intros pc2 t2 r2 Hf Hn Ha Hrun2.
    rewrite (stake_reads pc pc2 k Ha Hn Hf) in Hrun2.
    rewrite Hrun in Hrun2. injection Hrun2 as _ <-. reflexivity.
Qed.

Lemma stake_inputs_signers_aligned_witness :
  exists t r,
    client.stake fixture.nodeTwo fixture.cdTwo fixture.keyTwo 100
      [client.WithStakeAmount 2000] = (t, Some r) /\
    map in_UTXOID (client.r_ins r)
    = [mkUTXOID fixture.txA 0; mkUTXOID fixture.txB 1] /\
    length (client.r_ins r) = length (client.r_signers r) /\
    StronglySorted source_le (client.r_ins r) /\
    NoDup (map in_UTXOID (client.r_ins r)) /\
    exists st,
      map in_UTXOID (client.sel_ins st)
      = [mkUTXOID fixture.txB 1; mkUTXOID fixture.txA 0] /\
      key.SortTransferableInputsWithSigners (client.sel_ins st)
        (client.sel_signers st)
      = Some (client.r_ins r, client.r_signers r).
Proof.
  eexists _, _. split; [vm_compute; reflexivity|].
  split; [reflexivity|].
  match goal with
  | |- length (client.r_ins ?r) = _ /\ _ =>
      assert (Hrun : client.stake fixture.nodeTwo fixture.cdTwo
                       fixture.keyTwo 100 [client.WithStakeAmount 2000]
                     = ([client.EvGetAtomicUTXOs], Some r))
        by (vm_compute; reflexivity);
      destruct (stake_inputs_signers_aligned fixture.nodeTwo fixture.cdTwo
                  fixture.keyTwo 100 [client.WithStakeAmount 2000] _ r
                  (keyOf_contract fixture.cdTwo fixture.hard1) Hrun)
        as (A & B & _ & D & E & _)
  end.
  split; [exact A|]. split; [exact B|]. split.
  - destruct (E [[x00]; [x01]] [fixture.utxo60; fixture.utxo2500]
                eq_refl eq_refl (keyOf_sources fixture.cdTwo fixture.hard1))
      as (Hnd & _).
    + repeat constructor; simpl; intuition discriminate.
    + exact Hnd.
  - destruct (D eq_refl) as (ubs & utxos & Hf & Hp & Hsel).
    vm_compute in Hf. injection Hf as <-.
    vm_compute in Hp. injection Hp as <-.
    cbv zeta in Hsel. destruct Hsel as (_ & Hs & _).
    eexists. split; [|exact Hs]. vm_compute. reflexivity.
Defined.

(** ** [Sign] of the hardware key *)

(** C4, as the code has it.  [HardKey.Sign] asks the device once per call,
    whatever the number [sigs] of signatures required: the request carries
    the hash of the unsigned encoding and the path (0, account index).
    - If the unsigned transaction cannot be marshalled, the device is not
      asked and the transaction is untouched.
    - A device error comes back as a signing failure and the transaction is
      untouched: no credential is attached.
    - Otherwise the one signature returned is copied into one credential,
      attached [sigs] times.  If the signed encoding can be produced, the
      transaction's bytes are that encoding and its ID the hash of it; if
      not, the call fails and the bytes and the ID stay as they were. *)
Theorem HardKey_Sign_once (cd : Codec) (h : key.HardKey) (pTx : Tx)
  (sigs : Z) :
  let reqs := fst (key.HardKey_Sign cd h pTx sigs) in
  let out := snd (key.HardKey_Sign cd h pTx sigs) in
  let utx := tx_UnsignedTx pTx in
  (forall e, Marshal_UnsignedTx cd utx = Err e ->
     reqs = [] /\
     out = Some (pTx, Some (Errorf "couldn't marshal UnsignedTx" e)))
  /\
  (forall ub, Marshal_UnsignedTx cd utx = Ok ub ->
     let hash := ComputeHash256 cd ub in
     let path := [[0; key.accountIndex h]] in
     reqs = [(hash, path)]
     /\ (forall e, key.SignHash (key.l h) hash path = Err e ->
           out = Some (pTx,
                       Some (Errorf "problem generating credential" e)))
     /\ (forall sig0 more, key.SignHash (key.l h) hash path = Ok (sig0 :: more) ->
           let creds :=
             Creds pTx ++
             repeat (mkCredential [key.copy_sig sig0]) (Z.to_nat sigs) in
           (forall sb, Marshal_Tx cd utx creds = Ok sb ->
              out = Some (mkTx utx creds (ComputeHash256 cd sb) ub sb, None))
           /\
           (forall e, Marshal_Tx cd utx creds = Err e ->
              out = Some (mkTx utx creds (tx_id pTx) (tx_unsignedBytes pTx)
                            (tx_bytes pTx),
                          Some (Errorf "couldn't marshal ProposalTx" e))))).
Proof.
  cbv zeta. unfold key.HardKey_Sign. split.
  - intros e ->. simpl. auto.
  - intros ub ->.
    destruct (key.SignHash (key.l h) (ComputeHash256 cd ub)
                [[0; key.accountIndex h]]) as [[|sig0 more]|e]; simpl.
    + split; [reflexivity|]. split; intros; discriminate.
    + split.
      { destruct (Marshal_Tx cd _ _); reflexivity. }
      split; [intros; discriminate|].
      intros s m E. injection E as <- <-.
      split; intros x ->; reflexivity.
    + split; [reflexivity|]. split; [|intros; discriminate].
      intros e' E. injection E as <-. reflexivity.
Qed.

(** Two signatures required, a device that signs: one request, and the same
    credential attached twice. *)
Lemma HardKey_Sign_once_witness :
  fst (key.HardKey_Sign fixture.cd0 fixture.hard1 fixture.tx0 2)
  = [(ComputeHash256 fixture.cd0 [x01], [[0; 0]])] /\
  exists tx,
    snd (key.HardKey_Sign fixture.cd0 fixture.hard1 fixture.tx0 2)
    = Some (tx, None) /\
    Creds tx = repeat (mkCredential [repeat x07 65]) 2.
Proof.
  destruct (HardKey_Sign_once fixture.cd0 fixture.hard1 fixture.tx0 2)
    as [_ H].
  destruct (H [x01] eq_refl) as (Hreq & _ & Hok).
  split; [exact Hreq|].
  destruct (Hok (repeat x07 65) [] eq_refl) as [Hs _].
  eexists. split; [apply Hs; reflexivity | reflexivity].
Defined.

(** C4 fails as stated: with two signatures required the device is asked
    once, not twice, and the two credentials attached are one and the
    same. *)
Lemma HardKey_Sign_counterexample :
  exists reqs tx cred,
    key.HardKey_Sign fixture.cd0 fixture.hard1 fixture.tx0 2
    = (reqs, Some (tx, None)) /\
    length reqs = 1%nat /\
    Creds tx = [cred; cred].
Proof.
  eexists _, _, _. split; [vm_compute; reflexivity|].
  split; reflexivity.
Qed.

(** ** Key files *)

Lemma list_pair_ind {A : Type} (Q : list A -> Prop) :
  Q [] -> (forall x, Q [x]) ->
  (forall x y l, Q l -> Q (x :: y :: l)) ->
  forall l, Q l.
Proof.
  intros H0 H1 H2.
  assert (H : forall l, Q l /\ forall x, Q (x :: l)).
  { induction l as [|a l [IH1 IH2]]; split; auto. }
  intros l. apply H.
Qed.

Lemma fromHexChar_bound (c : byte) (n : N) :
  key.fromHexChar c = Some n -> (n < 16)%N.
Proof.
  unfold key.fromHexChar.
  destruct ((48 <=? Byte.to_N c) && (Byte.to_N c <=? 57))%N eqn:E1.
  { apply andb_true_iff in E1. rewrite !N.leb_le in E1.
    intros E; injection E as <-. lia. }
  destruct ((97 <=? Byte.to_N c) && (Byte.to_N c <=? 102))%N eqn:E2.
  { apply andb_true_iff in E2. rewrite !N.leb_le in E2.
    intros E; injection E as <-. lia. }
  destruct ((65 <=? Byte.to_N c) && (Byte.to_N c <=? 70))%N eqn:E3;
    [|discriminate].
  apply andb_true_iff in E3. rewrite !N.leb_le in E3.
  intros E; injection E as <-. lia.
Qed.

Lemma is_hex_printable (c : byte) : is_hex c = true -> printable c = true.
Proof.
  unfold is_hex, printable, key.fromHexChar.
  destruct ((48 <=? Byte.to_N c) && (Byte.to_N c <=? 57))%N eqn:E1.
  { apply andb_true_iff in E1. rewrite !N.leb_le in *. lia. }
  destruct ((97 <=? Byte.to_N c) && (Byte.to_N c <=? 102))%N eqn:E2.
  { apply andb_true_iff in E2. rewrite !N.leb_le in *. lia. }
  destruct ((65 <=? Byte.to_N c) && (Byte.to_N c <=? 70))%N eqn:E3;
    [|discriminate].
  apply andb_true_iff in E3. rewrite !N.leb_le in *. lia.
Qed.

(** A hexadecimal digit is neither a newline nor a carriage return. *)
Lemma is_hex_not_newline (c : byte) :
  is_hex c = true ->
  negb (Byte.eqb c x0a) && negb (Byte.eqb c x0d) = true.
Proof.
  intros H.
  destruct (Byte.eqb c x0a) eqn:E1.
  { apply Byte.byte_dec_bl in E1. subst c. discriminate. }
  destruct (Byte.eqb c x0d) eqn:E2.
  { apply Byte.byte_dec_bl in E2. subst c. discriminate. }
  reflexivity.
Qed.

(** Hexadecimal digits in even number decode, two digits to a byte. *)
Lemma hex_DecodeString_ok (src : list byte) :
  forallb is_hex src = true -> Nat.even (length src) = true ->
  exists bs,
    key.hex_DecodeString src = Ok bs /\ (2 * length bs = length src)%nat.
Proof.
  induction src as [| x | x y rest IH] using list_pair_ind.
  - intros _ _. exists []. auto.
  - intros _ H. discriminate.
  - intros Hh He. simpl in Hh. apply andb_true_iff in Hh.
    destruct Hh as [Hx Hh]. apply andb_true_iff in Hh. destruct Hh as [Hy Hh].
    destruct (IH Hh He) as (bs & Hbs & Hlen).
    unfold is_hex in Hx, Hy. simpl.
    destruct (key.fromHexChar x) as [a|] eqn:Ex; [|discriminate].
    destruct (key.fromHexChar y) as [b|] eqn:Ey; [|discriminate].
    pose proof (fromHexChar_bound _ _ Ex). pose proof (fromHexChar_bound _ _ Ey).
    destruct (Byte.of_N (a * 16 + b)) as [v|] eqn:Ev.
    + rewrite Hbs. simpl. exists (v :: bs). split; [reflexivity|]. simpl. lia.
    + apply Byte.of_N_None_iff in Ev. lia.
Qed.

(** The first character that is not a hexadecimal digit stops the
    decoding. *)
Lemma hex_DecodeString_invalid (src : list byte) :
  forallb is_hex src = false ->
  exists b,
    List.In b src /\ is_hex b = false /\
    key.hex_DecodeString src = Err (HexInvalidByteError b).
Proof.
  induction src as [| x | x y rest IH] using list_pair_ind.
  - discriminate.
  - simpl. rewrite andb_true_r. intros Hx. exists x.
    unfold is_hex in *. destruct (key.fromHexChar x); [discriminate|].
    auto.
  - intros Hh. simpl in Hh. unfold is_hex in Hh at 1 2. simpl.
    destruct (key.fromHexChar x) as [a|] eqn:Ex.
    2:{ exists x. unfold is_hex. rewrite Ex. auto. }
    destruct (key.fromHexChar y) as [b|] eqn:Ey.
    2:{ exists y. unfold is_hex. rewrite Ey. auto. }
    simpl in Hh. destruct (IH Hh) as (c & Hin & Hc & Hd).
    pose proof (fromHexChar_bound _ _ Ex). pose proof (fromHexChar_bound _ _ Ey).
    destruct (Byte.of_N (a * 16 + b)) as [v|] eqn:Ev.
    + rewrite Hd. simpl. exists c. auto.
    + apply Byte.of_N_None_iff in Ev. lia.
Qed.

Lemma firstn_set_nth {A : Type} (buf : list A) (n : nat) (b : A) :
  (n < length buf)%nat ->
  firstn (S n) (sort.set_nth buf n b) = firstn n buf ++ [b].
Proof.
  revert n; induction buf as [|a buf IH]; intros [|n] H; simpl in *;
    try lia; auto.
  f_equal. apply IH. lia.
Qed.

(** [readASCII] on an input that starts with enough printable characters
    fills the buffer with them and leaves the rest unread. *)
Lemma readASCII_loop_full (bs : list byte) :
  forall (buf : list byte) (n : nat) (rest : list byte),
    forallb printable bs = true ->
    (n + length bs = length buf)%nat ->
    key.readASCII_loop (length bs) buf n (bs ++ rest)
    = (firstn n buf ++ bs, length buf, rest).
Proof.
  induction bs as [|b bs IH]; intros buf n rest Hp Hl; simpl in *.
  - rewrite Nat.add_0_r in Hl. subst n.
    rewrite firstn_all, app_nil_r. reflexivity.
  - apply andb_true_iff in Hp. destruct Hp as [Hb Hp].
    unfold printable in Hb. apply N.leb_le in Hb.
    replace (Byte.to_N b <? 33)%N with false
      by (symmetry; apply N.ltb_ge; exact Hb).
    rewrite IH; auto.
    + rewrite length_set_nth, firstn_set_nth by lia.
      rewrite <- app_assoc. reflexivity.
    + rewrite length_set_nth. lia.
Qed.

Lemma readASCII_full (bs rest : list byte) :
  forallb printable bs = true -> length bs = key.privKeySize ->
  key.readASCII (repeat x00 key.privKeySize) (bs ++ rest)
  = (bs, key.privKeySize, rest).
Proof.
  intros Hp Hl. unfold key.readASCII. rewrite repeat_length, <- Hl.
  rewrite (readASCII_loop_full bs (repeat x00 (length bs)) 0 rest Hp)
    by (rewrite repeat_length; reflexivity).
  rewrite repeat_length. reflexivity.
Qed.

Lemma forallb_hex_printable (bs : list byte) :
  forallb is_hex bs = true -> forallb printable bs = true.
Proof.
  rewrite !forallb_forall. intros H x Hx. apply is_hex_printable. auto.
Qed.

Lemma LoadSoft_read (lib : key.Lib) (networkID : Z) (kb : list byte) :
  key.LoadSoft lib networkID (Ok kb) =
  match key.NewSoft lib networkID [key.WithPrivateKeyEncoded kb] with
  | Ok k => Ok k
  | Err _ =>
      let '(buf, n, r) := key.readASCII (repeat x00 key.privKeySize) kb in
      if negb (Nat.eqb n (length buf)) then Err ErrInvalidPrivateKeyLen
      else
        match key.checkKeyFileEnd r with
        | Some err => Err err
        | None =>
            skBytes <- key.hex_DecodeString buf ;;
            pk <- key.ToPrivateKey lib skBytes ;;
            key.NewSoft lib networkID [key.WithPrivateKey pk]
        end
  end.
Proof. reflexivity. Qed.

(** C6, as the code has it.  For a key file that is not accepted as an
    encoded key:
    - 64 hexadecimal characters and one newline load as the key of the 32
      decoded bytes: the result is that of [NewSoft] on the private key
      the node library makes of these bytes, and it is that key whenever
      the library accepts the bytes;
    - 65 hexadecimal characters fail with the invalid-ending error;
    - 64 printable characters that are not all hexadecimal fail with the
      invalid-byte error of the hex decoding, on a character of the
      file.
    A file that is accepted as an encoded key loads as that key. *)
Theorem LoadSoft_key_files (lib : key.Lib) (networkID : Z) :
  (forall hex e,
     length hex = 64%nat -> forallb is_hex hex = true ->
     key.NewSoft lib networkID [key.WithPrivateKeyEncoded (hex ++ [x0a])]
     = Err e ->
     exists skBytes,
       key.hex_DecodeString hex = Ok skBytes /\ length skBytes = 32%nat /\
       key.LoadSoft lib networkID (Ok (hex ++ [x0a]))
       = (pk <- key.ToPrivateKey lib skBytes ;;
          key.NewSoft lib networkID [key.WithPrivateKey pk]) /\
       forall pk k,
         key.ToPrivateKey lib skBytes = Ok pk ->
         key.NewSoft lib networkID [key.WithPrivateKey pk] = Ok k ->
         key.LoadSoft lib networkID (Ok (hex ++ [x0a])) = Ok k)
  /\
  (forall content e,
     length content = 65%nat -> forallb is_hex content = true ->
     key.NewSoft lib networkID [key.WithPrivateKeyEncoded content] = Err e ->
     key.LoadSoft lib networkID (Ok content)
     = Err ErrInvalidPrivateKeyEnding)
  /\
  (forall content e,
     length content = 64%nat -> forallb printable content = true ->
     forallb is_hex content = false ->
     key.NewSoft lib networkID [key.WithPrivateKeyEncoded content] = Err e ->
     exists b,
       List.In b content /\ is_hex b = false /\
       key.LoadSoft lib networkID (Ok content)
       = Err (HexInvalidByteError b))
  /\
  (forall content k,
     key.NewSoft lib networkID [key.WithPrivateKeyEncoded content] = Ok k ->
     key.LoadSoft lib networkID (Ok content) = Ok k).
Proof.
  split; [|split; [|split]].
  - intros hex e Hl Hh He.
    destruct (hex_DecodeString_ok hex Hh) as (bs & Hd & Hlen).
    { rewrite Hl. reflexivity. }
    exists bs. split; [exact Hd|]. split; [lia|].
    assert (Hload : key.LoadSoft lib networkID (Ok (hex ++ [x0a]))
                    = (pk <- key.ToPrivateKey lib bs ;;
                       key.NewSoft lib networkID [key.WithPrivateKey pk])).
    { rewrite LoadSoft_read, He.
      rewrite (readASCII_full hex [x0a] (forallb_hex_printable _ Hh) Hl).
      rewrite Hl. change (negb (key.privKeySize =? 64)%nat) with false.
      cbv iota. change (key.checkKeyFileEnd [x0a]) with (@None error).
      cbv iota. rewrite Hd. reflexivity. }
    split; [exact Hload|].
    intros pk k Hpk Hk. rewrite Hload, Hpk. exact Hk.
  - intros content e Hl Hh He. rewrite LoadSoft_read. rewrite He.
    assert (E : content = firstn 64 content ++ skipn 64 content)
      by (symmetry; apply firstn_skipn).
    assert (L1 : length (firstn 64 content) = 64%nat)
      by (rewrite length_firstn; lia).
    assert (L2 : length (skipn 64 content) = 1%nat)
      by (rewrite length_skipn; lia).
    destruct (skipn 64 content) as [|c [|c' rest]]; try discriminate L2.
    set (pre := firstn 64 content) in *. clearbody pre.
    subst content.
    rewrite forallb_app in Hh. apply andb_true_iff in Hh.
    destruct Hh as [H1 H2]. simpl in H2. rewrite andb_true_r in H2.
    rewrite (readASCII_full _ [c] (forallb_hex_printable _ H1) L1).
    rewrite L1. change (negb (key.privKeySize =? 64)%nat) with false.
    cbv iota. unfold key.checkKeyFileEnd. cbn [key.checkKeyFileEnd_loop].
    rewrite (is_hex_not_newline c H2). reflexivity.
  - intros content e Hl Hp Hh He. rewrite LoadSoft_read.
    rewrite He.
    replace (key.readASCII (repeat x00 key.privKeySize) content)
      with (content, key.privKeySize, @nil byte)
      by (rewrite <- (readASCII_full content [] Hp Hl), app_nil_r;
          reflexivity).
    rewrite Hl.
    change (negb (key.privKeySize =? 64)%nat) with false.
    cbv iota. change (key.checkKeyFileEnd []) with (@None error). cbv iota.
    destruct (hex_DecodeString_invalid content Hh) as (b & Hin & Hb & Hd).
    exists b. rewrite Hd. auto.
  - intros content k Hk. rewrite LoadSoft_read, Hk. reflexivity.
Qed.

Lemma LoadSoft_key_files_witness :
  (exists sk pk k,
     key.hex_DecodeString fixture.hex64 = Ok sk /\
     key.ToPrivateKey fixture.libHex sk = Ok pk /\
     key.NewSoft fixture.libHex 1 [key.WithPrivateKey pk] = Ok k /\
     key.LoadSoft fixture.libHex 1 (Ok (fixture.hex64 ++ [x0a])) = Ok k) /\
  key.LoadSoft fixture.libHex 1 (Ok (fixture.hex64 ++ [x66]))
  = Err ErrInvalidPrivateKeyEnding /\
  (exists b,
     key.LoadSoft fixture.libHex 1 (Ok fixture.notHex64)
     = Err (HexInvalidByteError b)).
Proof.
  destruct (LoadSoft_key_files fixture.libHex 1) as (H1 & H2 & H3 & _).
  split; [|split].
  - destruct (H1 fixture.hex64 (ExternalError 5) eq_refl eq_refl eq_refl)
      as (sk & Hd & _ & _ & Hk).
    vm_compute in Hd. injection Hd as <-.
    eexists _, _, _. split; [vm_compute; reflexivity|].
    split; [vm_compute; reflexivity|].
    split; [vm_compute; reflexivity|].
    eapply Hk; vm_compute; reflexivity.
  - eapply (H2 (fixture.hex64 ++ [x66])); vm_compute; reflexivity.
  - destruct (H3 fixture.notHex64 (ExternalError 5) eq_refl eq_refl eq_refl
                eq_refl) as (b & _ & _ & Hb).
    exists b. exact Hb.
Defined.

(** C6 fails as stated: a file of 65 hexadecimal characters is refused with
    the invalid-ending error, not the invalid-length error. *)
Lemma LoadSoft_key_files_counterexample :
  length (fixture.hex64 ++ [x66]) = 65%nat /\
  forallb is_hex (fixture.hex64 ++ [x66]) = true /\
  key.LoadSoft fixture.libHex 1 (Ok (fixture.hex64 ++ [x66]))
  = Err ErrInvalidPrivateKeyEnding /\
  error_eqb ErrInvalidPrivateKeyEnding ErrInvalidPrivateKeyLen = false.
Proof.
  repeat split; vm_compute; reflexivity.
Qed.

(** ** The pre-checks of [AddSubnetValidator] *)


Lemma bindM_val {A B : Type} (t : list client.Event) (a : A)
  (k : A -> client.M B) :
  client.bindM (t, Some a) k = (t ++ fst (k a), snd (k a)).
Proof.
  unfold client.bindM. destruct (k a); reflexivity.
Qed.

(** C7, on the code.  When the lookup of the node on the subnet fails with
    any error that is not the not-found sentinel (a network error,
    malformed validator data), [AddSubnetValidator] returns the
    already-subnet-validator error and drops the error of the lookup. *)
Theorem AddSubnetValidator_lookup_error (pc : client.p) (cd : Codec)
  (k : Key) (subnetID : ID) (nodeID : ShortID) (start end_ : client.Time)
  (weight : Z) (opts : list client.OpOption) (t : list client.Event)
  (e : error)
  (Hsubnet : bytes_eqb subnetID client.Empty = false)
  (Hnode : bytes_eqb nodeID client.ShortEmpty = false)
  (Hlookup : client.GetValidator pc subnetID nodeID = (t, Some (Err e)))
  (Hother : errors_Is e ErrValidatorNotFound = false) :
  client.AddSubnetValidator pc cd k subnetID nodeID start end_ weight opts
  = (t, Some (0, Some ErrAlreadySubnetValidator)).
Proof.
  unfold client.AddSubnetValidator. rewrite Hsubnet, Hnode, Hlookup.
  unfold client.bindM. rewrite Hother. simpl. rewrite app_nil_r.
  reflexivity.
Qed.

(** The node is down: the network error 9 of the lookup is lost. *)
Lemma AddSubnetValidator_lookup_error_witness :
  client.AddSubnetValidator fixture.nodeDown fixture.cd0 fixture.key0
    fixture.subnetX fixture.nodeN (client.time_Unix 1200 0)
    (client.time_Unix 1800 0) 1 []
  = ([client.EvGetCurrentValidators fixture.subnetX fixture.nodeN],
     Some (0, Some ErrAlreadySubnetValidator)).
Proof.
  exact (AddSubnetValidator_lookup_error fixture.nodeDown fixture.cd0
           fixture.key0 fixture.subnetX fixture.nodeN
           (client.time_Unix 1200 0) (client.time_Unix 1800 0) 1 []
           [client.EvGetCurrentValidators fixture.subnetX fixture.nodeN]
           (ExternalError 9) eq_refl eq_refl eq_refl eq_refl).
Defined.

(** The sibling [AddValidator] hands the same kind of error back to its
    caller. *)
Lemma AddValidator_lookup_error (pc : client.p) (cd : Codec) (k : Key)
  (nodeID : ShortID) (start end_ : client.Time)
  (opts : list client.OpOption) (t : list client.Event) (e : error) :
  bytes_eqb nodeID client.ShortEmpty = false ->
  client.GetValidator pc client.Empty nodeID = (t, Some (Err e)) ->
  errors_Is e ErrValidatorNotFound = false ->
  client.AddValidator pc cd k nodeID start end_ opts = (t, Some (0, Some e)).
Proof.
  intros Hnode Hlookup Hother. unfold client.AddValidator.
  rewrite Hnode, Hlookup, bindM_val. cbv beta iota. rewrite Hother.
  simpl. rewrite app_nil_r. reflexivity.
Qed.



(* ================================================================= *)
(** * Part III: further properties of the code *)
(* ================================================================= *)

(** ** Key files: line endings, short files, saving and loading *)

Lemma checkKeyFileEnd_loop_spec (r : list byte) :
  forall idx, 0 <= idx <= 2 ->
    (key.checkKeyFileEnd_loop r idx = None <->
     forallb is_eol r = true /\ idx + len r <= 2) /\
    (forallb is_eol r = true -> 2 < idx + len r ->
     key.checkKeyFileEnd_loop r idx = Some ErrInvalidPrivateKeyLen).
Proof.
  unfold len.
  induction r as [|b r IH]; intros idx Hidx; simpl.
  - split; [split; [intros _; split; [reflexivity | lia] | reflexivity]|].
    intros _ H. lia.
  - unfold is_eol at 1 3.
    destruct (Byte.eqb b x0a) eqn:Ea; destruct (Byte.eqb b x0d) eqn:Ed;
      simpl negb; simpl andb; simpl orb; cbv iota;
      try (unfold key.fileEndLimit; rewrite Z.gtb_ltb;
           destruct (Z.ltb_spec 1 idx) as [Hgt|Hle];
           [ split; [split; [discriminate | intros [_ H]; lia]
                    | intros _ _; reflexivity]
           | destruct (IH (idx + 1) ltac:(lia)) as [I1 I2];
             split; [rewrite I1; split; intros [H1 H2]; (split; [exact H1 | lia])
                    | intros H1 H2; apply I2; [exact H1 | lia]] ]).
    split; [split; [discriminate | intros [H _]; discriminate]|].
    intros H; discriminate.
Qed.

(** X1.  After the key, [checkKeyFileEnd] accepts line endings only, and
    at most two of them (although [fileEndLimit] is 1): any other byte is
    the invalid-ending error, a third line ending the invalid-length
    error. *)
Theorem checkKeyFileEnd_accepts (r : list byte) :
  (key.checkKeyFileEnd r = None <->
   forallb is_eol r = true /\ (length r <= 2)%nat)
  /\ (forallb is_eol r = true -> (2 < length r)%nat ->
      key.checkKeyFileEnd r = Some ErrInvalidPrivateKeyLen)
  /\ (forall b rest,
        r = b :: rest -> is_eol b = false ->
        key.checkKeyFileEnd r = Some ErrInvalidPrivateKeyEnding).
Proof.
  unfold key.checkKeyFileEnd.
  destruct (checkKeyFileEnd_loop_spec r 0 ltac:(lia)) as [H1 H2].
  unfold len in *. split; [|split].
  - rewrite H1. split; intros [A B]; (split; [exact A | lia]).
  - intros A B. apply H2; [exact A | lia].
  - intros b rest -> Hb. simpl. unfold is_eol in Hb.
    apply orb_false_iff in Hb. destruct Hb as [-> ->]. reflexivity.
Qed.

Lemma readASCII_loop_short (k : nat) :
  forall (buf : list byte) (n : nat) (r : list byte),
    (forallb printable (firstn k r) = false \/ (length r < k)%nat) ->
    (snd (fst (key.readASCII_loop k buf n r)) < n + k)%nat.
Proof.
  induction k as [|k IH]; intros buf n r H.
  - destruct H as [H|H]; [simpl in H; discriminate | lia].
  - simpl. destruct r as [|b r]; [simpl; lia|].
    destruct (Byte.to_N b <? 33)%N eqn:Eb; [simpl; lia|].
    assert (Hp : printable b = true).
    { unfold printable. apply N.leb_le. apply N.ltb_ge in Eb. exact Eb. }
    specialize (IH (sort.set_nth buf n b) (S n) r).
    simpl in H. rewrite Hp in H. simpl in H.
    assert (H' : forallb printable (firstn k r) = false \/ (length r < k)%nat)
      by (destruct H; [left; assumption | right; lia]).
    specialize (IH H'). lia.
Qed.

Lemma readASCII_loop_length (k : nat) :
  forall (buf : list byte) (n : nat) (r : list byte),
    length (fst (fst (key.readASCII_loop k buf n r))) = length buf.
Proof.
  induction k as [|k IHk]; intros buf n r; simpl; [reflexivity|].
  destruct r as [|b r]; simpl; [apply length_set_nth|].
  destruct (Byte.to_N b <? 33)%N; simpl; [apply length_set_nth|].
  rewrite IHk. apply length_set_nth.
Qed.

(** X2.  A key file that is not an encoded key and has fewer than 64
    characters, or a blank or control character among its first 64, is
    refused with the invalid-length error. *)
Theorem LoadSoft_short_file (lib : key.Lib) (networkID : Z)
  (content : list byte) (e : error)
  (Hraw : key.NewSoft lib networkID [key.WithPrivateKeyEncoded content]
          = Err e)
  (Hshort : forallb printable (firstn 64 content) = false \/
            (length content < 64)%nat) :
  key.LoadSoft lib networkID (Ok content) = Err ErrInvalidPrivateKeyLen.
Proof.
  rewrite LoadSoft_read, Hraw.
  pose proof (readASCII_loop_short 64 (repeat x00 64) 0 content Hshort) as Hn.
  pose proof (readASCII_loop_length 64 (repeat x00 64) 0 content) as Hl.
  rewrite repeat_length in Hl.
  unfold key.readASCII. rewrite repeat_length.
  change key.privKeySize with 64%nat.
  destruct (key.readASCII_loop 64 (repeat x00 64) 0 content)
    as [[buf n] r]. simpl in Hn, Hl.
  rewrite Hl.
  replace (n =? 64)%nat with false by (symmetry; apply Nat.eqb_neq; lia).
  reflexivity.
Qed.

Lemma LoadSoft_short_file_witness :
  key.LoadSoft fixture.libHex 1 (Ok (list_byte_of_string "56289e99"))
  = Err ErrInvalidPrivateKeyLen.
Proof.
  apply (LoadSoft_short_file fixture.libHex 1
           (list_byte_of_string "56289e99") (ExternalError 5) eq_refl).
  right. simpl. lia.
Defined.

Lemma is_eol_not_hex_printable (r : list byte) :
  forallb is_eol r = true -> forall b, List.In b r -> printable b = false.
Proof.
  rewrite forallb_forall. intros H b Hb. specialize (H b Hb).
  unfold is_eol in H. apply orb_true_iff in H.
  destruct H as [H|H]; apply Byte.byte_dec_bl in H; subst b; reflexivity.
Qed.

(** X3.  A key file of 64 hexadecimal characters followed by line endings
    only (and not accepted as an encoded key) loads, as the key the
    library makes of the 32 decoded bytes, when there are at most two line
    endings, and is refused with the invalid-length error when there are
    more. *)
Theorem LoadSoft_line_endings (lib : key.Lib) (networkID : Z)
  (hex eols : list byte) (e : error)
  (Hlen : length hex = 64%nat)
  (Hhex : forallb is_hex hex = true)
  (Heol : forallb is_eol eols = true)
  (Hraw : key.NewSoft lib networkID [key.WithPrivateKeyEncoded (hex ++ eols)]
          = Err e) :
  ((length eols <= 2)%nat ->
   exists skBytes,
     key.hex_DecodeString hex = Ok skBytes /\ length skBytes = 32%nat /\
     key.LoadSoft lib networkID (Ok (hex ++ eols))
     = (pk <- key.ToPrivateKey lib skBytes ;;
        key.NewSoft lib networkID [key.WithPrivateKey pk]))
  /\
  ((2 < length eols)%nat ->
   key.LoadSoft lib networkID (Ok (hex ++ eols))
   = Err ErrInvalidPrivateKeyLen).
Proof.
  rewrite LoadSoft_read, Hraw.
  rewrite (readASCII_full hex eols (forallb_hex_printable _ Hhex) Hlen).
  rewrite Hlen. change (negb (key.privKeySize =? 64)%nat) with false.
  cbv iota.
  unfold key.checkKeyFileEnd.
  destruct (checkKeyFileEnd_loop_spec eols 0 ltac:(lia)) as [A B].
  unfold len in A, B.
  split.
  - intros Hle.
    destruct (hex_DecodeString_ok hex Hhex) as (bs & Hd & Hl).
    { rewrite Hlen. reflexivity. }
    exists bs. split; [exact Hd|]. split; [lia|].
    replace (key.checkKeyFileEnd_loop eols 0) with (@None error)
      by (symmetry; apply A; split; [exact Heol | lia]).
    rewrite Hd. reflexivity.
  - intros Hgt. rewrite (B Heol ltac:(lia)). reflexivity.
Qed.

Lemma LoadSoft_line_endings_witness :
  (exists k,
     key.LoadSoft fixture.libHex 1 (Ok (fixture.hex64 ++ [x0d; x0a])) = Ok k)
  /\ key.LoadSoft fixture.libHex 1 (Ok (fixture.hex64 ++ [x0a; x0a; x0a]))
     = Err ErrInvalidPrivateKeyLen.
Proof.
  split.
  - destruct (LoadSoft_line_endings fixture.libHex 1 fixture.hex64 [x0d; x0a]
                (ExternalError 5) eq_refl eq_refl eq_refl eq_refl)
      as [H _].
    destruct (H ltac:(simpl; lia)) as (sk & Hd & _ & Hl).
    rewrite Hl. vm_compute in Hd. injection Hd as <-.
    eexists. vm_compute. reflexivity.
  - destruct (LoadSoft_line_endings fixture.libHex 1 fixture.hex64
                [x0a; x0a; x0a] (ExternalError 5) eq_refl eq_refl eq_refl
                eq_refl) as [_ H].
    apply H. simpl. lia.
Defined.

(** ** Hexadecimal text and the saved key *)

Lemma hexdigit_cases (n : N) :
  (n < 16)%N ->
  key.fromHexChar (key.hexdigit n) = Some n /\ is_hex (key.hexdigit n) = true.
Proof.
  intros H.
  destruct n as [|p]; [split; reflexivity|].
  do 4 (try destruct p as [p|p|]); try (split; reflexivity); lia.
Qed.

Lemma to_N_lt_256 (v : byte) : (Byte.to_N v < 256)%N.
Proof. destruct v; vm_compute; reflexivity. Qed.

Lemma hex_EncodeToString_length (bs : list byte) :
  length (key.hex_EncodeToString bs) = (2 * length bs)%nat.
Proof. induction bs as [|v bs IH]; simpl; [reflexivity | rewrite IH; lia]. Qed.

Lemma hex_EncodeToString_is_hex (bs : list byte) :
  forallb is_hex (key.hex_EncodeToString bs) = true.
Proof.
  induction bs as [|v bs IH]; simpl; [reflexivity|].
  pose proof (to_N_lt_256 v) as Hv.
  destruct (hexdigit_cases (Byte.to_N v / 16)) as [_ ->].
  { apply N.Div0.div_lt_upper_bound. lia. }
  destruct (hexdigit_cases (Byte.to_N v mod 16)) as [_ ->].
  { apply N.mod_lt. lia. }
  exact IH.
Qed.

Lemma hex_round_trip (bs : list byte) :
  key.hex_DecodeString (key.hex_EncodeToString bs) = Ok bs.
Proof.
  induction bs as [|v bs IH]; [reflexivity|].
  pose proof (to_N_lt_256 v) as Hv.
  cbn [key.hex_EncodeToString key.hex_DecodeString].
  destruct (hexdigit_cases (Byte.to_N v / 16)) as [-> _].
  { apply N.Div0.div_lt_upper_bound. lia. }
  destruct (hexdigit_cases (Byte.to_N v mod 16)) as [-> _].
  { apply N.mod_lt. lia. }
  replace (Byte.to_N v / 16 * 16 + Byte.to_N v mod 16)%N with (Byte.to_N v)
    by (rewrite (N.div_mod (Byte.to_N v) 16) at 1; lia).
  rewrite Byte.of_to_N, IH. reflexivity.
Qed.

(** What a successful [NewSoft] returns. *)
Lemma NewSoft_inv (lib : key.Lib) (networkID : Z)
  (opts : list key.SOpOption) (k : key.SoftKey) :
  key.NewSoft lib networkID opts = Ok k ->
  let ret := fold_left (fun o opt => opt o) opts (key.mkSOp None []) in
  exists addr,
    k = key.mkSoftKey (key.privKey k) (key.Bytes (key.privKey k))
          (key.privKeyEncoded k) addr [key.privKey k] /\
    key.encodePrivateKey lib (key.privKey k) = Ok (key.privKeyEncoded k) /\
    key.FormatAddress lib (list_byte_of_string "P")
      (key.getHRP lib networkID) (key.Address lib (key.privKey k)) = Ok addr /\
    (key.sop_privKeyEncoded ret <> [] ->
     key.privKeyEncoded k = key.sop_privKeyEncoded ret /\
     key.decodePrivateKey lib (key.sop_privKeyEncoded ret)
     = Ok (key.privKey k)) /\
    (forall pk0, key.sop_privKey ret = Some pk0 ->
       key.Bytes (key.privKey k) = key.Bytes pk0 /\
       (key.sop_privKeyEncoded ret = [] -> key.privKey k = pk0)).
Proof.
  intros H. unfold key.NewSoft in H. cbv zeta in *.
  destruct (fold_left (fun o opt => opt o) opts (key.mkSOp None []))
    as [opk oenc]. cbn [key.sop_privKey key.sop_privKeyEncoded] in *.
  assert (Hemp : (0 <? len oenc) = negb (bytes_eqb oenc [])).
  { unfold len. destruct oenc; reflexivity. }
  rewrite Hemp in H.
  destruct oenc as [|c oenc].
  - (* no encoded key given *)
    cbn in H.
    destruct opk as [pk0|].
    + cbn in H.
      destruct (key.encodePrivateKey lib pk0) as [enc|] eqn:Eenc;
        [|discriminate]. cbn in H.
      destruct (key.FormatAddress lib _ _ _) as [addr|] eqn:Ef;
        [|discriminate]. cbn in H. injection H as <-.
      exists addr. cbn.
      split; [reflexivity|]. split; [exact Eenc|]. split; [exact Ef|].
      split; [intros C; congruence|].
      intros pk1 E. injection E as <-. split; [reflexivity | reflexivity].
    + cbn in H.
      destruct (key.NewPrivateKey lib) as [pk|] eqn:En; [|discriminate].
      cbn in H.
      destruct (key.encodePrivateKey lib pk) as [enc|] eqn:Eenc;
        [|discriminate]. cbn in H.
      destruct (key.FormatAddress lib _ _ _) as [addr|] eqn:Ef;
        [|discriminate]. cbn in H. injection H as <-.
      exists addr. cbn.
      split; [reflexivity|]. split; [exact Eenc|]. split; [exact Ef|].
      split; [intros C; congruence|].
      intros pk1 E. discriminate.
  - (* an encoded key given *)
    change (negb (bytes_eqb (c :: oenc) [])) with true in H. cbv iota in H.
    destruct (key.decodePrivateKey lib (c :: oenc)) as [pk|] eqn:Ed;
      [|discriminate].
    cbn [bind] in H.
    assert (Hpk : (forall pk0, opk = Some pk0 ->
                     bytes_eqb (key.Bytes pk0) (key.Bytes pk) = true) /\
                  (pk1 <- match key.sop_privKey (key.mkSOp (Some pk) (c :: oenc))
                          with None => key.NewPrivateKey lib
                          | Some pk => Ok pk end ;;
                   enc <- key.encodePrivateKey lib pk1 ;;
                   (if negb (bytes_eqb (c :: oenc) []) &&
                       negb (bytes_eqb (c :: oenc) enc)
                    then Err ErrInvalidPrivateKeyEncoding
                    else
                      addr <- key.FormatAddress lib (list_byte_of_string "P")
                                (key.getHRP lib networkID)
                                (key.Address lib pk1) ;;
                      Ok (key.mkSoftKey pk1 (key.Bytes pk1) enc addr [pk1])))
                  = Ok k).
    { destruct opk as [pk0|].
      - destruct (bytes_eqb (key.Bytes pk0) (key.Bytes pk)) eqn:Eb.
        + split; [intros ? E; injection E as <-; exact Eb | exact H].
        + discriminate.
      - split; [discriminate | exact H]. }
    destruct Hpk as [Hb H']. clear H.
    cbn [key.sop_privKey bind] in H'.
    destruct (key.encodePrivateKey lib pk) as [enc|] eqn:Eenc;
      [|discriminate]. cbn [bind] in H'.
    change (negb (bytes_eqb (c :: oenc) [])) with true in H'.
    cbn [andb] in H'.
    destruct (bytes_eqb (c :: oenc) enc) eqn:Ee; [|discriminate].
    cbn [negb] in H'. apply bytes_eqb_eq in Ee.
    destruct (key.FormatAddress lib _ _ _) as [addr|] eqn:Ef;
      [|discriminate]. cbn in H'. injection H' as <-.
    exists addr. cbn.
    split; [reflexivity|]. split; [exact Eenc|]. split; [exact Ef|].
    split; [intros _; split; [congruence | reflexivity]|].
    intros pk1 E. specialize (Hb pk1 E). apply bytes_eqb_eq in Hb.
    split; [congruence | intros C; discriminate].
Qed.

(** X4.  A key that [NewSoft] returns agrees with what it was given: with
    an encoded key among the options, the key's encoding is that very
    text and decodes to the key; with a private key among the options, the
    key has the same bytes.  Its raw bytes and its one-key keychain are
    those of its private key. *)
Theorem NewSoft_consistent (lib : key.Lib) (networkID : Z)
  (opts : list key.SOpOption) (k : key.SoftKey)
  (Hnew : key.NewSoft lib networkID opts = Ok k) :
  let ret := fold_left (fun o opt => opt o) opts (key.mkSOp None []) in
  key.privKeyRaw k = key.Bytes (key.privKey k) /\
  key.keyChain k = [key.privKey k] /\
  key.encodePrivateKey lib (key.privKey k) = Ok (key.privKeyEncoded k) /\
  (key.sop_privKeyEncoded ret <> [] ->
   key.privKeyEncoded k = key.sop_privKeyEncoded ret /\
   key.decodePrivateKey lib (key.sop_privKeyEncoded ret)
   = Ok (key.privKey k)) /\
  (forall pk0, key.sop_privKey ret = Some pk0 ->
     key.Bytes (key.privKey k) = key.Bytes pk0).
Proof.
  intros ret.
  destruct (NewSoft_inv lib networkID opts k Hnew)
    as (addr & Hk & Henc & _ & He & Hp).
  split; [rewrite Hk; reflexivity|].
  split; [rewrite Hk; reflexivity|].
  split; [exact Henc|].
  split; [exact He|].
  intros pk0 E. apply (Hp pk0 E).
Qed.

Lemma NewSoft_consistent_witness :
  exists k,
    key.NewSoft fixture.libHex 1
      [key.WithPrivateKey (key.mkPrivateKey [x01; x02])] = Ok k /\
    key.privKeyRaw k = [x01; x02].
Proof.
  eexists. split; [reflexivity|].
  destruct (NewSoft_consistent fixture.libHex 1
              [key.WithPrivateKey (key.mkPrivateKey [x01; x02])] _ eq_refl)
    as (H & _).
  exact H.
Defined.

(** X5.  The two ways of giving [NewSoft] a key must agree: when the
    encoded key decodes to other bytes than the private key given beside
    it, the result is the invalid-private-key error, and when the decoded
    key encodes back to another text than the one given, the
    invalid-encoding error. *)
Theorem NewSoft_disagreement (lib : key.Lib) (networkID : Z)
  (pk0 pk : key.PrivateKey) (enc : list byte)
  (Henc : enc <> [])
  (Hdec : key.decodePrivateKey lib enc = Ok pk) :
  (key.Bytes pk0 <> key.Bytes pk ->
   key.NewSoft lib networkID
     [key.WithPrivateKey pk0; key.WithPrivateKeyEncoded enc]
   = Err ErrInvalidPrivateKey) /\
  (forall enc', key.encodePrivateKey lib pk = Ok enc' -> enc' <> enc ->
   key.NewSoft lib networkID [key.WithPrivateKeyEncoded enc]
   = Err ErrInvalidPrivateKeyEncoding).
Proof.
  assert (Hpos : (0 <? len enc) = true).
  { unfold len. destruct enc; [congruence | reflexivity]. }
  assert (Hne : bytes_eqb enc [] = false).
  { destruct enc; [congruence | reflexivity]. }
  split.
  - intros Hb. unfold key.NewSoft. cbn [fold_left key.WithPrivateKey
      key.WithPrivateKeyEncoded key.sop_privKey key.sop_privKeyEncoded].
    rewrite Hpos, Hdec. cbn [bind].
    destruct (bytes_eqb (key.Bytes pk0) (key.Bytes pk)) eqn:Eb.
    + apply bytes_eqb_eq in Eb. contradiction.
    + reflexivity.
  - intros enc' He Hd. unfold key.NewSoft. cbn [fold_left
      key.WithPrivateKeyEncoded key.sop_privKey key.sop_privKeyEncoded].
    rewrite Hpos, Hdec. cbn [bind key.sop_privKey key.sop_privKeyEncoded].
    rewrite He. cbn [bind]. rewrite Hne.
    destruct (bytes_eqb enc enc') eqn:Eb.
    + apply bytes_eqb_eq in Eb. congruence.
    + reflexivity.
Qed.

Lemma remove_first_prefix (pat s : list byte) :
  key.remove_first pat (pat ++ s) = s.
Proof.
  assert (P : forall p t, key.is_prefix p (p ++ t) = true).
  { induction p as [|x p IH]; intros t; simpl; [reflexivity|].
    rewrite IH. replace (Byte.eqb x x) with true; [reflexivity|].
    symmetry. apply Byte.byte_dec_lb. reflexivity. }
  destruct pat as [|x pat]; destruct s as [|y s]; simpl;
    try reflexivity.
  - rewrite app_nil_r.
    specialize (P (x :: pat) []). rewrite app_nil_r in P. simpl in P.
    rewrite P. apply skipn_all.
  - specialize (P (x :: pat) (y :: s)). simpl in P. rewrite P.
    rewrite (skipn_app (length pat)), skipn_all, Nat.sub_diag. reflexivity.
Qed.

(** X6.  Decoding undoes encoding: when CB58 decoding gives back the bytes
    that were encoded, [decodePrivateKey] applied to the text of
    [encodePrivateKey] hands the key's bytes to the key factory. *)
Theorem decode_encode_private_key (lib : key.Lib) (pk : key.PrivateKey)
  (enc : list byte)
  (Hcb : forall bs t, key.cb58_EncodeWithChecksum lib bs = Ok t ->
                      key.cb58_Decode lib t = Ok bs)
  (Henc : key.encodePrivateKey lib pk = Ok enc) :
  is_prefix_of_encoded enc /\
  key.decodePrivateKey lib enc = key.ToPrivateKey lib (key.Bytes pk).
Proof.
  unfold key.encodePrivateKey in Henc.
  destruct (key.cb58_EncodeWithChecksum lib (key.Bytes pk)) as [t|] eqn:Et;
    [|discriminate].
  cbn [bind] in Henc.
  assert (E : enc = key.privKeyEncPfx ++ t) by congruence.
  subst enc. clear Henc.
  split.
  - exists t. reflexivity.
  - unfold key.decodePrivateKey. rewrite remove_first_prefix.
    rewrite (Hcb _ _ Et). reflexivity.
Qed.

Lemma NewSoft_disagreement_witness :
  key.NewSoft fixture.libCB 1
    [key.WithPrivateKey (key.mkPrivateKey [x01]);
     key.WithPrivateKeyEncoded [x02]]
  = Err ErrInvalidPrivateKey /\
  key.NewSoft fixture.libCB 1 [key.WithPrivateKeyEncoded [x02]]
  = Err ErrInvalidPrivateKeyEncoding.
Proof.
  destruct (NewSoft_disagreement fixture.libCB 1 (key.mkPrivateKey [x01])
              (key.mkPrivateKey [x02]) [x02]
              ltac:(discriminate) eq_refl) as [H1 H2].
  split.
  - apply H1. discriminate.
  - apply (H2 (key.privKeyEncPfx ++ [x02]) eq_refl). discriminate.
Defined.

Lemma decode_encode_private_key_witness :
  key.decodePrivateKey fixture.libCB (key.privKeyEncPfx ++ [x01; x02])
  = Ok (key.mkPrivateKey [x01; x02]).
Proof.
  destruct (decode_encode_private_key fixture.libCB
              (key.mkPrivateKey [x01; x02]) (key.privKeyEncPfx ++ [x01; x02]))
    as [_ H].
  - intros bs t E. injection E as <-. reflexivity.
  - reflexivity.
  - rewrite H. reflexivity.
Defined.

Lemma NewSoft_WithPrivateKey (lib : key.Lib) (networkID : Z)
  (pk : key.PrivateKey) :
  key.NewSoft lib networkID [key.WithPrivateKey pk]
  = (enc <- key.encodePrivateKey lib pk ;;
     addr <- key.FormatAddress lib (list_byte_of_string "P")
               (key.getHRP lib networkID) (key.Address lib pk) ;;
     Ok (key.mkSoftKey pk (key.Bytes pk) enc addr [pk])).
Proof.
  unfold key.NewSoft, key.WithPrivateKey.
  cbn [fold_left key.sop_privKey key.sop_privKeyEncoded].
  change (0 <? len []) with false. cbv iota. cbn [bind key.sop_privKey].
  destruct (key.encodePrivateKey lib pk) as [enc|]; reflexivity.
Qed.

(** X7.  Saving and loading round-trip: for a key of 32 bytes made by
    [NewSoft], which the key factory rebuilds from its bytes, and whose
    hexadecimal text is not itself accepted as an encoded key, the file
    that [Save] writes (64 lower-case hexadecimal characters, no line
    ending, mode 0600) is loaded by [LoadSoft] on the same network as the
    very same key. *)
Theorem Save_LoadSoft_round_trip (lib : key.Lib) (networkID : Z)
  (opts : list key.SOpOption) (k : key.SoftKey) (e : error)
  (WriteFile : list byte -> Z -> option error)
  (Hnew : key.NewSoft lib networkID opts = Ok k)
  (Hlen : length (key.privKeyRaw k) = 32%nat)
  (Hfact : key.ToPrivateKey lib (key.privKeyRaw k) = Ok (key.privKey k))
  (Hraw : key.NewSoft lib networkID
            [key.WithPrivateKeyEncoded
               (key.hex_EncodeToString (key.privKeyRaw k))] = Err e) :
  exists content,
    key.Save WriteFile k = WriteFile content 384 /\
    length content = 64%nat /\
    key.LoadSoft lib networkID (Ok content) = Ok k.
Proof.
  exists (key.hex_EncodeToString (key.privKeyRaw k)).
  split; [reflexivity|].
  assert (L : length (key.hex_EncodeToString (key.privKeyRaw k)) = 64%nat)
    by (rewrite hex_EncodeToString_length, Hlen; reflexivity).
  split; [exact L|].
  rewrite LoadSoft_read, Hraw.
  pose proof (readASCII_full (key.hex_EncodeToString (key.privKeyRaw k)) []
                (forallb_hex_printable _ (hex_EncodeToString_is_hex _)) L)
    as R.
  rewrite app_nil_r in R. rewrite R, L.
  change (negb (key.privKeySize =? 64)%nat) with false. cbv iota.
  change (key.checkKeyFileEnd []) with (@None error). cbv iota.
  rewrite hex_round_trip. cbn [bind]. rewrite Hfact. cbn [bind].
  destruct (NewSoft_inv lib networkID opts k Hnew)
    as (addr & Hk & Henc & Hf & _ & _).
  rewrite NewSoft_WithPrivateKey, Henc. cbn [bind].
  rewrite Hf. cbn [bind]. f_equal. symmetry. exact Hk.
Qed.

Lemma Save_LoadSoft_round_trip_witness :
  exists k content,
    key.NewSoft fixture.libHex 1 [key.WithPrivateKey fixture.pk32] = Ok k /\
    key.Save (fun _ _ => None) k = None /\
    length content = 64%nat /\
    key.LoadSoft fixture.libHex 1 (Ok content) = Ok k.
Proof.
  eexists.
  destruct (Save_LoadSoft_round_trip fixture.libHex 1
              [key.WithPrivateKey fixture.pk32] _ (ExternalError 5)
              (fun _ _ => None) eq_refl eq_refl eq_refl eq_refl)
    as (content & Hs & Hl & Hload).
  exists content.
  split; [reflexivity|]. split; [reflexivity|]. split; [exact Hl | exact Hload].
Defined.

(** ** Spending with a key *)

(** X8.  The hardware key spends transfer outputs only: [spend] returns an
    input exactly for a transfer output whose owners the key matches (so
    the lock time of the owners has passed), and the input carries the
    amount of the output and the matched signature indices.  A mint
    output is never spent (invalid type when matched, cannot-spend
    otherwise), nor is a stake-locked output, whatever its lock time. *)
Theorem hard_spend_transfer_only (h : key.HardKey) (u : UTXO) (t : Z) :
  (forall input,
     key.hard_spend h u t = Ok input <->
     exists amt owners sigs,
       Out u = TransferOutput amt owners /\
       key.hard_match h owners t = (sigs, true) /\
       input = TransferInput amt sigs)
  /\ (forall input amt owners,
        Out u = TransferOutput amt owners ->
        key.hard_spend h u t = Ok input ->
        Locktime owners <= t /\ Amount input = amt)
  /\ (forall owners,
        Out u = MintOutput owners ->
        key.hard_spend h u t
        = Err (if snd (key.hard_match h owners t)
               then ErrInvalidType else ErrCantSpend))
  /\ (forall lockTime inner,
        Out u = StakeableLockOut lockTime inner ->
        key.hard_spend h u t = Err ErrUnexpectedOutputType).
Proof.
  unfold key.hard_spend, key.lspend.
  split; [|split; [|split]].
  - intros input. destruct (Out u) as [o|amt o|lt inner|tag].
    + destruct (key.hard_match h o t) as [sigs [|]]; cbn;
        (split; [discriminate | intros (? & ? & ? & E & _); discriminate]).
    + destruct (key.hard_match h o t) as [sigs [|]] eqn:Em; cbn.
      * split.
        -- intros E. injection E as <-. exists amt, o, sigs. auto.
        -- intros (a & o' & s & E1 & E2 & ->).
           injection E1 as <- <-. rewrite Em in E2. injection E2 as <-.
           reflexivity.
      * split; [discriminate|].
        intros (a & o' & s & E1 & E2 & _).
        injection E1 as <- <-. rewrite Em in E2. discriminate.
    + cbn. split; [discriminate | intros (? & ? & ? & E & _); discriminate].
    + cbn. split; [discriminate | intros (? & ? & ? & E & _); discriminate].
  - intros input amt owners ->.
    unfold key.hard_match.
    destruct (Z.ltb_spec t (Locktime owners)) as [Hlt|Hge]; cbn;
      [discriminate|].
    destruct (wrap32 _ =? Threshold owners); cbn; [|discriminate].
    intros E. injection E as <-. split; [exact Hge | reflexivity].
  - intros owners ->.
    destruct (key.hard_match h owners t) as [sigs [|]]; reflexivity.
  - intros lockTime inner ->. reflexivity.
Qed.

Lemma Spends_loop_prefix (spend : UTXO -> Z -> result TransferableIn)
  (ret : key.Op) (outputs : list UTXO) :
  forall (total : Z) (inputs : list TransferableInput),
  exists n,
    key.Spends_loop spend ret outputs (wrap64 total) inputs =
    (wrap64 (total +
             sum_inputs (firstn n (spendable spend (key.time ret) outputs))),
     inputs ++ firstn n (spendable spend (key.time ret) outputs)).
Proof.
  induction outputs as [|out rest IH]; intros total inputs.
  - exists 0%nat. simpl. rewrite Z.add_0_r, app_nil_r. reflexivity.
  - simpl. destruct (spend out (key.time ret)) as [input|e].
    + rewrite wrap64_add_l.
      destruct ((key.targetAmount ret >? 0) &&
                (wrap64 (total + Amount input) >?
                 wrap64 (key.targetAmount ret + key.feeDeduct ret))).
      * exists 1%nat. simpl. rewrite Z.add_0_r. reflexivity.
      * destruct (IH (total + Amount input)
                    (inputs ++
                     [mkTransferableInput (utxo_UTXOID out) (utxo_Asset out)
                        input])) as [n Hn].
        exists (S n). rewrite Hn. simpl. rewrite <- app_assoc. simpl.
        rewrite Z.add_assoc. reflexivity.
    + apply IH.
Qed.

(** X9.  [Spends], of the software key and of the hardware key alike (they
    share the loop around their own [spend]), returns without a panic; the
    inputs it returns are, up to their order, the inputs of a prefix of
    the UTXOs the key can spend, they are sorted by transaction ID and
    output index, and the total it returns is the sum of their amounts
    (modulo 2^64). *)
Theorem Spends_total_of_inputs (spend : UTXO -> Z -> result TransferableIn)
  (outputs : list UTXO) (opts : list key.OpOption) :
  let ret := key.applyOpts key.Op0 opts in
  exists total inputs n,
    key.Spends_with spend outputs opts = Some (total, inputs) /\
    Permutation (firstn n (spendable spend (key.time ret) outputs)) inputs /\
    StronglySorted source_le inputs /\
    total = wrap64 (sum_inputs inputs).
Proof.
  intros ret. unfold key.Spends_with. fold ret.
  destruct (Spends_loop_prefix spend ret outputs 0 []) as [n Hn].
  change (wrap64 0) with 0 in Hn. rewrite Hn. simpl.
  destruct (SortTransferableInputs_spec
              (firstn n (spendable spend (key.time ret) outputs)))
    as (sorted & Hs & Hp & Hsorted).
  rewrite Hs.
  exists (wrap64 (sum_inputs
                    (firstn n (spendable spend (key.time ret) outputs)))),
    sorted, n.
  split; [reflexivity|]. split; [exact Hp|]. split; [exact Hsorted|].
  rewrite (sum_inputs_perm _ _ Hp). reflexivity.
Qed.

Lemma amounts_ok_tail (i : TransferableInput) (l : list TransferableInput) :
  amounts_ok (i :: l) -> is_uint64 (Amount (in_In i)) /\ amounts_ok l.
Proof. intros H. inversion H; subst. split; assumption. Qed.

Lemma Spends_loop_target (spend : UTXO -> Z -> result TransferableIn)
  (ret : key.Op) (outputs : list UTXO) :
  0 < key.targetAmount ret ->
  forall (total : Z) (inputs : list TransferableInput),
    let sp := spendable spend (key.time ret) outputs in
    let T := wrap64 (key.targetAmount ret + key.feeDeduct ret) in
    0 <= total -> amounts_ok sp -> total + sum_inputs sp < 2 ^ 64 ->
    exists n,
      (n <= length sp)%nat /\
      key.Spends_loop spend ret outputs total inputs =
      (total + sum_inputs (firstn n sp), inputs ++ firstn n sp) /\
      (forall m, (1 <= m < n)%nat -> total + sum_inputs (firstn m sp) <= T) /\
      ((n < length sp)%nat -> T < total + sum_inputs (firstn n sp)).
Proof.
  intros Htarget.
  induction outputs as [|out rest IH]; intros total inputs sp T Ht Hok Hsum.
  - exists 0%nat. simpl. rewrite Z.add_0_r, app_nil_r.
    split; [lia|]. split; [reflexivity|]. split; intros; simpl in *; lia.
  - simpl in sp. simpl.
    destruct (spend out (key.time ret)) as [input|e] eqn:Es.
    + subst sp. apply amounts_ok_tail in Hok. destruct Hok as [Ha Hok].
      simpl in Ha, Hsum. unfold is_uint64 in Ha.
      pose proof (sum_inputs_nonneg _ Hok) as Hnn.
      rewrite (wrap64_small (total + Amount input)) by lia.
      replace (key.targetAmount ret >? 0) with true
        by (symmetry; apply Z.gtb_lt; lia).
      simpl andb. fold T.
      destruct (Z.gtb_spec (total + Amount input) T) as [Hgt|Hle].
      * exists 1%nat. simpl. rewrite Z.add_0_r.
        split; [lia|]. split; [reflexivity|].
        split; [intros m Hm; lia | intros _; lia].
      * destruct (IH (total + Amount input)
                    (inputs ++
                     [mkTransferableInput (utxo_UTXOID out) (utxo_Asset out)
                        input]) ltac:(lia) Hok ltac:(lia))
          as (n & Hn & Hrun & Hbelow & Hstop).
        exists (S n). simpl.
        split; [lia|]. split.
        { rewrite Hrun, <- app_assoc. simpl. rewrite Z.add_assoc.
          reflexivity. }
        split.
        { intros [|[|m]] Hm; [lia | simpl; lia |].
          specialize (Hbelow (S m) ltac:(lia)).
          change (firstn (S (S m)) (?x :: ?l)) with (x :: firstn (S m) l).
          simpl sum_inputs. simpl in Hbelow. lia. }
        { intros Hlt. specialize (Hstop ltac:(lia)). lia. }
    + apply (IH total inputs Ht Hok Hsum).
Qed.

(** X10.  With a positive target amount and no overflow (the amounts the
    key can spend add up to less than 2^64), [Spends] stops as soon as the
    total exceeds the target plus the fee deduction, and not before: it
    spends the shortest prefix of the spendable UTXOs whose total exceeds
    that bound, or all of them when none does. *)
Theorem Spends_stops_at_target (spend : UTXO -> Z -> result TransferableIn)
  (outputs : list UTXO) (opts : list key.OpOption)
  (Htarget : 0 < key.targetAmount (key.applyOpts key.Op0 opts))
  (Hok : amounts_ok
           (spendable spend (key.time (key.applyOpts key.Op0 opts)) outputs))
  (Hsum : sum_inputs
            (spendable spend (key.time (key.applyOpts key.Op0 opts)) outputs)
          < 2 ^ 64) :
  let ret := key.applyOpts key.Op0 opts in
  let sp := spendable spend (key.time ret) outputs in
  let T := wrap64 (key.targetAmount ret + key.feeDeduct ret) in
  exists total inputs n,
    key.Spends_with spend outputs opts = Some (total, inputs) /\
    (n <= length sp)%nat /\
    Permutation (firstn n sp) inputs /\
    total = sum_inputs (firstn n sp) /\
    (forall m, (m < n)%nat -> sum_inputs (firstn m sp) <= T) /\
    (T < sum_inputs sp -> T < total) /\
    (sum_inputs sp <= T -> Permutation sp inputs).
Proof.
  intros ret sp T. unfold key.Spends_with. fold ret.
  assert (H0 : 0 <= 0) by lia.
  assert (Hsum0 : 0 + sum_inputs sp < 2 ^ 64) by (subst sp ret; lia).
  destruct (Spends_loop_target spend ret outputs Htarget 0 [] H0 Hok Hsum0)
    as (n & Hn & Hrun & Hbelow & Hstop).
  fold sp in Hn, Hrun, Hbelow, Hstop. fold T in Hbelow, Hstop.
  rewrite !Z.add_0_l in Hrun. rewrite Z.add_0_l in Hstop.
  rewrite Hrun. simpl.
  destruct (SortTransferableInputs_spec (firstn n sp))
    as (sorted & Hs & Hp & _).
  rewrite Hs. exists (sum_inputs (firstn n sp)), sorted, n.
  assert (HT : 0 <= T) by (apply Z.mod_pos_bound; lia).
  split; [reflexivity|]. split; [exact Hn|]. split; [exact Hp|].
  split; [reflexivity|].
  assert (Hall : (n < length sp)%nat \/ firstn n sp = sp).
  { destruct (Nat.eq_dec n (length sp)) as [->|Hne];
      [right; apply firstn_all | left; lia]. }
  split; [|split].
  - intros [|m] Hm; [simpl; lia|]. apply (Hbelow (S m)). lia.
  - intros Hgt. destruct Hall as [Hlt|Heq];
      [apply (Hstop Hlt) | rewrite Heq; exact Hgt].
  - intros Hle. destruct Hall as [Hlt|Heq].
    + specialize (Hstop Hlt).
      assert (Hok' : amounts_ok sp) by exact Hok.
      assert (Hsplit : sum_inputs sp
                       = sum_inputs (firstn n sp) + sum_inputs (skipn n sp)).
      { rewrite <- sum_inputs_app, firstn_skipn. reflexivity. }
      assert (0 <= sum_inputs (skipn n sp)).
      { apply sum_inputs_nonneg. unfold amounts_ok in *.
        rewrite <- (firstn_skipn n sp) in Hok'.
        apply Forall_app in Hok'. apply Hok'. }
      lia.
    + rewrite Heq in Hp. exact Hp.
Qed.

Lemma Spends_stops_at_target_witness :
  key.HardKey_Spends fixture.hard1
    [fixture.utxo2500; fixture.utxo60; fixture.utxo60]
    [key.WithTargetAmount 2000; key.WithFeeDeduct 100; key.WithTime 100]
  = Some (2500,
          [mkTransferableInput (mkUTXOID fixture.txA 0) fixture.djtxAsset
             (TransferInput 2500 [0])]).
Proof.
  destruct (Spends_stops_at_target (key.hard_spend fixture.hard1)
              [fixture.utxo2500; fixture.utxo60; fixture.utxo60]
              [key.WithTargetAmount 2000; key.WithFeeDeduct 100;
               key.WithTime 100])
    as (total & inputs & n & Hrun & _).
  - simpl. lia.
  - unfold amounts_ok. simpl.
    repeat (constructor; [unfold is_uint64; simpl; lia|]). constructor.
  - simpl. lia.
  - reflexivity.
Defined.

(** ** Sorting what is already sorted *)

(** X11.  On two lists of the same length whose inputs have pairwise
    distinct sources, the coupled sort leaves inputs that are already
    ascending, and their signers, as they are (whatever exchanges the
    library makes on the way); and applying it to its own result changes
    nothing. *)
Theorem SortTransferableInputsWithSigners_sorted
  (ins : list TransferableInput) (signers : list (list ShortID))
  (Hlen : length ins = length signers)
  (Hnd : NoDup (map in_UTXOID ins)) :
  (StronglySorted source_le ins ->
   key.SortTransferableInputsWithSigners ins signers = Some (ins, signers))
  /\
  (forall ins' signers',
     key.SortTransferableInputsWithSigners ins signers
     = Some (ins', signers') ->
     key.SortTransferableInputsWithSigners ins' signers'
     = Some (ins', signers')).
Proof.
  assert (Fix : forall i s,
            length i = length s -> NoDup (map in_UTXOID i) ->
            StronglySorted source_le i ->
            key.SortTransferableInputsWithSigners i s = Some (i, s)).
  { intros i s Hl Hn Hs.
    destruct (SortTransferableInputsWithSigners_spec i s Hl)
      as (i' & s' & Hr & Hl' & Hp & Hs').
    rewrite Hr.
    destruct (canonical_order i i' s s' Hl Hl' Hn Hs Hs') as [-> ->];
      [symmetry; exact Hp | reflexivity]. }
  split; [apply Fix; assumption|].
  intros ins' signers' Hrun.
  destruct (SortTransferableInputsWithSigners_spec ins signers Hlen)
    as (i' & s' & Hr & Hl' & _ & Hs').
  rewrite Hrun in Hr. injection Hr as <- <-.
  apply Fix; [exact Hl' | | exact Hs'].
  destruct (coupled_sort_inputs _ _ _ _ Hrun) as [Hp _].
  eapply Permutation_NoDup; [apply Permutation_map; exact Hp | exact Hnd].
Qed.

Lemma SortTransferableInputsWithSigners_sorted_witness :
  key.SortTransferableInputsWithSigners
    [mkTransferableInput (mkUTXOID fixture.txA 0) fixture.djtxAsset
       (TransferInput 1 [0]);
     mkTransferableInput (mkUTXOID fixture.txB 1) fixture.djtxAsset
       (TransferInput 2 [0])]
    [[fixture.addr1]; [fixture.addr2]]
  = Some
      ([mkTransferableInput (mkUTXOID fixture.txA 0) fixture.djtxAsset
          (TransferInput 1 [0]);
        mkTransferableInput (mkUTXOID fixture.txB 1) fixture.djtxAsset
          (TransferInput 2 [0])],
       [[fixture.addr1]; [fixture.addr2]]).
Proof.
  apply SortTransferableInputsWithSigners_sorted.
  - reflexivity.
  - repeat constructor; simpl; intuition discriminate.
  - repeat constructor.
Defined.

(** ** The coin selection of [stake] *)

Section Selections.

Variable pc : client.p.
Variable k : Key.
Variable ret : client.Op.
Variables now fee : Z.

Variable Inv : client.Selection -> Prop.

(** An invariant of the iterations that take an input is an invariant of
    the first loop... *)
Lemma stake_pass1_inv :
  (forall st lockTime owners in_ sg,
     Inv st -> now < lockTime ->
     Inv (pass1_step pc ret st lockTime owners in_ sg)) ->
  forall utxos st,
    Inv st -> Inv (client.stake_pass1 pc k ret now utxos st).
Proof.
  intros Hstep. induction utxos as [|utxo rest IH]; intros st Hst; simpl.
  - exact Hst.
  - destruct (_ >=? _); [exact Hst|].
    destruct (negb _); [apply IH; exact Hst|].
    destruct (Out utxo) as [o|amt o|lockTime inner|tag];
      try (apply IH; exact Hst).
    destruct (Z.leb_spec lockTime now) as [Hle|Hgt]; [apply IH; exact Hst|].
    destruct inner as [o|amt owners|lt2 inner2|tag];
      try (apply IH; exact Hst).
    destruct (Spends k [utxo] [key.WithTime now]) as [[t inputs] sg].
    destruct inputs as [|in_ inputs]; [apply IH; exact Hst|].
    apply IH. apply (Hstep st lockTime owners in_ sg Hst Hgt).
Qed.

(** ... and of the second. *)
Lemma stake_pass2_inv :
  (forall st in_ sg, Inv st -> Inv (pass2_step pc ret fee st in_ sg)) ->
  forall utxos st,
    Inv st -> Inv (fst (client.stake_pass2 pc k ret now fee utxos st)).
Proof.
  intros Hstep. induction utxos as [|utxo rest IH]; intros st Hst; simpl.
  - exact Hst.
  - destruct (_ && _); [exact Hst|].
    destruct (negb _).
    { specialize (IH st Hst).
      destruct (client.stake_pass2 pc k ret now fee rest st); exact IH. }
    destruct (client.unwrap now utxo) as [utxo'|].
    2:{ specialize (IH st Hst).
        destruct (client.stake_pass2 pc k ret now fee rest st); exact IH. }
    destruct (Spends k [utxo'] [key.WithTime now]) as [[t inputs] sg].
    destruct inputs as [|in_ inputs].
    { specialize (IH st Hst).
      destruct (client.stake_pass2 pc k ret now fee rest st); exact IH. }
    specialize (IH _ (Hstep st in_ sg Hst)). unfold pass2_step in IH.
    match goal with
    | |- context [client.stake_pass2 pc k ret now fee rest ?st1] =>
        destruct (client.stake_pass2 pc k ret now fee rest st1)
    end.
    exact IH.
Qed.

End Selections.

(** What [stake] returns after the two loops: nothing with an error, or
    the three lists of the selection, sorted. *)
Lemma stake_utxos_inv (pc : client.p) (cd : Codec) (k : Key) (fee : Z)
  (ret : client.Op) (utxos : list UTXO) (r : client.StakeReturn) :
  client.stake_utxos pc cd k fee ret utxos = Some r ->
  let st := fst (client.stake_pass2 pc k ret (client.now_stake pc) fee utxos
                   (client.stake_pass1 pc k ret (client.now_stake pc) utxos
                      client.Selection0)) in
  (client.r_ins r = [] /\ client.r_returnedOuts r = [] /\
   client.r_stakedOuts r = []) \/
  (Permutation (client.sel_ins st) (client.r_ins r) /\
   Permutation (client.sel_returnedOuts st) (client.r_returnedOuts r) /\
   Permutation (client.sel_stakedOuts st) (client.r_stakedOuts r)).
Proof.
  unfold client.stake_utxos. cbv zeta.
  destruct (client.stake_pass2 pc k ret (client.now_stake pc) fee utxos _)
    as [st utxos'].
  cbn [fst].
  destruct (_ && _); [intros E; injection E as <-; left; auto|].
  destruct (_ && _); [intros E; injection E as <-; left; auto|].
  destruct (key.SortTransferableInputsWithSigners _ _) as [[ins sg]|] eqn:Ei;
    [|discriminate].
  destruct (client.SortTransferableOutputs cd (client.sel_returnedOuts st))
    as [ro|] eqn:Er; [|discriminate].
  destruct (client.SortTransferableOutputs cd (client.sel_stakedOuts st))
    as [so|] eqn:Es; [|discriminate].
  intros E. injection E as <-. right. cbn.
  split; [apply (coupled_sort_inputs _ _ _ _ Ei)|].
  split; apply (SortTransferableOutputs_perm cd); assumption.
Qed.

Lemma shape_step1 (pc : client.p) (ret : client.Op) (now : Z)
  (st : client.Selection) (lockTime : Z) (owners : OutputOwners)
  (in_ : TransferableInput) (sg : list (list ShortID)) :
  Forall (is_change pc (client.changeAddr ret)) (client.sel_returnedOuts st) /\
  Forall (fun o => is_change pc (client.changeAddr ret) o \/
                   is_relock pc now o) (client.sel_stakedOuts st) ->
  now < lockTime ->
  let st' := pass1_step pc ret st lockTime owners in_ sg in
  Forall (is_change pc (client.changeAddr ret)) (client.sel_returnedOuts st') /\
  Forall (fun o => is_change pc (client.changeAddr ret) o \/
                   is_relock pc now o) (client.sel_stakedOuts st').
Proof.
  intros [Hr Hs] Hlt. unfold pass1_step. cbn. split.
  - destruct (Z.gtb_spec (wrap64 (Amount (in_In in_) -
       Min64 (wrap64 (client.stakeAmt ret - client.amountStaked st))
         (Amount (in_In in_)))) 0) as [Hpos|_]; [|exact Hr].
    apply Forall_app. split; [exact Hr|].
    constructor; [|constructor]. eexists. split; [exact Hpos | reflexivity].
  - apply Forall_app. split; [exact Hs|].
    constructor; [|constructor]. right.
    eexists _, _, _. split; [exact Hlt | reflexivity].
Qed.

Lemma shape_step2 (pc : client.p) (ret : client.Op) (now fee : Z)
  (st : client.Selection) (in_ : TransferableInput)
  (sg : list (list ShortID)) :
  Forall (is_change pc (client.changeAddr ret)) (client.sel_returnedOuts st) /\
  Forall (fun o => is_change pc (client.changeAddr ret) o \/
                   is_relock pc now o) (client.sel_stakedOuts st) ->
  let st' := pass2_step pc ret fee st in_ sg in
  Forall (is_change pc (client.changeAddr ret)) (client.sel_returnedOuts st') /\
  Forall (fun o => is_change pc (client.changeAddr ret) o \/
                   is_relock pc now o) (client.sel_stakedOuts st').
Proof.
  intros [Hr Hs]. unfold pass2_step. cbn. split.
  - match goal with
    | |- context [if ?v >? 0 then _ else _] =>
        destruct (Z.gtb_spec v 0) as [Hpos|_]; [|exact Hr]
    end.
    apply Forall_app. split; [exact Hr|].
    constructor; [|constructor]. eexists. split; [exact Hpos | reflexivity].
  - match goal with
    | |- context [if ?v >? 0 then _ else _] =>
        destruct (Z.gtb_spec v 0) as [Hpos|_]; [|exact Hs]
    end.
    apply Forall_app. split; [exact Hs|].
    constructor; [|constructor]. left.
    eexists. split; [exact Hpos | reflexivity].
Qed.

(** X12.  What [stake] hands out: every returned (change) output is a
    plain transfer of a positive amount of the client's asset to the
    change address, with threshold 1 and no lock time; every staked output
    is either such a transfer to the change address (staked from an
    unlocked output) or an output locked again until its former lock time,
    which lies in the future.  The change address is the one of the
    options or, without one, the first address of the key. *)
Theorem stake_outputs_shape (pc : client.p) (cd : Codec) (k : Key) (fee : Z)
  (opts : list client.OpOption) (t : list client.Event)
  (r : client.StakeReturn)
  (Hrun : client.stake pc cd k fee opts = (t, Some r)) :
  exists c,
    effective_change k (client.applyOpts client.Op0 opts) c /\
    Forall (is_change pc c) (client.r_returnedOuts r) /\
    Forall (fun o => is_change pc c o \/ is_relock pc (client.now_stake pc) o)
      (client.r_stakedOuts r).
Proof.
  destruct (stake_inv pc cd k fee opts t (Some r) Hrun)
    as [(_ & E & _) | (ret & _ & _ & Hc & Ho)]; [discriminate|].
  exists (client.changeAddr ret). split; [exact Hc|].
  assert (Hfail : forall e,
            Some r = Some (client.stake_fail e []) ->
            Forall (is_change pc (client.changeAddr ret))
              (client.r_returnedOuts r) /\
            Forall (fun o => is_change pc (client.changeAddr ret) o \/
                             is_relock pc (client.now_stake pc) o)
              (client.r_stakedOuts r)).
  { intros e E. injection E as ->. split; constructor. }
  destruct (client.cli_GetAtomicUTXOs pc (P k)) as [ubs|e];
    [|apply (Hfail e Ho)].
  destruct (client.parse_utxos cd ubs) as [utxos|e]; [|apply (Hfail e Ho)].
  symmetry in Ho. apply stake_utxos_inv in Ho. cbv zeta in Ho.
  destruct Ho as [(_ & -> & ->) | (_ & Hpr & Hps)]; [split; constructor|].
  pose proof
    (stake_pass2_inv pc k ret (client.now_stake pc) fee _
       (fun st in_ sg H => shape_step2 pc ret (client.now_stake pc) fee
                             st in_ sg H)
       utxos _
       (stake_pass1_inv pc k ret (client.now_stake pc) _
          (fun st lt ow in_ sg H Hlt =>
             shape_step1 pc ret (client.now_stake pc) st lt ow in_ sg H Hlt)
          utxos client.Selection0 (conj (Forall_nil _) (Forall_nil _))))
    as [Hr Hs].
  split.
  - apply (Permutation_Forall Hpr Hr).
  - apply (Permutation_Forall Hps Hs).
Qed.

Lemma stake_outputs_shape_witness :
  exists r,
    client.stake fixture.nodeB fixture.cdB fixture.keyB 100
      [client.WithStakeAmount 2000] = ([client.EvGetAtomicUTXOs], Some r) /\
    Forall (is_change fixture.nodeB fixture.addr1) (client.r_returnedOuts r).
Proof.
  eexists. split; [vm_compute; reflexivity|].
  match goal with
  | |- Forall _ (client.r_returnedOuts ?r) =>
      assert (Hrun : client.stake fixture.nodeB fixture.cdB fixture.keyB 100
                       [client.WithStakeAmount 2000]
                     = ([client.EvGetAtomicUTXOs], Some r))
        by (vm_compute; reflexivity);
      destruct (stake_outputs_shape _ _ _ _ _ _ _ Hrun) as (c & Hc & Hr & _)
  end.
  unfold effective_change in Hc. simpl in Hc. injection Hc as <-.
  exact Hr.
Defined.

Lemma Min64_zero_wrap64 (v : Z) : Min64 0 (wrap64 v) = 0.
Proof.
  unfold Min64.
  assert (Hb : 0 <= wrap64 v < 2 ^ 64) by (apply Z.mod_pos_bound; lia).
  destruct (Z.ltb_spec 0 (wrap64 v)) as [H|H]; [reflexivity | lia].
Qed.

(** X13.  Without a stake amount (as in the operations that only pay a
    fee, which call [stake] without options), [stake] stakes nothing: the
    list of staked outputs it returns is empty. *)
Theorem stake_without_stake_amount (pc : client.p) (cd : Codec) (k : Key)
  (fee : Z) (opts : list client.OpOption) (t : list client.Event)
  (r : client.StakeReturn)
  (Hzero : client.stakeAmt (client.applyOpts client.Op0 opts) = 0)
  (Hrun : client.stake pc cd k fee opts = (t, Some r)) :
  client.r_stakedOuts r = [].
Proof.
  destruct (stake_inv pc cd k fee opts t (Some r) Hrun)
    as [(_ & E & _) | (ret & _ & HS & _ & Ho)]; [discriminate|].
  rewrite Hzero in HS.
  destruct (client.cli_GetAtomicUTXOs pc (P k)) as [ubs|e];
    [|injection Ho as ->; reflexivity].
  destruct (client.parse_utxos cd ubs) as [utxos|e];
    [|injection Ho as ->; reflexivity].
  symmetry in Ho. apply stake_utxos_inv in Ho. cbv zeta in Ho.
  destruct Ho as [(_ & _ & ->) | (_ & _ & Hps)]; [reflexivity|].
  rewrite (stake_pass1_no_target pc k ret (client.now_stake pc) HS) in Hps
    by reflexivity.
  pose proof
    (stake_pass2_inv pc k ret (client.now_stake pc) fee
       (fun st => client.amountStaked st = 0 /\ client.sel_stakedOuts st = []))
    as Hinv.
  destruct (Hinv) with (utxos := utxos) (st := client.Selection0)
    as [_ Hnil].
  - intros st in_ sg [H0 Hn]. unfold pass2_step. cbn. rewrite H0, HS, Hn.
    change (wrap64 (0 - 0)) with 0.
    rewrite Min64_zero_wrap64. split; reflexivity.
  - split; reflexivity.
  - rewrite Hnil in Hps. apply Permutation_nil in Hps. exact Hps.
Qed.

Lemma stake_without_stake_amount_witness :
  exists r,
    client.stake fixture.nodeB fixture.cdB fixture.keyB 100 []
    = ([client.EvGetAtomicUTXOs], Some r) /\
    client.r_err r = None /\ client.r_stakedOuts r = [].
Proof.
  eexists. split; [vm_compute; reflexivity|]. split; [reflexivity|].
  match goal with
  | |- client.r_stakedOuts ?r = [] =>
      apply (stake_without_stake_amount fixture.nodeB fixture.cdB
               fixture.keyB 100 [] [client.EvGetAtomicUTXOs] r eq_refl);
        vm_compute; reflexivity
  end.
Defined.

Section Counting.

Variable pc : client.p.
Variable k : Key.
Variable ret : client.Op.
Variables now fee : Z.

Let mine (u : UTXO) : bool := bytes_eqb (utxo_Asset u) (client.assetID pc).

(** The first loop takes inputs from locked outputs of the client's asset
    only, at most one from each... *)
Lemma stake_pass1_count (utxos : list UTXO) :
  forall st,
    (length (client.sel_ins (client.stake_pass1 pc k ret now utxos st))
     <= length (client.sel_ins st)
        + length (filter (fun u => mine u && locked now u) utxos))%nat.
Proof.
  induction utxos as [|utxo rest IH]; intros st; simpl; [lia|].
  destruct (_ >=? _); [lia|].
  unfold mine at 1. unfold locked at 1.
  destruct (bytes_eqb (utxo_Asset utxo) (client.assetID pc)); simpl;
    [|apply IH].
  destruct (Out utxo) as [o|amt o|lockTime inner|tag]; try apply IH.
  rewrite Z.gtb_ltb, Z.leb_antisym.
  destruct (now <? lockTime); simpl; [|apply IH].
  destruct inner as [o|amt owners|lt2 inner2|tag];
    try (etransitivity; [apply IH | lia]).
  destruct (Spends k [utxo] [key.WithTime now]) as [[t inputs] sg].
  destruct inputs as [|in_ inputs]; [etransitivity; [apply IH | lia]|].
  etransitivity; [apply IH|]. simpl. rewrite length_app. simpl. lia.
Qed.

(** ... and the second from the others. *)
Lemma stake_pass2_count (utxos : list UTXO) :
  forall st,
    (length (client.sel_ins
               (fst (client.stake_pass2 pc k ret now fee utxos st)))
     <= length (client.sel_ins st)
        + length (filter (fun u => mine u && negb (locked now u)) utxos))%nat.
Proof.
  induction utxos as [|utxo rest IH]; intros st; simpl; [lia|].
  destruct (_ && _); [simpl; lia|].
  unfold mine at 1.
  destruct (bytes_eqb (utxo_Asset utxo) (client.assetID pc)); simpl.
  2:{ specialize (IH st).
      destruct (client.stake_pass2 pc k ret now fee rest st); exact IH. }
  unfold client.unwrap, locked.
  assert (Skip : (length (client.sel_ins
                    (fst (let '(st', rest') :=
                            client.stake_pass2 pc k ret now fee rest st in
                          (st', utxo :: rest'))))
                  <= length (client.sel_ins st) +
                     length (filter (fun u => mine u && negb (locked now u))
                               rest))%nat).
  { specialize (IH st).
    destruct (client.stake_pass2 pc k ret now fee rest st); exact IH. }
  assert (Take : forall utxo',
            (length (client.sel_ins
               (fst (let '(_, inputs, inputSigners) :=
                       Spends k [utxo'] [key.WithTime now] in
                     match inputs with
                     | [] =>
                         let '(st', rest') :=
                           client.stake_pass2 pc k ret now fee rest st in
                         (st', utxo' :: rest')
                     | in_ :: _ =>
                         let '(st', rest') :=
                           client.stake_pass2 pc k ret now fee rest
                             (pass2_step pc ret fee st in_ inputSigners) in
                         (st', utxo' :: rest')
                     end)))
             <= length (client.sel_ins st) +
                S (length (filter (fun u => mine u && negb (locked now u))
                             rest)))%nat).
  { intros utxo'.
    destruct (Spends k [utxo'] [key.WithTime now]) as [[t inputs] sg].
    destruct inputs as [|in_ inputs].
    - specialize (IH st).
      destruct (client.stake_pass2 pc k ret now fee rest st).
      simpl in *. lia.
    - specialize (IH (pass2_step pc ret fee st in_ sg)).
      destruct (client.stake_pass2 pc k ret now fee rest
                  (pass2_step pc ret fee st in_ sg)).
      simpl in *. rewrite length_app in IH. simpl in IH. lia. }
  unfold pass2_step in Take.
  destruct (Out utxo) as [o|amt o|lockTime inner|tag]; simpl;
    try apply Take.
  destruct (lockTime >? now); simpl; [exact Skip | apply Take].
Qed.

Lemma filter_locked_split (utxos : list UTXO) :
  (length (filter (fun u => mine u && locked now u) utxos)
   + length (filter (fun u => mine u && negb (locked now u)) utxos)
   = length (filter mine utxos))%nat.
Proof.
  induction utxos as [|u rest IH]; simpl; [reflexivity|].
  destruct (mine u); simpl; [|exact IH].
  destruct (locked now u); simpl; lia.
Qed.

End Counting.

(** X14.  [stake] spends no UTXO twice and makes no output from nothing:
    the inputs it returns are at most as many as the fetched UTXOs of the
    client's asset (the first loop draws on the outputs still locked, the
    second on the others), and it returns at most one change output and at
    most one staked output per input. *)
Theorem stake_one_input_per_utxo (pc : client.p) (cd : Codec) (k : Key)
  (fee : Z) (opts : list client.OpOption) (t : list client.Event)
  (r : client.StakeReturn) (ubs : list (list byte)) (utxos : list UTXO)
  (Hrun : client.stake pc cd k fee opts = (t, Some r))
  (Hfetch : client.cli_GetAtomicUTXOs pc (P k) = Ok ubs)
  (Hparse : client.parse_utxos cd ubs = Ok utxos) :
  (length (client.r_ins r)
   <= length (filter (fun u => bytes_eqb (utxo_Asset u) (client.assetID pc))
                utxos))%nat /\
  (length (client.r_returnedOuts r) <= length (client.r_ins r))%nat /\
  (length (client.r_stakedOuts r) <= length (client.r_ins r))%nat.
Proof.
  destruct (stake_run_inv pc cd k fee opts t r ubs utxos Hrun Hfetch Hparse)
    as (ret & Hu).
  apply stake_utxos_inv in Hu. cbv zeta in Hu.
  destruct Hu as [(-> & -> & ->) | (Hpi & Hpr & Hps)];
    [simpl; repeat split; lia|].
  rewrite <- (Permutation_length Hpi), <- (Permutation_length Hpr),
    <- (Permutation_length Hps).
  set (now := client.now_stake pc) in *.
  split.
  - pose proof (stake_pass2_count pc k ret now fee utxos
                  (client.stake_pass1 pc k ret now utxos client.Selection0))
      as H2.
    pose proof (stake_pass1_count pc k ret now utxos client.Selection0) as H1.
    pose proof (filter_locked_split pc now utxos) as H3.
    simpl in H1. lia.
  - pose proof
      (stake_pass2_inv pc k ret now fee
         (fun st =>
            (length (client.sel_returnedOuts st)
             <= length (client.sel_ins st))%nat /\
            (length (client.sel_stakedOuts st)
             <= length (client.sel_ins st))%nat)) as Hinv2.
    apply Hinv2.
    + intros st in_ sg [Hr Hs]. unfold pass2_step. cbn.
      rewrite length_app. simpl.
      split;
        match goal with
        | |- context [if ?c then _ else _] => destruct c
        end; rewrite ?length_app; simpl; lia.
    + apply (stake_pass1_inv pc k ret now
               (fun st =>
                  (length (client.sel_returnedOuts st)
                   <= length (client.sel_ins st))%nat /\
                  (length (client.sel_stakedOuts st)
                   <= length (client.sel_ins st))%nat)).
      * intros st lt ow in_ sg [Hr Hs] _. unfold pass1_step. cbn.
        rewrite !length_app. simpl.
        split; [|lia].
        match goal with
        | |- context [if ?c then _ else _] => destruct c
        end; rewrite ?length_app; simpl; lia.
      * simpl. split; lia.
Qed.

Lemma stake_one_input_per_utxo_witness :
  exists r,
    client.stake fixture.nodeB fixture.cdB fixture.keyB 100
      [client.WithStakeAmount 2000] = ([client.EvGetAtomicUTXOs], Some r) /\
    (length (client.r_ins r) <= 1)%nat.
Proof.
  eexists. split; [vm_compute; reflexivity|].
  match goal with
  | |- (length (client.r_ins ?r) <= 1)%nat =>
      destruct (stake_one_input_per_utxo fixture.nodeB fixture.cdB
                  fixture.keyB 100 [client.WithStakeAmount 2000]
                  [client.EvGetAtomicUTXOs] r [[x00]] [fixture.utxo2500])
        as (H & _)
  end.
  - vm_compute. reflexivity.
  - reflexivity.
  - reflexivity.
  - exact H.
Defined.

(** ** Looking up a validator *)

Lemma GetValidator_snd (pc : client.p) (rsubnetID : ID) (nodeID : ShortID) :
  client.GetValidator pc rsubnetID nodeID =
  ([client.EvGetCurrentValidators (lookup_subnet pc rsubnetID) nodeID],
   Some
     (vs <- client.cli_GetCurrentValidators pc (lookup_subnet pc rsubnetID)
              [nodeID] ;;
      if (length vs <? 1)%nat then Err ErrValidatorNotFound
      else
        found <- client.find_validator pc nodeID vs ;;
        match found with
        | None => Err ErrValidatorNotFound
        | Some validator =>
            match client.lookup "startTime" validator with
            | Some (client.JString d) =>
                dv <- client.ParseInt d ;;
                match client.lookup "endTime" validator with
                | Some (client.JString d') =>
                    dv' <- client.ParseInt d' ;;
                    Ok (client.time_Unix dv 0, client.time_Unix dv' 0)
                | _ => Err ErrInvalidValidatorData
                end
            | _ => Err ErrInvalidValidatorData
            end
        end)).
Proof.
  unfold client.GetValidator, lookup_subnet.
  destruct (bytes_eqb rsubnetID client.Empty); reflexivity.
Qed.

Lemma find_validator_skip (pc : client.p) (nodeID : ShortID)
  (pre rest : list client.JSON) :
  Forall (other_node pc nodeID) pre ->
  client.find_validator pc nodeID (pre ++ rest)
  = client.find_validator pc nodeID rest.
Proof.
  induction 1 as [|v pre (va & s & -> & Hl & Hs) _ IH]; [reflexivity|].
  simpl. rewrite Hl.
  apply String.eqb_neq in Hs. rewrite Hs. exact IH.
Qed.

Lemma find_validator_spec (pc : client.p) (nodeID : ShortID)
  (vs : list client.JSON) :
  match client.find_validator pc nodeID vs with
  | Ok None => Forall (other_node pc nodeID) vs
  | Ok (Some va) =>
      exists pre post,
        vs = pre ++ client.JObject va :: post /\
        Forall (other_node pc nodeID) pre /\
        client.lookup "nodeID" va
        = Some (client.JString (client.PrefixedString pc nodeID))
  | Err e =>
      exists pre bad post,
        vs = pre ++ bad :: post /\
        Forall (other_node pc nodeID) pre /\ malformed bad /\
        errors_Is e ErrInvalidValidatorData = true /\
        errors_Is e ErrValidatorNotFound = false
  end.
Proof.
  induction vs as [|v rest IH]; simpl; [constructor|].
  destruct v as [va|].
  - destruct (client.lookup "nodeID" va) as [[s|]|] eqn:El.
    + destruct (String.eqb_spec s (client.PrefixedString pc nodeID))
        as [->|Hne].
      * exists [], rest. split; [reflexivity|]. split; [constructor | exact El].
      * assert (Ho : other_node pc nodeID (client.JObject va))
          by (exists va, s; auto).
        destruct (client.find_validator pc nodeID rest) as [[va'|]|e].
        -- destruct IH as (pre & post & -> & Hp & Hl).
           exists (client.JObject va :: pre), post.
           split; [reflexivity|]. split; [constructor; assumption | exact Hl].
        -- constructor; assumption.
        -- destruct IH as (pre & bad & post & -> & Hp & Hb & He).
           exists (client.JObject va :: pre), bad, post.
           split; [reflexivity|]. split; [constructor; assumption|].
           split; assumption.
    + exists [], (client.JObject va), rest.
      split; [reflexivity|]. split; [constructor|].
      split; [simpl; rewrite El; exact I|]. split; reflexivity.
    + exists [], (client.JObject va), rest.
      split; [reflexivity|]. split; [constructor|].
      split; [simpl; rewrite El; exact I|]. split; reflexivity.
  - exists [], client.JNotObject, rest.
    split; [reflexivity|]. split; [constructor|].
    split; [exact I|]. split; reflexivity.
Qed.

(** X15.  [GetValidator] returns a validation period exactly when the
    node's answer holds a record of the node ID, preceded only by
    well-formed records of other nodes, whose start and end times are
    strings of decimal seconds; the period returned is that of this first
    record, as instants at these seconds. *)
Theorem GetValidator_found (pc : client.p) (rsubnetID : ID)
  (nodeID : ShortID) (start end_ : client.Time) :
  snd (client.GetValidator pc rsubnetID nodeID) = Some (Ok (start, end_))
  <->
  exists pre va post ds de s e,
    client.cli_GetCurrentValidators pc (lookup_subnet pc rsubnetID) [nodeID]
    = Ok (pre ++ client.JObject va :: post) /\
    Forall (other_node pc nodeID) pre /\
    client.lookup "nodeID" va
    = Some (client.JString (client.PrefixedString pc nodeID)) /\
    client.lookup "startTime" va = Some (client.JString ds) /\
    client.ParseInt ds = Ok s /\
    client.lookup "endTime" va = Some (client.JString de) /\
    client.ParseInt de = Ok e /\
    start = client.time_Unix s 0 /\ end_ = client.time_Unix e 0.
Proof.
  rewrite GetValidator_snd. cbn [snd]. split.
  - intros H. injection H as H.
    destruct (client.cli_GetCurrentValidators pc _ [nodeID]) as [vs|err];
      [|discriminate].
    cbn [bind] in H.
    destruct (length vs <? 1)%nat; [discriminate|].
    pose proof (find_validator_spec pc nodeID vs) as Hf.
    destruct (client.find_validator pc nodeID vs) as [[va|]|err];
      [|discriminate|discriminate].
    cbn [bind] in H. destruct Hf as (pre & post & -> & Hp & Hn).
    destruct (client.lookup "startTime" va) as [[ds|]|] eqn:Es;
      try discriminate.
    destruct (client.ParseInt ds) as [s|] eqn:Eps; [|discriminate].
    cbn [bind] in H.
    destruct (client.lookup "endTime" va) as [[de|]|] eqn:Ee;
      try discriminate.
    destruct (client.ParseInt de) as [e|] eqn:Epe; [|discriminate].
    cbn [bind] in H. injection H as <- <-.
    exists pre, va, post, ds, de, s, e. repeat (split; [auto; fail|]).
    reflexivity.
  - intros (pre & va & post & ds & de & s & e & Hc & Hp & Hn & Hs & Hps
            & He & Hpe & -> & ->).
    rewrite Hc. cbn [bind].
    replace (length (pre ++ client.JObject va :: post) <? 1)%nat with false
      by (symmetry; apply Nat.ltb_ge; rewrite length_app; simpl; lia).
    rewrite (find_validator_skip pc nodeID pre _ Hp).
    simpl client.find_validator. rewrite Hn, String.eqb_refl.
    cbn [bind]. rewrite Hs, Hps. cbn [bind]. rewrite He, Hpe. reflexivity.
Qed.

(** X16.  When the node answers, [GetValidator] reports the validator as
    not found exactly when the answer is empty or holds well-formed
    records of other nodes only. *)
Theorem GetValidator_not_found (pc : client.p) (rsubnetID : ID)
  (nodeID : ShortID) (vs : list client.JSON)
  (Hanswer : client.cli_GetCurrentValidators pc (lookup_subnet pc rsubnetID)
               [nodeID] = Ok vs) :
  snd (client.GetValidator pc rsubnetID nodeID)
  = Some (Err ErrValidatorNotFound)
  <-> Forall (other_node pc nodeID) vs.
Proof.
  rewrite GetValidator_snd, Hanswer. cbn [snd bind].
  pose proof (find_validator_spec pc nodeID vs) as Hf.
  split.
  - intros H. injection H as H.
    destruct vs as [|v vs']; [constructor|].
    change (length (v :: vs') <? 1)%nat with false in H. cbv iota in H.
    destruct (client.find_validator pc nodeID (v :: vs')) as [[va|]|err].
    + cbn [bind] in H.
      destruct (client.lookup "startTime" va) as [[ds|]|];
        try discriminate.
      destruct (client.ParseInt ds) as [s|] eqn:Es.
      * cbn [bind] in H.
        destruct (client.lookup "endTime" va) as [[de|]|];
          try discriminate.
        destruct (client.ParseInt de) as [e|] eqn:Ee; [discriminate|].
        cbn [bind] in H. injection H as ->.
        unfold client.ParseInt in Ee.
        destruct (match de with
                  | String.String "+"%char rest => (false, rest)
                  | String.String "-"%char rest => (true, rest)
                  | _ => (false, de)
                  end) as [neg body].
        destruct body; [discriminate|].
        destruct (client.parse_digits _ 0); [|discriminate].
        destruct (_ && _); discriminate.
      * cbn [bind] in H. injection H as ->.
        unfold client.ParseInt in Es.
        destruct (match ds with
                  | String.String "+"%char rest => (false, rest)
                  | String.String "-"%char rest => (true, rest)
                  | _ => (false, ds)
                  end) as [neg body].
        destruct body; [discriminate|].
        destruct (client.parse_digits _ 0); [|discriminate].
        destruct (_ && _); discriminate.
    + exact Hf.
    + cbn [bind] in H. injection H as ->.
      destruct Hf as (_ & _ & _ & _ & _ & _ & He & _). discriminate.
  - intros Hall. destruct vs as [|v vs']; [reflexivity|].
    change (length (v :: vs') <? 1)%nat with false. cbv iota.
    pose proof (find_validator_skip pc nodeID (v :: vs') [] Hall) as Hs.
    rewrite app_nil_r in Hs. rewrite Hs. reflexivity.
Qed.

Lemma GetValidator_not_found_witness :
  snd (client.GetValidator fixture.nodeUp fixture.subnetX fixture.nodeN)
  = Some (Err ErrValidatorNotFound).
Proof.
  apply (GetValidator_not_found fixture.nodeUp fixture.subnetX fixture.nodeN
           [] eq_refl).
  constructor.
Defined.

(** X17.  A record that is not an object, or whose node ID is not a
    string, makes [GetValidator] fail with the invalid-data error (and not
    with not-found) when only records of other nodes precede it, even if a
    record of the node follows; so does a record of the node whose start
    time is not a string, or whose start time is a number and whose end
    time is not a string. *)
Theorem GetValidator_invalid_data (pc : client.p) (rsubnetID : ID)
  (nodeID : ShortID) (pre post : list client.JSON) (v : client.JSON)
  (Hanswer : client.cli_GetCurrentValidators pc (lookup_subnet pc rsubnetID)
               [nodeID] = Ok (pre ++ v :: post))
  (Hpre : Forall (other_node pc nodeID) pre)
  (Hbad : malformed v \/
          exists va,
            v = client.JObject va /\
            client.lookup "nodeID" va
            = Some (client.JString (client.PrefixedString pc nodeID)) /\
            bad_times va) :
  exists e,
    snd (client.GetValidator pc rsubnetID nodeID) = Some (Err e) /\
    errors_Is e ErrInvalidValidatorData = true /\
    errors_Is e ErrValidatorNotFound = false.
Proof.
  rewrite GetValidator_snd, Hanswer. cbn [snd bind].
  replace (length (pre ++ v :: post) <? 1)%nat with false
    by (symmetry; apply Nat.ltb_ge; rewrite length_app; simpl; lia).
  rewrite (find_validator_skip pc nodeID pre _ Hpre).
  destruct Hbad as [Hbad | (va & -> & Hn & Ht)].
  - destruct v as [va|]; simpl.
    + simpl in Hbad.
      destruct (client.lookup "nodeID" va) as [[s|]|]; [contradiction| |];
        (eexists; split; [reflexivity | split; reflexivity]).
    + eexists; split; [reflexivity | split; reflexivity].
  - simpl client.find_validator. rewrite Hn, String.eqb_refl. cbn [bind].
    destruct Ht as [Hs | (ds & s & Hs & Hp & He)].
    + destruct (client.lookup "startTime" va) as [[ds|]|] eqn:Es;
        try (eexists; split; [reflexivity | split; reflexivity]).
      exfalso. apply (Hs ds). reflexivity.
    + rewrite Hs, Hp. cbn [bind].
      destruct (client.lookup "endTime" va) as [[de|]|] eqn:Ee;
        try (eexists; split; [reflexivity | split; reflexivity]).
      exfalso. apply (He de). reflexivity.
Qed.

Lemma GetValidator_invalid_data_witness :
  exists e,
    snd (client.GetValidator
           (fixture.nodeOf 0 100 100
              (fun _ _ => Ok [client.JNotObject;
                              client.JObject
                                [("nodeID"%string,
                                  client.JString "NodeID-1")]]))
           fixture.subnetX fixture.nodeN) = Some (Err e) /\
    errors_Is e ErrValidatorNotFound = false.
Proof.
  destruct (GetValidator_invalid_data
              (fixture.nodeOf 0 100 100
                 (fun _ _ => Ok [client.JNotObject;
                                 client.JObject
                                   [("nodeID"%string,
                                     client.JString "NodeID-1")]]))
              fixture.subnetX fixture.nodeN []
              [client.JObject
                 [("nodeID"%string, client.JString "NodeID-1")]]
              client.JNotObject eq_refl (Forall_nil _) (or_introl I))
    as (e & H1 & _ & H2).
  exists e. split; assumption.
Defined.

(** ** Issuing a transaction *)

Lemma bindM_inv {A B : Type} (m : client.M A) (k : A -> client.M B)
  (t : list client.Event) (o : option B) :
  client.bindM m k = (t, o) ->
  (m = (t, None) /\ o = None) \/
  (exists t1 a t2, m = (t1, Some a) /\ k a = (t2, o) /\ t = t1 ++ t2).
Proof.
  unfold client.bindM. destruct m as [t1 [a|]].
  - destruct (k a) as [t2 b] eqn:Ek. intros E. injection E as <- <-.
    right. exists t1, a, t2. auto.
  - intros E. injection E as <- <-. left. auto.
Qed.

Lemma stake_trace (pc : client.p) (cd : Codec) (k : Key) (fee : Z)
  (opts : list client.OpOption) (t : list client.Event)
  (r : client.StakeReturn) :
  client.stake pc cd k fee opts = (t, Some r) ->
  t = [client.EvGetAtomicUTXOs].
Proof.
  intros H. destruct (stake_inv pc cd k fee opts t (Some r) H)
    as [(_ & E & _) | (ret & -> & _)]; [discriminate | reflexivity].
Qed.

Lemma stake_no_issue (pc : client.p) (cd : Codec) (k : Key) (fee : Z)
  (opts : list client.OpOption) (t : list client.Event)
  (o : option client.StakeReturn) (b : list byte) :
  client.stake pc cd k fee opts = (t, o) -> ~ List.In (client.EvIssueTx b) t.
Proof.
  intros H. destruct (stake_inv pc cd k fee opts t o H)
    as [(-> & _) | (ret & -> & _)]; simpl; intuition discriminate.
Qed.


(** The end of the operations that poll the transaction: sign, verify,
    issue, poll. *)
Lemma sign_issue_poll (pc : client.p) (k : Key) (utx : UnsignedTx)
  (signers : list (list ShortID)) (t : list client.Event)
  (o : option (Z * option error)) (b : list byte) :
  client.bindM (client.emit client.EvSign)
    (fun _ =>
       match Sign k (mkTx utx [] [] [] []) signers with
       | None => client.panic
       | Some (_, Some err) => client.ret (0, Some err)
       | Some (pTx', None) =>
           match client.SyntacticVerify pc utx with
           | Some err => client.ret (0, Some err)
           | None =>
               client.bindM (client.emit (client.EvIssueTx (tx_bytes pTx')))
                 (fun _ =>
                    match client.cli_IssueTx pc (tx_bytes pTx') with
                    | Err err =>
                        client.ret (0, Some (Errorf "failed to issue tx" err))
                    | Ok txID =>
                        client.bindM (client.emit (client.EvPollTx txID))
                          (fun _ => client.ret (client.checker_PollTx pc txID))
                    end)
           end
       end) = (t, o) ->
  List.In (client.EvIssueTx b) t ->
  exists pTx',
    Sign k (mkTx utx [] [] [] []) signers = Some (pTx', None) /\
    client.SyntacticVerify pc utx = None /\
    b = tx_bytes pTx' /\
    issue_then_poll pc b [client.EvSign] t o.
Proof.
  intros H Hin. apply bindM_emit_inv in H. destruct H as (t1 & H & ->).
  destruct Hin as [Hin|Hin]; [discriminate|].
  destruct (Sign k (mkTx utx [] [] [] []) signers)
    as [[pTx' [err|]]|] eqn:Es;
    try (injection H as <- <-; contradiction).
  destruct (client.SyntacticVerify pc utx) as [err|] eqn:Ev;
    [injection H as <- <-; contradiction|].
  apply bindM_emit_inv in H. destruct H as (t2 & H & ->).
  assert (Hb : b = tx_bytes pTx').
  { destruct Hin as [Hin|Hin]; [congruence|].
    destruct (client.cli_IssueTx pc (tx_bytes pTx')) as [txID|err].
    - cbn in H. injection H as <- <-.
      destruct Hin as [Hin|[]]. discriminate.
    - injection H as <- <-. contradiction. }
  subst b. exists pTx'. split; [reflexivity|]. split; [reflexivity|].
  split; [reflexivity|]. unfold issue_then_poll.
  destruct (client.cli_IssueTx pc (tx_bytes pTx')) as [txID|err].
  - cbn in H. injection H as <- <-. split; reflexivity.
  - injection H as <- <-. split; reflexivity.
Qed.



(** X19.  [AddValidator] issues a transaction only when the node ID is
    given and the node is reported not found among the validators of the
    primary network, and only a transaction that was signed without error
    and passed the syntactic verification: it registers this node for the
    requested period with the stake amount of the options, or the default
    of the network (2000 units on the main network, 1 unit on the local and
    test networks) when they give none, as its weight.  The calls are, in
    this order: the validator lookup, the UTXOs, the signature (the fee is
    not asked for: it is zero); then the transaction is issued once and,
    if the node accepts it, polled once. *)
Theorem AddValidator_issue (pc : client.p) (cd : Codec) (k : Key)
  (nodeID : ShortID) (start end_ : client.Time)
  (opts : list client.OpOption) (t : list client.Event)
  (o : option (Z * option error)) (b : list byte)
  (Hrun : client.AddValidator pc cd k nodeID start end_ opts = (t, o))
  (Hissue : List.In (client.EvIssueTx b) t) :
  let op := client.applyOpts client.Op0 opts in
  bytes_eqb nodeID client.ShortEmpty = false /\
  (exists e,
     snd (client.GetValidator pc client.Empty nodeID) = Some (Err e) /\
     errors_Is e ErrValidatorNotFound = true) /\
  (exists base staked rewardAddr signers pTx',
     let utx :=
       UnsignedAddValidatorTx base
         (mkValidator nodeID (wrap64 (client.Unix start))
            (wrap64 (client.Unix end_))
            (default_stake pc (client.stakeAmt op)))
         staked (mkOwners 0 1 [rewardAddr]) (client.rewardShares op) in
     Sign k (mkTx utx [] [] [] []) signers = Some (pTx', None) /\
     client.SyntacticVerify pc utx = None /\
     b = tx_bytes pTx') /\
  issue_then_poll pc b (validator_calls pc nodeID) t o.
Proof.
  intros op. unfold client.AddValidator in Hrun. fold op in Hrun.
  fold (default_stake pc (client.stakeAmt op)) in Hrun.
  destruct (bytes_eqb nodeID client.ShortEmpty) eqn:E2;
    [injection Hrun as <- <-; contradiction|].
  split; [reflexivity|].
  rewrite !GetValidator_snd in *. cbn [snd].
  change (lookup_subnet pc client.Empty) with (client.PrimaryNetworkID pc)
    in *.
  apply bindM_inv in Hrun.
  destruct Hrun as [[E _] | (t1 & r1 & t2 & E & Hrun & ->)];
    [discriminate|].
  injection E as <- <-.
  destruct Hissue as [Hin|Hin]; [discriminate|].
  match type of Hrun with
  | match ?r with _ => _ end = _ => destruct r as [v|e1] eqn:Er1
  end; [injection Hrun as <- <-; contradiction|].
  destruct (errors_Is e1 ErrValidatorNotFound) eqn:Enf;
    [|injection Hrun as <- <-; contradiction].
  cbn [negb] in Hrun.
  split; [exists e1; split; [reflexivity | exact Enf]|].
  destruct (if bytes_eqb (client.rewardAddr op) client.ShortEmpty
            then client.first_address k else Some (client.rewardAddr op))
    as [rewardAddr1|]; [|injection Hrun as <- <-; contradiction].
  destruct (if bytes_eqb (client.changeAddr op) client.ShortEmpty
            then client.first_address k else Some (client.changeAddr op))
    as [changeAddr1|]; [|injection Hrun as <- <-; contradiction].
  apply bindM_inv in Hrun.
  destruct Hrun as [[E _] | (t5 & sr & t6 & Est & Hrun & ->)].
  { exfalso. apply (stake_no_issue _ _ _ _ _ _ _ b E Hin). }
  rewrite (stake_trace _ _ _ _ _ _ _ Est) in *.
  destruct Hin as [Hin|Hin]; [discriminate|].
  destruct (client.r_err sr) as [err|];
    [injection Hrun as <- <-; contradiction|].
  destruct (sign_issue_poll _ _ _ _ _ _ _ Hrun Hin)
    as (pTx' & Hsign & Hver & Hb & Hpoll).
  split.
  - eexists _, _, _, _, pTx'. cbv zeta.
    split; [exact Hsign|]. split; [exact Hver | exact Hb].
  - unfold issue_then_poll in *. unfold validator_calls.
    destruct (client.cli_IssueTx pc b) as [txID|err];
      destruct Hpoll as [-> ->]; split; reflexivity.
Qed.

Lemma AddValidator_issue_witness :
  exists b t,
    client.AddValidator fixture.nodeFresh fixture.cdFull fixture.keyFull
      fixture.nodeN (client.time_Unix 1200 0) (client.time_Unix 1500 0) []
    = (t, Some (1, None)) /\
    t = validator_calls fixture.nodeFresh fixture.nodeN
        ++ [client.EvIssueTx b; client.EvPollTx b].
Proof.
  eexists _, _. split; [vm_compute; reflexivity|].
  match goal with
  | |- ?t = _ ++ [client.EvIssueTx ?b; _] =>
      assert (Hrun : client.AddValidator fixture.nodeFresh fixture.cdFull
                       fixture.keyFull fixture.nodeN
                       (client.time_Unix 1200 0) (client.time_Unix 1500 0)
                       [] = (t, Some (1, None)))
        by (vm_compute; reflexivity);
      assert (Hin : List.In (client.EvIssueTx b) t)
        by (simpl; auto 10);
      destruct (AddValidator_issue _ _ _ _ _ _ _ _ _ _ Hrun Hin)
        as (_ & _ & _ & Hpoll)
  end.
  unfold issue_then_poll in Hpoll. cbn in Hpoll. destruct Hpoll as [Ht _].
  exact Ht.
Defined.

(** ** Creating a subnet and a blockchain *)

Lemma bindC_call_inv {A : Type} (c : client.Call) (m : client.MC A)
  (t : list client.Call) (o : option A) :
  client.bindC (client.call c) (fun _ => m) = (t, o) ->
  exists t', m = (t', o) /\ t = c :: t'.
Proof.
  unfold client.bindC, client.call. destruct m as [t' b].
  intros E. injection E as <- <-. exists t'. auto.
Qed.

Lemma bindC_lift_inv {A B : Type} (m : client.M A) (k : A -> client.MC B)
  (t : list client.Call) (o : option B) :
  client.bindC (client.lift m) k = (t, o) ->
  (exists tm, m = (tm, None) /\ t = map client.Base tm /\ o = None) \/
  (exists tm a t2,
     m = (tm, Some a) /\ k a = (t2, o) /\ t = map client.Base tm ++ t2).
Proof.
  unfold client.bindC, client.lift. destruct m as [tm [a|]]; cbn [fst snd].
  - destruct (k a) as [t2 b] eqn:Ek. intros E. injection E as <- <-.
    right. exists tm, a, t2. auto.
  - intros E. injection E as <- <-. left. exists tm. auto.
Qed.

Lemma stake_calls (pc : client.p) (cd : Codec) (k : Key) (fee : Z)
  (opts : list client.OpOption) (t : list client.Event)
  (o : option client.StakeReturn) :
  client.stake pc cd k fee opts = (t, o) ->
  t = [] \/ t = [client.EvGetAtomicUTXOs].
Proof.
  intros H. destruct (stake_inv pc cd k fee opts t o H)
    as [(-> & _) | (ret & -> & _)]; auto.
Qed.

(** X20.  In dry mode [CreateSubnet] issues nothing and polls nothing:
    its calls are a prefix of fee, UTXOs, signature.  When it returns
    without error, the duration is zero and the subnet ID is the ID of the
    transaction as the key signed it, a subnet-creation transaction owned
    by the first address of the key with threshold 1, built on the inputs
    and the change of [stake] for the subnet-creation fee, and accepted by
    the syntactic verification. *)
Theorem CreateSubnet_dry_mode (pc : client.p) (sv : client.services)
  (cd : Codec) (k : Key) (opts : list client.OpOption)
  (t : list client.Call) (o : option (ID * Z * option error))
  (Hdry : client.dryMode (client.applyOpts client.Op0 opts) = true)
  (Hrun : client.CreateSubnet pc sv cd k opts = (t, o)) :
  (exists n, t = firstn n create_subnet_calls) /\
  (forall subnetID took,
     o = Some (subnetID, took, None) ->
     took = 0 /\ t = create_subnet_calls /\
     exists sr a pTx',
       client.stake pc cd k (client.CreateSubnetTxFee sv) []
       = ([client.EvGetAtomicUTXOs], Some sr) /\
       client.r_err sr = None /\
       client.first_address k = Some a /\
       let utx :=
         UnsignedCreateSubnetTx
           (mkBaseTx (client.networkID pc) (client.pChainID pc)
              (client.r_ins sr) (client.r_returnedOuts sr))
           (OwnerOutputOwners (mkOwners 0 1 [a])) in
       Sign k (mkTx utx [] [] [] []) (client.r_signers sr)
       = Some (pTx', None) /\
       client.SyntacticVerify pc utx = None /\
       subnetID = tx_id pTx').
Proof.
  unfold client.CreateSubnet in Hrun. rewrite Hdry in Hrun.
  apply bindC_call_inv in Hrun. destruct Hrun as (t1 & Hrun & ->).
  destruct (client.info_GetTxFee pc) as [fee|err].
  2:{ injection Hrun as <- <-.
      split; [exists 1%nat; reflexivity | discriminate]. }
  apply bindC_lift_inv in Hrun.
  destruct Hrun as [(tm & Est & -> & ->) | (tm & sr & t2 & Est & Hrun & ->)].
  { split; [|discriminate].
    destruct (stake_calls _ _ _ _ _ _ _ Est) as [->| ->];
      [exists 1%nat | exists 2%nat]; reflexivity. }
  pose proof (stake_trace _ _ _ _ _ _ _ Est) as Htm. subst tm.
  destruct (client.r_err sr) as [err|] eqn:Eerr.
  { injection Hrun as <- <-.
    split; [exists 2%nat; reflexivity | discriminate]. }
  destruct (client.first_address k) as [a|] eqn:Ea.
  2:{ injection Hrun as <- <-.
      split; [exists 2%nat; reflexivity | discriminate]. }
  apply bindC_call_inv in Hrun. destruct Hrun as (t3 & Hrun & ->).
  destruct (Sign k _ (client.r_signers sr)) as [[pTx' [err|]]|] eqn:Es;
    try (injection Hrun as <- <-;
         split; [exists 3%nat; reflexivity | discriminate]).
  destruct (client.SyntacticVerify pc _) as [err|] eqn:Ev;
    injection Hrun as <- <-;
    (split; [exists 3%nat; reflexivity|]); [discriminate|].
  intros subnetID took E. injection E as <- <-.
  split; [reflexivity|]. split; [reflexivity|].
  exists sr, a, pTx'. cbv zeta.
  split; [exact Est|]. split; [exact Eerr|]. split; [reflexivity|].
  split; [exact Es|]. split; [exact Ev | reflexivity].
Qed.

Lemma CreateSubnet_dry_mode_witness :
  exists subnetID,
    client.CreateSubnet fixture.nodeFull fixture.svc fixture.cdFull
      fixture.keyFull [client.WithDryMode true]
    = (create_subnet_calls, Some (subnetID, 0, None)).
Proof.
  eexists.
  match goal with
  | |- ?run = (?t, Some (?id, _, _)) =>
      destruct (CreateSubnet_dry_mode fixture.nodeFull fixture.svc
                  fixture.cdFull fixture.keyFull [client.WithDryMode true]
                  (fst run) (snd run) eq_refl)
        as [_ H]
  end.
  - vm_compute. reflexivity.
  - vm_compute. reflexivity.
Defined.

(** X21.  Outside dry mode only does [CreateSubnet] issue a transaction,
    and only one that the key signed without error and that passed the
    syntactic verification: a subnet-creation transaction owned by the
    first address of the key.  It is issued once, after fee, UTXOs and
    signature.  If the node refuses it, or answers with another ID than
    the ID of the signed transaction, the operation polls nothing and
    returns the ID of the signed transaction with the error (the
    unexpected-subnet-ID error in the second case); otherwise it polls the
    subnet once and returns the answer of the poll. *)
Theorem CreateSubnet_issue (pc : client.p) (sv : client.services)
  (cd : Codec) (k : Key) (opts : list client.OpOption)
  (t : list client.Call) (o : option (ID * Z * option error))
  (b : list byte)
  (Hrun : client.CreateSubnet pc sv cd k opts = (t, o))
  (Hissue : List.In (client.Base (client.EvIssueTx b)) t) :
  client.dryMode (client.applyOpts client.Op0 opts) = false /\
  exists base a signers pTx',
    client.first_address k = Some a /\
    Sign k (mkTx (UnsignedCreateSubnetTx base
                    (OwnerOutputOwners (mkOwners 0 1 [a]))) [] [] [] [])
      signers = Some (pTx', None) /\
    client.SyntacticVerify pc
      (UnsignedCreateSubnetTx base (OwnerOutputOwners (mkOwners 0 1 [a])))
    = None /\
    b = tx_bytes pTx' /\
    match client.cli_IssueTx pc b with
    | Err err =>
        t = create_subnet_calls ++ [client.Base (client.EvIssueTx b)] /\
        o = Some (tx_id pTx', 0, Some (Errorf "failed to issue tx" err))
    | Ok txID =>
        if bytes_eqb txID (tx_id pTx')
        then
          t = create_subnet_calls ++
              [client.Base (client.EvIssueTx b); client.CallPollSubnet txID]
          /\ o = Some (txID, fst (client.checker_PollSubnet sv txID),
                       snd (client.checker_PollSubnet sv txID))
        else
          t = create_subnet_calls ++ [client.Base (client.EvIssueTx b)] /\
          o = Some (tx_id pTx', 0, Some ErrUnexpectedSubnetID)
    end.
Proof.
  unfold client.CreateSubnet in Hrun.
  apply bindC_call_inv in Hrun. destruct Hrun as (t1 & Hrun & ->).
  destruct Hissue as [Hin|Hin]; [discriminate|].
  destruct (client.info_GetTxFee pc) as [fee|err];
    [|injection Hrun as <- <-; contradiction].
  apply bindC_lift_inv in Hrun.
  destruct Hrun as [(tm & Est & -> & ->) | (tm & sr & t2 & Est & Hrun & ->)].
  { exfalso. destruct (stake_calls _ _ _ _ _ _ _ Est) as [->| ->];
      simpl in Hin; intuition discriminate. }
  rewrite (stake_trace _ _ _ _ _ _ _ Est) in *.
  destruct Hin as [Hin|Hin]; [discriminate|].
  destruct (client.r_err sr) as [err|];
    [injection Hrun as <- <-; contradiction|].
  destruct (client.first_address k) as [a|] eqn:Ea;
    [|injection Hrun as <- <-; contradiction].
  apply bindC_call_inv in Hrun. destruct Hrun as (t3 & Hrun & ->).
  destruct Hin as [Hin|Hin]; [discriminate|].
  destruct (Sign k _ (client.r_signers sr)) as [[pTx' [err|]]|] eqn:Es;
    try (injection Hrun as <- <-; contradiction).
  destruct (client.SyntacticVerify pc _) as [err|] eqn:Ev;
    [injection Hrun as <- <-; contradiction|].
  destruct (client.dryMode (client.applyOpts client.Op0 opts));
    [injection Hrun as <- <-; contradiction|].
  split; [reflexivity|].
  apply bindC_call_inv in Hrun. destruct Hrun as (t4 & Hrun & ->).
  assert (Hb : b = tx_bytes pTx').
  { destruct Hin as [Hin|Hin]; [congruence|]. exfalso.
    destruct (client.cli_IssueTx pc (tx_bytes pTx')) as [txID|err];
      [|injection Hrun as <- <-; contradiction].
    destruct (bytes_eqb txID (tx_id pTx'));
      cbn [negb] in Hrun;
      [|injection Hrun as <- <-; contradiction].
    apply bindC_call_inv in Hrun. destruct Hrun as (t5 & Hrun & ->).
    destruct (client.checker_PollSubnet sv txID).
    injection Hrun as <- <-. simpl in Hin. intuition discriminate. }
  subst b. eexists _, a, _, pTx'.
  split; [reflexivity|]. split; [exact Es|]. split; [exact Ev|].
  split; [reflexivity|].
  destruct (client.cli_IssueTx pc (tx_bytes pTx')) as [txID|err].
  - destruct (bytes_eqb txID (tx_id pTx')); cbn [negb] in Hrun.
    + apply bindC_call_inv in Hrun. destruct Hrun as (t5 & Hrun & ->).
      destruct (client.checker_PollSubnet sv txID).
      injection Hrun as <- <-. split; reflexivity.
    + injection Hrun as <- <-. split; reflexivity.
  - injection Hrun as <- <-. split; reflexivity.
Qed.

Lemma CreateSubnet_issue_witness :
  (exists subnetID t,
     client.CreateSubnet fixture.nodeHash fixture.svc fixture.cdFull
       fixture.keyFull [] = (t, Some (subnetID, 7, None)) /\
     last t (client.Base client.EvSign) = client.CallPollSubnet subnetID) /\
  (exists subnetID t,
     client.CreateSubnet fixture.nodeFull fixture.svc fixture.cdFull
       fixture.keyFull [] = (t, Some (subnetID, 0, Some ErrUnexpectedSubnetID))).
Proof.
  split.
  - eexists _, _. split; [vm_compute; reflexivity|].
    match goal with
    | |- last ?t _ = client.CallPollSubnet ?id =>
        assert (Hrun : client.CreateSubnet fixture.nodeHash fixture.svc
                         fixture.cdFull fixture.keyFull []
                       = (t, Some (id, 7, None)))
          by (vm_compute; reflexivity);
        match t with
        | context [client.EvIssueTx ?b] =>
            assert (Hin : List.In (client.Base (client.EvIssueTx b)) t)
              by (simpl; auto 10);
            destruct (CreateSubnet_issue _ _ _ _ _ _ _ _ Hrun Hin)
              as (_ & base & a & sg & pTx' & _ & _ & _ & _ & Hend)
        end
    end.
    reflexivity.
  - eexists _, _. vm_compute. reflexivity.
Defined.

Lemma authorize_run (pc : client.p) (cd : Codec) (k : Key) (subnetID : ID) :
  exists ar,
    client.authorize pc cd k subnetID = ([client.EvGetTx subnetID], Some ar).
Proof. eexists. reflexivity. Qed.

(** X22.  [CreateBlockchain] issues a transaction only when the subnet ID
    and the VM ID are given, and only one that the key signed without
    error and that passed the syntactic verification: a chain-creation
    transaction for this subnet, name, VM and genesis.  It is issued once,
    after fee, UTXOs, the subnet transaction and the signature.  If the
    node refuses it, the operation returns no ID; otherwise it returns the
    ID the node answered, and it polls the blockchain, once, exactly when
    the poll option is set: the duration is then the time since the start
    plus that of the poll, and the error that of the poll. *)
Theorem CreateBlockchain_issue (pc : client.p) (sv : client.services)
  (cd : Codec) (k : Key) (subnetID : ID) (chainName : String.string)
  (vmID : ID) (vmGenesis : list byte) (opts : list client.OpOption)
  (t : list client.Call) (o : option (ID * Z * option error))
  (b : list byte)
  (Hrun : client.CreateBlockchain pc sv cd k subnetID chainName vmID
            vmGenesis opts = (t, o))
  (Hissue : List.In (client.Base (client.EvIssueTx b)) t) :
  bytes_eqb subnetID client.Empty = false /\
  bytes_eqb vmID client.Empty = false /\
  exists base auth signers pTx',
    Sign k (mkTx (UnsignedCreateChainTx base subnetID chainName vmID
                    vmGenesis auth) [] [] [] []) signers
    = Some (pTx', None) /\
    client.SyntacticVerify pc
      (UnsignedCreateChainTx base subnetID chainName vmID vmGenesis auth)
    = None /\
    b = tx_bytes pTx' /\
    match client.cli_IssueTx pc b with
    | Err err =>
        t = create_blockchain_calls subnetID ++
            [client.Base (client.EvIssueTx b)] /\
        o = Some (client.Empty, 0, Some (Errorf "failed to issue tx" err))
    | Ok blkChainID =>
        if client.poll (client.applyOpts client.Op0 opts)
        then
          t = create_blockchain_calls subnetID ++
              [client.Base (client.EvIssueTx b);
               client.CallPollBlockchain subnetID blkChainID] /\
          o = Some (blkChainID,
                    client.wrap_int64
                      (client.time_Since sv +
                       fst (client.checker_PollBlockchain sv subnetID
                              blkChainID)),
                    snd (client.checker_PollBlockchain sv subnetID
                           blkChainID))
        else
          t = create_blockchain_calls subnetID ++
              [client.Base (client.EvIssueTx b)] /\
          o = Some (blkChainID, client.time_Since sv, None)
    end.
Proof.
  unfold client.CreateBlockchain in Hrun.
  destruct (bytes_eqb subnetID client.Empty);
    [injection Hrun as <- <-; contradiction|].
  destruct (bytes_eqb vmID client.Empty);
    [injection Hrun as <- <-; contradiction|].
  split; [reflexivity|]. split; [reflexivity|].
  apply bindC_call_inv in Hrun. destruct Hrun as (t1 & Hrun & ->).
  destruct Hissue as [Hin|Hin]; [discriminate|].
  destruct (client.info_GetTxFee pc) as [fee|err];
    [|injection Hrun as <- <-; contradiction].
  apply bindC_lift_inv in Hrun.
  destruct Hrun as [(tm & Est & -> & ->) | (tm & sr & t2 & Est & Hrun & ->)].
  { exfalso. destruct (stake_calls _ _ _ _ _ _ _ Est) as [->| ->];
      simpl in Hin; intuition discriminate. }
  pose proof (stake_trace _ _ _ _ _ _ _ Est) as Htm. subst tm.
  destruct Hin as [Hin|Hin]; [discriminate|].
  destruct (client.r_err sr) as [err|];
    [injection Hrun as <- <-; contradiction|].
  destruct (authorize_run pc cd k subnetID) as [ar0 Ear].
  apply bindC_lift_inv in Hrun.
  destruct Hrun as [(tm & Ea & _) | (tm & ar & t3 & Ea & Hrun & ->)];
    [rewrite Ear in Ea; discriminate|].
  rewrite Ear in Ea. injection Ea as <- <-.
  destruct Hin as [Hin|Hin]; [discriminate|].
  destruct ar0 as [[auth sg]|err];
    [|injection Hrun as <- <-; contradiction].
  apply bindC_call_inv in Hrun. destruct Hrun as (t4 & Hrun & ->).
  destruct Hin as [Hin|Hin]; [discriminate|].
  destruct (Sign k _ (client.r_signers sr ++ [sg]))
    as [[pTx' [err|]]|] eqn:Es;
    try (injection Hrun as <- <-; contradiction).
  destruct (client.SyntacticVerify pc _) as [err|] eqn:Ev;
    [injection Hrun as <- <-; contradiction|].
  apply bindC_call_inv in Hrun. destruct Hrun as (t5 & Hrun & ->).
  assert (Hb : b = tx_bytes pTx').
  { destruct Hin as [Hin|Hin]; [congruence|]. exfalso.
    destruct (client.cli_IssueTx pc (tx_bytes pTx')) as [id|err];
      [|injection Hrun as <- <-; contradiction].
    destruct (client.poll (client.applyOpts client.Op0 opts));
      [|injection Hrun as <- <-; contradiction].
    apply bindC_call_inv in Hrun. destruct Hrun as (t6 & Hrun & ->).
    destruct (client.checker_PollBlockchain sv subnetID id).
    injection Hrun as <- <-. simpl in Hin. intuition discriminate. }
  subst b. eexists _, auth, _, pTx'.
  split; [exact Es|]. split; [exact Ev|]. split; [reflexivity|].
  destruct (client.cli_IssueTx pc (tx_bytes pTx')) as [id|err].
  - destruct (client.poll (client.applyOpts client.Op0 opts)).
    + apply bindC_call_inv in Hrun. destruct Hrun as (t6 & Hrun & ->).
      destruct (client.checker_PollBlockchain sv subnetID id).
      injection Hrun as <- <-. split; reflexivity.
    + injection Hrun as <- <-. split; reflexivity.
  - injection Hrun as <- <-. split; reflexivity.
Qed.

Lemma CreateBlockchain_issue_witness :
  exists blkChainID t,
    client.CreateBlockchain fixture.nodeFull fixture.svc fixture.cdFull
      fixture.keyFull fixture.subnetX "chain" fixture.txA [x01]
      [client.WithPoll true] = (t, Some (blkChainID, 14, None)) /\
    last t (client.Base client.EvSign)
    = client.CallPollBlockchain fixture.subnetX blkChainID.
Proof.
  eexists _, _. split; [vm_compute; reflexivity|].
  match goal with
  | |- last ?t _ = client.CallPollBlockchain _ ?id =>
      assert (Hrun : client.CreateBlockchain fixture.nodeFull fixture.svc
                       fixture.cdFull fixture.keyFull fixture.subnetX
                       "chain" fixture.txA [x01] [client.WithPoll true]
                     = (t, Some (id, 14, None)))
        by (vm_compute; reflexivity);
      match t with
      | context [client.EvIssueTx ?b] =>
          assert (Hin : List.In (client.Base (client.EvIssueTx b)) t)
            by (simpl; auto 10);
          destruct (CreateBlockchain_issue _ _ _ _ _ _ _ _ _ _ _ _ Hrun Hin)
            as (_ & _ & base & auth & sg & pTx' & _ & _ & _ & Hend)
      end
  end.
  reflexivity.
Defined.

(** ** The node IDs of the command line *)

Lemma GetValidator_run (pc : client.p) (rsubnetID : ID) (nodeID : ShortID) :
  exists r,
    client.GetValidator pc rsubnetID nodeID
    = ([client.EvGetCurrentValidators (lookup_subnet pc rsubnetID) nodeID],
       Some r).
Proof. rewrite GetValidator_snd. eexists. reflexivity. Qed.

Section NodeIDs.

Variable pc : client.p.
Variable parse : String.string -> result ShortID.

(** One iteration of the loop that goes on: the node ID [id] of [r] was
    looked up, and the loop continues on [i2]. *)
Lemma ParseNodeIDs_step (r : String.string) (rest : list String.string)
  (idx : nat) (i : cmd.Info) (t : list client.Event)
  (o : option (cmd.Info * option error)) :
  cmd.ParseNodeIDs_loop pc parse (r :: rest) idx i = (t, o) ->
  (exists e, parse r = Err e /\ t = [] /\ o = Some (i, Some e)) \/
  exists id,
    parse r = Ok id /\
    let i2 :=
      cmd.mkInfo (cmd.subnetID i)
        (cmd.nodeIDs i ++
         (if not_yet_validator pc (cmd.subnetID i) id then [id] else []))
        (sort.set_nth (cmd.allNodeIDs i) idx id)
        (cmd.map_set (cmd.valInfos i) id
           (period_of pc (cmd.subnetID i) id)) in
    ((exists e,
        snd (client.GetValidator pc (cmd.subnetID i) id) = Some (Err e) /\
        errors_Is e ErrValidatorNotFound = false /\
        t = [client.EvGetCurrentValidators
               (lookup_subnet pc (cmd.subnetID i)) id] /\
        o = Some (i2, Some e)) \/
     (exists t2,
        (not_yet_validator pc (cmd.subnetID i) id = false ->
         exists s e,
           snd (client.GetValidator pc (cmd.subnetID i) id)
           = Some (Ok (s, e))) /\
        cmd.ParseNodeIDs_loop pc parse rest (S idx) i2 = (t2, o) /\
        t = client.EvGetCurrentValidators
              (lookup_subnet pc (cmd.subnetID i)) id :: t2)).
Proof.
  cbn [cmd.ParseNodeIDs_loop]. intros Hrun.
  destruct (parse r) as [id|e] eqn:Ep.
  2:{ injection Hrun as <- <-. left. exists e. auto. }
  right. exists id. split; [reflexivity|]. cbv zeta.
  cbv zeta in Hrun.
  cbn [cmd.subnetID cmd.nodeIDs cmd.allNodeIDs cmd.valInfos] in Hrun.
  destruct (GetValidator_run pc (cmd.subnetID i) id) as [res G].
  unfold not_yet_validator, period_of. rewrite G in *. cbn [snd].
  apply bindM_inv in Hrun.
  destruct Hrun as [[E _] | (t1 & a & t2 & E & Hrun & ->)];
    [discriminate|].
  injection E as <- <-.
  destruct res as [[s e]|e].
  - right. exists t2. split; [intros _; exists s, e; reflexivity|].
    split; [|reflexivity]. rewrite app_nil_r. exact Hrun.
  - cbv zeta in Hrun. cbn [cmd.subnetID cmd.nodeIDs cmd.allNodeIDs
                             cmd.valInfos] in Hrun.
    destruct (errors_Is e ErrValidatorNotFound) eqn:Ee.
    + right. exists t2. split; [discriminate|].
      split; [exact Hrun | reflexivity].
    + left. exists e. injection Hrun as <- <-.
      split; [reflexivity|]. split; [exact Ee|]. split; [reflexivity|].
      rewrite app_nil_r. reflexivity.
Qed.

Lemma ParseNodeIDs_loop_success (raw : list String.string) :
  forall (done : list ShortID) (i i' : cmd.Info) (t : list client.Event),
    cmd.allNodeIDs i = done ++ repeat client.ShortEmpty (length raw) ->
    cmd.ParseNodeIDs_loop pc parse raw (length done) i
    = (t, Some (i', None)) ->
    exists ids,
      Forall2 (fun r id => parse r = Ok id) raw ids /\
      cmd.subnetID i' = cmd.subnetID i /\
      cmd.allNodeIDs i' = done ++ ids /\
      cmd.nodeIDs i'
      = cmd.nodeIDs i ++ filter (not_yet_validator pc (cmd.subnetID i)) ids /\
      t = map (client.EvGetCurrentValidators
                 (lookup_subnet pc (cmd.subnetID i))) ids /\
      Forall (fun id =>
                not_yet_validator pc (cmd.subnetID i) id = false ->
                exists s e,
                  snd (client.GetValidator pc (cmd.subnetID i) id)
                  = Some (Ok (s, e))) ids /\
      (forall id, List.In id ids ->
         cmd.valInfos i' id = Some (period_of pc (cmd.subnetID i) id)) /\
      (forall id, ~ List.In id ids -> cmd.valInfos i' id = cmd.valInfos i id).
Proof.
  induction raw as [|r rest IH]; intros done i i' t Hall Hrun.
  - simpl in Hrun. injection Hrun as <- <-. exists [].
    simpl in *. rewrite !app_nil_r in *.
    split; [constructor|]. split; [reflexivity|]. split; [exact Hall|].
    split; [reflexivity|]. split; [reflexivity|]. split; [constructor|].
    split; [intros id [] | reflexivity].
  - apply ParseNodeIDs_step in Hrun.
    destruct Hrun as [(e & _ & _ & E) | (id & Ep & Hrun)]; [discriminate|].
    cbv zeta in Hrun.
    destruct Hrun as [(e & _ & _ & _ & E) | (t2 & Hok & Hrun & ->)];
      [discriminate|].
    assert (Hlen : S (length done) = length (done ++ [id]))
      by (rewrite length_app; simpl; lia).
    rewrite Hlen in Hrun.
    apply IH in Hrun.
    2:{ cbn [cmd.allNodeIDs]. rewrite Hall. simpl.
        rewrite set_nth_middle, <- app_assoc. reflexivity. }
    cbn [cmd.subnetID cmd.nodeIDs cmd.valInfos] in Hrun.
    destruct Hrun as (ids & Hp & Hs & Ha & Hn & Ht & Hf & Hv & Hu).
    exists (id :: ids).
    split; [constructor; assumption|]. split; [exact Hs|].
    split; [rewrite Ha, <- app_assoc; reflexivity|].
    split.
    { rewrite Hn, <- app_assoc. simpl.
      destruct (not_yet_validator pc (cmd.subnetID i) id); reflexivity. }
    split; [simpl; rewrite Ht; reflexivity|].
    split; [constructor; assumption|].
    split.
    + intros id0 [<-|Hin]; [|apply Hv; exact Hin].
      destruct (in_dec (list_eq_dec Byte.byte_eq_dec) id ids) as [Hi|Hi];
        [apply Hv; exact Hi|].
      rewrite (Hu id Hi). unfold cmd.map_set.
      replace (bytes_eqb id id) with true
        by (symmetry; apply bytes_eqb_eq; reflexivity).
      reflexivity.
    + intros id0 Hni. rewrite (Hu id0) by (intros H; apply Hni; right; exact H).
      unfold cmd.map_set.
      destruct (bytes_eqb id0 id) eqn:Eb; [|reflexivity].
      apply bytes_eqb_eq in Eb. exfalso. apply Hni. left. congruence.
Qed.

Lemma ParseNodeIDs_loop_failure (raw : list String.string) :
  forall (idx : nat) (i i' : cmd.Info) (t : list client.Event) (e : error),
    cmd.ParseNodeIDs_loop pc parse raw idx i = (t, Some (i', Some e)) ->
    exists pre r post ids,
      raw = pre ++ r :: post /\
      Forall2 (fun r id => parse r = Ok id) pre ids /\
      cmd.nodeIDs i'
      = cmd.nodeIDs i ++ filter (not_yet_validator pc (cmd.subnetID i)) ids /\
      (parse r = Err e /\
       t = map (client.EvGetCurrentValidators
                  (lookup_subnet pc (cmd.subnetID i))) ids
       \/
       exists id,
         parse r = Ok id /\
         snd (client.GetValidator pc (cmd.subnetID i) id) = Some (Err e) /\
         errors_Is e ErrValidatorNotFound = false /\
         t = map (client.EvGetCurrentValidators
                    (lookup_subnet pc (cmd.subnetID i))) (ids ++ [id])).
Proof.
  induction raw as [|r rest IH]; intros idx i i' t e Hrun.
  - simpl in Hrun. discriminate.
  - apply ParseNodeIDs_step in Hrun.
    destruct Hrun as [(e0 & Ep & -> & E) | (id & Ep & Hrun)].
    { injection E as E1 E2. subst i' e0. exists [], r, rest, []. simpl.
      rewrite app_nil_r.
      split; [reflexivity|]. split; [constructor|]. split; [reflexivity|].
      left. auto. }
    cbv zeta in Hrun.
    destruct Hrun as [(e0 & Hg & He & -> & E) | (t2 & _ & Hrun & ->)].
    { injection E as E1 E2. subst i' e0. exists [], r, rest, []. simpl.
      rewrite app_nil_r.
      split; [reflexivity|]. split; [constructor|].
      split.
      - unfold not_yet_validator. rewrite Hg, He. rewrite app_nil_r.
        reflexivity.
      - right. exists id. auto. }
    apply IH in Hrun. cbn [cmd.subnetID cmd.nodeIDs] in Hrun.
    destruct Hrun as (pre & r0 & post & ids & -> & Hp & Hn & Hcause).
    exists (r :: pre), r0, post, (id :: ids).
    split; [reflexivity|]. split; [constructor; assumption|].
    split.
    { rewrite Hn, <- app_assoc. simpl.
      destruct (not_yet_validator pc (cmd.subnetID i) id); reflexivity. }
    destruct Hcause as [[Hc ->] | (id0 & Hc & Hg & He & ->)].
    + left. split; [exact Hc | reflexivity].
    + right. exists id0. repeat (split; [assumption|]). reflexivity.
Qed.

End NodeIDs.

(** X23.  When [ParseNodeIDs] succeeds, every node ID of the command line
    was parsed and looked up once, in order, among the validators of the
    subnet of [Info]; [allNodeIDs] holds all the node IDs in that order and
    [nodeIDs] those that the lookup reported as not found, in the same
    order; each of the others has a validation period; and [valInfos] maps
    every node ID to the period the lookup returned for it (the zero times
    for a node not found), other entries being left as they were. *)
Theorem ParseNodeIDs_success (pc : client.p)
  (parse : String.string -> result ShortID)
  (rnodeIDs : list String.string) (i i' : cmd.Info)
  (t : list client.Event)
  (Hrun : cmd.ParseNodeIDs pc parse rnodeIDs i = (t, Some (i', None))) :
  Forall2 (fun r id => parse r = Ok id) rnodeIDs (cmd.allNodeIDs i') /\
  cmd.subnetID i' = cmd.subnetID i /\
  cmd.nodeIDs i'
  = filter (not_yet_validator pc (cmd.subnetID i)) (cmd.allNodeIDs i') /\
  t = map (client.EvGetCurrentValidators (lookup_subnet pc (cmd.subnetID i)))
        (cmd.allNodeIDs i') /\
  Forall (fun id =>
            not_yet_validator pc (cmd.subnetID i) id = false ->
            exists s e,
              snd (client.GetValidator pc (cmd.subnetID i) id)
              = Some (Ok (s, e))) (cmd.allNodeIDs i') /\
  (forall id, List.In id (cmd.allNodeIDs i') ->
     cmd.valInfos i' id = Some (period_of pc (cmd.subnetID i) id)) /\
  (forall id, ~ List.In id (cmd.allNodeIDs i') ->
     cmd.valInfos i' id = cmd.valInfos i id).
Proof.
  unfold cmd.ParseNodeIDs in Hrun.
  apply (ParseNodeIDs_loop_success pc parse rnodeIDs []) in Hrun;
    [|reflexivity].
  cbn [cmd.subnetID cmd.nodeIDs cmd.valInfos app] in Hrun.
  destruct Hrun as (ids & Hp & Hs & Ha & Hn & Ht & Hf & Hv & Hu).
  rewrite Ha. auto 10.
Qed.

Lemma ParseNodeIDs_success_witness :
  exists i',
    cmd.ParseNodeIDs fixture.nodeUp (fun _ => Ok fixture.nodeN)
      ["NodeID-1"%string]
      (cmd.mkInfo fixture.subnetX [] [] (fun _ => None))
    = ([client.EvGetCurrentValidators fixture.subnetX fixture.nodeN],
       Some (i', None)) /\
    cmd.nodeIDs i' = [fixture.nodeN].
Proof.
  eexists. split; [vm_compute; reflexivity|].
  match goal with
  | |- cmd.nodeIDs ?i' = _ =>
      destruct (ParseNodeIDs_success fixture.nodeUp
                  (fun _ => Ok fixture.nodeN) ["NodeID-1"%string]
                  (cmd.mkInfo fixture.subnetX [] [] (fun _ => None)) i'
                  [client.EvGetCurrentValidators fixture.subnetX
                     fixture.nodeN])
        as (_ & _ & Hn & _)
  end.
  - vm_compute. reflexivity.
  - reflexivity.
Defined.

(** X24.  When [ParseNodeIDs] fails, it stopped at the first node ID of
    the command line that does not parse, or whose lookup failed with an
    error other than not-found, and it returns that very error; the node
    IDs before it were parsed and looked up, and [nodeIDs] holds those of
    them that the lookup reported as not found.  A lookup that reports
    not-found never makes it fail. *)
Theorem ParseNodeIDs_failure (pc : client.p)
  (parse : String.string -> result ShortID)
  (rnodeIDs : list String.string) (i i' : cmd.Info)
  (t : list client.Event) (e : error)
  (Hrun : cmd.ParseNodeIDs pc parse rnodeIDs i = (t, Some (i', Some e))) :
  exists pre r post ids,
    rnodeIDs = pre ++ r :: post /\
    Forall2 (fun r id => parse r = Ok id) pre ids /\
    cmd.nodeIDs i' = filter (not_yet_validator pc (cmd.subnetID i)) ids /\
    (parse r = Err e /\
     t = map (client.EvGetCurrentValidators
                (lookup_subnet pc (cmd.subnetID i))) ids
     \/
     exists id,
       parse r = Ok id /\
       snd (client.GetValidator pc (cmd.subnetID i) id) = Some (Err e) /\
       errors_Is e ErrValidatorNotFound = false /\
       t = map (client.EvGetCurrentValidators
                  (lookup_subnet pc (cmd.subnetID i))) (ids ++ [id])).
Proof.
  unfold cmd.ParseNodeIDs in Hrun.
  apply ParseNodeIDs_loop_failure in Hrun.
  cbn [cmd.subnetID cmd.nodeIDs app] in Hrun.
  destruct Hrun as (pre & r & post & ids & H1 & H2 & H3 & H4).
  exists pre, r, post, ids. auto.
Qed.

Lemma ParseNodeIDs_failure_witness :
  exists i',
    cmd.ParseNodeIDs fixture.nodeDown (fun _ => Ok fixture.nodeN)
      ["NodeID-1"%string; "NodeID-2"%string]
      (cmd.mkInfo fixture.subnetX [] [] (fun _ => None))
    = ([client.EvGetCurrentValidators fixture.subnetX fixture.nodeN],
       Some (i', Some (ExternalError 9))) /\
    cmd.nodeIDs i' = [].
Proof.
  eexists. split; [vm_compute; reflexivity|].
  match goal with
  | |- cmd.nodeIDs ?i' = _ =>
      destruct (ParseNodeIDs_failure fixture.nodeDown
                  (fun _ => Ok fixture.nodeN)
                  ["NodeID-1"%string; "NodeID-2"%string]
                  (cmd.mkInfo fixture.subnetX [] [] (fun _ => None)) i'
                  [client.EvGetCurrentValidators fixture.subnetX
                     fixture.nodeN] (ExternalError 9))
        as (pre & r & post & ids & _ & _ & Hn & _)
  end.
  - vm_compute. reflexivity.
  - reflexivity.
Defined.

(** ** The credentials of the hardware key *)

Lemma copy_sig_length (sig0 : list byte) :
  length (key.copy_sig sig0) = key.SECP256K1RSigLen.
Proof.
  unfold key.copy_sig. rewrite length_app, length_firstn, repeat_length.
  lia.
Qed.

(** X25.  Whatever the device answers, [HardKey.Sign] leaves the unsigned
    part of the transaction as it was and only appends credentials to
    those already there; every credential it appends holds exactly one
    signature of 65 bytes (the answer of the device cut or filled with
    zero bytes to that length); it appends none or [sigs] of them, and
    [sigs] of them when it returns without error, in which case the ID of
    the transaction is the hash of its signed bytes. *)
Theorem HardKey_Sign_credentials (cd : Codec) (h : key.HardKey) (pTx : Tx)
  (sigs : Z) (reqs : list (list byte * list (list Z))) (pTx' : Tx)
  (oerr : option error)
  (Hrun : key.HardKey_Sign cd h pTx sigs = (reqs, Some (pTx', oerr))) :
  tx_UnsignedTx pTx' = tx_UnsignedTx pTx /\
  exists added,
    Creds pTx' = Creds pTx ++ added /\
    (added = [] \/ length added = Z.to_nat sigs) /\
    Forall (fun c => exists s, Sigs c = [s] /\ length s = 65%nat) added /\
    (oerr = None ->
     length added = Z.to_nat sigs /\
     tx_id pTx' = ComputeHash256 cd (tx_bytes pTx')).
Proof.
  unfold key.HardKey_Sign in Hrun.
  assert (Same : forall e,
            (reqs, Some (pTx', oerr)) = (reqs, Some (pTx, Some e)) ->
            tx_UnsignedTx pTx' = tx_UnsignedTx pTx /\
            exists added,
              Creds pTx' = Creds pTx ++ added /\
              (added = [] \/ length added = Z.to_nat sigs) /\
              Forall (fun c => exists s, Sigs c = [s] /\ length s = 65%nat)
                added /\
              (oerr = None ->
               length added = Z.to_nat sigs /\
               tx_id pTx' = ComputeHash256 cd (tx_bytes pTx'))).
  { intros e E. injection E as -> ->. split; [reflexivity|].
    exists []. rewrite app_nil_r. split; [reflexivity|].
    split; [left; reflexivity|]. split; [constructor | discriminate]. }
  destruct (Marshal_UnsignedTx cd (tx_UnsignedTx pTx)) as [ub|e].
  2:{ injection Hrun as <- <- <-. apply (Same _ eq_refl). }
  destruct (key.SignHash (key.l h) (ComputeHash256 cd ub)
              [[0; key.accountIndex h]]) as [[|sig0 more]|e].
  - discriminate.
  - assert (Hshape : Forall (fun c => exists s, Sigs c = [s] /\
                                       length s = 65%nat)
                       (repeat (mkCredential [key.copy_sig sig0])
                          (Z.to_nat sigs))).
    { apply Forall_forall. intros c Hc. apply repeat_spec in Hc. subst c.
      exists (key.copy_sig sig0). split; [reflexivity|].
      apply copy_sig_length. }
    cbv zeta in Hrun. cbn [tx_UnsignedTx Creds] in Hrun.
    destruct (Marshal_Tx cd (tx_UnsignedTx pTx) _) as [sb|e];
      injection Hrun as <- <- <-; (split; [reflexivity|]);
      exists (repeat (mkCredential [key.copy_sig sig0]) (Z.to_nat sigs));
      (split; [reflexivity|]);
      (split; [right; apply repeat_length|]);
      (split; [exact Hshape|]).
    + intros _. split; [apply repeat_length | reflexivity].
    + discriminate.
  - injection Hrun as <- <- <-. apply (Same _ eq_refl).
Qed.

Lemma HardKey_Sign_credentials_witness :
  exists pTx',
    snd (key.HardKey_Sign fixture.cd0 fixture.hard1 fixture.tx0 2)
    = Some (pTx', None) /\
    length (Creds pTx') = 2%nat.
Proof.
  eexists. split; [vm_compute; reflexivity|].
  match goal with
  | |- length (Creds ?tx) = _ =>
      destruct (HardKey_Sign_credentials fixture.cd0 fixture.hard1
                  fixture.tx0 2
                  (fst (key.HardKey_Sign fixture.cd0 fixture.hard1
                          fixture.tx0 2)) tx None)
        as (_ & added & Hc & _ & _ & Hn)
  end.
  - vm_compute. reflexivity.
  - rewrite Hc. destruct (Hn eq_refl) as [Hl _].
    rewrite length_app, Hl. reflexivity.
Defined.

(** ** Fetching and decoding the UTXOs *)

Lemma parse_utxos_first_error (cd : Codec) (pre post : list (list byte))
  (ub : list byte) (e : error) :
  (forall x, List.In x pre -> exists u, Unmarshal_UTXO cd x = Ok u) ->
  Unmarshal_UTXO cd ub = Err e ->
  client.parse_utxos cd (pre ++ ub :: post)
  = Err (Errorf "failed to unmarshal utxo bytes" e).
Proof.
  intros Hpre Hub. induction pre as [|x pre IH]; simpl.
  - unfold client.ParseUTXO. rewrite Hub. reflexivity.
  - destruct (Hpre x (or_introl eq_refl)) as [u Hu].
    unfold client.ParseUTXO at 1. rewrite Hu. cbn [bind].
    rewrite IH; [reflexivity|].
    intros y Hy. apply Hpre. right. exact Hy.
Qed.

Lemma error_eqb_refl (x : error) : error_eqb x x = true.
Proof.
  induction x; simpl; try reflexivity.
  - apply Byte.byte_dec_lb. reflexivity.
  - apply Z.eqb_refl.
  - rewrite String.eqb_refl. exact IHx.
Qed.

Lemma errors_Is_wrapped (s : String.string) (e : error) :
  errors_Is (Errorf s e) e = true.
Proof.
  change (errors_Is (Errorf s e) e)
    with (error_eqb (Errorf s e) e || errors_Is e e).
  assert (R : errors_Is e e = true).
  { destruct e; simpl; rewrite ?error_eqb_refl, ?String.eqb_refl,
      ?Z.eqb_refl; try reflexivity.
    replace (Byte.eqb b b) with true
      by (symmetry; apply Byte.byte_dec_lb; reflexivity).
    reflexivity. }
  rewrite R. apply orb_true_r.
Qed.

(** X26.  For a key with an address, [stake] makes one call, the fetch of
    the UTXOs.  When the fetch fails, [stake] returns that very error;
    when a fetched UTXO cannot be decoded, it returns the error of the
    first one that cannot, under the annotation of [ParseUTXO], so that
    [errors.Is] still finds the error of the codec.  In both cases it
    returns no input, no output and no signer, and selects nothing. *)
Theorem stake_fetch_or_decode_error (pc : client.p) (cd : Codec) (k : Key)
  (fee : Z) (opts : list client.OpOption)
  (Haddr : Addresses k <> []) :
  (forall e,
     client.cli_GetAtomicUTXOs pc (P k) = Err e ->
     client.stake pc cd k fee opts
     = ([client.EvGetAtomicUTXOs], Some (client.stake_fail e [])))
  /\
  (forall pre ub post e,
     client.cli_GetAtomicUTXOs pc (P k) = Ok (pre ++ ub :: post) ->
     (forall x, List.In x pre -> exists u, Unmarshal_UTXO cd x = Ok u) ->
     Unmarshal_UTXO cd ub = Err e ->
     exists err,
       client.stake pc cd k fee opts
       = ([client.EvGetAtomicUTXOs], Some (client.stake_fail err [])) /\
       err = Errorf "failed to unmarshal utxo bytes" e /\
       errors_Is err e = true).
Proof.
  assert (Hrun : exists ret,
            client.stake pc cd k fee opts
            = ([client.EvGetAtomicUTXOs],
               match client.cli_GetAtomicUTXOs pc (P k) with
               | Err e => Some (client.stake_fail e [])
               | Ok ubs =>
                   match client.parse_utxos cd ubs with
                   | Err e => Some (client.stake_fail e [])
                   | Ok utxos => client.stake_utxos pc cd k fee ret utxos
                   end
               end)).
  { destruct (client.stake pc cd k fee opts) as [t o] eqn:E.
    destruct (stake_inv pc cd k fee opts t o E)
      as [(_ & _ & Hn) | (ret & -> & _ & _ & ->)].
    - unfold client.first_address in Hn.
      destruct (Addresses k); [contradiction | discriminate].
    - exists ret. reflexivity. }
  destruct Hrun as [ret Hrun]. split.
  - intros e He. rewrite Hrun, He. reflexivity.
  - intros pre ub post e Hf Hpre Hub.
    exists (Errorf "failed to unmarshal utxo bytes" e).
    rewrite Hrun, Hf, (parse_utxos_first_error cd pre post ub e Hpre Hub).
    split; [reflexivity|]. split; [reflexivity|].
    apply errors_Is_wrapped.
Qed.

Lemma stake_fetch_or_decode_error_witness :
  client.stake fixture.nodeB (fixture.codecOf []) fixture.keyB 100 []
  = ([client.EvGetAtomicUTXOs],
     Some (client.stake_fail
             (Errorf "failed to unmarshal utxo bytes" (ExternalError 2)) [])).
Proof.
  destruct (stake_fetch_or_decode_error fixture.nodeB (fixture.codecOf [])
              fixture.keyB 100 [] ltac:(discriminate)) as [_ H].
  destruct (H [] [x00] [] (ExternalError 2) eq_refl
              ltac:(intros x []) eq_refl) as (err & Hrun & -> & _).
  exact Hrun.
Defined.

(** X27.  The coupled sort needs a signer list as long as the inputs: when
    the first two inputs are out of order and the signer list has fewer
    than two entries, the swap of the inputs is followed by a swap of
    signers that do not exist, and the sort panics. *)
Theorem SortTransferableInputsWithSigners_short_signers
  (x y : TransferableInput) (rest : list TransferableInput)
  (signers : list (list ShortID))
  (Horder : key.input_Less y x = true)
  (Hshort : (length signers <= 1)%nat) :
  key.SortTransferableInputsWithSigners (x :: y :: rest) signers = None.
Proof.
  destruct (key.SortTransferableInputsWithSigners (x :: y :: rest) signers)
    as [[ins' signers']|] eqn:Hrun; [|reflexivity].
  exfalso.
  destruct (coupled_sort_inputs _ _ _ _ Hrun) as [_ Hsorted].
  assert (Hkeep : ins' = x :: y :: rest).
  { unfold key.SortTransferableInputsWithSigners in Hrun.
    destruct (sort.Sort key.innerInterface
                (key.mkInner (x :: y :: rest) signers)) as [d'|] eqn:Hs;
      [|discriminate].
    injection Hrun as <- <-.
    apply (Sort_invariant key.innerInterface
             (fun d => key.ins d = x :: y :: rest /\
                       (length (key.signers d) <= 1)%nat)) in Hs.
    - apply Hs.
    - intros d i j d1 [Hi Hl] Hsw. simpl in Hsw.
      unfold key.inner_Swap in Hsw.
      destruct (sort.swap_slice (key.ins d) i j) as [ins1|] eqn:E1;
        [|discriminate].
      destruct (sort.swap_slice (key.signers d) i j) as [sg1|] eqn:E2;
        [|discriminate].
      injection Hsw as <-. simpl.
      destruct (swap_slice_some _ _ _ _ E2) as [Hi2 Hj2].
      assert (i = 0%nat) by lia. assert (j = 0%nat) by lia. subst i j.
      rewrite (swap_slice_same _ _ _ E1), (swap_slice_same _ _ _ E2).
      auto.
    - simpl. auto. }
  subst ins'. inversion Hsorted as [|? ? _ Hall].
  inversion Hall as [|? ? Hxy _]. unfold source_le in Hxy. congruence.
Qed.

Lemma SortTransferableInputsWithSigners_short_signers_witness :
  key.SortTransferableInputsWithSigners
    [mkTransferableInput (mkUTXOID fixture.txB 0) fixture.djtxAsset
       (TransferInput 1 [0]);
     mkTransferableInput (mkUTXOID fixture.txA 0) fixture.djtxAsset
       (TransferInput 2 [0])]
    [[fixture.addr1]] = None.
Proof.
  apply SortTransferableInputsWithSigners_short_signers.
  - reflexivity.
  - simpl. lia.
Defined.
